(** * ultimate-mindmap: the node tree, its mutators, the outline parser and
      the layout/drag decisions of the renderer

    Shallow embedding of [src/core/parser.ts] (class [MarkdownParser]) and of
    the decision logic of [src/core/renderer.ts] (class [MindMapRenderer]).

    - A JavaScript string is a sequence of UTF-16 code units; a code unit is
      an [N].  Identifiers of nodes are only ever compared, they are kept as
      [string].
    - A [MindMapNode] owns its [children] array and nothing else refers to
      it, so a forest is a value of an inductive type.  A reference that the
      code obtains by a lookup ([findNodeById], [findNodeWithParent]) denotes
      the first match in depth-first order; mutating through the reference
      is modelled by rebuilding the forest at that position.
    - [generateId] reads the clock and a random source; the identifier it
      returns is an argument of the operations that call it. *)

From Stdlib Require Import List String Arith NArith ZArith QArith Qround Qabs Qpower.
From Stdlib Require Import Bool Btauto Lia Lqa Permutation Sorted.
From Stdlib Require PrimFloat FloatOps SpecFloat.
Import ListNotations.

Set Warnings "-register-all,-inexact-float".

Local Open Scope nat_scope.
Local Open Scope list_scope.

(** ** Data model ([src/types/index.ts]) *)

Definition text := list N.

(** The presentation fields ([titleHtml], [descriptionHtml], [color],
    [strokeWeight], [width], [source]) are never read or written by the
    operations below and are left out. *)
Inductive MindMapNode : Type := mkNode {
  id : string;
  title : text;
  description : option text;
  children : list MindMapNode;
  level : nat;
  collapsed : bool;
  parentId : option string
}.

Definition forest := list MindMapNode.

Definition setChildren (n : MindMapNode) (c : forest) : MindMapNode :=
  mkNode (id n) (title n) (description n) c (level n) (collapsed n) (parentId n).

Definition setLevel (n : MindMapNode) (l : nat) : MindMapNode :=
  mkNode (id n) (title n) (description n) (children n) l (collapsed n) (parentId n).

Definition setParentId (n : MindMapNode) (p : option string) : MindMapNode :=
  mkNode (id n) (title n) (description n) (children n) (level n) (collapsed n) p.

Definition setDescription (n : MindMapNode) (d : option text) : MindMapNode :=
  mkNode (id n) (title n) d (children n) (level n) (collapsed n) (parentId n).

(** Induction over a node that also gives the hypothesis for every child. *)
Section NodeInduction.
Variable P : MindMapNode -> Prop.
Hypothesis step : forall n, Forall P (children n) -> P n.

Fixpoint MindMapNode_forall_ind (n : MindMapNode) : P n :=
  step n
    ((fix all (l : forest) : Forall P l :=
        match l with
        | [] => Forall_nil P
        | c :: r => Forall_cons c (MindMapNode_forall_ind c) (all r)
        end) (children n)).

Lemma forest_forall_ind : forall l : forest, Forall P l.
Proof. induction l; constructor; auto using MindMapNode_forall_ind. Qed.
End NodeInduction.

(** Nodes of a forest in depth-first pre-order, the order of every search
    loop of the parser. *)
Fixpoint flattenNode (n : MindMapNode) : forest :=
  n :: flat_map flattenNode (children n).

Definition flatten (nodes : forest) : forest := flat_map flattenNode nodes.

Definition ids (nodes : forest) : list string := map id (flatten nodes).

(** ** Lookups

    Every search of the parser is a loop over one array that recurses into
    [node.children] before it moves to the next element.  The loop is
    written once per function, as a local [fix] over the array, and takes
    the recursive call on [node.children] as the argument [below]. *)

Section Lookups.
Variable tid : string.

(** [findNodeById(nodes, id)] *)
Definition findByIdIn (below : MindMapNode -> option MindMapNode) :=
  fix go (l : forest) : option MindMapNode :=
    match l with
    | [] => None
    | n :: rest =>
        if String.eqb (id n) tid then Some n
        else match below n with
             | Some found => Some found
             | None => go rest
             end
    end.

Fixpoint findByIdBelow (n : MindMapNode) : option MindMapNode :=
  findByIdIn findByIdBelow (children n).

(** [findNodeWithParent(nodes, id)]: the node and the array that holds it. *)
Definition findWithParentIn
    (below : MindMapNode -> option (MindMapNode * forest)) (arr : forest) :=
  fix go (l : forest) : option (MindMapNode * forest) :=
    match l with
    | [] => None
    | n :: rest =>
        if String.eqb (id n) tid then Some (n, arr)
        else match below n with
             | Some found => Some found
             | None => go rest
             end
    end.

Fixpoint findWithParentBelow (n : MindMapNode) : option (MindMapNode * forest) :=
  findWithParentIn findWithParentBelow (children n) (children n).

(** [findParentNode(nodes, childId)] *)
Definition findParentIn (below : MindMapNode -> option MindMapNode) :=
  fix go (l : forest) : option MindMapNode :=
    match l with
    | [] => None
    | n :: rest =>
        if existsb (fun c => String.eqb (id c) tid) (children n) then Some n
        else match below n with
             | Some found => Some found
             | None => go rest
             end
    end.

Fixpoint findParentBelow (n : MindMapNode) : option MindMapNode :=
  findParentIn findParentBelow (children n).

(** Position of the first match as the list of array indices leading to
    it.  The code has no such function: a path is what a reference to a
    node stands for in a forest without sharing. *)
Definition findPathIn (below : MindMapNode -> option (list nat)) :=
  fix go (l : forest) (i : nat) : option (list nat) :=
    match l with
    | [] => None
    | n :: rest =>
        if String.eqb (id n) tid then Some [i]
        else match below n with
             | Some p => Some (i :: p)
             | None => go rest (S i)
             end
    end.

Fixpoint findPathBelow (n : MindMapNode) : option (list nat) :=
  findPathIn findPathBelow (children n) 0.
End Lookups.

Definition findNodeById (nodes : forest) (tid : string) : option MindMapNode :=
  findByIdIn tid (findByIdBelow tid) nodes.

Definition findNodeWithParent (nodes : forest) (tid : string)
  : option (MindMapNode * forest) :=
  findWithParentIn tid (findWithParentBelow tid) nodes nodes.

Definition findParentNode (nodes : forest) (childId : string) : option MindMapNode :=
  findParentIn childId (findParentBelow childId) nodes.

Definition findPath (nodes : forest) (tid : string) : option (list nat) :=
  findPathIn tid (findPathBelow tid) nodes 0.

(** [getParentChain(nodes, nodeId)]: [chain.unshift(node)] puts the node in
    front of the chain collected so far. *)
Section ParentChain.
Variable targetId : string.

Definition findParentsIn
    (below : MindMapNode -> list MindMapNode -> list MindMapNode) :=
  fix go (l : forest) (chain : list MindMapNode) : list MindMapNode :=
    match l with
    | [] => chain
    | n :: rest =>
        if String.eqb (id n) targetId then chain
        else match findNodeById (children n) targetId with
             | Some _ => below n (n :: chain)
             | None => go rest chain
             end
    end.

Fixpoint findParentsBelow (n : MindMapNode) (chain : list MindMapNode)
  : list MindMapNode :=
  findParentsIn findParentsBelow (children n) chain.
End ParentChain.

Definition getParentChain (nodes : forest) (nodeId : string) : list MindMapNode :=
  findParentsIn nodeId (findParentsBelow nodeId) nodes [].

(** ** Mutators *)

(** [addSiblingNode(nodes, targetId, title)]; [newId] is what [generateId]
    returns.  The result is the created node (or [None] for [null]) and the
    forest after the call. *)
Section AddSibling.
Variables (targetId : string) (ttl : text) (newId : string).

Definition addSiblingIn
    (below : MindMapNode -> option (MindMapNode * MindMapNode))
    (parent : option string) :=
  fix go (l : forest) : option (MindMapNode * forest) :=
    match l with
    | [] => None
    | n :: rest =>
        if String.eqb (id n) targetId then
          let newNode := mkNode newId ttl (Some []) [] (level n) false parent in
          Some (newNode, n :: newNode :: rest)
        else match below n with
             | Some (created, n') => Some (created, n' :: rest)
             | None =>
                 match go rest with
                 | Some (created, rest') => Some (created, n :: rest')
                 | None => None
                 end
             end
    end.

Fixpoint addSiblingBelow (n : MindMapNode) : option (MindMapNode * MindMapNode) :=
  match addSiblingIn addSiblingBelow (Some (id n)) (children n) with
  | Some (created, c') => Some (created, setChildren n c')
  | None => None
  end.

End AddSibling.

Definition addSiblingNode (nodes : forest) (targetId : string) (ttl : text)
    (newId : string) : option MindMapNode * forest :=
  match addSiblingIn targetId ttl newId (addSiblingBelow targetId ttl newId) None nodes with
  | Some (created, nodes') => (Some created, nodes')
  | None => (None, nodes)
  end.

(** Mutation through a node reference returned by [findNodeById]: [f] is
    applied to the first match. *)
Section UpdNode.
Variables (tid : string) (f : MindMapNode -> MindMapNode).

Definition updNodeIn (below : MindMapNode -> option MindMapNode) :=
  fix go (l : forest) : option forest :=
    match l with
    | [] => None
    | n :: rest =>
        if String.eqb (id n) tid then Some (f n :: rest)
        else match below n with
             | Some n' => Some (n' :: rest)
             | None => option_map (cons n) (go rest)
             end
    end.

Fixpoint updNodeBelow (n : MindMapNode) : option MindMapNode :=
  option_map (setChildren n) (updNodeIn updNodeBelow (children n)).

Definition updNode (nodes : forest) : forest :=
  match updNodeIn updNodeBelow nodes with
  | Some nodes' => nodes'
  | None => nodes
  end.
End UpdNode.

(** Mutation through an array reference returned by [findNodeWithParent]:
    [f] is applied to the array that holds the first match. *)
Inductive scan : Type :=
| Direct
| Inner (l : forest)
| Missing.

Section UpdParent.
Variables (tid : string) (f : forest -> forest).

Definition scanParent (below : MindMapNode -> option MindMapNode) :=
  fix go (l : forest) : scan :=
    match l with
    | [] => Missing
    | n :: rest =>
        if String.eqb (id n) tid then Direct
        else match below n with
             | Some n' => Inner (n' :: rest)
             | None =>
                 match go rest with
                 | Direct => Direct
                 | Inner rest' => Inner (n :: rest')
                 | Missing => Missing
                 end
             end
    end.

Definition updParentArr (below : MindMapNode -> option MindMapNode)
    (arr : forest) : option forest :=
  match scanParent below arr with
  | Direct => Some (f arr)
  | Inner arr' => Some arr'
  | Missing => None
  end.

Fixpoint updParentBelow (n : MindMapNode) : option MindMapNode :=
  option_map (setChildren n) (updParentArr updParentBelow (children n)).

Definition updParent (nodes : forest) : forest :=
  match updParentArr updParentBelow nodes with
  | Some nodes' => nodes'
  | None => nodes
  end.
End UpdParent.

Definition push (x : MindMapNode) (n : MindMapNode) : MindMapNode :=
  setChildren n (children n ++ [x]).

(** [addChildNode(nodes, targetId, title)] *)
Definition addChildNode (nodes : forest) (targetId : string) (ttl : text)
    (newId : string) : option MindMapNode * forest :=
  match findNodeById nodes targetId with
  | None => (None, nodes)
  | Some target =>
      let newNode :=
        mkNode newId ttl (Some []) [] (level target + 1) false (Some (id target)) in
      (Some newNode, updNode targetId (push newNode) nodes)
  end.

(** [addRootNode(nodes, title)] *)
Definition addRootNode (nodes : forest) (ttl : text) (newId : string)
  : MindMapNode * forest :=
  let newNode := mkNode newId ttl (Some []) [] 1 false None in
  (newNode, nodes ++ [newNode]).

(** [deleteNode(nodes, nodeId)] *)
Section Delete.
Variable nodeId : string.

Definition deleteIn (below : MindMapNode -> option MindMapNode) :=
  fix go (l : forest) : option forest :=
    match l with
    | [] => None
    | n :: rest =>
        if String.eqb (id n) nodeId then Some rest
        else match below n with
             | Some n' => Some (n' :: rest)
             | None => option_map (cons n) (go rest)
             end
    end.

Fixpoint deleteBelow (n : MindMapNode) : option MindMapNode :=
  option_map (setChildren n) (deleteIn deleteBelow (children n)).

End Delete.

Definition deleteNode (nodes : forest) (nodeId : string) : bool * forest :=
  match deleteIn nodeId (deleteBelow nodeId) nodes with
  | Some nodes' => (true, nodes')
  | None => (false, nodes)
  end.

(** [updateNodeLevels(node, level)] *)
Fixpoint updateNodeLevels (n : MindMapNode) (lvl : nat) : MindMapNode :=
  mkNode (id n) (title n) (description n)
         (map (fun c => updateNodeLevels c (lvl + 1)) (children n))
         lvl (collapsed n) (parentId n).

(** [Array.prototype.findIndex] with the test [n.id === tid], and the two
    uses of [splice]. *)
Fixpoint findIndex (tid : string) (arr : forest) : option nat :=
  match arr with
  | [] => None
  | n :: rest =>
      if String.eqb (id n) tid then Some 0
      else option_map S (findIndex tid rest)
  end.

Definition removeAt (i : nat) (arr : forest) : forest :=
  firstn i arr ++ skipn (S i) arr.

Definition insertAt (i : nat) (x : MindMapNode) (arr : forest) : forest :=
  firstn i arr ++ x :: skipn i arr.

Fixpoint prefixb (p q : list nat) : bool :=
  match p, q with
  | [], _ => true
  | a :: p', b :: q' => Nat.eqb a b && prefixb p' q'
  | _ :: _, [] => false
  end.

(** The located target lies inside the subtree of the located source. *)
Definition insideSource (nodes : forest) (nodeId targetId : string) : bool :=
  match findPath nodes nodeId, findPath nodes targetId with
  | Some ps, Some pt => prefixb ps pt
  | _, _ => false
  end.

Inductive moveMode : Type := sibling | child.
Inductive movePosition : Type := before | after | append.

(** How a call of [moveNode] ends: it returns a boolean, or
    [updateNodeLevels] recurses without end and the engine raises
    [RangeError] (stack exhausted). *)
Inductive outcome : Type :=
| Returned (b : bool)
| StackOverflow.

Definition optEqb (a b : option string) : bool :=
  match a, b with
  | Some x, Some y => String.eqb x y
  | None, None => true
  | _, _ => false
  end.

(** [moveNode(nodes, nodeId, targetId, mode, position)].

    [source] and [target] are located before anything is changed.  After
    [source.parent.splice(sourceIndex, 1)] the source subtree is no longer
    part of the forest.  When the target was located inside that subtree,
    the insertion links [source.node] below itself: the forest keeps the
    state after the removal, and [updateNodeLevels(source.node, _)] does not
    return.  Otherwise the target is still the first match of [targetId] in
    the forest, and the source is inserted next to it or below it. *)
Definition moveNode (nodes : forest) (nodeId targetId : string)
    (mode : moveMode) (position : movePosition) : forest * outcome :=
  if String.eqb nodeId targetId then (nodes, Returned false)
  else
    match findNodeWithParent nodes nodeId, findNodeWithParent nodes targetId with
    | Some (sourceNode, sourceParent), Some (targetNode, targetParent) =>
        match findIndex nodeId sourceParent with
        | None => (nodes, Returned false)
        | Some sourceIndex =>
            let removed := updParent nodeId (removeAt sourceIndex) nodes in
            if insideSource nodes nodeId targetId then
              match mode with
              | child => (removed, StackOverflow)
              | sibling =>
                  match findIndex targetId targetParent with
                  | None => (removed, Returned false)
                  | Some _ =>
                      let targetParentNode := findParentNode removed targetId in
                      let newParentId := option_map id targetParentNode in
                      let newLevel :=
                        match targetParentNode with
                        | Some p => level p + 1
                        | None => 1
                        end in
                      if negb (optEqb (parentId sourceNode) newParentId)
                         || negb (Nat.eqb (level sourceNode) newLevel)
                      then (removed, StackOverflow)
                      else (removed, Returned true)
                  end
              end
            else
              match mode with
              | child =>
                  let moved :=
                    updateNodeLevels (setParentId sourceNode (Some (id targetNode)))
                                     (level targetNode + 1) in
                  (updNode targetId (push moved) removed, Returned true)
              | sibling =>
                  match findNodeWithParent removed targetId with
                  | None => (removed, Returned false)
                  | Some (_, targetParentNow) =>
                      match findIndex targetId targetParentNow with
                      | None => (removed, Returned false)
                      | Some targetIndex =>
                          let insertIndex :=
                            match position with
                            | after => targetIndex + 1
                            | _ => targetIndex
                            end in
                          let placed x := updParent targetId (insertAt insertIndex x) removed in
                          let targetParentNode := findParentNode (placed sourceNode) targetId in
                          let newParentId := option_map id targetParentNode in
                          let newLevel :=
                            match targetParentNode with
                            | Some p => level p + 1
                            | None => 1
                            end in
                          if negb (optEqb (parentId sourceNode) newParentId)
                             || negb (Nat.eqb (level sourceNode) newLevel)
                          then
                            (placed (updateNodeLevels (setParentId sourceNode newParentId) newLevel),
                             Returned true)
                          else (placed sourceNode, Returned true)
                      end
                  end
              end
        end
    | _, _ => (nodes, Returned false)
    end.

(** ** The invariants of the data model

    [levelsOk]: a root has level 1, a child the level of its parent plus one.
    [parentsOk]: a root has no [parentId], a child carries the identifier of
    the node whose [children] holds it.  [uniqueIds]: no identifier occurs
    twice.  [acyclic]: no node occurs, by identifier, among its own
    descendants. *)

Fixpoint levelsFrom (lvl : nat) (n : MindMapNode) : bool :=
  Nat.eqb (level n) lvl && forallb (levelsFrom (lvl + 1)) (children n).

Fixpoint parentsFrom (pid : option string) (n : MindMapNode) : bool :=
  optEqb (parentId n) pid && forallb (parentsFrom (Some (id n))) (children n).

Definition levelsOk (nodes : forest) : bool := forallb (levelsFrom 1) nodes.
Definition parentsOk (nodes : forest) : bool := forallb (parentsFrom None) nodes.
Definition uniqueIds (nodes : forest) : Prop := NoDup (ids nodes).
Definition acyclic (nodes : forest) : Prop :=
  forall n, In n (flatten nodes) -> ~ In (id n) (ids (children n)).

Record valid (nodes : forest) : Prop := mkValid {
  valid_levels : levelsOk nodes = true;
  valid_parents : parentsOk nodes = true;
  valid_unique : uniqueIds nodes;
  valid_acyclic : acyclic nodes
}.


(** Executable forms of [uniqueIds] and [valid]. *)
Fixpoint distinct (l : list string) : bool :=
  match l with
  | [] => true
  | x :: rest => negb (existsb (String.eqb x) rest) && distinct rest
  end.


(** ** [moveNode] on a store of objects

    The forest model above has no place for an array that holds one of its
    own ancestors.  [moveNode] can build one, so it is transcribed here a
    second time over a heap: an object is a cell, a reference is the index
    of the cell, and an array is named by the object that owns it.  Every
    recursive function takes fuel; [None] means that the fuel ran out. *)

Module Store.

Record object : Type := mkObject {
  o_id : string;
  o_title : text;
  o_level : nat;
  o_parentId : option string;
  o_children : list nat
}.

Inductive array : Type :=
| Roots
| ChildrenOf (r : nat).

Record store : Type := mkStore {
  cells : list object;
  roots : list nat
}.

Definition elements (s : store) (a : array) : list nat :=
  match a with
  | Roots => roots s
  | ChildrenOf r =>
      match nth_error (cells s) r with
      | Some o => o_children o
      | None => []
      end
  end.

Fixpoint setCell (l : list object) (r : nat) (o : object) : list object :=
  match l, r with
  | [], _ => []
  | _ :: rest, 0 => o :: rest
  | x :: rest, S r' => x :: setCell rest r' o
  end.

Definition update (s : store) (r : nat) (f : object -> object) : store :=
  match nth_error (cells s) r with
  | Some o => mkStore (setCell (cells s) r (f o)) (roots s)
  | None => s
  end.

Definition setElements (s : store) (a : array) (l : list nat) : store :=
  match a with
  | Roots => mkStore (cells s) l
  | ChildrenOf r =>
      update s r (fun o => mkObject (o_id o) (o_title o) (o_level o) (o_parentId o) l)
  end.

Definition idOf (s : store) (r : nat) : option string :=
  option_map o_id (nth_error (cells s) r).

Definition hasId (s : store) (tid : string) (r : nat) : bool :=
  match idOf s r with
  | Some i => String.eqb i tid
  | None => false
  end.

(** [findNodeWithParent(nodes, id)] *)
Fixpoint findNodeWithParent (fuel : nat) (s : store) (a : array) (tid : string)
  : option (option (nat * array)) :=
  match fuel with
  | 0 => None
  | S fuel' =>
      (fix loop (l : list nat) : option (option (nat * array)) :=
         match l with
         | [] => Some None
         | r :: rest =>
             if hasId s tid r then Some (Some (r, a))
             else match findNodeWithParent fuel' s (ChildrenOf r) tid with
                  | None => None
                  | Some (Some found) => Some (Some found)
                  | Some None => loop rest
                  end
         end) (elements s a)
  end.

(** [findParentNode(nodes, childId)] *)
Fixpoint findParentNode (fuel : nat) (s : store) (a : array) (childId : string)
  : option (option nat) :=
  match fuel with
  | 0 => None
  | S fuel' =>
      (fix loop (l : list nat) : option (option nat) :=
         match l with
         | [] => Some None
         | r :: rest =>
             if existsb (hasId s childId) (elements s (ChildrenOf r)) then Some (Some r)
             else match findParentNode fuel' s (ChildrenOf r) childId with
                  | None => None
                  | Some (Some found) => Some (Some found)
                  | Some None => loop rest
                  end
         end) (elements s a)
  end.

(** [updateNodeLevels(node, level)] *)
Fixpoint updateNodeLevels (fuel : nat) (s : store) (r : nat) (lvl : nat)
  : option store :=
  match fuel with
  | 0 => None
  | S fuel' =>
      let s1 :=
        update s r (fun o => mkObject (o_id o) (o_title o) lvl (o_parentId o) (o_children o)) in
      (fix each (l : list nat) (st : store) : option store :=
         match l with
         | [] => Some st
         | c :: rest =>
             match updateNodeLevels fuel' st c (lvl + 1) with
             | None => None
             | Some st' => each rest st'
             end
         end) (elements s1 (ChildrenOf r)) s1
  end.

Fixpoint findIndex (s : store) (tid : string) (l : list nat) : option nat :=
  match l with
  | [] => None
  | r :: rest =>
      if hasId s tid r then Some 0 else option_map S (findIndex s tid rest)
  end.

Definition setParent (s : store) (r : nat) (p : option string) : store :=
  update s r (fun o => mkObject (o_id o) (o_title o) (o_level o) p (o_children o)).

Definition levelOf (s : store) (r : nat) : nat :=
  match nth_error (cells s) r with
  | Some o => o_level o
  | None => 0
  end.

Definition parentOf (s : store) (r : nat) : option string :=
  match nth_error (cells s) r with
  | Some o => o_parentId o
  | None => None
  end.

(** [moveNode(nodes, nodeId, targetId, mode, position)], statement by
    statement.  The result is the store after the call and the returned
    boolean. *)
Definition moveNode (fuel : nat) (s : store) (nodeId targetId : string)
    (mode : moveMode) (position : movePosition) : option (store * bool) :=
  if String.eqb nodeId targetId then Some (s, false)
  else
    match findNodeWithParent fuel s Roots nodeId,
          findNodeWithParent fuel s Roots targetId with
    | None, _ | _, None => None
    | Some None, _ | _, Some None => Some (s, false)
    | Some (Some (sourceNode, sourceParent)), Some (Some (targetNode, targetParent)) =>
        match findIndex s nodeId (elements s sourceParent) with
        | None => Some (s, false)
        | Some sourceIndex =>
            let s1 :=
              setElements s sourceParent
                (firstn sourceIndex (elements s sourceParent)
                 ++ skipn (S sourceIndex) (elements s sourceParent)) in
            match mode with
            | child =>
                let s2 :=
                  setElements s1 (ChildrenOf targetNode)
                    (elements s1 (ChildrenOf targetNode) ++ [sourceNode]) in
                let s3 := setParent s2 sourceNode (idOf s2 targetNode) in
                match updateNodeLevels fuel s3 sourceNode (levelOf s3 targetNode + 1) with
                | None => None
                | Some s4 => Some (s4, true)
                end
            | sibling =>
                match findIndex s1 targetId (elements s1 targetParent) with
                | None => Some (s1, false)
                | Some targetIndex =>
                    let insertIndex :=
                      match position with
                      | after => targetIndex + 1
                      | _ => targetIndex
                      end in
                    let s2 :=
                      setElements s1 targetParent
                        (firstn insertIndex (elements s1 targetParent)
                         ++ sourceNode :: skipn insertIndex (elements s1 targetParent)) in
                    match findParentNode fuel s2 Roots targetId with
                    | None => None
                    | Some targetParentNode =>
                        let newParentId :=
                          match targetParentNode with
                          | Some p => idOf s2 p
                          | None => None
                          end in
                        let newLevel :=
                          match targetParentNode with
                          | Some p => levelOf s2 p + 1
                          | None => 1
                          end in
                        if negb (optEqb (parentOf s2 sourceNode) newParentId)
                           || negb (Nat.eqb (levelOf s2 sourceNode) newLevel)
                        then
                          match updateNodeLevels fuel
                                  (setParent s2 sourceNode newParentId) sourceNode newLevel with
                          | None => None
                          | Some s3 => Some (s3, true)
                          end
                        else Some (s2, true)
                    end
                end
            end
        end
    end.

(** The forest that a store holds below an array, when that part of the
    store is a tree no deeper than the fuel. *)
Fixpoint reify (fuel : nat) (s : store) (a : array) : option forest :=
  match fuel with
  | 0 => None
  | S fuel' =>
      (fix each (l : list nat) : option forest :=
         match l with
         | [] => Some []
         | r :: rest =>
             match nth_error (cells s) r, reify fuel' s (ChildrenOf r), each rest with
             | Some o, Some kids, Some others =>
                 Some (mkNode (o_id o) (o_title o) None kids (o_level o) false (o_parentId o)
                       :: others)
             | _, _, _ => None
             end
         end) (elements s a)
  end.

End Store.

(** ** Outline text ([parse], [serialize])

    Strings are lists of UTF-16 code units.  [isWhiteSpace] is the class
    [\s] of a regular expression, which is also what [trim] removes
    (WhiteSpace and LineTerminator of ECMAScript); [isDot] is what [.]
    matches without the [s] flag. *)

Local Open Scope N_scope.

Definition hash : N := 35.
Definition space : N := 32.
Definition newline : N := 10.

Definition isLineTerminator (c : N) : bool :=
  (c =? 10) || (c =? 13) || (c =? 8232) || (c =? 8233).

Definition isWhiteSpace (c : N) : bool :=
  (c =? 9) || (c =? 11) || (c =? 12) || (c =? 32) || (c =? 160)
  || (c =? 5760) || ((8192 <=? c) && (c <=? 8202))
  || (c =? 8239) || (c =? 8287) || (c =? 12288) || (c =? 65279)
  || isLineTerminator c.

Definition isDot (c : N) : bool := negb (isLineTerminator c).

Definition isHash (c : N) : bool := c =? hash.

Local Close Scope N_scope.

(** [s.split('\n')] *)
Fixpoint splitLines (s : text) : list text :=
  match s with
  | [] => [[]]
  | c :: rest =>
      if N.eqb c newline then [] :: splitLines rest
      else match splitLines rest with
           | l :: ls => (c :: l) :: ls
           | [] => [[c]]
           end
  end.

(** [lines.join(sep)] *)
Fixpoint join (sep : text) (ls : list text) : text :=
  match ls with
  | [] => []
  | [l] => l
  | l :: rest => l ++ sep ++ join sep rest
  end.

(** [s.trim()] *)
Fixpoint trimStart (s : text) : text :=
  match s with
  | [] => []
  | c :: rest => if isWhiteSpace c then trimStart rest else s
  end.

Definition trimEnd (s : text) : text := rev (trimStart (rev s)).

Definition trim (s : text) : text := trimEnd (trimStart s).

(** The longest prefix of characters in a class, and the rest. *)
Fixpoint span (p : N -> bool) (s : text) : text * text :=
  match s with
  | [] => ([], [])
  | c :: rest =>
      if p c then let (a, b) := span p rest in (c :: a, b) else ([], s)
  end.

(** [line.match(/^(#{1,6})\s+(.+)$/)]: the two groups, when the line
    matches.  The markers are all the leading [#]; there must be one to six
    of them, since the next character has to be white space.  [\s+] takes
    the whole run of white space that follows, and [(.+)] the rest of the
    line, which must be free of line terminators.  When nothing follows the
    white space, [\s+] gives its last character back to [(.+)]. *)
Definition headingMatch (line : text) : option (text * text) :=
  let (hashes, rest) := span isHash line in
  if Nat.leb 1 (List.length hashes) && Nat.leb (List.length hashes) 6 then
    let (ws, body) := span isWhiteSpace rest in
    match body with
    | _ :: _ =>
        match ws with
        | [] => None
        | _ :: _ => if forallb isDot body then Some (hashes, body) else None
        end
    | [] =>
        match rev ws with
        | c :: _ :: _ => if isDot c then Some (hashes, [c]) else None
        | _ => None
        end
    end
  else None.

(** The last element of an array and what stands before it. *)
Definition splitLast (l : forest) : option (forest * MindMapNode) :=
  match rev l with
  | [] => None
  | x :: front => Some (rev front, x)
  end.

(** A node that [parse] holds a reference to ([currentNode], the [node] of
    a stack entry) is the last node at some depth of the forest built so
    far: nodes are only ever added behind it.  [onSpine d f] applies [f] to
    the last node at depth [d], depth [0] being the last root. *)
Fixpoint onSpine (d : nat) (f : MindMapNode -> MindMapNode) (nodes : forest) : forest :=
  match splitLast nodes with
  | None => nodes
  | Some (front, x) =>
      match d with
      | 0 => front ++ [f x]
      | S d' => front ++ [setChildren x (onSpine d' f (children x))]
      end
  end.

(** The state of the loop of [parse].  [nodeStack] holds the [level] of
    every entry, top first; the [node] of the entry at height [h] above the
    bottom is the last node at depth [h].  [currentNode] is the depth of the
    current node.  [generated] counts the calls of [generateId]. *)
Record parserState : Type := mkParser {
  nodes : forest;
  nodeStack : list nat;
  currentNode : option nat;
  descriptionLines : list text;
  generated : nat
}.

Definition saveDescription (st : parserState) : parserState :=
  match currentNode st, descriptionLines st with
  | Some d, _ :: _ =>
      mkParser
        (onSpine d
           (fun n => setDescription n (Some (trim (join [newline] (descriptionLines st)))))
           (nodes st))
        (nodeStack st) (currentNode st) [] (generated st)
  | _, _ => st
  end.

(** [while (stack.length > 0 && top.level >= level) stack.pop()] *)
Fixpoint popWhile (lvl : nat) (stack : list nat) : list nat :=
  match stack with
  | [] => []
  | top :: rest => if Nat.leb lvl top then popWhile lvl rest else stack
  end.

Section Parse.
Variable generateId : nat -> string.

Definition parseLine (st : parserState) (line : text) : parserState :=
  match headingMatch line with
  | Some (hashes, rawTitle) =>
      let st1 := saveDescription st in
      let lvl := List.length hashes in
      let node := mkNode (generateId (generated st1)) (trim rawTitle) None [] lvl false None in
      let stack := popWhile lvl (nodeStack st1) in
      let nodes' :=
        match stack with
        | [] => nodes st1 ++ [node]
        | _ :: below =>
            onSpine (List.length below)
              (fun parent => push (setParentId node (Some (id parent))) parent)
              (nodes st1)
        end in
      mkParser nodes' (lvl :: stack) (Some (List.length stack))
               (descriptionLines st1) (S (generated st1))
  | None =>
      match currentNode st, trim line with
      | Some _, _ :: _ =>
          mkParser (nodes st) (nodeStack st) (currentNode st)
                   (descriptionLines st ++ [line]) (generated st)
      | _, _ => st
      end
  end.

Definition parse (markdown : text) : forest :=
  nodes (saveDescription
           (fold_left parseLine (splitLines markdown) (mkParser [] [] None [] 0))).
End Parse.

(** [serialize(nodes)]: the lines pushed for one node and its subtree. *)
Fixpoint serializeNode (n : MindMapNode) : list text :=
  (repeat hash (level n) ++ space :: title n)
  :: match description n with
     | Some (c :: d) => [[]; c :: d]
     | _ => []
     end
  ++ [[]]
  ++ flat_map serializeNode (children n).

Definition serialize (nodes : forest) : text :=
  trim (join [newline] (flat_map serializeNode nodes)).

(** Code units of a text written in ASCII, for the examples. *)
Definition js (s : string) : text :=
  map (fun a => N.of_nat (Ascii.nat_of_ascii a)) (list_ascii_of_string s).

(** Levels grow from parent to child. *)
Fixpoint increasing (n : MindMapNode) : bool :=
  forallb (fun c => Nat.ltb (level n) (level c) && increasing c) (children n).

(** ** Documents in the form that [serialize] writes *)

(** A heading: the number of markers and the title. *)
Definition headingLine (h : nat * text) : text :=
  repeat hash (fst h) ++ space :: snd h.

(** A title as [serialize] can give it back: not empty, no white space at
    either end, no line terminator inside. *)
Definition canonicalTitle (t : text) : bool :=
  match t with
  | [] => false
  | c :: _ => negb (isWhiteSpace c)
  end
  && negb (isWhiteSpace (last t 0%N)) && forallb isDot t.

Definition canonicalHeading (h : nat * text) : bool :=
  Nat.leb 1 (fst h) && Nat.leb (fst h) 6 && canonicalTitle (snd h).

(** The lines with one empty line between every two of them. *)
Fixpoint blankSeparated (ls : list text) : list text :=
  match ls with
  | [] => []
  | [l] => [l]
  | l :: rest => l :: [] :: blankSeparated rest
  end.

(** The document made of the given headings: one marker run, one space and
    the title per heading, and exactly one empty line between headings. *)
Definition document (hs : list (nat * text)) : text :=
  join [newline] (blankSeparated (map headingLine hs)).

(** A heading-only text, as C6 reads it: every line is a heading or holds
    white space only. *)
Definition headingOnly (markdown : text) : bool :=
  forallb
    (fun line =>
       match headingMatch line, trim line with
       | Some _, _ => true
       | None, [] => true
       | None, _ :: _ => false
       end)
    (splitLines markdown).

(** The headings of a text in the order of its lines: marker count and
    trimmed title. *)
Definition headingsOf (markdown : text) : list (nat * text) :=
  flat_map
    (fun line =>
       match headingMatch line with
       | Some (hashes, rawTitle) => [(List.length hashes, trim rawTitle)]
       | None => []
       end)
    (splitLines markdown).

(** Among the nodes [before] a position, the last one with a level below
    [lvl]. *)
Definition nearestShallower (before : list MindMapNode) (lvl : nat)
  : option MindMapNode :=
  find (fun m => Nat.ltb (level m) lvl) (rev before).

(** ** Numbers

    A JavaScript number is a binary64 value of IEEE 754: a finite value, one
    of the two infinities, or [NaN].  A finite value is kept as the rational
    it stands for; the two zeros are not told apart (no modelled function
    divides by a computed zero or looks at the sign of a zero).  An
    arithmetic operation on finite values is the exact operation on the
    rationals followed by rounding to the nearest binary64 value, ties to
    the even mantissa, with overflow to an infinity. *)

Local Open Scope Q_scope.

Inductive number : Type :=
| Finite (q : Q)
| PosInfinity
| NegInfinity
| NaN.

Definition pow2 (e : Z) : Q := 2 ^ e.

(** The exponent of a positive rational: [2 ^ ilog2 a <= a < 2 ^ (ilog2 a + 1)]. *)

Definition ilog2 (a : Q) : Z :=
  let e := (Z.log2 (Qnum a) - Z.log2 (Zpos (Qden a)))%Z in
  if Qle_bool (pow2 e) a then e else (e - 1)%Z.

(** The nearest integer, the even one of two that are equally near. *)
Definition roundHalfEven (s : Q) : Z :=
  let f := Qfloor s in
  match Qcompare (s - inject_Z f) (1 # 2) with
  | Lt => f
  | Gt => (f + 1)%Z
  | Eq => if Z.even f then f else (f + 1)%Z
  end.

(** The exponent of the last mantissa bit: 53 bits of precision, and
    [2 ^ -1074] as the least positive value. *)
Definition quantum (a : Q) : Z := Z.max (ilog2 a - 52) (-1074).

Definition nearestUp (a : Q) : Q :=
  inject_Z (roundHalfEven (a / pow2 (quantum a))) * pow2 (quantum a).

(** The nearest value with that precision, for any exponent. *)
Definition nearest (q : Q) : Q :=
  match Qnum q with
  | Z0 => 0
  | Zpos _ => nearestUp q
  | Zneg _ => - nearestUp (- q)
  end.

(** Rounding to binary64: values from [2 ^ 1024] on are infinite. *)
Definition fl (q : Q) : number :=
  let r := nearest q in
  if Qle_bool (pow2 1024) r then PosInfinity
  else if Qle_bool r (- pow2 1024) then NegInfinity
  else Finite (Qred r).

(** The value of a decimal literal. *)
Definition double (q : Q) : number := fl q.

Definition Qltb (a b : Q) : bool := negb (Qle_bool b a).

(** [a < b] *)
Definition flt (a b : number) : bool :=
  match a, b with
  | NaN, _ | _, NaN => false
  | Finite x, Finite y => Qltb x y
  | NegInfinity, NegInfinity => false
  | NegInfinity, _ => true
  | _, NegInfinity => false
  | PosInfinity, _ => false
  | _, PosInfinity => true
  end.

(** [-a] *)
Definition fneg (a : number) : number :=
  match a with
  | Finite x => Finite (- x)
  | PosInfinity => NegInfinity
  | NegInfinity => PosInfinity
  | NaN => NaN
  end.

(** [a + b] *)
Definition fadd (a b : number) : number :=
  match a, b with
  | NaN, _ | _, NaN => NaN
  | Finite x, Finite y => fl (x + y)
  | PosInfinity, NegInfinity | NegInfinity, PosInfinity => NaN
  | PosInfinity, _ | _, PosInfinity => PosInfinity
  | NegInfinity, _ | _, NegInfinity => NegInfinity
  end.

(** [a - b] *)
Definition fsub (a b : number) : number := fadd a (fneg b).

(** The sign of a number and of a product or quotient with an infinity. *)
Definition signOf (a : number) : comparison :=
  match a with
  | Finite x => Qcompare x 0
  | PosInfinity => Gt
  | NegInfinity => Lt
  | NaN => Eq
  end.

Definition signed (s1 s2 : comparison) : number :=
  match s1, s2 with
  | Eq, _ | _, Eq => NaN
  | Gt, Gt | Lt, Lt => PosInfinity
  | _, _ => NegInfinity
  end.

(** [a * b] *)
Definition fmul (a b : number) : number :=
  match a, b with
  | NaN, _ | _, NaN => NaN
  | Finite x, Finite y => fl (x * y)
  | _, _ => signed (signOf a) (signOf b)
  end.

(** [a / b] *)
Definition fdiv (a b : number) : number :=
  match a, b with
  | NaN, _ | _, NaN => NaN
  | Finite x, Finite y =>
      if Qeq_bool y 0 then signed (Qcompare x 0) Gt else fl (x / y)
  | Finite _, _ => Finite 0
  | _, Finite y => signed (signOf a) (if Qeq_bool y 0 then Gt else Qcompare y 0)
  | _, _ => NaN
  end.

(** [Math.abs(a)] *)
Definition mathAbs (a : number) : number :=
  match a with
  | Finite x => Finite (Qabs x)
  | NaN => NaN
  | _ => PosInfinity
  end.

(** [Math.round(a)]: the nearest integer, the greater one of two that are
    equally near. *)
Definition mathRound (a : number) : number :=
  match a with
  | Finite x => fl (inject_Z (Qfloor (x + (1 # 2))))
  | _ => a
  end.

(** [Math.min(a, b)] and [Math.max(a, b)] *)
Definition mathMin (a b : number) : number :=
  match a, b with
  | NaN, _ | _, NaN => NaN
  | _, _ => if flt b a then b else a
  end.

Definition mathMax (a b : number) : number :=
  match a, b with
  | NaN, _ | _, NaN => NaN
  | _, _ => if flt a b then b else a
  end.

(** A number used as a condition. *)
Definition toBoolean (a : number) : bool :=
  match a with
  | Finite x => negb (Qeq_bool x 0)
  | NaN => false
  | _ => true
  end.

(** [isFinite(a)] *)
Definition isFinite (a : number) : bool :=
  match a with
  | Finite _ => true
  | _ => false
  end.

(** [array.sort(comparefn)]: the elements in ascending order of
    [comparefn], elements that compare as equal (a result of [0] or [NaN])
    in their original order.  Where [comparefn] is no consistent order (for
    [a - b] that takes a [NaN] among the elements) the language leaves the
    order to the implementation; what is proved about a sorted list below
    is about lists without [NaN], whose ascending arrangement is unique. *)
Section Sort.
Context {A : Type}.
Variable comparefn : A -> A -> number.

Fixpoint insertSorted (x : A) (l : list A) : list A :=
  match l with
  | [] => [x]
  | y :: rest =>
      if flt (Finite 0) (comparefn x y) then y :: insertSorted x rest else x :: l
  end.

Definition sortWith (l : list A) : list A := fold_right insertSorted [] l.
End Sort.

(** ** The numbers of the machine

    The arithmetic above is compared with the binary64 arithmetic of the
    processor, on the primitive floating-point numbers.  [ofFloat] reads a
    primitive number as a [number]. *)
Definition ofFloat (f : PrimFloat.float) : number :=
  match FloatOps.Prim2SF f with
  | SpecFloat.S754_zero _ => Finite 0
  | SpecFloat.S754_infinity false => PosInfinity
  | SpecFloat.S754_infinity true => NegInfinity
  | SpecFloat.S754_nan => NaN
  | SpecFloat.S754_finite s m e =>
      Finite (Qred ((if s then - inject_Z (Zpos m) else inject_Z (Zpos m)) * pow2 e))
  end.

Definition sameNumber (a b : number) : bool :=
  match a, b with
  | Finite x, Finite y => Qeq_bool x y
  | PosInfinity, PosInfinity | NegInfinity, NegInfinity | NaN, NaN => true
  | _, _ => false
  end.

Section Machine.
Import PrimFloat.
Local Open Scope float_scope.

(** Whether the five operations agree on a pair of primitive numbers. *)
Definition agreeOn (a b : float) : bool :=
  sameNumber (ofFloat (a + b)) (fadd (ofFloat a) (ofFloat b))
  && sameNumber (ofFloat (a - b)) (fsub (ofFloat a) (ofFloat b))
  && sameNumber (ofFloat (a * b)) (fmul (ofFloat a) (ofFloat b))
  && sameNumber (ofFloat (a / b)) (fdiv (ofFloat a) (ofFloat b))
  && Bool.eqb (a <? b) (flt (ofFloat a) (ofFloat b))
  && sameNumber (ofFloat (abs a)) (mathAbs (ofFloat a)).

(** Pixel values, the literals of the renderer, values next to a tie, the
    least and the greatest finite number, the infinities and [NaN]. *)
Definition machineSamples : list float :=
  [0; 1; -3; 0.1; 0.75; 32; 41.6; 100.2; -131.4; 195.6; 129.8; 10.4;
   1.3333333333333333; 2.3333333333333335; 0.49999999999999994;
   9007199254740993; 5e-324; 1.7976931348623157e308; infinity; neg_infinity; nan].

(** The decimal literals are read as the nearest binary64 value. *)
Definition literalsAgree : bool :=
  sameNumber (ofFloat 0.1) (double 0.1)
  && sameNumber (ofFloat 41.6) (double 41.6)
  && sameNumber (ofFloat 100.2) (double 100.2)
  && sameNumber (ofFloat 131.4) (double 131.4)
  && sameNumber (ofFloat 1e-7) (double 1e-7)
  && sameNumber (ofFloat 5e-324) (double 5e-324)
  && sameNumber (ofFloat 1.7976931348623157e308) (double 1.7976931348623157e308)
  && sameNumber (ofFloat 1e308) (double 1e308)
  && sameNumber (ofFloat infinity) (double 1e309).
End Machine.

Local Close Scope Q_scope.

(** ** Decisions of the renderer ([MindMapRenderer])

    Pixel coordinates are JavaScript numbers.  What the DOM reports (the
    element under the pointer, bounding rectangles, whether a layout pass
    changed anything) is an argument. *)

(** [DOMRect(x, y, width, height)] *)
Record DOMRect : Type := mkRect {
  rectLeft : number;
  rectTop : number;
  rectWidth : number;
  rectHeight : number
}.

(** [rect.bottom]: the greater one of [y] and [y + height]. *)
Definition rectBottom (r : DOMRect) : number :=
  mathMax (rectTop r) (fadd (rectTop r) (rectHeight r)).

(** [isDescendant(ancestorId, possibleDescendantId)]; the renderer has its
    own copy of [findNodeById], the same as the one of the parser. *)
Definition isDescendant (nodes : forest) (ancestorId possibleDescendantId : string)
  : bool :=
  match findNodeById nodes ancestorId with
  | None => false
  | Some ancestor =>
      match findNodeById (children ancestor) possibleDescendantId with
      | Some _ => true
      | None => false
      end
  end.

Inductive dropMode : Type :=
| siblingBefore
| siblingAfter
| asChild.

Record dropIntent : Type := mkIntent {
  intentMode : dropMode;
  intentTargetId : string;
  intentRect : DOMRect
}.

(** [computeActiveDropIntent(clientX, clientY, draggingNodeId, wrapper)].
    [under] is what [document.elementFromPoint] leads to: [None] when the
    pointer is over no card, else the [data-node-id] attribute of the
    wrapper and the bounding rectangle of the card. *)
Definition computeActiveDropIntent (nodes : forest) (clientY : number)
    (draggingNodeId : string) (under : option (option string * DOMRect))
  : option dropIntent :=
  match under with
  | None => None
  | Some (None, _) => None
  | Some (Some targetId, rect) =>
      if String.eqb targetId EmptyString
         || String.eqb targetId draggingNodeId
         || isDescendant nodes draggingNodeId targetId
      then None
      else
        let y := fsub clientY (rectTop rect) in
        let zoneTop := fmul (rectHeight rect) (double 0.25) in
        let zoneBottom := fmul (rectHeight rect) (double 0.75) in
        if flt y zoneTop then
          let gap := double 12 in
          let placeholderTop := fsub (fsub (rectTop rect) (rectHeight rect)) gap in
          Some (mkIntent siblingBefore targetId
                  (mkRect (rectLeft rect) placeholderTop (rectWidth rect) (rectHeight rect)))
        else if flt zoneBottom y then
          let gap := double 12 in
          let placeholderTop := fadd (rectBottom rect) gap in
          Some (mkIntent siblingAfter targetId
                  (mkRect (rectLeft rect) placeholderTop (rectWidth rect) (rectHeight rect)))
        else
          let childLeft := fadd (fadd (rectLeft rect) (rectWidth rect)) (double 24) in
          Some (mkIntent asChild targetId
                  (mkRect childLeft (rectTop rect) (rectWidth rect) (rectHeight rect)))
  end.

(** [Math.round(v * dpr) / dpr] *)
Definition snap (dpr v : number) : number := fdiv (mathRound (fmul v dpr)) dpr.

(** [centers.sort((a, b) => a - b)] *)
Definition sortNumbers (l : list number) : list number :=
  sortWith (fun a b => fsub a b) l.

(** The value [mid] that [validateSymmetry] computes from the sorted
    centers. *)
Definition median (centers : list number) : number :=
  if Nat.eqb (Nat.modulo (List.length centers) 2) 1 then
    nth ((List.length centers - 1) / 2) centers NaN
  else
    fdiv (fadd (nth (List.length centers / 2 - 1) centers NaN)
               (nth (List.length centers / 2) centers NaN))
         (double 2).

(** What [validateSymmetry] finds for one [.mindmap-node-wrapper]: the
    rectangle of its own card and, when it has a children container, for
    every child wrapper the rectangle of the first card inside it (or
    [None] when there is no card). *)
Record wrapperBoxes : Type := mkBoxes {
  ownCard : option DOMRect;
  childCards : option (list (option DOMRect))
}.

(** [snap(rect.top + rect.height / 2)] *)
Definition centerY (dpr : number) (r : DOMRect) : number :=
  snap dpr (fadd (rectTop r) (fdiv (rectHeight r) (double 2))).

(** [.filter(Boolean)] *)
Fixpoint present (l : list (option DOMRect)) : list DOMRect :=
  match l with
  | [] => []
  | Some r :: rest => r :: present rest
  | None :: rest => present rest
  end.

Definition childCenters (dpr : number) (cards : list (option DOMRect)) : list number :=
  sortNumbers (map (centerY dpr) (present cards)).

(** What the callback of [wrappers.forEach] finds for one wrapper: whether
    it sets [needsFix]. *)
Definition offCenter (dpr : number) (w : wrapperBoxes) : bool :=
  match ownCard w, childCards w with
  | Some card, Some (c :: cs) =>
      let parentCenterY := centerY dpr card in
      match childCenters dpr (c :: cs) with
      | [] => false
      | centers => flt (double 1) (mathAbs (fsub (median centers) parentCenterY))
      end
  | _, _ => false
  end.

(** [validateSymmetry()]; [devicePixelRatio] is what the window reports. *)
Definition validateSymmetry (devicePixelRatio : number) (wrappers : list wrapperBoxes)
  : bool :=
  let dpr := if toBoolean devicePixelRatio then devicePixelRatio else double 1 in
  existsb (offCenter dpr) wrappers.

(** ** The frame callback of [scheduleConnectionsRender] *)

(** What one frame finds: whether a drag is active, what
    [normalizeAllLayouts()] returns and what [validateSymmetry()] returns. *)
Record frameFacts : Type := mkFacts {
  dragActive : bool;
  layoutChanged : bool;
  needsFix : bool
}.

(** The outcome of one callback: the new [normalizePasses], whether the
    callback asked for another frame, and whether it drew the connections. *)
Record frameResult : Type := mkFrame {
  normalizePasses : nat;
  scheduledAgain : bool;
  rendered : bool
}.

Definition onFrame (facts : frameFacts) (passes : nat) : frameResult :=
  if dragActive facts then mkFrame passes false true
  else
    let changed := layoutChanged facts || needsFix facts in
    if changed && Nat.ltb passes 3 then mkFrame (passes + 1) true false
    else mkFrame 0 false true.

(** The callbacks that follow one another because each asked for the next:
    [facts k] is what callback number [k] finds.  The result is the number
    of callbacks that ran and the final [normalizePasses]; [None] when the
    fuel is used up before a callback stops asking. *)
Fixpoint runFrames (fuel : nat) (facts : nat -> frameFacts) (k passes : nat)
  : option (nat * nat) :=
  match fuel with
  | 0 => None
  | S fuel' =>
      let r := onFrame (facts k) passes in
      if scheduledAgain r then
        match runFrames fuel' facts (S k) (normalizePasses r) with
        | Some (n, final) => Some (S n, final)
        | None => None
        end
      else Some (1, normalizePasses r)
  end.
(** ** The remaining operations of the parser *)

Local Open Scope nat_scope.

(** [countChildren(node)]: [count] starts at [node.children.length] and
    grows by the count of every child. *)
Fixpoint countChildren (n : MindMapNode) : nat :=
  fold_left (fun count child => count + countChildren child)
            (children n) (List.length (children n)).

Definition setCollapsed (n : MindMapNode) (c : bool) : MindMapNode :=
  mkNode (id n) (title n) (description n) (children n) (level n) c (parentId n).

(** [toggleCollapsed(nodes, nodeId)]: the returned boolean and the forest
    after the call. *)
Definition toggleCollapsed (nodes : forest) (nodeId : string) : bool * forest :=
  match findNodeById nodes nodeId with
  | None => (false, nodes)
  | Some _ => (true, updNode nodeId (fun n => setCollapsed n (negb (collapsed n))) nodes)
  end.

(** A [Partial<MindMapNode>]: for every field of the model, the value to
    write when the key is present.  A present [description] or [parentId]
    may hold [undefined] or [null].  A [children] array is taken by value. *)
Record updates : Type := mkUpdates {
  newId : option string;
  newTitle : option text;
  newDescription : option (option text);
  newChildren : option forest;
  newLevel : option nat;
  newCollapsed : option bool;
  newParentId : option (option string)
}.

Definition orKeep {A : Type} (given : option A) (old : A) : A :=
  match given with
  | Some v => v
  | None => old
  end.

(** [Object.assign(node, updates)] *)
Definition assign (n : MindMapNode) (u : updates) : MindMapNode :=
  mkNode (orKeep (newId u) (id n)) (orKeep (newTitle u) (title n))
         (orKeep (newDescription u) (description n))
         (orKeep (newChildren u) (children n)) (orKeep (newLevel u) (level n))
         (orKeep (newCollapsed u) (collapsed n)) (orKeep (newParentId u) (parentId n)).

(** [updateNode(nodes, nodeId, updates)] *)
Definition updateNode (nodes : forest) (nodeId : string) (u : updates)
  : bool * forest :=
  match findNodeById nodes nodeId with
  | None => (false, nodes)
  | Some _ => (true, updNode nodeId (fun n => assign n u) nodes)
  end.

(** The updates that the application sends for an edited field
    ([{ [data.field]: data.value }] with the field [title] or
    [description]); the other updates it sends ([width], [color],
    [strokeWeight], the [...Html] copies) touch no field of the model. *)
Definition noUpdates : updates := mkUpdates None None None None None None None.

Definition editTitle (t : text) : updates :=
  mkUpdates None (Some t) None None None None None.

Definition editDescription (d : text) : updates :=
  mkUpdates None None (Some (Some d)) None None None None.

(** ** The application's handlers ([handleNodeAction] and what it calls) *)

(** A string, or [null], used as a condition. *)
Definition truthy (s : option string) : bool :=
  match s with
  | Some EmptyString | None => false
  | Some _ => true
  end.

(** The application's [addSiblingNode(nodeId)]: a sibling of the node, or a
    new root when the node is not found; then the parent of the created
    node, if it has one, is expanded.  [generateId] is called once, by the
    one of the two parser calls that creates the node. *)
Definition appAddSibling (nodes : forest) (nodeId : string) (newId : string)
  : MindMapNode * forest :=
  let (created, nodes1) :=
    match addSiblingNode nodes nodeId [] newId with
    | (Some newNode, nodes1) => (newNode, nodes1)
    | (None, nodes1) => addRootNode nodes1 [] newId
    end in
  (created,
   if truthy (parentId created) then
     match parentId created with
     | Some pid => updNode pid (fun p => setCollapsed p false) nodes1
     | None => nodes1
     end
   else nodes1).

(** The application's [addChildNode(nodeId)]: nothing happens when the node
    is not found; else the node gets the child and is expanded. *)
Definition appAddChild (nodes : forest) (nodeId : string) (newId : string)
  : option MindMapNode * forest :=
  match addChildNode nodes nodeId [] newId with
  | (None, nodes1) => (None, nodes1)
  | (Some newNode, nodes1) =>
      (Some newNode, updNode nodeId (fun p => setCollapsed p false) nodes1)
  end.

(** [setAllCollapsed(collapsed)]: [visit] writes the flag of every node that
    has children and goes on below it. *)
Fixpoint visitCollapsed (c : bool) (n : MindMapNode) : MindMapNode :=
  match children n with
  | [] => n
  | _ :: _ =>
      mkNode (id n) (title n) (description n)
             (map (visitCollapsed c) (children n)) (level n) c (parentId n)
  end.

Definition setAllCollapsed (c : bool) (nodes : forest) : forest :=
  map (visitCollapsed c) nodes.

(** What the renderer sends with [reorder] when a drag ends on an intent,
    and what [handleNodeAction] makes of it ([data.position ?? 'append']). *)
Definition reorderOf (m : dropMode) : moveMode * movePosition :=
  match m with
  | asChild => (child, append)
  | siblingBefore => (sibling, before)
  | siblingAfter => (sibling, after)
  end.

(** The pointer handlers that [attachPointerDragHandlers] puts on the card
    of [node], as far as they decide about a reorder.  The state is made of
    the renderer's fields [draggingNodeId], [dragStartX], [dragStartY],
    [dragActive] and, together, [dropMode] and [dropTargetId].  An event
    carries the pointer position and what [document.elementFromPoint]
    leads to there. *)
Record pointerEvent : Type := mkPointer {
  clientX : number;
  clientY : number;
  elementUnder : option (option string * DOMRect)
}.

Record dragState : Type := mkDrag {
  draggingNodeId : option string;
  dragStartX : number;
  dragStartY : number;
  dragIsActive : bool;
  dropIntended : option (dropMode * string)
}.

(** The fields as the constructor leaves them. *)
Definition noDrag : dragState := mkDrag None (double 0) (double 0) false None.

Section CardHandlers.
Variables (nodes : forest) (node : MindMapNode).

(** [pointerdown] outside the interactive parts of the card.  The drop
    target and mode are left as they are. *)
Definition onPointerDown (e : pointerEvent) (s : dragState) : dragState :=
  mkDrag (Some (id node)) (clientX e) (clientY e) false (dropIntended s).

(** [pointermove]: nothing happens unless this card is the one being
    dragged (and its identifier is not empty).  The drag becomes active
    once the pointer is more than 8 pixels (horizontal plus vertical) from
    where it went down; a root then pans the canvas; for another node the
    preview is cleared and the intent at the pointer, if any, is stored. *)
Definition onPointerMove (e : pointerEvent) (s : dragState) : dragState :=
  if negb (truthy (draggingNodeId s))
     || negb (optEqb (draggingNodeId s) (Some (id node))) then s
  else
    let dx := mathAbs (fsub (clientX e) (dragStartX s)) in
    let dy := mathAbs (fsub (clientY e) (dragStartY s)) in
    let active := dragIsActive s || flt (double 8) (fadd dx dy) in
    if active then
      match parentId node with
      | None =>
          mkDrag (draggingNodeId s) (dragStartX s) (dragStartY s) true (dropIntended s)
      | Some _ =>
          mkDrag (draggingNodeId s) (dragStartX s) (dragStartY s) true
                 match computeActiveDropIntent nodes (clientY e) (id node)
                                               (elementUnder e) with
                 | Some intent => Some (intentMode intent, intentTargetId intent)
                 | None => None
                 end
      end
    else s.

(** [pointerup] and [pointercancel]: the [reorder] action that is sent, if
    any ([dragActive && dropMode && dropTargetId]), and the state
    afterwards. *)
Definition endDrag (s : dragState) : dragState * option (dropMode * string) :=
  if optEqb (draggingNodeId s) (Some (id node)) then
    (mkDrag None (dragStartX s) (dragStartY s) false None,
     if dragIsActive s then
       match dropIntended s with
       | Some (mode, targetId) =>
           if String.eqb targetId EmptyString then None else Some (mode, targetId)
       | None => None
       end
     else None)
  else (s, None).

(** A press on the card in the state [s0], the moves that follow, and the
    release: the state afterwards and the [reorder] that was sent. *)
Definition dragGesture (s0 : dragState) (down : pointerEvent)
    (moves : list pointerEvent) : dragState * option (dropMode * string) :=
  endDrag (fold_left (fun s e => onPointerMove e s) moves (onPointerDown down s0)).

(** [handleNodeAction('reorder', nodeId, data)] for what a gesture sent. *)
Definition reorder (sent : dropMode * string) : forest * outcome :=
  moveNode nodes (id node) (snd sent)
           (fst (reorderOf (fst sent))) (snd (reorderOf (fst sent))).
End CardHandlers.

(** [updatePathHighlight()]: the identifiers handed to [highlightPath], a
    [Set] filled with the identifiers of the parent chain and then with the
    selected one; a [Set] keeps the first insertion of a value. *)
Fixpoint setOf (l : list string) : list string :=
  match l with
  | [] => []
  | x :: rest => x :: filter (fun y => negb (String.eqb x y)) (setOf rest)
  end.

Definition pathIds (nodes : forest) (selectedId : option string) : list string :=
  match selectedId with
  | None => []
  | Some EmptyString => []
  | Some sel => setOf (map id (getParentChain nodes sel) ++ [sel])
  end.
(** ** The sections of a text

    A heading line opens a section; the body of the section is made of the
    lines up to the next heading that are not blank.  The lines in front of
    the first heading belong to no section. *)

Record section : Type := mkSection {
  sectionLevel : nat;
  sectionTitle : text;
  sectionBody : list text
}.

(** [line.trim()] used as a condition. *)
Definition isBlank (line : text) : bool :=
  match trim line with
  | [] => true
  | _ :: _ => false
  end.

(** The lines are read from the last to the first; [fst acc] holds the body
    lines met since the last heading. *)
Definition sectionStep (line : text) (acc : list text * list section)
  : list text * list section :=
  match headingMatch line with
  | Some (hashes, rawTitle) =>
      ([], mkSection (List.length hashes) (trim rawTitle) (fst acc) :: snd acc)
  | None => if isBlank line then acc else (line :: fst acc, snd acc)
  end.

Definition sectionsOf (markdown : text) : list section :=
  snd (fold_right sectionStep ([], []) (splitLines markdown)).

(** [descriptionLines.join('\n').trim()], or [undefined] when no line was
    collected. *)
Definition descriptionOf (body : list text) : option text :=
  match body with
  | [] => None
  | _ :: _ => Some (trim (join [newline] body))
  end.

(** What a node holds besides its place in the tree. *)
Definition entry (n : MindMapNode) : string * nat * text * option text :=
  (id n, level n, title n, description n).

Fixpoint entriesOf (generateId : nat -> string) (k : nat) (secs : list section)
  : list (string * nat * text * option text) :=
  match secs with
  | [] => []
  | s :: rest =>
      (generateId k, sectionLevel s, sectionTitle s, descriptionOf (sectionBody s))
      :: entriesOf generateId (S k) rest
  end.

(** ** Forests that [serialize] writes without loss *)

(** The description as [serialize] tests it: [undefined] and the empty
    string are both skipped. *)
Definition descriptionText (n : MindMapNode) : text :=
  match description n with
  | Some d => d
  | None => []
  end.

(** A description that comes back from [parse] as it is: no white space at
    its ends, and none of its lines is blank or reads as a heading. *)
Definition printableDescription (d : text) : bool :=
  match d with
  | [] => true
  | c :: _ =>
      negb (isWhiteSpace c) && negb (isWhiteSpace (last d 0%N))
      && forallb (fun l => negb (isBlank l)
                           && match headingMatch l with
                              | None => true
                              | Some _ => false
                              end)
                 (splitLines d)
  end.

Definition printable (n : MindMapNode) : bool :=
  canonicalHeading (level n, title n) && printableDescription (descriptionText n).

(** What [parse] can give back of a node: level, title, description text
    and children; identifiers are generated anew, [collapsed] is reset and
    [parentId] follows from the tree. *)
Fixpoint bare (n : MindMapNode) : MindMapNode :=
  mkNode EmptyString (title n)
         (match descriptionText n with [] => None | d => Some d end)
         (map bare (children n)) (level n) false None.
(** ** The elements that [render] builds

    Of a [.mindmap-node-wrapper] the model keeps the [data-node-id], whether
    it has a [.mindmap-node] card as a child, and the child wrappers inside
    its [.node-children] container when it has one. *)

Inductive wrapperElement : Type :=
| Wrapper (dataNodeId : string) (hasCard : bool)
          (nodeChildren : option (list wrapperElement)).

Definition dataNodeIdOf (w : wrapperElement) : string :=
  match w with Wrapper i _ _ => i end.

(** [renderNode(node)]: the card is always there; the container for the
    children only for a node with children that is not collapsed. *)
Fixpoint renderNode (n : MindMapNode) : wrapperElement :=
  Wrapper (id n) true
          match children n with
          | [] => None
          | _ :: _ =>
              if collapsed n then None else Some (map renderNode (children n))
          end.

(** The wrappers that [render(nodes)] appends to the container. *)
Definition render (nodes : forest) : list wrapperElement := map renderNode nodes.

(** [container.querySelectorAll('.mindmap-node-wrapper')]: all wrappers in
    document order. *)
Fixpoint wrappersIn (w : wrapperElement) : list wrapperElement :=
  w :: match w with
       | Wrapper _ _ (Some kids) => flat_map wrappersIn kids
       | Wrapper _ _ None => []
       end.

Definition renderedIds (roots : list wrapperElement) : list string :=
  map dataNodeIdOf (flat_map wrappersIn roots).

(** [normalizeAllLayouts()], as far as its result goes.  [walk] returns at
    once for a wrapper without card, without container or without child
    wrappers; else it walks the children and then sets [changed], once
    without condition and once more when the measured height of the wrapper
    is off by more than half a pixel ([heightOff], what the browser
    reports).  The styles that [walk] writes are not read by it. *)
Section Normalize.
Variable heightOff : wrapperElement -> bool.

Fixpoint walk (w : wrapperElement) (changed : bool) : bool :=
  match w with
  | Wrapper _ true (Some (k :: ks)) =>
      let afterChildren := fold_left (fun ch c => walk c ch) (k :: ks) changed in
      let afterLayout := true in
      if heightOff w then true else afterLayout
  | _ => changed
  end.

Definition normalizeAllLayouts (roots : list wrapperElement) : bool :=
  fold_left (fun ch root => walk root ch) roots false.
End Normalize.

(** ** The connection lines of one parent ([renderConnections]) *)

(** A child card: the snapped center and left edge of its anchor. *)
Record childRect : Type := mkChildRect {
  rectCenterY : number;
  rectLeftX : number
}.

(** [[...childRects].sort((a, b) => a.centerY - b.centerY)] *)
Definition sortRects (l : list childRect) : list childRect :=
  sortWith (fun a b => fsub (rectCenterY a) (rectCenterY b)) l.

(** [Math.min(...values)] *)
Definition minOf (values : list number) : number :=
  fold_left mathMin values PosInfinity.

Record trunk : Type := mkTrunk {
  trunkX : number;
  firstY : number;
  lastY : number
}.

(** The vertical trunk drawn for a parent: [parentAnchorX] is the right
    edge of its card and [anchors] are the left anchor points [(x, y)] of
    the child cards that were found, all in the coordinates of the SVG.
    Nothing is drawn without a child card. *)
Definition trunkOf (devicePixelRatio parentAnchorX : number)
    (anchors : list (number * number)) : option trunk :=
  let dpr := if toBoolean devicePixelRatio then devicePixelRatio else double 1 in
  let parentRight := snap dpr parentAnchorX in
  match map (fun a => mkChildRect (snap dpr (snd a)) (snap dpr (fst a))) anchors with
  | [] => None
  | r :: rs =>
      let desiredTrunkX := snap dpr (fadd parentRight (double 32)) in
      let horizontalGap := double 0 in
      let minChildLeft := minOf (map rectLeftX (r :: rs)) in
      let maxTrunkX := snap dpr (fsub minChildLeft horizontalGap) in
      let sortedRects := sortRects (r :: rs) in
      Some (mkTrunk (snap dpr (mathMin desiredTrunkX maxTrunkX))
                    (rectCenterY (hd r sortedRects))
                    (rectCenterY (last sortedRects r)))
  end.

(** ** Zoom and pan ([handleShortcutAction]) *)

Local Open Scope Q_scope.







Local Close Scope Q_scope.
(** ** Basic facts *)

Lemma forest_ind2 (P : forest -> Prop) :
  P [] ->
  (forall n rest, P (children n) -> P rest -> P (n :: rest)) ->
  forall l, P l.
Proof.
  intros Hnil Hcons.
  assert (Hn : forall n, P (children n)).
  { apply MindMapNode_forall_ind. intros n Hall.
    induction Hall as [|c r Hc _ IH]; [exact Hnil | apply Hcons; assumption]. }
  induction l as [|n rest IH]; [exact Hnil | apply Hcons; auto].
Qed.

Lemma setChildren_same n : setChildren n (children n) = n.
Proof. destruct n; reflexivity. Qed.

Lemma flatten_cons n rest :
  flatten (n :: rest) = n :: flatten (children n) ++ flatten rest.
Proof. unfold flatten; simpl. destruct n; reflexivity. Qed.

Lemma flatten_app a b : flatten (a ++ b) = flatten a ++ flatten b.
Proof. unfold flatten. apply flat_map_app. Qed.

Lemma ids_nil : ids [] = [].
Proof. reflexivity. Qed.

Lemma ids_cons n rest : ids (n :: rest) = id n :: ids (children n) ++ ids rest.
Proof. unfold ids. rewrite flatten_cons. simpl. now rewrite map_app. Qed.

Lemma ids_app a b : ids (a ++ b) = ids a ++ ids b.
Proof. unfold ids. now rewrite flatten_app, map_app. Qed.

Lemma ids_setChildren n c rest :
  ids (setChildren n c :: rest) = id n :: ids c ++ ids rest.
Proof. now rewrite ids_cons. Qed.

Lemma in_flatten_ids n nodes : In n (flatten nodes) -> In (id n) (ids nodes).
Proof. intros H. unfold ids. now apply in_map. Qed.

Lemma in_flatten_top n nodes : In n nodes -> In n (flatten nodes).
Proof.
  induction nodes as [|m rest IH]; [intros []|].
  intros [->|H]; rewrite flatten_cons; [now left|].
  right. apply in_or_app. right. auto.
Qed.

Lemma in_flatten_children n m nodes :
  In n (flatten nodes) -> In m (flatten (children n)) -> In m (flatten nodes).
Proof.
  induction nodes as [|x rest IHc IHr] using forest_ind2; [contradiction|].
  rewrite flatten_cons. intros [->|H] Hm.
  - right. apply in_or_app. now left.
  - right. apply in_app_or in H. apply in_or_app. destruct H; [left|right]; auto.
Qed.

Lemma eqb_id_false n tid : id n <> tid -> String.eqb (id n) tid = false.
Proof. intros. now apply String.eqb_neq. Qed.

(** Unfolding of each search along one array. *)

Lemma findNodeById_cons n rest tid :
  findNodeById (n :: rest) tid =
  if String.eqb (id n) tid then Some n
  else match findNodeById (children n) tid with
       | Some found => Some found
       | None => findNodeById rest tid
       end.
Proof. destruct n; reflexivity. Qed.

Definition findWithParentFrom (tid : string) (arr l : forest) :=
  findWithParentIn tid (findWithParentBelow tid) arr l.

Lemma findWithParentFrom_cons tid arr n rest :
  findWithParentFrom tid arr (n :: rest) =
  if String.eqb (id n) tid then Some (n, arr)
  else match findNodeWithParent (children n) tid with
       | Some found => Some found
       | None => findWithParentFrom tid arr rest
       end.
Proof. destruct n; reflexivity. Qed.

Lemma findParentNode_cons n rest tid :
  findParentNode (n :: rest) tid =
  if existsb (fun c => String.eqb (id c) tid) (children n) then Some n
  else match findParentNode (children n) tid with
       | Some found => Some found
       | None => findParentNode rest tid
       end.
Proof. destruct n; reflexivity. Qed.

Definition findPathFrom (tid : string) (l : forest) (i : nat) :=
  findPathIn tid (findPathBelow tid) l i.

Lemma findPathFrom_cons tid n rest i :
  findPathFrom tid (n :: rest) i =
  if String.eqb (id n) tid then Some [i]
  else match findPath (children n) tid with
       | Some p => Some (i :: p)
       | None => findPathFrom tid rest (S i)
       end.
Proof. destruct n; reflexivity. Qed.

Definition findParentsFrom (tid : string) (l : forest) (chain : list MindMapNode) :=
  findParentsIn tid (findParentsBelow tid) l chain.

Lemma findParentsFrom_cons tid n rest chain :
  findParentsFrom tid (n :: rest) chain =
  if String.eqb (id n) tid then chain
  else match findNodeById (children n) tid with
       | Some _ => findParentsFrom tid (children n) (n :: chain)
       | None => findParentsFrom tid rest chain
       end.
Proof. destruct n; reflexivity. Qed.

Definition addSiblingFrom (targetId : string) (ttl : text) (newId : string)
    (parent : option string) (l : forest) :=
  addSiblingIn targetId ttl newId (addSiblingBelow targetId ttl newId) parent l.

Lemma addSiblingFrom_cons targetId ttl newId parent n rest :
  addSiblingFrom targetId ttl newId parent (n :: rest) =
  if String.eqb (id n) targetId then
    Some (mkNode newId ttl (Some []) [] (level n) false parent,
          n :: mkNode newId ttl (Some []) [] (level n) false parent :: rest)
  else match addSiblingFrom targetId ttl newId (Some (id n)) (children n) with
       | Some (created, c') => Some (created, setChildren n c' :: rest)
       | None =>
           match addSiblingFrom targetId ttl newId parent rest with
           | Some (created, rest') => Some (created, n :: rest')
           | None => None
           end
       end.
Proof.
  destruct n as [i t d c l co p]; unfold addSiblingFrom; simpl.
  destruct (String.eqb i targetId); [reflexivity|].
  destruct (addSiblingIn _ _ _ _ (Some i) c) as [[? ?]|]; reflexivity.
Qed.

Definition updNodeFrom (tid : string) (f : MindMapNode -> MindMapNode) (l : forest) :=
  updNodeIn tid f (updNodeBelow tid f) l.

Lemma updNodeFrom_cons tid f n rest :
  updNodeFrom tid f (n :: rest) =
  if String.eqb (id n) tid then Some (f n :: rest)
  else match updNodeFrom tid f (children n) with
       | Some c' => Some (setChildren n c' :: rest)
       | None => option_map (cons n) (updNodeFrom tid f rest)
       end.
Proof.
  destruct n as [i t d c l co p]; unfold updNodeFrom; simpl.
  destruct (String.eqb i tid); [reflexivity|].
  destruct (updNodeIn _ _ _ c); reflexivity.
Qed.

Definition scanFrom (tid : string) (f : forest -> forest) (l : forest) :=
  scanParent tid (updParentBelow tid f) l.

Definition updParentOpt (tid : string) (f : forest -> forest) (arr : forest) :=
  updParentArr tid f (updParentBelow tid f) arr.

Lemma scanFrom_cons tid f n rest :
  scanFrom tid f (n :: rest) =
  if String.eqb (id n) tid then Direct
  else match updParentOpt tid f (children n) with
       | Some c' => Inner (setChildren n c' :: rest)
       | None =>
           match scanFrom tid f rest with
           | Direct => Direct
           | Inner rest' => Inner (n :: rest')
           | Missing => Missing
           end
       end.
Proof.
  destruct n as [i t d c l co p]; unfold scanFrom, updParentOpt; simpl.
  destruct (String.eqb i tid); [reflexivity|].
  destruct (updParentArr _ _ _ c); reflexivity.
Qed.

Definition deleteFrom (nodeId : string) (l : forest) :=
  deleteIn nodeId (deleteBelow nodeId) l.

Lemma deleteFrom_cons nodeId n rest :
  deleteFrom nodeId (n :: rest) =
  if String.eqb (id n) nodeId then Some rest
  else match deleteFrom nodeId (children n) with
       | Some c' => Some (setChildren n c' :: rest)
       | None => option_map (cons n) (deleteFrom nodeId rest)
       end.
Proof.
  destruct n as [i t d c l co p]; unfold deleteFrom; simpl.
  destruct (String.eqb i nodeId); [reflexivity|].
  destruct (deleteIn _ _ c); reflexivity.
Qed.

(** ** Searching where the identifier does not occur *)

Lemma not_in_ids_cons tid n rest :
  ~ In tid (ids (n :: rest)) ->
  id n <> tid /\ ~ In tid (ids (children n)) /\ ~ In tid (ids rest).
Proof.
  rewrite ids_cons. simpl. intros H. repeat split.
  - intros E. apply H. now left.
  - intros E. apply H. right. apply in_or_app. now left.
  - intros E. apply H. right. apply in_or_app. now right.
Qed.

Lemma not_in_ids_app tid a b :
  ~ In tid (ids (a ++ b)) -> ~ In tid (ids a) /\ ~ In tid (ids b).
Proof.
  rewrite ids_app. intros H. split; intros E; apply H; apply in_or_app; auto.
Qed.

Ltac absent_head H :=
  let Hn := fresh "Hne" in
  let Hc := fresh "Hkids" in
  let Hr := fresh "Hrest" in
  apply not_in_ids_cons in H; destruct H as (Hn & Hc & Hr);
  try rewrite (eqb_id_false _ _ Hn).

Section Absent.
Variable tid : string.

Lemma findNodeById_absent l : ~ In tid (ids l) -> findNodeById l tid = None.
Proof.
  induction l as [|n rest IHc IHr] using forest_ind2; [reflexivity|].
  intros H. rewrite findNodeById_cons. absent_head H.
  now rewrite IHc, IHr.
Qed.

Lemma findWithParentFrom_absent arr l :
  ~ In tid (ids l) -> findWithParentFrom tid arr l = None.
Proof.
  revert arr. induction l as [|n rest IHc IHr] using forest_ind2;
    [reflexivity|].
  intros arr H. rewrite findWithParentFrom_cons. absent_head H.
  unfold findNodeWithParent. fold (findWithParentFrom tid (children n) (children n)).
  now rewrite IHc, IHr.
Qed.

Lemma existsb_id_absent l :
  ~ In tid (ids l) -> existsb (fun c => String.eqb (id c) tid) l = false.
Proof.
  induction l as [|n rest IH]; [reflexivity|].
  intros H. simpl. absent_head H. now rewrite IH.
Qed.

Lemma findParentNode_absent l : ~ In tid (ids l) -> findParentNode l tid = None.
Proof.
  induction l as [|n rest IHc IHr] using forest_ind2; [reflexivity|].
  intros H. rewrite findParentNode_cons. absent_head H.
  now rewrite existsb_id_absent, IHc, IHr.
Qed.

Lemma findPathFrom_absent l i : ~ In tid (ids l) -> findPathFrom tid l i = None.
Proof.
  revert i. induction l as [|n rest IHc IHr] using forest_ind2;
    [reflexivity|].
  intros i H. rewrite findPathFrom_cons. absent_head H.
  unfold findPath. fold (findPathFrom tid (children n) 0).
  now rewrite IHc, IHr.
Qed.

Lemma findParentsFrom_absent l chain :
  ~ In tid (ids l) -> findParentsFrom tid l chain = chain.
Proof.
  induction l as [|n rest IHc IHr] using forest_ind2; [reflexivity|].
  intros H. rewrite findParentsFrom_cons. absent_head H.
  now rewrite findNodeById_absent, IHr.
Qed.

Lemma addSiblingFrom_absent ttl newId parent l :
  ~ In tid (ids l) -> addSiblingFrom tid ttl newId parent l = None.
Proof.
  revert parent. induction l as [|n rest IHc IHr] using forest_ind2;
    [reflexivity|].
  intros parent H. rewrite addSiblingFrom_cons. absent_head H.
  now rewrite IHc, IHr.
Qed.

Lemma updNodeFrom_absent f l : ~ In tid (ids l) -> updNodeFrom tid f l = None.
Proof.
  induction l as [|n rest IHc IHr] using forest_ind2; [reflexivity|].
  intros H. rewrite updNodeFrom_cons. absent_head H.
  now rewrite IHc, IHr.
Qed.

Lemma scanFrom_absent f l : ~ In tid (ids l) -> scanFrom tid f l = Missing.
Proof.
  induction l as [|n rest IHc IHr] using forest_ind2; [reflexivity|].
  intros H. rewrite scanFrom_cons. absent_head H.
  unfold updParentOpt, updParentArr. fold (scanFrom tid f (children n)).
  now rewrite IHc, IHr.
Qed.

Lemma updParentOpt_absent f l : ~ In tid (ids l) -> updParentOpt tid f l = None.
Proof.
  intros H. unfold updParentOpt, updParentArr. fold (scanFrom tid f l).
  now rewrite scanFrom_absent.
Qed.

Lemma deleteFrom_absent l : ~ In tid (ids l) -> deleteFrom tid l = None.
Proof.
  induction l as [|n rest IHc IHr] using forest_ind2; [reflexivity|].
  intros H. rewrite deleteFrom_cons. absent_head H.
  now rewrite IHc, IHr.
Qed.

Lemma findIndex_absent l : ~ In tid (ids l) -> findIndex tid l = None.
Proof.
  induction l as [|n rest IH]; [reflexivity|].
  intros H. simpl. absent_head H. now rewrite IH.
Qed.

(** Skipping the elements in front of the first match. *)

Lemma findNodeById_skip pre l :
  ~ In tid (ids pre) -> findNodeById (pre ++ l) tid = findNodeById l tid.
Proof.
  induction pre as [|n pre IH]; [reflexivity|].
  intros H. cbn [app]. rewrite findNodeById_cons. absent_head H.
  now rewrite findNodeById_absent, IH.
Qed.

Lemma findWithParentFrom_skip arr pre l :
  ~ In tid (ids pre) ->
  findWithParentFrom tid arr (pre ++ l) = findWithParentFrom tid arr l.
Proof.
  induction pre as [|n pre IH]; [reflexivity|].
  intros H. cbn [app]. rewrite findWithParentFrom_cons. absent_head H.
  unfold findNodeWithParent. fold (findWithParentFrom tid (children n) (children n)).
  now rewrite findWithParentFrom_absent, IH.
Qed.

Lemma findParentNode_skip pre l :
  ~ In tid (ids pre) -> findParentNode (pre ++ l) tid = findParentNode l tid.
Proof.
  induction pre as [|n pre IH]; [reflexivity|].
  intros H. cbn [app]. rewrite findParentNode_cons. absent_head H.
  now rewrite existsb_id_absent, findParentNode_absent, IH.
Qed.

Lemma findPathFrom_skip pre l i :
  ~ In tid (ids pre) ->
  findPathFrom tid (pre ++ l) i = findPathFrom tid l (i + List.length pre).
Proof.
  revert i. induction pre as [|n pre IH]; intros i H.
  - cbn [app List.length]. now rewrite Nat.add_0_r.
  - cbn [app]. rewrite findPathFrom_cons. absent_head H.
    unfold findPath. fold (findPathFrom tid (children n) 0).
    rewrite findPathFrom_absent, IH by assumption. cbn [List.length]. f_equal. lia.
Qed.

Lemma findParentsFrom_skip pre l chain :
  ~ In tid (ids pre) ->
  findParentsFrom tid (pre ++ l) chain = findParentsFrom tid l chain.
Proof.
  induction pre as [|n pre IH]; [reflexivity|].
  intros H. cbn [app]. rewrite findParentsFrom_cons. absent_head H.
  now rewrite findNodeById_absent, IH.
Qed.

Lemma addSiblingFrom_skip ttl newId parent pre l :
  ~ In tid (ids pre) ->
  addSiblingFrom tid ttl newId parent (pre ++ l) =
  match addSiblingFrom tid ttl newId parent l with
  | Some (created, l') => Some (created, pre ++ l')
  | None => None
  end.
Proof.
  induction pre as [|n pre IH]; intros H.
  - cbn [app]. destruct (addSiblingFrom _ _ _ _ l) as [[? ?]|]; reflexivity.
  - cbn [app]. rewrite addSiblingFrom_cons. absent_head H.
    rewrite addSiblingFrom_absent, IH by assumption.
    destruct (addSiblingFrom _ _ _ _ l) as [[? ?]|]; reflexivity.
Qed.

Lemma updNodeFrom_skip f pre l :
  ~ In tid (ids pre) ->
  updNodeFrom tid f (pre ++ l) = option_map (app pre) (updNodeFrom tid f l).
Proof.
  induction pre as [|n pre IH]; intros H.
  - cbn [app]. destruct (updNodeFrom tid f l); reflexivity.
  - cbn [app]. rewrite updNodeFrom_cons. absent_head H.
    rewrite updNodeFrom_absent, IH by assumption.
    destruct (updNodeFrom tid f l); reflexivity.
Qed.

Lemma scanFrom_skip f pre l :
  ~ In tid (ids pre) ->
  scanFrom tid f (pre ++ l) =
  match scanFrom tid f l with
  | Direct => Direct
  | Inner l' => Inner (pre ++ l')
  | Missing => Missing
  end.
Proof.
  induction pre as [|n pre IH]; intros H.
  - cbn [app]. destruct (scanFrom tid f l); reflexivity.
  - cbn [app]. rewrite scanFrom_cons. absent_head H.
    rewrite updParentOpt_absent, IH by assumption.
    destruct (scanFrom tid f l); reflexivity.
Qed.

Lemma deleteFrom_skip pre l :
  ~ In tid (ids pre) ->
  deleteFrom tid (pre ++ l) = option_map (app pre) (deleteFrom tid l).
Proof.
  induction pre as [|n pre IH]; intros H.
  - cbn [app]. destruct (deleteFrom tid l); reflexivity.
  - cbn [app]. rewrite deleteFrom_cons. absent_head H.
    rewrite deleteFrom_absent, IH by assumption.
    destruct (deleteFrom tid l); reflexivity.
Qed.

Lemma findIndex_skip pre l :
  ~ In tid (ids pre) ->
  findIndex tid (pre ++ l) = option_map (Nat.add (List.length pre)) (findIndex tid l).
Proof.
  induction pre as [|n pre IH]; intros H.
  - cbn [app List.length]. destruct (findIndex tid l); reflexivity.
  - cbn [app List.length findIndex]. absent_head H. rewrite IH by assumption.
    destruct (findIndex tid l); reflexivity.
Qed.
End Absent.

(** ** Where the first match sits

    An [actx] is a forest with one array left open: [Under pre owner inner
    post] is the array [pre ++ owner :: post] whose [owner] holds the open
    array somewhere below it.  [located nodes tid c a1 t a2] says that the
    first node with identifier [tid], in search order, is [t], in the array
    [a1 ++ t :: a2] that fills [c]. *)

Inductive actx : Type :=
| Here
| Under (pre : forest) (owner : MindMapNode) (inner : actx) (post : forest).

Fixpoint fill (c : actx) (arr : forest) : forest :=
  match c with
  | Here => arr
  | Under pre o inner post => pre ++ setChildren o (fill inner arr) :: post
  end.

Fixpoint clear (tid : string) (c : actx) : Prop :=
  match c with
  | Here => True
  | Under pre o inner _ => ~ In tid (ids pre) /\ id o <> tid /\ clear tid inner
  end.

(** The nodes above the open array, outermost first, as they stand in the
    filled forest. *)
Fixpoint ownersOf (c : actx) (arr : forest) : list MindMapNode :=
  match c with
  | Here => []
  | Under _ o inner _ => setChildren o (fill inner arr) :: ownersOf inner arr
  end.

Fixpoint holePath (c : actx) : list nat :=
  match c with
  | Here => []
  | Under pre _ inner _ => List.length pre :: holePath inner
  end.

(** Identifier and level that the owner of the open array gives to its
    elements ([pid] and [lvl] are those of the outermost array). *)
Fixpoint holeParent (pid : option string) (c : actx) : option string :=
  match c with
  | Here => pid
  | Under _ o inner _ => holeParent (Some (id o)) inner
  end.

Fixpoint holeLevel (lvl : nat) (c : actx) : nat :=
  match c with
  | Here => lvl
  | Under _ _ inner _ => holeLevel (lvl + 1) inner
  end.

Definition located (nodes : forest) (tid : string)
    (c : actx) (a1 : forest) (t : MindMapNode) (a2 : forest) : Prop :=
  nodes = fill c (a1 ++ t :: a2) /\ id t = tid /\ clear tid c /\ ~ In tid (ids a1).

Definition consCtx (n : MindMapNode) (c : actx) : actx :=
  match c with
  | Here => Here
  | Under pre o inner post => Under (n :: pre) o inner post
  end.

Definition consFront (n : MindMapNode) (c : actx) (a1 : forest) : forest :=
  match c with
  | Here => n :: a1
  | Under _ _ _ _ => a1
  end.

Lemma located_exists nodes tid :
  In tid (ids nodes) -> exists c a1 t a2, located nodes tid c a1 t a2.
Proof.
  induction nodes as [|n rest IHc IHr] using forest_ind2; [intros []|].
  intros H. destruct (string_dec (id n) tid) as [E|NE].
  { exists Here, [], n, rest. repeat split; auto. }
  destruct (in_dec string_dec tid (ids (children n))) as [Hin|Hout].
  { destruct (IHc Hin) as (c & a1 & t & a2 & Hfill & Hid & Hclear & Ha1).
    exists (Under [] n c rest), a1, t, a2. repeat split; auto.
    cbn [fill app]. now rewrite <- Hfill, setChildren_same. }
  assert (Hrest : In tid (ids rest)).
  { rewrite ids_cons in H. destruct H as [E|H]; [contradiction|].
    apply in_app_or in H. destruct H; [contradiction|assumption]. }
  destruct (IHr Hrest) as (c & a1 & t & a2 & Hfill & Hid & Hclear & Ha1).
  assert (Hn : ~ In tid (ids [n])).
  { rewrite ids_cons, ids_nil, app_nil_r. intros [E|E]; contradiction. }
  exists (consCtx n c), (consFront n c a1), t, a2.
  destruct c as [|pre o inner post]; cbn [consCtx consFront fill].
  - cbn [fill] in Hfill. subst rest. repeat split; auto.
    change (n :: a1) with ([n] ++ a1). rewrite ids_app.
    intros E. apply in_app_or in E. destruct E; contradiction.
  - cbn [fill] in Hfill. subst rest. destruct Hclear as (Hpre & Ho & Hin).
    repeat split; auto.
    change (n :: pre) with ([n] ++ pre). rewrite ids_app.
    intros E. apply in_app_or in E. destruct E; contradiction.
Qed.

Lemma in_ids_fill c a1 t a2 : In (id t) (ids (fill c (a1 ++ t :: a2))).
Proof.
  induction c as [|pre o inner IH post]; cbn [fill].
  - rewrite ids_app, ids_cons. apply in_or_app. right. now left.
  - rewrite ids_app, ids_setChildren. apply in_or_app. right. right.
    apply in_or_app. now left.
Qed.

Lemma located_in_ids nodes tid c a1 t a2 :
  located nodes tid c a1 t a2 -> In tid (ids nodes).
Proof. intros (-> & <- & _ & _). apply in_ids_fill. Qed.

Section Located.
Variables (tid : string) (a1 : forest) (t : MindMapNode) (a2 : forest).
Hypothesis Hid : id t = tid.
Hypothesis Ha1 : ~ In tid (ids a1).

Let arr := a1 ++ t :: a2.

Lemma eqb_target : String.eqb (id t) tid = true.
Proof. now apply String.eqb_eq. Qed.

Lemma findIndex_located : findIndex tid arr = Some (List.length a1).
Proof.
  unfold arr. rewrite findIndex_skip by assumption. cbn [findIndex].
  rewrite eqb_target. cbn [option_map]. now rewrite Nat.add_0_r.
Qed.

Lemma findNodeById_located c :
  clear tid c -> findNodeById (fill c arr) tid = Some t.
Proof.
  induction c as [|pre o inner IH post]; cbn [fill clear].
  - intros _. unfold arr. rewrite findNodeById_skip by assumption.
    now rewrite findNodeById_cons, eqb_target.
  - intros (Hpre & Ho & Hin). rewrite findNodeById_skip by assumption.
    rewrite findNodeById_cons. cbn [id setChildren children].
    now rewrite (eqb_id_false _ _ Ho), IH.
Qed.

Lemma findNodeWithParent_located c :
  clear tid c -> findNodeWithParent (fill c arr) tid = Some (t, arr).
Proof.
  unfold findNodeWithParent.
  induction c as [|pre o inner IH post]; cbn [fill clear].
  - intros _. fold (findWithParentFrom tid arr arr). unfold arr at 2.
    rewrite findWithParentFrom_skip by assumption.
    now rewrite findWithParentFrom_cons, eqb_target.
  - intros (Hpre & Ho & Hin).
    match goal with |- findWithParentIn _ _ ?A ?L = _ =>
      change (findWithParentFrom tid A L = Some (t, arr)) end.
    rewrite findWithParentFrom_skip by assumption.
    rewrite findWithParentFrom_cons. cbn [id setChildren children].
    rewrite (eqb_id_false _ _ Ho). unfold findNodeWithParent.
    now rewrite IH.
Qed.

Lemma findPath_located c :
  clear tid c -> findPath (fill c arr) tid = Some (holePath c ++ [List.length a1]).
Proof.
  unfold findPath.
  induction c as [|pre o inner IH post]; cbn [fill clear holePath].
  - intros _. fold (findPathFrom tid arr 0). unfold arr.
    rewrite findPathFrom_skip by assumption.
    now rewrite findPathFrom_cons, eqb_target.
  - intros (Hpre & Ho & Hin).
    match goal with |- findPathIn _ _ ?L 0 = _ =>
      change (findPathFrom tid L 0 = Some ((List.length pre :: holePath inner) ++ [List.length a1])) end.
    rewrite findPathFrom_skip by assumption.
    rewrite findPathFrom_cons. cbn [id setChildren children].
    rewrite (eqb_id_false _ _ Ho). unfold findPath.
    now rewrite IH.
Qed.

Lemma findParentsFrom_located c chain :
  clear tid c ->
  findParentsFrom tid (fill c arr) chain = rev (ownersOf c arr) ++ chain.
Proof.
  revert chain.
  induction c as [|pre o inner IH post]; intros chain; cbn [fill clear ownersOf].
  - intros _. unfold arr. rewrite findParentsFrom_skip by assumption.
    now rewrite findParentsFrom_cons, eqb_target.
  - intros (Hpre & Ho & Hin). rewrite findParentsFrom_skip by assumption.
    rewrite findParentsFrom_cons. cbn [id setChildren children].
    rewrite (eqb_id_false _ _ Ho), findNodeById_located by assumption.
    rewrite IH by assumption. cbn [rev]. now rewrite <- app_assoc.
Qed.

Lemma addSiblingFrom_located ttl newId parent c :
  clear tid c ->
  let newNode :=
    mkNode newId ttl (Some []) [] (level t) false (holeParent parent c) in
  addSiblingFrom tid ttl newId parent (fill c arr) =
  Some (newNode, fill c (a1 ++ t :: newNode :: a2)).
Proof.
  revert parent.
  induction c as [|pre o inner IH post]; intros parent; cbn [fill clear holeParent].
  - intros _. unfold arr. rewrite addSiblingFrom_skip by assumption.
    now rewrite addSiblingFrom_cons, eqb_target.
  - intros (Hpre & Ho & Hin). rewrite addSiblingFrom_skip by assumption.
    rewrite addSiblingFrom_cons. cbn [id setChildren children].
    rewrite (eqb_id_false _ _ Ho). now rewrite IH.
Qed.

Lemma updNodeFrom_located f c :
  clear tid c ->
  updNodeFrom tid f (fill c arr) = Some (fill c (a1 ++ f t :: a2)).
Proof.
  induction c as [|pre o inner IH post]; cbn [fill clear].
  - intros _. unfold arr. rewrite updNodeFrom_skip by assumption.
    now rewrite updNodeFrom_cons, eqb_target.
  - intros (Hpre & Ho & Hin). rewrite updNodeFrom_skip by assumption.
    rewrite updNodeFrom_cons. cbn [id setChildren children].
    rewrite (eqb_id_false _ _ Ho). now rewrite IH.
Qed.

Lemma updParentOpt_located f c :
  clear tid c ->
  updParentOpt tid f (fill c arr) = Some (fill c (f arr)).
Proof.
  induction c as [|pre o inner IH post]; cbn [fill clear].
  - intros _. unfold updParentOpt, updParentArr. fold (scanFrom tid f arr).
    unfold arr at 1. rewrite scanFrom_skip by assumption.
    now rewrite scanFrom_cons, eqb_target.
  - intros (Hpre & Ho & Hin). unfold updParentOpt, updParentArr.
    match goal with |- match scanParent _ _ ?L with _ => _ end = _ =>
      fold (scanFrom tid f L) end.
    rewrite scanFrom_skip by assumption.
    rewrite scanFrom_cons. cbn [id setChildren children].
    rewrite (eqb_id_false _ _ Ho). now rewrite IH.
Qed.

Lemma deleteFrom_located c :
  clear tid c ->
  deleteFrom tid (fill c arr) = Some (fill c (a1 ++ a2)).
Proof.
  induction c as [|pre o inner IH post]; cbn [fill clear].
  - intros _. unfold arr. rewrite deleteFrom_skip by assumption.
    now rewrite deleteFrom_cons, eqb_target.
  - intros (Hpre & Ho & Hin). rewrite deleteFrom_skip by assumption.
    rewrite deleteFrom_cons. cbn [id setChildren children].
    rewrite (eqb_id_false _ _ Ho). now rewrite IH.
Qed.
End Located.

Lemma found_in_ids nodes tid x :
  findNodeById nodes tid = Some x -> In tid (ids nodes).
Proof.
  intros H. destruct (in_dec string_dec tid (ids nodes)) as [Hin|Hout]; [assumption|].
  rewrite findNodeById_absent in H by assumption. discriminate.
Qed.

Lemma not_found_not_in_ids nodes tid :
  findNodeById nodes tid = None -> ~ In tid (ids nodes).
Proof.
  intros H Hin. destruct (located_exists _ _ Hin) as (c & a1 & t & a2 & -> & Hid & Hc & Ha1).
  rewrite (findNodeById_located tid a1 t a2 Hid Ha1 c Hc) in H. discriminate.
Qed.

Lemma findNodeWithParent_none nodes tid :
  findNodeWithParent nodes tid = None -> ~ In tid (ids nodes).
Proof.
  intros H Hin. destruct (located_exists _ _ Hin) as (c & a1 & t & a2 & -> & Hid & Hc & Ha1).
  rewrite (findNodeWithParent_located tid a1 t a2 Hid Ha1 c Hc) in H. discriminate.
Qed.

Lemma findNodeWithParent_some nodes tid x arr :
  findNodeWithParent nodes tid = Some (x, arr) ->
  exists c a1 a2, located nodes tid c a1 x a2 /\ arr = a1 ++ x :: a2.
Proof.
  intros H.
  destruct (in_dec string_dec tid (ids nodes)) as [Hin|Hout].
  - destruct (located_exists _ _ Hin) as (c & a1 & t & a2 & Hl).
    pose proof Hl as (-> & Hid & Hc & Ha1).
    rewrite (findNodeWithParent_located tid a1 t a2 Hid Ha1 c Hc) in H.
    injection H as <- <-. now exists c, a1, a2.
  - unfold findNodeWithParent in H. fold (findWithParentFrom tid nodes nodes) in H.
    rewrite findWithParentFrom_absent in H by assumption. discriminate.
Qed.

(** ** Ancestor chains ([getParentChain]) *)

(** [chainFrom arr chain x]: [chain] lists the ancestors of [x] from an
    element of [arr] down to the node whose [children] holds [x]. *)
Inductive chainFrom : forest -> list MindMapNode -> MindMapNode -> Prop :=
| chain_end arr x : In x arr -> chainFrom arr [] x
| chain_step arr p rest x :
    In p arr -> chainFrom (children p) rest x -> chainFrom arr (p :: rest) x.

Lemma chainFrom_owners c a1 t a2 :
  chainFrom (fill c (a1 ++ t :: a2)) (ownersOf c (a1 ++ t :: a2)) t.
Proof.
  induction c as [|pre o inner IH post]; cbn [fill ownersOf].
  - constructor. apply in_or_app. right. now left.
  - apply chain_step.
    + apply in_or_app. right. now left.
    + exact IH.
Qed.

Lemma holePath_owners c arr : List.length (holePath c) = List.length (ownersOf c arr).
Proof. induction c; cbn [holePath ownersOf List.length]; auto. Qed.


(** ** The invariants across an open array *)

Fixpoint ctxParents (pid : option string) (c : actx) : bool :=
  match c with
  | Here => true
  | Under pre o inner post =>
      forallb (parentsFrom pid) pre && optEqb (parentId o) pid
      && ctxParents (Some (id o)) inner && forallb (parentsFrom pid) post
  end.

Fixpoint ctxLevels (lvl : nat) (c : actx) : bool :=
  match c with
  | Here => true
  | Under pre o inner post =>
      forallb (levelsFrom lvl) pre && Nat.eqb (level o) lvl
      && ctxLevels (lvl + 1) inner && forallb (levelsFrom lvl) post
  end.

Fixpoint ctxIds (c : actx) : list string :=
  match c with
  | Here => []
  | Under pre o inner post => ids pre ++ id o :: ctxIds inner ++ ids post
  end.

Lemma parentsFrom_eq pid n :
  parentsFrom pid n =
  optEqb (parentId n) pid && forallb (parentsFrom (Some (id n))) (children n).
Proof. destruct n; reflexivity. Qed.

Lemma levelsFrom_eq lvl n :
  levelsFrom lvl n =
  Nat.eqb (level n) lvl && forallb (levelsFrom (lvl + 1)) (children n).
Proof. destruct n; reflexivity. Qed.

Lemma parentsFrom_fill pid c arr :
  forallb (parentsFrom pid) (fill c arr) =
  ctxParents pid c && forallb (parentsFrom (holeParent pid c)) arr.
Proof.
  revert pid. induction c as [|pre o inner IH post]; intros pid;
    cbn [fill ctxParents holeParent]; [reflexivity|].
  rewrite forallb_app. cbn [forallb]. rewrite parentsFrom_eq.
  cbn [parentId id children setChildren]. rewrite IH. btauto.
Qed.

Lemma levelsFrom_fill lvl c arr :
  forallb (levelsFrom lvl) (fill c arr) =
  ctxLevels lvl c && forallb (levelsFrom (holeLevel lvl c)) arr.
Proof.
  revert lvl. induction c as [|pre o inner IH post]; intros lvl;
    cbn [fill ctxLevels holeLevel]; [reflexivity|].
  rewrite forallb_app. cbn [forallb]. rewrite levelsFrom_eq.
  cbn [level children setChildren]. rewrite IH. btauto.
Qed.

Lemma ids_fill c arr : Permutation (ids (fill c arr)) (ctxIds c ++ ids arr).
Proof.
  induction c as [|pre o inner IH post]; cbn [fill ctxIds]; [reflexivity|].
  rewrite ids_app, ids_setChildren, <- !app_assoc. apply Permutation_app_head.
  cbn [app]. apply perm_skip. rewrite <- app_assoc.
  rewrite IH, <- app_assoc. apply Permutation_app_head. apply Permutation_app_comm.
Qed.

Lemma optEqb_eq a b : optEqb a b = true <-> a = b.
Proof.
  destruct a as [x|], b as [y|]; cbn [optEqb]; try (split; congruence).
  rewrite String.eqb_eq. split; congruence.
Qed.

Lemma optEqb_refl a : optEqb a a = true.
Proof. now apply optEqb_eq. Qed.

(** ** Splices, renumbering, and the inside test *)

Lemma removeAt_middle (a1 : forest) x a2 :
  removeAt (List.length a1) (a1 ++ x :: a2) = a1 ++ a2.
Proof.
  unfold removeAt. induction a1 as [|y a1 IH]; [reflexivity|].
  cbn [List.length app firstn skipn]. f_equal. exact IH.
Qed.

Lemma insertAt_front (a1 : forest) x rest :
  insertAt (List.length a1) x (a1 ++ rest) = a1 ++ x :: rest.
Proof.
  unfold insertAt. induction a1 as [|y a1 IH].
  - cbn [List.length app firstn skipn]. reflexivity.
  - cbn [List.length app firstn skipn]. f_equal. exact IH.
Qed.

Lemma insertAt_behind (a1 : forest) x t rest :
  insertAt (List.length a1 + 1) x (a1 ++ t :: rest) = a1 ++ t :: x :: rest.
Proof.
  replace (a1 ++ t :: rest) with ((a1 ++ [t]) ++ rest) by now rewrite <- app_assoc.
  replace (List.length a1 + 1) with (List.length (a1 ++ [t]))
    by (rewrite length_app; reflexivity).
  rewrite insertAt_front. now rewrite <- app_assoc.
Qed.

Lemma updateNodeLevels_eq n lvl :
  updateNodeLevels n lvl =
  mkNode (id n) (title n) (description n)
         (map (fun c => updateNodeLevels c (lvl + 1)) (children n))
         lvl (collapsed n) (parentId n).
Proof. destruct n; reflexivity. Qed.

Lemma ids_updateNodeLevels_all (l : forest) :
  forall lvl, ids (map (fun c => updateNodeLevels c lvl) l) = ids l.
Proof.
  induction l as [|n rest IHc IHr] using forest_ind2; intros lvl; [reflexivity|].
  cbn [map]. rewrite !ids_cons, updateNodeLevels_eq. cbn [id children].
  now rewrite IHc, IHr.
Qed.

Lemma ids_updateNodeLevels n lvl rest :
  ids (updateNodeLevels n lvl :: rest) = ids (n :: rest).
Proof.
  rewrite !ids_cons, updateNodeLevels_eq. cbn [id children].
  now rewrite ids_updateNodeLevels_all.
Qed.

Lemma app_same_length_inj (A : Type) (a b c d : list A) :
  List.length a = List.length b -> a ++ c = b ++ d -> a = b /\ c = d.
Proof.
  revert b. induction a as [|x a IH]; intros [|y b] Hlen H; try discriminate.
  - auto.
  - cbn [app] in H. injection H as -> H. injection Hlen as Hlen.
    destruct (IH b Hlen H) as [-> ->]. auto.
Qed.

Lemma prefixb_nonempty_nil p x : prefixb (p ++ [x]) [] = false.
Proof. destruct p; reflexivity. Qed.

Lemma children_setChildren n c : children (setChildren n c) = c.
Proof. reflexivity. Qed.

(** When the path of the source is a prefix of the path of the target, the
    target is the source or one of its descendants. *)
Lemma prefix_inside s1 src s2 b1 t b2 :
  forall cs ct,
    fill cs (s1 ++ src :: s2) = fill ct (b1 ++ t :: b2) ->
    prefixb (holePath cs ++ [List.length s1]) (holePath ct ++ [List.length b1]) = true ->
    src = t \/ In (id t) (ids (children src)).
Proof.
  induction cs as [|pre o inner IH post]; intros [|pre' o' inner' post'];
    cbn [fill holePath app prefixb]; intros Hfill Hpre.
  - apply andb_prop in Hpre. destruct Hpre as [Hlen _].
    apply Nat.eqb_eq in Hlen.
    destruct (app_same_length_inj _ _ _ _ _ Hlen Hfill) as [_ E].
    injection E as E _. now left.
  - apply andb_prop in Hpre. destruct Hpre as [Hlen _].
    apply Nat.eqb_eq in Hlen.
    destruct (app_same_length_inj _ _ _ _ _ Hlen Hfill) as [_ E].
    injection E as E _. right. subst src. rewrite children_setChildren.
    apply in_ids_fill.
  - apply andb_prop in Hpre. destruct Hpre as [_ Hpre].
    now rewrite prefixb_nonempty_nil in Hpre.
  - apply andb_prop in Hpre. destruct Hpre as [Hlen Hpre].
    apply Nat.eqb_eq in Hlen.
    destruct (app_same_length_inj _ _ _ _ _ Hlen Hfill) as [_ E].
    assert (Hkids : fill inner (s1 ++ src :: s2) = fill inner' (b1 ++ t :: b2)).
    { exact (f_equal (fun l => match l with x :: _ => children x | [] => [] end) E). }
    exact (IH inner' Hkids Hpre).
Qed.

(** ** [moveNode] case by case *)

Lemma updParent_located tid f nodes c a1 t a2 :
  located nodes tid c a1 t a2 ->
  updParent tid f nodes = fill c (f (a1 ++ t :: a2)).
Proof.
  intros (-> & Hid & Hc & Ha1). unfold updParent.
  fold (updParentOpt tid f (fill c (a1 ++ t :: a2))).
  now rewrite (updParentOpt_located tid a1 t a2 Hid Ha1 f c Hc).
Qed.

Lemma updNode_located tid f nodes c a1 t a2 :
  located nodes tid c a1 t a2 ->
  updNode tid f nodes = fill c (a1 ++ f t :: a2).
Proof.
  intros (-> & Hid & Hc & Ha1). unfold updNode.
  fold (updNodeFrom tid f (fill c (a1 ++ t :: a2))).
  now rewrite (updNodeFrom_located tid a1 t a2 Hid Ha1 f c Hc).
Qed.

Lemma deleteNode_located tid nodes c a1 t a2 :
  located nodes tid c a1 t a2 ->
  deleteNode nodes tid = (true, fill c (a1 ++ a2)).
Proof.
  intros (-> & Hid & Hc & Ha1). unfold deleteNode.
  fold (deleteFrom tid (fill c (a1 ++ t :: a2))).
  now rewrite (deleteFrom_located tid a1 t a2 Hid Ha1 c Hc).
Qed.

Lemma deleteNode_absent tid nodes :
  ~ In tid (ids nodes) -> deleteNode nodes tid = (false, nodes).
Proof.
  intros H. unfold deleteNode. fold (deleteFrom tid nodes).
  now rewrite deleteFrom_absent.
Qed.

Lemma findNodeWithParent_of_located nodes tid c a1 t a2 :
  located nodes tid c a1 t a2 ->
  findNodeWithParent nodes tid = Some (t, a1 ++ t :: a2).
Proof.
  intros (-> & Hid & Hc & Ha1). now apply findNodeWithParent_located.
Qed.

Lemma findPath_of_located nodes tid c a1 t a2 :
  located nodes tid c a1 t a2 ->
  findPath nodes tid = Some (holePath c ++ [List.length a1]).
Proof.
  intros (-> & Hid & Hc & Ha1). now apply findPath_located.
Qed.

Lemma insideSource_descendant nodes nodeId targetId cs s1 src s2 ct b1 t b2 :
  located nodes nodeId cs s1 src s2 ->
  located nodes targetId ct b1 t b2 ->
  insideSource nodes nodeId targetId = true ->
  src = t \/ In targetId (ids (children src)).
Proof.
  intros Hs Ht. unfold insideSource.
  rewrite (findPath_of_located _ _ _ _ _ _ Hs), (findPath_of_located _ _ _ _ _ _ Ht).
  destruct Hs as (Es & _), Ht as (Et & Hid & _). intros Hpre.
  rewrite <- Hid. apply (prefix_inside s1 src s2 b1 t b2 cs ct); [congruence|assumption].
Qed.

(** The position at which [moveNode] puts [x] in the array of the target. *)
Definition spot (position : movePosition) (b1 : forest) (t : MindMapNode)
    (b2 : forest) (x : MindMapNode) : forest :=
  match position with
  | after => b1 ++ t :: x :: b2
  | _ => b1 ++ x :: t :: b2
  end.

Section MoveCases.
Variables (nodes : forest) (nodeId targetId : string).
Variables (cs : actx) (s1 : forest) (src : MindMapNode) (s2 : forest).
Variables (c0 : actx) (d1 : forest) (target : MindMapNode) (d2 : forest).
Hypothesis Hdiff : nodeId <> targetId.
Hypothesis Hsrc : located nodes nodeId cs s1 src s2.
Hypothesis Htgt : located nodes targetId c0 d1 target d2.

Let removed := fill cs (s1 ++ s2).

Lemma moveNode_inside mode position :
  insideSource nodes nodeId targetId = true ->
  fst (moveNode nodes nodeId targetId mode position) = removed.
Proof.
  intros Hin. unfold moveNode.
  rewrite (proj2 (String.eqb_neq _ _) Hdiff).
  rewrite (findNodeWithParent_of_located _ _ _ _ _ _ Hsrc).
  rewrite (findNodeWithParent_of_located _ _ _ _ _ _ Htgt).
  destruct Hsrc as (Es & Hids & Hcs & Hs1).
  rewrite (findIndex_located nodeId s1 src s2 Hids Hs1).
  rewrite (updParent_located _ _ _ _ _ _ _ Hsrc), removeAt_middle, Hin.
  fold removed. destruct mode; [|reflexivity].
  destruct Htgt as (Et & Hidt & Hct & Hd1).
  rewrite (findIndex_located targetId d1 target d2 Hidt Hd1).
  match goal with |- fst (if ?b then _ else _) = _ => destruct b end; reflexivity.
Qed.

Section Outside.
Variables (ct : actx) (b1 : forest) (t : MindMapNode) (b2 : forest).
Hypothesis Hout : insideSource nodes nodeId targetId = false.
Hypothesis Hnow : located removed targetId ct b1 t b2.

Lemma moveNode_child_outside position :
  moveNode nodes nodeId targetId child position =
  (fill ct (b1 ++ push (updateNodeLevels (setParentId src (Some (id target)))
                                          (level target + 1)) t :: b2),
   Returned true).
Proof.
  unfold moveNode.
  rewrite (proj2 (String.eqb_neq _ _) Hdiff).
  rewrite (findNodeWithParent_of_located _ _ _ _ _ _ Hsrc).
  rewrite (findNodeWithParent_of_located _ _ _ _ _ _ Htgt).
  destruct Hsrc as (Es & Hids & Hcs & Hs1).
  rewrite (findIndex_located nodeId s1 src s2 Hids Hs1).
  rewrite (updParent_located _ _ _ _ _ _ _ Hsrc), removeAt_middle, Hout.
  fold removed. now rewrite (updNode_located _ _ _ _ _ _ _ Hnow).
Qed.

Lemma moveNode_sibling_outside position :
  let tp := findParentNode (fill ct (spot position b1 t b2 src)) targetId in
  let newParentId := option_map id tp in
  let newLevel := match tp with Some p => level p + 1 | None => 1 end in
  moveNode nodes nodeId targetId sibling position =
  (fill ct (spot position b1 t b2
              (if negb (optEqb (parentId src) newParentId)
                  || negb (Nat.eqb (level src) newLevel)
               then updateNodeLevels (setParentId src newParentId) newLevel
               else src)),
   Returned true).
Proof.
  intros tp newParentId newLevel. unfold moveNode.
  rewrite (proj2 (String.eqb_neq _ _) Hdiff).
  rewrite (findNodeWithParent_of_located _ _ _ _ _ _ Hsrc).
  rewrite (findNodeWithParent_of_located _ _ _ _ _ _ Htgt).
  destruct Hsrc as (Es & Hids & Hcs & Hs1).
  rewrite (findIndex_located nodeId s1 src s2 Hids Hs1).
  rewrite (updParent_located _ _ _ _ _ _ _ Hsrc), removeAt_middle, Hout.
  fold removed.
  rewrite (findNodeWithParent_of_located _ _ _ _ _ _ Hnow).
  destruct Hnow as (En & Hidn & Hcn & Hb1).
  rewrite (findIndex_located targetId b1 t b2 Hidn Hb1).
  cbv zeta.
  assert (Hplace : forall x,
    updParent targetId
      (insertAt match position with
                | after => List.length b1 + 1
                | _ => List.length b1
                end x) removed = fill ct (spot position b1 t b2 x)).
  { intros x. rewrite (updParent_located _ _ _ _ _ _ _ Hnow).
    destruct position; cbn [spot];
      now rewrite ?insertAt_front, ?insertAt_behind. }
  rewrite !Hplace. fold tp. fold newParentId. fold newLevel.
  destruct (negb (optEqb (parentId src) newParentId) || negb (Nat.eqb (level src) newLevel));
    reflexivity.
Qed.
End Outside.
End MoveCases.

Lemma ids_setParentId n p rest : ids (setParentId n p :: rest) = ids (n :: rest).
Proof. now rewrite !ids_cons. Qed.

Lemma target_survives_removal targetId cs s1 src s2 :
  In targetId (ids (fill cs (s1 ++ src :: s2))) ->
  id src <> targetId ->
  ~ In targetId (ids (children src)) ->
  In targetId (ids (fill cs (s1 ++ s2))).
Proof.
  intros Hin Hne Hkids.
  apply (Permutation_in _ (ids_fill cs (s1 ++ src :: s2))) in Hin.
  apply (Permutation_in _ (Permutation_sym (ids_fill cs (s1 ++ s2)))).
  rewrite ids_app in *. rewrite ids_cons in Hin.
  apply in_app_or in Hin. apply in_or_app. destruct Hin as [H|H]; [now left|].
  right. apply in_app_or in H. apply in_or_app. destruct H as [H|H]; [now left|].
  destruct H as [H|H]; [contradiction|].
  apply in_app_or in H. destruct H as [H|H]; [contradiction|now right].
Qed.

Lemma outside_of_no_descendant nodes nodeId targetId cs s1 src s2 :
  nodeId <> targetId ->
  located nodes nodeId cs s1 src s2 ->
  findNodeById (children src) targetId = None ->
  insideSource nodes nodeId targetId = false.
Proof.
  intros Hdiff Hs Hnone.
  destruct (insideSource nodes nodeId targetId) eqn:Hin; [exfalso|reflexivity].
  assert (Hfound : exists pt, findPath nodes targetId = Some pt).
  { unfold insideSource in Hin. destruct (findPath nodes nodeId); [|discriminate].
    destruct (findPath nodes targetId) as [pt|]; [now exists pt|discriminate]. }
  destruct Hfound as (pt & Hpt).
  assert (Hids : In targetId (ids nodes)).
  { destruct (in_dec string_dec targetId (ids nodes)) as [H|H]; [assumption|].
    unfold findPath in Hpt. fold (findPathFrom targetId nodes 0) in Hpt.
    rewrite findPathFrom_absent in Hpt by assumption. discriminate. }
  destruct (located_exists _ _ Hids) as (ct & b1 & t & b2 & Ht).
  destruct (insideSource_descendant _ _ _ _ _ _ _ _ _ _ _ Hs Ht Hin) as [E|E].
  - destruct Hs as (_ & Hi & _), Ht as (_ & Hj & _). congruence.
  - now apply (not_found_not_in_ids _ _ Hnone).
Qed.

(** ** Putting a subtree into an array, taking one out *)

Fixpoint plug (c d : actx) : actx :=
  match c with
  | Here => d
  | Under pre o inner post => Under pre o (plug inner d) post
  end.

Lemma fill_plug c d arr : fill (plug c d) arr = fill c (fill d arr).
Proof.
  induction c as [|pre o inner IH post]; cbn [plug fill]; [reflexivity|].
  now rewrite IH.
Qed.

Lemma holeLevel_plug c d lvl : holeLevel lvl (plug c d) = holeLevel (holeLevel lvl c) d.
Proof. revert lvl. induction c; intros lvl; cbn [plug holeLevel]; auto. Qed.

Lemma holeParent_plug c d pid :
  holeParent pid (plug c d) = holeParent (holeParent pid c) d.
Proof. revert pid. induction c; intros pid; cbn [plug holeParent]; auto. Qed.

(** The array [children t] seen as the open array, with [t] in its place. *)
Definition below (c : actx) (a1 : forest) (t : MindMapNode) (a2 : forest) : actx :=
  plug c (Under a1 t Here a2).

Lemma fill_below c a1 t a2 kids :
  fill (below c a1 t a2) kids = fill c (a1 ++ setChildren t kids :: a2).
Proof. unfold below. now rewrite fill_plug. Qed.

Lemma fill_below_same c a1 t a2 :
  fill (below c a1 t a2) (children t) = fill c (a1 ++ t :: a2).
Proof. now rewrite fill_below, setChildren_same. Qed.

Lemma ids_single_app x rest : ids (x :: rest) = ids [x] ++ ids rest.
Proof. change (x :: rest) with ([x] ++ rest). apply ids_app. Qed.

Lemma ids_insert c a1 x a2 :
  Permutation (ids (fill c (a1 ++ x :: a2))) (ids [x] ++ ids (fill c (a1 ++ a2))).
Proof.
  rewrite (ids_fill c (a1 ++ x :: a2)), (ids_fill c (a1 ++ a2)).
  rewrite !ids_app, (ids_single_app x a2).
  rewrite (Permutation_app_swap_app (ids [x]) (ctxIds c)).
  apply Permutation_app_head. apply Permutation_app_swap_app.
Qed.

Lemma levels_insert c a1 x a2 lvl :
  forallb (levelsFrom lvl) (fill c (a1 ++ x :: a2)) =
  forallb (levelsFrom lvl) (fill c (a1 ++ a2)) && levelsFrom (holeLevel lvl c) x.
Proof.
  rewrite !levelsFrom_fill, !forallb_app. cbn [forallb]. btauto.
Qed.

Lemma parents_insert c a1 x a2 pid :
  forallb (parentsFrom pid) (fill c (a1 ++ x :: a2)) =
  forallb (parentsFrom pid) (fill c (a1 ++ a2)) && parentsFrom (holeParent pid c) x.
Proof.
  rewrite !parentsFrom_fill, !forallb_app. cbn [forallb]. btauto.
Qed.

(** ** Validity *)

Ltac norm_app := repeat (rewrite <- app_assoc || rewrite <- app_comm_cons).

Lemma in_flatten_split (nodes : forest) n :
  In n (flatten nodes) ->
  exists l1 l2, ids nodes = l1 ++ id n :: ids (children n) ++ l2.
Proof.
  induction nodes as [|m rest IHc IHr] using forest_ind2; [intros []|].
  rewrite flatten_cons, ids_cons. intros [->|H].
  - now exists [], (ids rest).
  - apply in_app_or in H. destruct H as [H|H].
    + destruct (IHc H) as (l1 & l2 & E). rewrite E.
      exists (id m :: l1), (l2 ++ ids rest). now norm_app.
    + destruct (IHr H) as (l1 & l2 & E). rewrite E.
      exists (id m :: ids (children m) ++ l1), l2. now norm_app.
Qed.

Lemma unique_acyclic nodes : uniqueIds nodes -> acyclic nodes.
Proof.
  intros Hu n Hn Hin. destruct (in_flatten_split _ _ Hn) as (l1 & l2 & E).
  unfold uniqueIds in Hu. rewrite E in Hu. apply NoDup_remove_2 in Hu.
  apply Hu. apply in_or_app. right. apply in_or_app. now left.
Qed.

Lemma valid_intro nodes :
  levelsOk nodes = true -> parentsOk nodes = true -> uniqueIds nodes -> valid nodes.
Proof. intros. constructor; auto using unique_acyclic. Qed.

Lemma unique_node (l : forest) x y :
  NoDup (map id l) -> In x l -> In y l -> id x = id y -> x = y.
Proof.
  induction l as [|z l IH]; [intros _ []|].
  cbn [map]. intros Hnd Hx Hy E. inversion Hnd as [|? ? Hz Hl]; subst.
  destruct Hx as [->|Hx], Hy as [->|Hy]; auto.
  - exfalso. apply Hz. rewrite E. now apply in_map.
  - exfalso. apply Hz. rewrite <- E. now apply in_map.
Qed.

(** Taking a subtree out leaves every other node as it was, up to its
    [children]. *)
Lemma removal_twin c a1 t a2 x :
  In x (flatten (fill c (a1 ++ a2))) ->
  exists x', In x' (flatten (fill c (a1 ++ t :: a2))) /\
             id x' = id x /\ level x' = level x /\ parentId x' = parentId x.
Proof.
  induction c as [|pre o inner IH post]; cbn [fill].
  - intros H. exists x. repeat split; auto.
    rewrite flatten_app in *. apply in_app_or in H. apply in_or_app.
    destruct H as [H|H]; [now left|right].
    rewrite flatten_cons. right. apply in_or_app. now right.
  - rewrite !flatten_app, !flatten_cons. intros H.
    apply in_app_or in H. destruct H as [H|[H|H]].
    + exists x. repeat split; auto. apply in_or_app. now left.
    + exists (setChildren o (fill inner (a1 ++ t :: a2))). subst x.
      repeat split; auto. apply in_or_app. right. now left.
    + cbn [children setChildren] in *. apply in_app_or in H. destruct H as [H|H].
      * destruct (IH H) as (x' & Hx' & E). exists x'. split; [|exact E].
        apply in_or_app. right. right. apply in_or_app. now left.
      * exists x. repeat split; auto.
        apply in_or_app. right. right. apply in_or_app. now right.
Qed.

Lemma in_flatten_fill c a1 t a2 : In t (flatten (fill c (a1 ++ t :: a2))).
Proof.
  induction c as [|pre o inner IH post]; cbn [fill].
  - apply in_flatten_top. apply in_or_app. right. now left.
  - rewrite flatten_app, flatten_cons. apply in_or_app. right. right.
    apply in_or_app. now left.
Qed.

Lemma levelsFrom_updateNodeLevels n lvl : levelsFrom lvl (updateNodeLevels n lvl) = true.
Proof.
  revert lvl. induction n as [n IH] using MindMapNode_forall_ind. intros lvl.
  rewrite updateNodeLevels_eq, levelsFrom_eq. cbn [level children].
  rewrite Nat.eqb_refl. cbn [andb]. rewrite forallb_forall.
  intros x Hx. apply in_map_iff in Hx. destruct Hx as (y & <- & Hy).
  rewrite Forall_forall in IH. now apply IH.
Qed.

Lemma forallb_map_in (A B : Type) (f : B -> bool) (g : A -> B) (h : A -> bool) l :
  (forall x, In x l -> f (g x) = h x) -> forallb f (map g l) = forallb h l.
Proof.
  induction l as [|a l IH]; intros H; [reflexivity|].
  cbn [map forallb]. rewrite H by now left.
  f_equal. apply IH. intros x Hx. apply H. now right.
Qed.

Lemma parentsFrom_updateNodeLevels n lvl pid :
  parentsFrom pid (updateNodeLevels n lvl) = parentsFrom pid n.
Proof.
  revert lvl pid. induction n as [n IH] using MindMapNode_forall_ind. intros lvl pid.
  rewrite updateNodeLevels_eq, !parentsFrom_eq. cbn [parentId id children].
  f_equal. apply forallb_map_in.
  intros x Hx. rewrite Forall_forall in IH. now apply IH.
Qed.

(** ** [findParentNode] in a forest without repeated identifiers *)

Lemma NoDup_app_disjoint (A : Type) (a b : list A) x :
  NoDup (a ++ b) -> In x a -> In x b -> False.
Proof.
  induction a as [|y a IH]; [intros _ []|].
  cbn [app]. intros Hnd Ha Hb. inversion Hnd as [|? ? Hy Hrest]; subst.
  destruct Ha as [->|Ha].
  - apply Hy. apply in_or_app. now right.
  - now apply IH.
Qed.

Fixpoint holeOwner (c : actx) (arr : forest) : option MindMapNode :=
  match c with
  | Here => None
  | Under _ o inner _ =>
      match holeOwner inner arr with
      | Some p => Some p
      | None => Some (setChildren o (fill inner arr))
      end
  end.

Lemma holeParent_owner c arr pid :
  holeParent pid c =
  match holeOwner c arr with Some p => Some (id p) | None => pid end.
Proof.
  revert pid. induction c as [|pre o inner IH post]; intros pid;
    cbn [holeParent holeOwner]; [reflexivity|].
  rewrite IH. now destruct (holeOwner inner arr).
Qed.

Lemma holeLevel_owner c arr lvl :
  ctxLevels lvl c = true ->
  holeLevel lvl c =
  match holeOwner c arr with Some p => level p + 1 | None => lvl end.
Proof.
  revert lvl. induction c as [|pre o inner IH post]; intros lvl;
    cbn [holeLevel holeOwner ctxLevels]; [reflexivity|].
  intros H. apply andb_prop in H. destruct H as [H _].
  apply andb_prop in H. destruct H as [H Hin].
  apply andb_prop in H. destruct H as [_ Ho]. apply Nat.eqb_eq in Ho.
  rewrite (IH _ Hin). destruct (holeOwner inner arr); [reflexivity|].
  cbn [level setChildren]. now rewrite Ho.
Qed.

Lemma in_ids_fill_any c arr t : In t arr -> In (id t) (ids (fill c arr)).
Proof.
  intros H. apply in_split in H. destruct H as (a1 & a2 & ->). apply in_ids_fill.
Qed.

Lemma existsb_top_false tid (l : forest) :
  (forall x, In x l -> id x <> tid) ->
  existsb (fun c => String.eqb (id c) tid) l = false.
Proof.
  induction l as [|n l IH]; intros H; [reflexivity|].
  cbn [existsb]. rewrite (eqb_id_false n tid) by (apply H; now left).
  apply IH. intros x Hx. apply H. now right.
Qed.

Lemma existsb_top_true (l : forest) t :
  In t l -> existsb (fun c => String.eqb (id c) (id t)) l = true.
Proof.
  intros H. apply existsb_exists. exists t. split; [assumption|apply String.eqb_refl].
Qed.

(** Identifiers of the proper descendants of the elements of an array. *)
Definition kidsIds (l : forest) : list string :=
  flat_map (fun n => ids (children n)) l.

Lemma findParentNode_no_kid tid (l : forest) :
  ~ In tid (kidsIds l) -> findParentNode l tid = None.
Proof.
  induction l as [|n l IH]; [reflexivity|].
  unfold kidsIds. cbn [flat_map]. intros H.
  assert (Hn : ~ In tid (ids (children n))) by (intros E; apply H; apply in_or_app; now left).
  assert (Hl : ~ In tid (kidsIds l)) by (intros E; apply H; apply in_or_app; now right).
  rewrite findParentNode_cons, existsb_id_absent, findParentNode_absent by assumption.
  now apply IH.
Qed.

Lemma kidsIds_incl tid (l : forest) : In tid (kidsIds l) -> In tid (ids l).
Proof.
  induction l as [|n l IH]; [intros []|].
  unfold kidsIds. cbn [flat_map]. rewrite ids_cons. intros H.
  apply in_app_or in H. right. apply in_or_app. destruct H; [now left|right; now apply IH].
Qed.

Lemma top_not_kid (l : forest) t :
  NoDup (ids l) -> In t l -> ~ In (id t) (kidsIds l).
Proof.
  induction l as [|n l IH]; [intros _ []|].
  rewrite ids_cons. unfold kidsIds. cbn [flat_map]. intros Hnd Ht Hk.
  inversion Hnd as [|? ? Hn Hrest]; subst.
  apply in_app_or in Hk. destruct Ht as [->|Ht], Hk as [Hk|Hk].
  - apply Hn. apply in_or_app. now left.
  - apply Hn. apply in_or_app. right. now apply kidsIds_incl.
  - apply (NoDup_app_disjoint _ _ _ (id t) Hrest); [assumption|].
    apply in_flatten_ids. now apply in_flatten_top.
  - apply NoDup_app_remove_l in Hrest. now apply (IH Hrest Ht).
Qed.

Lemma top_ids_distinct (pre : forest) n post tid x :
  NoDup (ids (pre ++ n :: post)) ->
  In tid (ids (children n)) ->
  In x (pre ++ n :: post) -> id x <> tid.
Proof.
  rewrite ids_app, ids_cons. intros Hnd Htid Hx E. subst tid.
  apply in_app_or in Hx. destruct Hx as [Hx|[->|Hx]].
  - apply (NoDup_app_disjoint _ _ _ (id x) Hnd).
    + apply in_flatten_ids. now apply in_flatten_top.
    + right. apply in_or_app. now left.
  - apply NoDup_app_remove_l in Hnd. inversion Hnd as [|? ? Hn _]; subst.
    apply Hn. apply in_or_app. now left.
  - apply NoDup_app_remove_l in Hnd. inversion Hnd as [|? ? _ Hrest]; subst.
    apply (NoDup_app_disjoint _ _ _ (id x) Hrest); [assumption|].
    apply in_flatten_ids. now apply in_flatten_top.
Qed.

Lemma holeOwner_under pre o inner post arr :
  exists p, holeOwner (Under pre o inner post) arr = Some p.
Proof. cbn [holeOwner]. destruct (holeOwner inner arr); eauto. Qed.

Lemma findParentNode_fill c arr t :
  In t arr ->
  NoDup (ids (fill c arr)) ->
  findParentNode (fill c arr) (id t) = holeOwner c arr.
Proof.
  intros Ht. induction c as [|pre o inner IH post]; cbn [fill holeOwner]; intros Hnd.
  - apply findParentNode_no_kid. now apply top_not_kid.
  - pose proof Hnd as Hall. rewrite ids_app, ids_setChildren in Hnd.
    assert (Hin : In (id t) (ids (fill inner arr))) by now apply in_ids_fill_any.
    assert (Hpre : ~ In (id t) (ids pre)).
    { intros E. apply (NoDup_app_disjoint _ _ _ (id t) Hnd E).
      right. apply in_or_app. now left. }
    rewrite findParentNode_skip by assumption.
    rewrite findParentNode_cons. cbn [children setChildren].
    assert (Hsub : NoDup (ids (fill inner arr))).
    { apply NoDup_app_remove_l in Hnd. inversion Hnd as [|? ? _ Hrest]; subst.
      now apply NoDup_app_remove_r in Hrest. }
    rewrite (IH Hsub).
    destruct inner as [|pre2 o2 inner2 post2].
    + cbn [fill holeOwner]. now rewrite existsb_top_true.
    + destruct (holeOwner_under pre2 o2 inner2 post2 arr) as (p & Hp). rewrite Hp.
      rewrite existsb_top_false; [reflexivity|].
      cbn [fill]. intros x Hx.
      apply (top_ids_distinct pre2 (setChildren o2 (fill inner2 arr)) post2 (id t) x);
        auto.
      cbn [children setChildren]. now apply in_ids_fill_any.
Qed.

(** ** The mutators keep the invariants *)

Lemma valid_remove c a1 x a2 :
  valid (fill c (a1 ++ x :: a2)) ->
  valid (fill c (a1 ++ a2)) /\
  levelsFrom (holeLevel 1 c) x = true /\
  parentsFrom (holeParent None c) x = true /\
  NoDup (ids [x] ++ ids (fill c (a1 ++ a2))).
Proof.
  intros [Hl Hp Hu _]. unfold levelsOk, parentsOk, uniqueIds in *.
  rewrite levels_insert in Hl. rewrite parents_insert in Hp.
  apply andb_prop in Hl. apply andb_prop in Hp.
  destruct Hl as [Hl Hlx], Hp as [Hp Hpx].
  pose proof (Permutation_NoDup (ids_insert c a1 x a2) Hu) as Hnd.
  split; [|split; [|split]]; auto.
  apply valid_intro; auto. now apply NoDup_app_remove_l in Hnd.
Qed.

Lemma valid_insert c a1 x a2 :
  valid (fill c (a1 ++ a2)) ->
  levelsFrom (holeLevel 1 c) x = true ->
  parentsFrom (holeParent None c) x = true ->
  NoDup (ids [x] ++ ids (fill c (a1 ++ a2))) ->
  valid (fill c (a1 ++ x :: a2)).
Proof.
  intros [Hl Hp Hu _] Hlx Hpx Hnd. apply valid_intro.
  - unfold levelsOk in *. now rewrite levels_insert, Hl, Hlx.
  - unfold parentsOk in *. now rewrite parents_insert, Hp, Hpx.
  - unfold uniqueIds.
    exact (Permutation_NoDup (Permutation_sym (ids_insert c a1 x a2)) Hnd).
Qed.

Lemma levelsFrom_level lvl x : levelsFrom lvl x = true -> level x = lvl.
Proof.
  rewrite levelsFrom_eq. intros H. apply andb_prop in H.
  now apply Nat.eqb_eq.
Qed.

Lemma parentsFrom_parent pid x :
  parentsFrom pid x = true ->
  parentId x = pid /\ forallb (parentsFrom (Some (id x))) (children x) = true.
Proof.
  rewrite parentsFrom_eq. intros H. apply andb_prop in H.
  destruct H as [H1 H2]. split; [now apply optEqb_eq|assumption].
Qed.

Lemma findNodeWithParent_absent nodes tid :
  ~ In tid (ids nodes) -> findNodeWithParent nodes tid = None.
Proof.
  intros H. unfold findNodeWithParent. fold (findWithParentFrom tid nodes nodes).
  now apply findWithParentFrom_absent.
Qed.

Lemma deleteNode_valid nodes nodeId :
  valid nodes -> valid (snd (deleteNode nodes nodeId)).
Proof.
  intros Hv. destruct (in_dec string_dec nodeId (ids nodes)) as [Hin|Hout].
  - destruct (located_exists _ _ Hin) as (c & a1 & t & a2 & Hloc).
    rewrite (deleteNode_located _ _ _ _ _ _ Hloc). cbn [snd].
    destruct Hloc as (-> & _). now apply valid_remove in Hv.
  - now rewrite deleteNode_absent.
Qed.

Lemma addSiblingNode_valid nodes targetId ttl newId :
  valid nodes -> ~ In newId (ids nodes) ->
  valid (snd (addSiblingNode nodes targetId ttl newId)).
Proof.
  intros Hv Hfresh. unfold addSiblingNode.
  fold (addSiblingFrom targetId ttl newId None nodes).
  destruct (in_dec string_dec targetId (ids nodes)) as [Hin|Hout].
  - destruct (located_exists _ _ Hin) as (c & a1 & t & a2 & -> & Hid & Hc & Ha1).
    rewrite (addSiblingFrom_located targetId a1 t a2 Hid Ha1 ttl newId None c Hc).
    cbn [snd].
    destruct (valid_remove _ _ _ _ Hv) as (_ & Hlt & _ & _).
    replace (a1 ++ t :: mkNode newId ttl (Some []) [] (level t) false (holeParent None c) :: a2)
      with ((a1 ++ [t]) ++ mkNode newId ttl (Some []) [] (level t) false (holeParent None c) :: a2)
      by now norm_app.
    apply valid_insert.
    + now norm_app.
    + rewrite levelsFrom_eq. cbn [level children forallb].
      rewrite (levelsFrom_level _ _ Hlt), Nat.eqb_refl. reflexivity.
    + rewrite parentsFrom_eq. cbn [parentId children forallb].
      now rewrite optEqb_refl.
    + norm_app. rewrite ids_cons, ids_nil. cbn [children app].
      constructor; [assumption|]. now destruct Hv.
  - now rewrite addSiblingFrom_absent.
Qed.

Lemma addChildNode_valid nodes targetId ttl newId :
  valid nodes -> ~ In newId (ids nodes) ->
  valid (snd (addChildNode nodes targetId ttl newId)).
Proof.
  intros Hv Hfresh. unfold addChildNode.
  destruct (findNodeById nodes targetId) as [target|] eqn:Hfind; [|assumption].
  destruct (located_exists _ _ (found_in_ids _ _ _ Hfind)) as (c & a1 & t & a2 & Hloc).
  pose proof Hloc as (-> & Hid & Hc & Ha1).
  rewrite (findNodeById_located targetId a1 t a2 Hid Ha1 c Hc) in Hfind.
  injection Hfind as <-. cbn [snd].
  rewrite (updNode_located _ _ _ _ _ _ _ Hloc). unfold push.
  rewrite <- fill_below.
  destruct (valid_remove _ _ _ _ Hv) as (_ & Hlt & _ & _).
  apply valid_insert.
  - now rewrite app_nil_r, fill_below_same.
  - unfold below. rewrite holeLevel_plug. cbn [holeLevel].
    rewrite levelsFrom_eq. cbn [level children forallb].
    rewrite (levelsFrom_level _ _ Hlt), Nat.eqb_refl. reflexivity.
  - unfold below. rewrite holeParent_plug. cbn [holeParent].
    rewrite parentsFrom_eq. cbn [parentId children forallb].
    now rewrite optEqb_refl.
  - rewrite app_nil_r, fill_below_same, ids_cons, ids_nil. cbn [children app].
    constructor; [assumption|]. now destruct Hv.
Qed.

Lemma addRootNode_valid nodes ttl newId :
  valid nodes -> ~ In newId (ids nodes) ->
  valid (snd (addRootNode nodes ttl newId)).
Proof.
  intros Hv Hfresh. unfold addRootNode. cbn [snd].
  apply (valid_insert Here nodes _ []).
  - cbn [fill]. now rewrite app_nil_r.
  - reflexivity.
  - reflexivity.
  - cbn [fill]. rewrite app_nil_r, ids_cons, ids_nil. cbn [children app].
    constructor; [assumption|]. now destruct Hv.
Qed.

Lemma moveNode_same nodes nodeId mode position :
  moveNode nodes nodeId nodeId mode position = (nodes, Returned false).
Proof. unfold moveNode. now rewrite String.eqb_refl. Qed.

Lemma moveNode_no_source nodes nodeId targetId mode position :
  ~ In nodeId (ids nodes) ->
  moveNode nodes nodeId targetId mode position = (nodes, Returned false).
Proof.
  intros H. unfold moveNode. destruct (String.eqb nodeId targetId); [reflexivity|].
  now rewrite (findNodeWithParent_absent _ _ H).
Qed.

Lemma moveNode_no_target nodes nodeId targetId mode position :
  ~ In targetId (ids nodes) ->
  moveNode nodes nodeId targetId mode position = (nodes, Returned false).
Proof.
  intros H. unfold moveNode. destruct (String.eqb nodeId targetId); [reflexivity|].
  rewrite (findNodeWithParent_absent _ _ H).
  now destruct (findNodeWithParent nodes nodeId) as [[? ?]|].
Qed.

Lemma moveNode_outside_absent nodes nodeId targetId mode position
    cs s1 src s2 c0 d1 target d2 :
  nodeId <> targetId ->
  located nodes nodeId cs s1 src s2 ->
  located nodes targetId c0 d1 target d2 ->
  insideSource nodes nodeId targetId = false ->
  ~ In targetId (ids (fill cs (s1 ++ s2))) ->
  fst (moveNode nodes nodeId targetId mode position) = fill cs (s1 ++ s2).
Proof.
  intros Hdiff Hsrc Htgt Hout Habs. unfold moveNode.
  rewrite (proj2 (String.eqb_neq _ _) Hdiff).
  rewrite (findNodeWithParent_of_located _ _ _ _ _ _ Hsrc).
  rewrite (findNodeWithParent_of_located _ _ _ _ _ _ Htgt).
  pose proof Hsrc as (Es & Hids & Hcs & Hs1).
  rewrite (findIndex_located nodeId s1 src s2 Hids Hs1).
  rewrite (updParent_located _ _ _ _ _ _ _ Hsrc), removeAt_middle, Hout.
  destruct mode.
  - now rewrite (findNodeWithParent_absent _ _ Habs).
  - cbn [fst]. unfold updNode.
    match goal with |- match updNodeIn _ ?f _ ?l with _ => _ end = _ =>
      fold (updNodeFrom targetId f l) end.
    now rewrite updNodeFrom_absent.
Qed.

Lemma spot_insert position b1 t b2 :
  exists a1 a2,
    (forall x, spot position b1 t b2 x = a1 ++ x :: a2) /\
    a1 ++ a2 = b1 ++ t :: b2 /\
    (forall x, In t (a1 ++ x :: a2)).
Proof.
  destruct position.
  - exists b1, (t :: b2). repeat split; auto.
    intros x. apply in_or_app. right. right. now left.
  - exists (b1 ++ [t]), b2. repeat split.
    + intros x. cbn [spot]. now norm_app.
    + now norm_app.
    + intros x. apply in_or_app. left. apply in_or_app. right. now left.
  - exists b1, (t :: b2). repeat split; auto.
    intros x. apply in_or_app. right. right. now left.
Qed.

Lemma moveNode_valid nodes nodeId targetId mode position :
  valid nodes -> valid (fst (moveNode nodes nodeId targetId mode position)).
Proof.
  intros Hv.
  destruct (string_dec nodeId targetId) as [->|Hdiff];
    [now rewrite moveNode_same|].
  destruct (in_dec string_dec nodeId (ids nodes)) as [Hsin|Hsout];
    [|now rewrite moveNode_no_source].
  destruct (in_dec string_dec targetId (ids nodes)) as [Htin|Htout];
    [|now rewrite moveNode_no_target].
  destruct (located_exists _ _ Hsin) as (cs & s1 & src & s2 & Hsrc).
  destruct (located_exists _ _ Htin) as (c0 & d1 & target & d2 & Htgt).
  assert (Hrem : valid (fill cs (s1 ++ s2)) /\
                 levelsFrom (holeLevel 1 cs) src = true /\
                 parentsFrom (holeParent None cs) src = true /\
                 NoDup (ids [src] ++ ids (fill cs (s1 ++ s2)))).
  { destruct Hsrc as (E & _). rewrite E in Hv. now apply valid_remove. }
  destruct Hrem as (Hvr & Hls & Hps & Hnd).
  destruct (insideSource nodes nodeId targetId) eqn:Hinside.
  { now rewrite (moveNode_inside nodes nodeId targetId cs s1 src s2 c0 d1 target d2
                   Hdiff Hsrc Htgt mode position Hinside). }
  destruct (in_dec string_dec targetId (ids (fill cs (s1 ++ s2)))) as [Hstill|Hgone].
  2:{ now rewrite (moveNode_outside_absent nodes nodeId targetId mode position
                     cs s1 src s2 c0 d1 target d2 Hdiff Hsrc Htgt Hinside Hgone). }
  destruct (located_exists _ _ Hstill) as (ct & b1 & t & b2 & Hnow).
  pose proof Hnow as (Enow & Hidt & Hct & Hb1).
  rewrite Enow in Hvr, Hnd.
  destruct (valid_remove _ _ _ _ Hvr) as (_ & Hlt & Hpt & _).
  destruct mode.
  - (* sibling *)
    rewrite (moveNode_sibling_outside nodes nodeId targetId cs s1 src s2
               c0 d1 target d2 Hdiff Hsrc Htgt ct b1 t b2 Hinside Hnow position).
    cbn [fst].
    destruct (spot_insert position b1 t b2) as (a1 & a2 & Hspot & Hbase & Hint).
    rewrite !Hspot. rewrite <- Hbase in Hvr, Hnd.
    assert (Hown : findParentNode (fill ct (a1 ++ src :: a2)) targetId
                   = holeOwner ct (a1 ++ src :: a2)).
    { rewrite <- Hidt. apply findParentNode_fill; [apply Hint|].
      exact (Permutation_NoDup (Permutation_sym (ids_insert ct a1 src a2)) Hnd). }
    rewrite Hown.
    assert (Hpid : option_map id (holeOwner ct (a1 ++ src :: a2)) = holeParent None ct).
    { rewrite (holeParent_owner ct (a1 ++ src :: a2)).
      now destruct (holeOwner ct (a1 ++ src :: a2)). }
    assert (Hlvl : match holeOwner ct (a1 ++ src :: a2) with
                   | Some p => level p + 1
                   | None => 1
                   end = holeLevel 1 ct).
    { symmetry. apply holeLevel_owner.
      destruct Hvr as [Hl _ _ _]. unfold levelsOk in Hl.
      rewrite levelsFrom_fill in Hl. now apply andb_prop in Hl. }
    rewrite Hpid, Hlvl.
    destruct (parentsFrom_parent _ _ Hps) as [Hsp Hskids].
    apply valid_insert; auto.
    + destruct (negb (optEqb (parentId src) (holeParent None ct))
                || negb (Nat.eqb (level src) (holeLevel 1 ct))) eqn:Hb.
      * apply levelsFrom_updateNodeLevels.
      * apply orb_false_elim in Hb. destruct Hb as [_ Hb].
        apply negb_false_iff, Nat.eqb_eq in Hb.
        rewrite <- Hb, (levelsFrom_level _ _ Hls). exact Hls.
    + destruct (negb (optEqb (parentId src) (holeParent None ct))
                || negb (Nat.eqb (level src) (holeLevel 1 ct))) eqn:Hb.
      * rewrite parentsFrom_updateNodeLevels, parentsFrom_eq.
        cbn [parentId id children setParentId]. now rewrite optEqb_refl, Hskids.
      * apply orb_false_elim in Hb. destruct Hb as [Hb _].
        apply negb_false_iff, optEqb_eq in Hb.
        rewrite <- Hb, Hsp. exact Hps.
    + destruct (negb (optEqb (parentId src) (holeParent None ct))
                || negb (Nat.eqb (level src) (holeLevel 1 ct))); [|assumption].
      now rewrite ids_updateNodeLevels, ids_setParentId.
  - (* child *)
    rewrite (moveNode_child_outside nodes nodeId targetId cs s1 src s2
               c0 d1 target d2 Hdiff Hsrc Htgt ct b1 t b2 Hinside Hnow position).
    cbn [fst]. unfold push. rewrite <- fill_below.
    assert (Hsame : id target = id t /\ level target = level t).
    { destruct (removal_twin cs s1 src s2 t) as (x' & Hx' & Ei & El & _).
      { rewrite Enow. apply in_flatten_fill. }
      destruct Hsrc as (Es & _). rewrite <- Es in Hx'.
      pose proof Htgt as (Et & Hidtarget & _).
      assert (Htarget : In target (flatten nodes)).
      { rewrite Et. apply in_flatten_fill. }
      assert (x' = target).
      { apply (unique_node (flatten nodes)); auto.
        - now destruct Hv.
        - congruence. }
      subst x'. now split. }
    destruct Hsame as [Esame Lsame].
    destruct (parentsFrom_parent _ _ Hps) as [Hsp Hskids].
    apply valid_insert.
    + now rewrite app_nil_r, fill_below_same.
    + unfold below. rewrite holeLevel_plug. cbn [holeLevel].
      rewrite Lsame, (levelsFrom_level _ _ Hlt).
      apply levelsFrom_updateNodeLevels.
    + unfold below. rewrite holeParent_plug. cbn [holeParent].
      rewrite parentsFrom_updateNodeLevels, parentsFrom_eq.
      cbn [parentId id children setParentId].
      now rewrite Esame, optEqb_refl, Hskids.
    + rewrite app_nil_r, fill_below_same.
      now rewrite ids_updateNodeLevels, ids_setParentId.
Qed.

Lemma existsb_eqb_in x (l : list string) :
  existsb (String.eqb x) l = true <-> In x l.
Proof.
  rewrite existsb_exists. split.
  - intros (y & Hy & E). apply String.eqb_eq in E. now subst.
  - intros H. exists x. split; [assumption|apply String.eqb_refl].
Qed.

Lemma distinct_NoDup l : distinct l = true -> NoDup l.
Proof.
  induction l as [|x l IH]; [constructor|].
  cbn [distinct]. intros H. apply andb_prop in H. destruct H as [Hx Hl].
  constructor; [|now apply IH].
  intros Hin. apply existsb_eqb_in in Hin. now rewrite Hin in Hx.
Qed.


(** ** The forest that [parse] builds *)

(** Everything [parse] keeps true of a node below a parent with
    identifier [pid]. *)
Fixpoint good (pid : option string) (n : MindMapNode) : bool :=
  optEqb (parentId n) pid && Nat.leb 1 (level n) && Nat.leb (level n) 6
  && forallb (fun c => Nat.ltb (level n) (level c) && good (Some (id n)) c) (children n).

Lemma good_eq pid n :
  good pid n =
  optEqb (parentId n) pid && Nat.leb 1 (level n) && Nat.leb (level n) 6
  && forallb (fun c => Nat.ltb (level n) (level c) && good (Some (id n)) c) (children n).
Proof. destruct n; reflexivity. Qed.

Lemma increasing_eq n :
  increasing n =
  forallb (fun c => Nat.ltb (level n) (level c) && increasing c) (children n).
Proof. destruct n; reflexivity. Qed.

Lemma forallb_impl (A : Type) (p q : A -> bool) (l : list A) :
  (forall x, In x l -> p x = true -> q x = true) ->
  forallb p l = true -> forallb q l = true.
Proof.
  intros H Hp. rewrite forallb_forall in *. intros x Hx. apply H; auto.
Qed.

Lemma good_parents n : forall pid, good pid n = true -> parentsFrom pid n = true.
Proof.
  induction n as [n IH] using MindMapNode_forall_ind. intros pid.
  rewrite good_eq, parentsFrom_eq. intros H.
  apply andb_prop in H. destruct H as [H Hk].
  apply andb_prop in H. destruct H as [H _].
  apply andb_prop in H. destruct H as [Hp _]. rewrite Hp. cbn [andb].
  rewrite Forall_forall in IH. revert Hk. apply forallb_impl.
  intros c Hc Hgood. apply andb_prop in Hgood. now apply IH.
Qed.

Lemma good_increasing n : forall pid, good pid n = true -> increasing n = true.
Proof.
  induction n as [n IH] using MindMapNode_forall_ind. intros pid.
  rewrite good_eq, increasing_eq. intros H.
  apply andb_prop in H. destruct H as [_ Hk].
  rewrite Forall_forall in IH. revert Hk. apply forallb_impl.
  intros c Hc Hgood. apply andb_prop in Hgood. destruct Hgood as [Hlt Hg].
  rewrite Hlt. cbn [andb]. now apply (IH c Hc (Some (id n))).
Qed.

Lemma good_bounded (l : forest) :
  forall q pid,
    forallb (fun c => q (level c) && good pid c) l = true ->
    forall n, In n (flatten l) -> 1 <= level n <= 6.
Proof.
  induction l as [|m rest IHc IHr] using forest_ind2; intros q pid H n Hn;
    [contradiction|].
  cbn [forallb] in H. apply andb_prop in H. destruct H as [Hm Hrest].
  apply andb_prop in Hm. destruct Hm as [_ Hm]. rewrite good_eq in Hm.
  apply andb_prop in Hm. destruct Hm as [Hm Hk].
  apply andb_prop in Hm. destruct Hm as [Hm Hhi].
  apply andb_prop in Hm. destruct Hm as [_ Hlo].
  rewrite flatten_cons in Hn. destruct Hn as [<-|Hn].
  - apply Nat.leb_le in Hlo, Hhi. lia.
  - apply in_app_or in Hn. destruct Hn as [Hn|Hn].
    + exact (IHc (fun l => Nat.ltb (level m) l) (Some (id m)) Hk n Hn).
    + exact (IHr q pid Hrest n Hn).
Qed.

(** The levels of the last node at depth 0, 1, ... *)
Inductive rightSpine : forest -> list nat -> Prop :=
| spine_none arr : rightSpine arr []
| spine_more front x lvls :
    rightSpine (children x) lvls -> rightSpine (front ++ [x]) (level x :: lvls).

Lemma splitLast_snoc (front : forest) x : splitLast (front ++ [x]) = Some (front, x).
Proof.
  unfold splitLast. rewrite rev_app_distr. cbn [rev app]. now rewrite rev_involutive.
Qed.

Lemma splitLast_some (arr front : forest) x :
  splitLast arr = Some (front, x) -> arr = front ++ [x].
Proof.
  unfold splitLast. destruct (rev arr) as [|y r] eqn:Hr; [discriminate|].
  intros H. injection H as <- <-. apply (f_equal (@rev _)) in Hr.
  now rewrite rev_involutive in Hr.
Qed.

Lemma rightSpine_prefix arr a b : rightSpine arr (a ++ b) -> rightSpine arr a.
Proof.
  revert arr. induction a as [|l a IH]; intros arr H; [constructor|].
  cbn [app] in H. inversion H as [|front x lvls Hx]; subst.
  constructor. now apply IH.
Qed.

Lemma forallb_snoc (A : Type) (p : A -> bool) l x :
  forallb p (l ++ [x]) = forallb p l && p x.
Proof. rewrite forallb_app. cbn [forallb]. now rewrite andb_true_r. Qed.

(** A change of the last node at some depth that leaves its links alone. *)
Lemma onSpine_same_links f :
  (forall n, id (f n) = id n /\ level (f n) = level n /\
             parentId (f n) = parentId n /\ children (f n) = children n) ->
  forall d arr q pid lvls,
    forallb (fun c => q (level c) && good pid c) arr = true ->
    rightSpine arr lvls ->
    forallb (fun c => q (level c) && good pid c) (onSpine d f arr) = true /\
    rightSpine (onSpine d f arr) lvls.
Proof.
  intros Hf. induction d as [|d IH]; intros arr q pid lvls Hgood Hspine.
  - cbn [onSpine]. destruct (splitLast arr) as [[front x]|] eqn:Hs; [|auto].
    apply splitLast_some in Hs. subst arr. rewrite forallb_snoc in *. apply andb_prop in Hgood.
    destruct Hgood as [Hfront Hx]. destruct (Hf x) as (Ei & El & Ep & Ec).
    split.
    + rewrite Hfront. cbn [andb]. rewrite El, good_eq, Ei, El, Ep, Ec.
      now rewrite <- good_eq.
    + inversion Hspine as [|front' x' lvls' Hx' Eq]; [constructor|].
      apply app_inj_tail in Eq. destruct Eq as [<- <-].
      rewrite <- El. constructor. now rewrite Ec.
  - cbn [onSpine]. destruct (splitLast arr) as [[front x]|] eqn:Hs; [|auto].
    apply splitLast_some in Hs. subst arr. rewrite forallb_snoc in *. apply andb_prop in Hgood.
    destruct Hgood as [Hfront Hx]. apply andb_prop in Hx. destruct Hx as [Hq Hx].
    rewrite good_eq in Hx. apply andb_prop in Hx. destruct Hx as [Hhead Hkids].
    assert (Hsub : rightSpine (children x) (tl lvls)).
    { inversion Hspine as [|front' x' lvls' Hx' Eq]; [constructor|].
      apply app_inj_tail in Eq. destruct Eq as [<- <-]. exact Hx'. }
    destruct (IH (children x) (fun l => Nat.ltb (level x) l) (Some (id x)) (tl lvls)
                 Hkids Hsub) as [Hk' Hs'].
    split.
    + rewrite Hfront. cbn [andb level setChildren]. rewrite Hq. cbn [andb].
      rewrite good_eq. cbn [parentId level id children setChildren].
      now rewrite Hhead, Hk'.
    + destruct lvls as [|l lvls']; [constructor|]. cbn [tl] in Hs'.
      inversion Hspine as [|front' x' lvls2 Hx' Eq]. subst lvls2.
      apply app_inj_tail in Eq. destruct Eq as [_ ->].
      change (level x) with (level (setChildren x (onSpine d f (children x)))).
      constructor. exact Hs'.
Qed.

(** Hanging a new leaf below the last node at the depth of the stack top. *)
Lemma onSpine_attach node :
  children node = [] -> 1 <= level node <= 6 ->
  forall lvls arr q pid,
    lvls <> [] ->
    rightSpine arr lvls ->
    forallb (fun c => q (level c) && good pid c) arr = true ->
    last lvls 0 < level node ->
    let f := fun parent => push (setParentId node (Some (id parent))) parent in
    forallb (fun c => q (level c) && good pid c)
            (onSpine (List.length lvls - 1) f arr) = true /\
    rightSpine (onSpine (List.length lvls - 1) f arr) (lvls ++ [level node]).
Proof.
  intros Hleaf Hbound. induction lvls as [|l lvls IH]; [congruence|].
  intros arr q pid _ Hspine Hgood Hlast f.
  inversion Hspine as [|front x lvls2 Hx Earr Elv]. subst arr lvls2 l.
  rewrite forallb_snoc in Hgood. apply andb_prop in Hgood.
  destruct Hgood as [Hfront Hgx]. apply andb_prop in Hgx. destruct Hgx as [Hq Hgx].
  rewrite good_eq in Hgx. apply andb_prop in Hgx. destruct Hgx as [Hhead Hkids].
  destruct lvls as [|l2 rest].
  - cbn [List.length Nat.sub onSpine]. rewrite splitLast_snoc.
    cbn [last] in Hlast. split.
    + rewrite forallb_snoc, Hfront. cbn [andb]. unfold f, push.
      cbn [level setChildren]. rewrite Hq. cbn [andb].
      rewrite good_eq. cbn [parentId level id children setChildren].
      rewrite Hhead. cbn [andb]. rewrite forallb_snoc, Hkids. cbn [andb].
      apply Nat.ltb_lt in Hlast. cbn [level setParentId]. rewrite Hlast. cbn [andb].
      rewrite good_eq. cbn [parentId level id children setParentId].
      rewrite Hleaf, optEqb_refl. cbn [forallb andb].
      destruct Hbound as [Hlo Hhi]. apply Nat.leb_le in Hlo, Hhi.
      now rewrite Hlo, Hhi.
    + unfold f, push. cbn [app].
      change (level x) with
        (level (setChildren x (children x ++ [setParentId node (Some (id x))]))).
      constructor. cbn [children setChildren].
      change (level node) with (level (setParentId node (Some (id x)))).
      constructor. constructor.
  - assert (Hlast' : last (l2 :: rest) 0 < level node) by exact Hlast.
    assert (Hne : l2 :: rest <> []) by discriminate.
    destruct (IH (children x) (fun l => Nat.ltb (level x) l) (Some (id x))
                 Hne Hx Hkids Hlast') as [Hk' Hs'].
    replace (List.length (level x :: l2 :: rest) - 1)
      with (S (List.length (l2 :: rest) - 1)) by (cbn [List.length]; lia).
    cbn [onSpine]. rewrite splitLast_snoc. split.
    + rewrite forallb_snoc, Hfront. cbn [andb level setChildren]. rewrite Hq.
      cbn [andb]. rewrite good_eq. cbn [parentId level id children setChildren].
      rewrite Hhead. cbn [andb]. exact Hk'.
    + cbn [app].
      match goal with |- rightSpine (front ++ [?y]) _ => change (level x) with (level y) end.
      constructor. exact Hs'.
Qed.

Lemma popWhile_suffix lvl stack :
  exists dropped,
    stack = dropped ++ popWhile lvl stack /\
    match popWhile lvl stack with
    | top :: _ => top < lvl
    | [] => True
    end.
Proof.
  induction stack as [|top rest IH]; [now exists []|].
  cbn [popWhile]. destruct (Nat.leb lvl top) eqn:Hle.
  - destruct IH as (dropped & E & Htop). exists (top :: dropped).
    split; [cbn [app]; now f_equal|exact Htop].
  - exists []. split; [reflexivity|]. now apply Nat.leb_gt in Hle.
Qed.

Lemma headingMatch_level line hashes body :
  headingMatch line = Some (hashes, body) -> 1 <= List.length hashes <= 6.
Proof.
  unfold headingMatch. destruct (span isHash line) as [h rest].
  destruct (Nat.leb 1 (List.length h) && Nat.leb (List.length h) 6) eqn:Hb;
    [|discriminate].
  apply andb_prop in Hb. destruct Hb as [Hlo Hhi].
  apply Nat.leb_le in Hlo, Hhi.
  destruct (span isWhiteSpace rest) as [ws b]. destruct b as [|c b].
  - destruct (rev ws) as [|c [|c2 r]]; try discriminate.
    destruct (isDot c); [|discriminate]. intros E. injection E as <- _. lia.
  - destruct ws; [discriminate|]. destruct (forallb isDot (c :: b)); [|discriminate].
    intros E. injection E as <- _. lia.
Qed.

(** The invariant of the loop of [parse]. *)
Definition parsing (st : parserState) : Prop :=
  forallb (fun c => true && good None c) (nodes st) = true /\
  rightSpine (nodes st) (rev (nodeStack st)).

Lemma setDescription_links d n :
  id (setDescription n d) = id n /\ level (setDescription n d) = level n /\
  parentId (setDescription n d) = parentId n /\
  children (setDescription n d) = children n.
Proof. repeat split. Qed.

Lemma saveDescription_parsing st : parsing st -> parsing (saveDescription st).
Proof.
  intros [Hg Hs]. unfold saveDescription.
  destruct (currentNode st) as [d|]; [|now split].
  destruct (descriptionLines st) as [|l ls]; [now split|].
  unfold parsing. cbn [nodes nodeStack].
  apply (onSpine_same_links _ (setDescription_links _) d (nodes st) (fun _ => true) None);
    assumption.
Qed.

Lemma saveDescription_stack st : nodeStack (saveDescription st) = nodeStack st.
Proof.
  unfold saveDescription. destruct (currentNode st); [|reflexivity].
  now destruct (descriptionLines st).
Qed.

Lemma parseLine_parsing generateId st line :
  parsing st -> parsing (parseLine generateId st line).
Proof.
  intros Hst. unfold parseLine.
  destruct (headingMatch line) as [[hashes rawTitle]|] eqn:Hm.
  - pose proof (headingMatch_level _ _ _ Hm) as Hlvl.
    pose proof (saveDescription_parsing st Hst) as [Hg Hs].
    set (st1 := saveDescription st) in *.
    set (node := mkNode (generateId (generated st1)) (trim rawTitle) None []
                        (List.length hashes) false None).
    destruct (popWhile_suffix (List.length hashes) (nodeStack st1))
      as (dropped & Estack & Htop).
    assert (Hpre : rightSpine (nodes st1) (rev (popWhile (List.length hashes) (nodeStack st1)))).
    { rewrite Estack, rev_app_distr in Hs. now apply rightSpine_prefix in Hs. }
    destruct (popWhile (List.length hashes) (nodeStack st1)) as [|top below] eqn:Hpop.
    + unfold parsing. cbn [nodes nodeStack rev app]. split.
      * rewrite forallb_snoc, Hg. cbn [andb]. rewrite good_eq. unfold node.
        cbn [parentId level children forallb optEqb andb].
        destruct Hlvl as [Hlo Hhi]. apply Nat.leb_le in Hlo, Hhi.
        now rewrite Hlo, Hhi.
      * change (List.length hashes) with (level node).
        apply (spine_more (nodes st1) node []). constructor.
    + unfold parsing. cbn [nodes nodeStack].
      assert (Hne : rev (top :: below) <> []).
      { cbn [rev]. intros E. apply app_eq_nil in E. destruct E; discriminate. }
      assert (Hlast : last (rev (top :: below)) 0 < level node).
      { cbn [rev]. rewrite last_last. exact Htop. }
      destruct (onSpine_attach node eq_refl Hlvl (rev (top :: below)) (nodes st1)
                  (fun _ => true) None Hne Hpre Hg Hlast) as [Hg' Hs'].
      replace (List.length (rev (top :: below)) - 1) with (List.length below) in Hg', Hs'
        by (rewrite length_rev; cbn [List.length]; lia).
      split; [exact Hg'|].
      change (rev (List.length hashes :: top :: below))
        with (rev (top :: below) ++ [level node]).
      exact Hs'.
  - destruct (currentNode st); [|assumption].
    destruct (trim line); assumption.
Qed.

Lemma fold_parsing generateId lines st :
  parsing st -> parsing (fold_left (parseLine generateId) lines st).
Proof.
  revert st. induction lines as [|l lines IH]; intros st Hst; [assumption|].
  cbn [fold_left]. apply IH. now apply parseLine_parsing.
Qed.

Lemma parse_good generateId markdown :
  forallb (fun c => true && good None c) (parse generateId markdown) = true.
Proof.
  unfold parse. apply saveDescription_parsing, fold_parsing.
  split; [reflexivity|constructor].
Qed.

(** ** Round trip of canonical documents *)

Lemma splitLines_line l :
  ~ In newline l -> splitLines l = [l].
Proof.
  induction l as [|c l IH]; [reflexivity|].
  intros H. cbn [splitLines].
  destruct (N.eqb c newline) eqn:E.
  - apply N.eqb_eq in E. exfalso. apply H. now left.
  - rewrite IH; [reflexivity|]. intros Hin. apply H. now right.
Qed.

Lemma splitLines_app_newline l rest :
  ~ In newline l -> splitLines (l ++ newline :: rest) = l :: splitLines rest.
Proof.
  induction l as [|c l IH]; intros H.
  - cbn [app splitLines]. now rewrite N.eqb_refl.
  - cbn [app splitLines]. destruct (N.eqb c newline) eqn:E.
    + apply N.eqb_eq in E. exfalso. apply H. now left.
    + rewrite IH; [reflexivity|]. intros Hin. apply H. now right.
Qed.

Lemma join_cons2 sep l l2 rest :
  join sep (l :: l2 :: rest) = l ++ sep ++ join sep (l2 :: rest).
Proof. reflexivity. Qed.

Lemma splitLines_join ls :
  ls <> [] -> Forall (fun l => ~ In newline l) ls ->
  splitLines (join [newline] ls) = ls.
Proof.
  induction ls as [|l ls IH]; [congruence|]. intros _ Hall.
  inversion Hall as [|? ? Hl Hls]; subst. destruct ls as [|l2 rest].
  - now apply splitLines_line.
  - rewrite join_cons2. cbn [app]. rewrite splitLines_app_newline by assumption.
    f_equal. apply IH; [discriminate|assumption].
Qed.

Lemma isDot_not_newline t : forallb isDot t = true -> ~ In newline t.
Proof.
  rewrite forallb_forall. intros H Hin. specialize (H _ Hin). discriminate H.
Qed.

Lemma in_repeat_eq (A : Type) (x y : A) n : In y (repeat x n) -> y = x.
Proof. intros H. now apply repeat_spec in H. Qed.

Lemma canonicalHeading_parts h :
  canonicalHeading h = true ->
  1 <= fst h <= 6 /\
  (exists c t, snd h = c :: t /\ isWhiteSpace c = false) /\
  isWhiteSpace (last (snd h) 0%N) = false /\
  forallb isDot (snd h) = true.
Proof.
  unfold canonicalHeading, canonicalTitle. intros H.
  apply andb_prop in H. destruct H as [H Ht].
  apply andb_prop in H. destruct H as [Hlo Hhi].
  apply andb_prop in Ht. destruct Ht as [Ht Hdot].
  apply andb_prop in Ht. destruct Ht as [Hfirst Hlast].
  apply Nat.leb_le in Hlo, Hhi. split; [lia|].
  split.
  - destruct (snd h) as [|c t]; [discriminate|]. exists c, t.
    split; [reflexivity|]. now apply negb_true_iff.
  - split; [now apply negb_true_iff|assumption].
Qed.

Lemma headingLine_no_newline h :
  canonicalHeading h = true -> ~ In newline (headingLine h).
Proof.
  intros H. destruct (canonicalHeading_parts h H) as (_ & _ & _ & Hdot).
  unfold headingLine. intros Hin. apply in_app_or in Hin.
  destruct Hin as [Hin|[Hin|Hin]].
  - apply in_repeat_eq in Hin. discriminate.
  - discriminate.
  - now apply (isDot_not_newline _ Hdot).
Qed.

Lemma span_repeat_hash k rest :
  match rest with [] => True | c :: _ => isHash c = false end ->
  span isHash (repeat hash k ++ rest) = (repeat hash k, rest).
Proof.
  intros Hrest. induction k as [|k IH].
  - cbn [repeat app]. destruct rest as [|c r]; [reflexivity|].
    cbn [span]. now rewrite Hrest.
  - cbn [repeat app span]. change (isHash hash) with true. cbv iota.
    now rewrite IH.
Qed.

Lemma trimStart_keeps c t : isWhiteSpace c = false -> trimStart (c :: t) = c :: t.
Proof. intros H. cbn [trimStart]. now rewrite H. Qed.

Lemma trimEnd_keeps t :
  t <> [] -> isWhiteSpace (last t 0%N) = false -> trimEnd t = t.
Proof.
  intros Hne Hlast. unfold trimEnd.
  destruct (exists_last Hne) as (front & c & ->).
  rewrite last_last in Hlast. rewrite rev_app_distr. cbn [rev app].
  rewrite trimStart_keeps by assumption.
  cbn [rev]. now rewrite rev_involutive.
Qed.

Lemma trim_canonical c t :
  isWhiteSpace c = false -> isWhiteSpace (last (c :: t) 0%N) = false ->
  trim (c :: t) = c :: t.
Proof.
  intros Hc Hl. unfold trim. rewrite trimStart_keeps by assumption.
  apply trimEnd_keeps; [discriminate|assumption].
Qed.

Lemma headingMatch_canonical h :
  canonicalHeading h = true ->
  headingMatch (headingLine h) = Some (repeat hash (fst h), snd h) /\
  trim (snd h) = snd h.
Proof.
  intros H. destruct (canonicalHeading_parts h H)
    as (Hk & (c & t & Et & Hc) & Hlast & Hdot).
  unfold headingMatch, headingLine.
  rewrite span_repeat_hash by reflexivity. rewrite repeat_length.
  destruct Hk as [Hlo Hhi]. apply Nat.leb_le in Hlo, Hhi. rewrite Hlo, Hhi.
  cbn [andb]. rewrite Et in *. cbn [span].
  change (isWhiteSpace space) with true. cbv iota. rewrite Hc.
  rewrite Hdot. split; [reflexivity|]. now apply trim_canonical.
Qed.

Lemma headingMatch_empty : headingMatch [] = None.
Proof. reflexivity. Qed.

(** What [serialize] reads of a node. *)
Definition info (n : MindMapNode) : nat * text * option text :=
  (level n, title n, description n).

Definition outlineOf (l : forest) : list (nat * text * option text) :=
  map info (flatten l).

Lemma outlineOf_app a b : outlineOf (a ++ b) = outlineOf a ++ outlineOf b.
Proof. unfold outlineOf. now rewrite flatten_app, map_app. Qed.

Lemma outlineOf_cons n rest :
  outlineOf (n :: rest) = info n :: outlineOf (children n) ++ outlineOf rest.
Proof. unfold outlineOf. rewrite flatten_cons. cbn [map]. now rewrite map_app. Qed.

Lemma onSpine_attach_outline node :
  children node = [] ->
  forall lvls arr,
    lvls <> [] ->
    rightSpine arr lvls ->
    outlineOf (onSpine (List.length lvls - 1)
                 (fun parent => push (setParentId node (Some (id parent))) parent) arr)
    = outlineOf arr ++ [info node].
Proof.
  intros Hleaf. induction lvls as [|l lvls IH]; [congruence|].
  intros arr _ Hspine.
  inversion Hspine as [|front x lvls2 Hx Earr Elv]. subst arr lvls2 l.
  destruct lvls as [|l2 rest].
  - cbn [List.length Nat.sub onSpine]. rewrite splitLast_snoc.
    rewrite !outlineOf_app, !outlineOf_cons. unfold push.
    cbn [children setChildren]. rewrite outlineOf_app, outlineOf_cons.
    cbn [children setParentId]. rewrite Hleaf.
    unfold outlineOf at 3 4 5. cbn [flatten flat_map map app].
    unfold info. cbn [level title description setChildren setParentId].
    rewrite !app_nil_r. now rewrite <- !app_assoc.
  - replace (List.length (level x :: l2 :: rest) - 1)
      with (S (List.length (l2 :: rest) - 1)) by (cbn [List.length]; lia).
    cbn [onSpine]. rewrite splitLast_snoc.
    rewrite !outlineOf_app, !outlineOf_cons. cbn [children setChildren].
    rewrite (IH (children x)) by (discriminate || assumption).
    unfold outlineOf at 3 5. cbn [flatten flat_map map app].
    unfold info at 1 3. cbn [level title description setChildren].
    rewrite !app_nil_r. now rewrite <- !app_assoc.
Qed.

Lemma saveDescription_idle st : descriptionLines st = [] -> saveDescription st = st.
Proof.
  intros H. unfold saveDescription. rewrite H. now destruct (currentNode st).
Qed.

Lemma parseLine_blank generateId st : parseLine generateId st [] = st.
Proof.
  unfold parseLine. rewrite headingMatch_empty.
  now destruct (currentNode st).
Qed.

Lemma parseLine_heading generateId st h :
  canonicalHeading h = true ->
  parsing st -> descriptionLines st = [] ->
  parsing (parseLine generateId st (headingLine h)) /\
  descriptionLines (parseLine generateId st (headingLine h)) = [] /\
  outlineOf (nodes (parseLine generateId st (headingLine h)))
  = outlineOf (nodes st) ++ [(fst h, snd h, None)].
Proof.
  intros Hh Hst Hidle. split; [now apply parseLine_parsing|].
  unfold parseLine. destruct (headingMatch_canonical h Hh) as [Hm Htrim].
  rewrite Hm, (saveDescription_idle st Hidle), Htrim, repeat_length.
  cbn [descriptionLines nodes]. split; [assumption|].
  destruct Hst as [_ Hs].
  destruct (popWhile_suffix (fst h) (nodeStack st)) as (dropped & Estack & _).
  assert (Hpre : rightSpine (nodes st) (rev (popWhile (fst h) (nodeStack st)))).
  { rewrite Estack, rev_app_distr in Hs. now apply rightSpine_prefix in Hs. }
  destruct (popWhile (fst h) (nodeStack st)) as [|top below].
  - rewrite outlineOf_app. f_equal.
  - pose proof (onSpine_attach_outline
                  (mkNode (generateId (generated st)) (snd h) None [] (fst h) false None)
                  eq_refl (rev (top :: below)) (nodes st)) as Hattach.
    replace (List.length (rev (top :: below)) - 1) with (List.length below) in Hattach
      by (rewrite length_rev; cbn [List.length]; lia).
    rewrite Hattach; [reflexivity| |assumption].
    cbn [rev]. intros E. apply app_eq_nil in E. destruct E; discriminate.
Qed.

Lemma fold_document generateId hs :
  Forall (fun h => canonicalHeading h = true) hs ->
  forall st,
    parsing st -> descriptionLines st = [] ->
    let st' := fold_left (parseLine generateId) (blankSeparated (map headingLine hs)) st in
    parsing st' /\ descriptionLines st' = [] /\
    outlineOf (nodes st') = outlineOf (nodes st) ++ map (fun h => (fst h, snd h, None)) hs.
Proof.
  induction 1 as [|h hs Hh Hhs IH]; intros st Hst Hidle.
  - cbn. now rewrite app_nil_r.
  - destruct (parseLine_heading generateId st h Hh Hst Hidle) as (Hp & Hd & Ho).
    destruct hs as [|h2 rest].
    + cbn [map blankSeparated fold_left]. auto.
    + change (blankSeparated (map headingLine (h :: h2 :: rest)))
        with (headingLine h :: [] :: blankSeparated (map headingLine (h2 :: rest))).
      cbn [fold_left]. rewrite parseLine_blank.
      destruct (IH _ Hp Hd) as (Hp' & Hd' & Ho').
      split; [exact Hp'|]. split; [exact Hd'|].
      rewrite Ho', Ho. now rewrite <- app_assoc.
Qed.

Lemma blankSeparated_no_newline hs :
  Forall (fun h => canonicalHeading h = true) hs ->
  Forall (fun l => ~ In newline l) (blankSeparated (map headingLine hs)).
Proof.
  induction 1 as [|h hs Hh Hhs IH]; [constructor|].
  destruct hs as [|h2 rest].
  - constructor; [now apply headingLine_no_newline|constructor].
  - change (blankSeparated (map headingLine (h :: h2 :: rest)))
      with (headingLine h :: [] :: blankSeparated (map headingLine (h2 :: rest))).
    constructor; [now apply headingLine_no_newline|].
    constructor; [intros []|exact IH].
Qed.

Lemma parse_document generateId hs :
  Forall (fun h => canonicalHeading h = true) hs ->
  outlineOf (parse generateId (document hs)) = map (fun h => (fst h, snd h, None)) hs.
Proof.
  intros Hall. unfold parse, document.
  destruct hs as [|h hs]; [reflexivity|].
  rewrite splitLines_join.
  - destruct (fold_document generateId (h :: hs) Hall (mkParser [] [] None [] 0))
      as (_ & Hd & Ho); [split; [reflexivity|constructor]|reflexivity|].
    now rewrite (saveDescription_idle _ Hd).
  - destruct hs; discriminate.
  - now apply blankSeparated_no_newline.
Qed.

(** The lines that [serialize] writes for one node, without its subtree. *)
Definition linesOf (i : nat * text * option text) : list text :=
  let '(lvl, ttl, d) := i in
  (repeat hash lvl ++ space :: ttl)
  :: match d with
     | Some (c :: r) => [[]; c :: r]
     | _ => []
     end
  ++ [[]].

Lemma serializeNode_eq n :
  serializeNode n = linesOf (info n) ++ flat_map serializeNode (children n).
Proof.
  destruct n as [i t d c l co p]. cbn [serializeNode info linesOf level title description children].
  cbn [app]. f_equal. now rewrite <- app_assoc.
Qed.

Lemma serialize_outline (l : forest) :
  flat_map serializeNode l = flat_map linesOf (outlineOf l).
Proof.
  induction l as [|n rest IHc IHr] using forest_ind2; [reflexivity|].
  rewrite outlineOf_cons. cbn [flat_map]. rewrite serializeNode_eq, flat_map_app.
  now rewrite IHc, IHr, <- app_assoc.
Qed.

Lemma linesOf_headings hs :
  flat_map linesOf (map (fun h : nat * text => (fst h, snd h, None)) hs)
  = flat_map (fun h => [headingLine h; []]) hs.
Proof.
  induction hs as [|h hs IH]; [reflexivity|].
  cbn [map flat_map linesOf app]. now rewrite IH.
Qed.

Lemma join_cons sep (l : text) rest :
  rest <> [] -> join sep (l :: rest) = l ++ sep ++ join sep rest.
Proof. destruct rest; [congruence|reflexivity]. Qed.

Lemma blankSeparated_cons (l : text) rest :
  rest <> [] -> blankSeparated (l :: rest) = l :: [] :: blankSeparated rest.
Proof. destruct rest; [congruence|reflexivity]. Qed.

Lemma blankSeparated_nonempty (ls : list text) : ls <> [] -> blankSeparated ls <> [].
Proof. destruct ls as [|l [|l2 rest]]; [congruence|discriminate|discriminate]. Qed.

Lemma join_blank_lines (ls : list text) :
  ls <> [] ->
  join [newline] (flat_map (fun l => [l; []]) ls)
  = join [newline] (blankSeparated ls) ++ [newline].
Proof.
  induction ls as [|l ls IH]; [congruence|]. intros _.
  destruct ls as [|l2 rest].
  - cbn [flat_map app blankSeparated join]. reflexivity.
  - assert (Hne : l2 :: rest <> []) by discriminate.
    rewrite (blankSeparated_cons l _ Hne).
    change (flat_map (fun l => [l; []]) (l :: l2 :: rest))
      with (l :: [] :: flat_map (fun l => [l; []]) (l2 :: rest)).
    rewrite (join_cons _ l) by discriminate.
    rewrite (join_cons _ []) by discriminate.
    rewrite (join_cons _ l) by discriminate.
    rewrite (join_cons _ []) by (now apply blankSeparated_nonempty).
    rewrite (IH Hne). cbn [app]. now rewrite <- !app_assoc.
Qed.

Lemma flat_map_headings hs :
  flat_map (fun h => [headingLine h; []]) hs
  = flat_map (fun l => [l; []]) (map headingLine hs).
Proof. induction hs as [|h hs IH]; [reflexivity|]. cbn [flat_map map app]. now rewrite IH. Qed.

Lemma join_blank_ends (ls : list text) l :
  exists front, join [newline] (blankSeparated (ls ++ [l])) = front ++ l.
Proof.
  induction ls as [|x ls (front & IH)].
  - now exists [].
  - assert (Hne : ls ++ [l] <> []) by (intros E; apply app_eq_nil in E; destruct E; discriminate).
    cbn [app]. rewrite (blankSeparated_cons x _ Hne).
    rewrite (join_cons _ x) by discriminate.
    rewrite (join_cons _ []) by (now apply blankSeparated_nonempty).
    rewrite IH. exists (x ++ [newline] ++ [] ++ [newline] ++ front).
    now rewrite <- !app_assoc.
Qed.

Lemma join_blank_starts (l : text) ls :
  exists back, join [newline] (blankSeparated (l :: ls)) = l ++ back.
Proof.
  destruct ls as [|l2 rest].
  - exists []. cbn [blankSeparated join]. now rewrite app_nil_r.
  - rewrite blankSeparated_cons by discriminate.
    rewrite join_cons by discriminate. eauto.
Qed.

Lemma last_app_nonempty (A : Type) (a b : list A) d :
  b <> [] -> last (a ++ b) d = last b d.
Proof.
  intros Hb. destruct (exists_last Hb) as (front & z & ->).
  now rewrite app_assoc, !last_last.
Qed.

Lemma trim_trailing_newline c d :
  isWhiteSpace c = false -> isWhiteSpace (last (c :: d) 0%N) = false ->
  trim ((c :: d) ++ [newline]) = c :: d.
Proof.
  intros Hc Hlast. unfold trim. cbn [app]. rewrite trimStart_keeps by assumption.
  unfold trimEnd. change (c :: d ++ [newline]) with ((c :: d) ++ [newline]).
  rewrite rev_app_distr. cbn [rev app trimStart].
  change (isWhiteSpace newline) with true. cbv iota.
  assert (Hne : c :: d <> []) by discriminate.
  destruct (exists_last Hne) as (front & z & E). rewrite E in *.
  rewrite last_last in Hlast.
  change (rev d ++ [c]) with (rev (c :: d)). rewrite E, rev_app_distr. cbn [rev app].
  rewrite trimStart_keeps by assumption. cbn [rev]. now rewrite rev_involutive.
Qed.

Lemma last_headingLine h :
  snd h <> [] -> last (headingLine h) 0%N = last (snd h) 0%N.
Proof.
  intros Hne. unfold headingLine.
  change (repeat hash (fst h) ++ space :: snd h)
    with (repeat hash (fst h) ++ [space] ++ snd h).
  rewrite app_assoc. now apply last_app_nonempty.
Qed.

Lemma document_shape h hs :
  Forall (fun h => canonicalHeading h = true) (h :: hs) ->
  exists d, document (h :: hs) = hash :: d /\
            isWhiteSpace (last (hash :: d) 0%N) = false.
Proof.
  intros Hall. unfold document.
  destruct (join_blank_starts (headingLine h) (map headingLine hs)) as (back & Estart).
  assert (Hhead : exists r, headingLine h = hash :: r).
  { inversion Hall as [|? ? Hh _]; subst.
    destruct (canonicalHeading_parts h Hh) as (Hk & _).
    unfold headingLine. destruct (fst h) as [|k]; [lia|]. cbn [repeat app]. eauto. }
  destruct Hhead as (r & Er).
  exists (r ++ back). split.
  - change (map headingLine (h :: hs)) with (headingLine h :: map headingLine hs).
    now rewrite Estart, Er.
  - assert (Hsplit : exists front z, h :: hs = front ++ [z]).
    { destruct (@exists_last _ (h :: hs)) as (front & z & E); [discriminate|eauto]. }
    destruct Hsplit as (front & z & E).
    change (hash :: r ++ back) with ((hash :: r) ++ back).
    rewrite <- Er, <- Estart.
    change (headingLine h :: map headingLine hs) with (map headingLine (h :: hs)).
    rewrite E, map_app. cbn [map].
    destruct (join_blank_ends (map headingLine front) (headingLine z)) as (f & Eend).
    rewrite Eend.
    assert (Hz : canonicalHeading z = true).
    { rewrite E in Hall. rewrite Forall_forall in Hall. apply Hall.
      apply in_or_app. right. now left. }
    destruct (canonicalHeading_parts z Hz) as (_ & (c & t & Et & _) & Hlast & _).
    assert (Hzne : snd z <> []) by (rewrite Et; discriminate).
    rewrite last_app_nonempty.
    + now rewrite last_headingLine.
    + unfold headingLine. intros Hnil. apply app_eq_nil in Hnil.
      destruct Hnil as [_ Hnil]. discriminate.
Qed.

(** ** Rounding to binary64 *)

Local Open Scope Q_scope.


Lemma Qltb_lt a b : Qltb a b = true <-> a < b.
Proof.
  unfold Qltb. rewrite negb_true_iff. split.
  - intros H. apply Qnot_le_lt. intros Hle. apply Qle_bool_iff in Hle. congruence.
  - intros H. destruct (Qle_bool b a) eqn:E; [|reflexivity].
    apply Qle_bool_iff in E. exfalso. now apply (Qlt_not_le _ _ H).
Qed.

Lemma Qltb_ge a b : Qltb a b = false <-> b <= a.
Proof. unfold Qltb. rewrite negb_false_iff. apply Qle_bool_iff. Qed.

Lemma pow2_pos e : 0 < pow2 e.
Proof. apply Qpower_0_lt. reflexivity. Qed.

Lemma pow2_add a b : pow2 (a + b) == pow2 a * pow2 b.
Proof. apply Qpower_plus. discriminate. Qed.

Lemma pow2_le a b : (a <= b)%Z -> pow2 a <= pow2 b.
Proof. intros H. apply Qpower_le_compat_l; [exact H|discriminate]. Qed.

Lemma pow2_lt_inv a b : pow2 a < pow2 b -> (a < b)%Z.
Proof. intros H. apply (Qpower_lt_compat_l_inv 2); [exact H|reflexivity]. Qed.

Lemma pow2_Z k : (0 <= k)%Z -> pow2 k == inject_Z (2 ^ k).
Proof. intros H. unfold pow2. now rewrite Zpower_Qpower. Qed.

Lemma Q_as_div (a : Q) : a == inject_Z (Qnum a) / inject_Z (Zpos (Qden a)).
Proof. destruct a as [n d]. cbn [Qnum Qden]. apply Qmake_Qdiv. Qed.

Lemma ilog2_spec a : 0 < a -> pow2 (ilog2 a) <= a /\ a < pow2 (ilog2 a + 1).
Proof.
  intros Ha.
  assert (Hn : (0 < Qnum a)%Z).
  { destruct a as [n d]. unfold Qlt in Ha. cbn in *. lia. }
  set (ln := Z.log2 (Qnum a)). set (ld := Z.log2 (Zpos (Qden a))).
  destruct (Z.log2_spec _ Hn) as [Hn1 Hn2]. fold ln in Hn1, Hn2.
  destruct (Z.log2_spec (Zpos (Qden a)) ltac:(lia)) as [Hd1 Hd2]. fold ld in Hd1, Hd2.
  assert (Hln : (0 <= ln)%Z) by apply Z.log2_nonneg.
  assert (Hld : (0 <= ld)%Z) by apply Z.log2_nonneg.
  set (N := inject_Z (Qnum a)). set (D := inject_Z (Zpos (Qden a))).
  assert (HD : 0 < D) by (unfold D, Qlt; cbn; lia).
  assert (EN1 : pow2 ln <= N) by (rewrite pow2_Z by lia; unfold N; now rewrite <- Zle_Qle).
  assert (EN2 : N < pow2 (ln + 1))
    by (rewrite pow2_Z by lia; unfold N; rewrite <- Zlt_Qlt; unfold Z.succ in Hn2; lia).
  assert (ED1 : pow2 ld <= D) by (rewrite pow2_Z by lia; unfold D; now rewrite <- Zle_Qle).
  assert (ED2 : D < pow2 (ld + 1))
    by (rewrite pow2_Z by lia; unfold D; rewrite <- Zlt_Qlt; unfold Z.succ in Hd2; lia).
  assert (Ea : a == N / D) by apply Q_as_div.
  unfold ilog2. fold ln ld.
  destruct (Qle_bool (pow2 (ln - ld)) a) eqn:E.
  - apply Qle_bool_iff in E. split; [exact E|].
    rewrite Ea. apply Qlt_shift_div_r; [exact HD|].
    apply (Qlt_le_trans _ _ _ EN2).
    replace (ln + 1)%Z with ((ln - ld + 1) + ld)%Z by lia.
    rewrite pow2_add. apply Qmult_le_l; [apply pow2_pos|exact ED1].
  - assert (E' : a < pow2 (ln - ld)).
    { apply Qnot_le_lt. intros H. apply Qle_bool_iff in H. congruence. }
    split; [|now replace (ln - ld - 1 + 1)%Z with (ln - ld)%Z by lia].
    rewrite Ea. apply Qle_shift_div_l; [exact HD|].
    apply (Qle_trans _ (pow2 ln)); [|exact EN1].
    replace ln with ((ln - ld - 1) + (ld + 1))%Z at 2 by lia.
    rewrite pow2_add. apply Qmult_le_l; [apply pow2_pos|now apply Qlt_le_weak].
Qed.

Lemma ilog2_mono x y : 0 < x -> x <= y -> (ilog2 x <= ilog2 y)%Z.
Proof.
  intros Hx Hxy.
  destruct (ilog2_spec x Hx) as [Hx1 _].
  destruct (ilog2_spec y (Qlt_le_trans _ _ _ Hx Hxy)) as [_ Hy2].
  assert (H : pow2 (ilog2 x) < pow2 (ilog2 y + 1)).
  { eapply Qle_lt_trans; [exact Hx1|]. eapply Qle_lt_trans; [exact Hxy|exact Hy2]. }
  apply pow2_lt_inv in H. lia.
Qed.

Lemma Qcompare_cases a b :
  match Qcompare a b with
  | Eq => a == b
  | Lt => a < b
  | Gt => b < a
  end.
Proof.
  destruct (Qcompare a b) eqn:E.
  - now apply Qeq_alt.
  - now apply Qlt_alt.
  - now apply Qgt_alt.
Qed.

Lemma roundHalfEven_cases s :
  (roundHalfEven s = Qfloor s /\ s - inject_Z (Qfloor s) <= 1 # 2) \/
  (roundHalfEven s = (Qfloor s + 1)%Z /\ 1 # 2 <= s - inject_Z (Qfloor s)).
Proof.
  unfold roundHalfEven.
  pose proof (Qcompare_cases (s - inject_Z (Qfloor s)) (1 # 2)) as E.
  destruct (Qcompare (s - inject_Z (Qfloor s)) (1 # 2)).
  - destruct (Z.even (Qfloor s)); [left|right]; (split; [reflexivity|lra]).
  - left. split; [reflexivity|lra].
  - right. split; [reflexivity|lra].
Qed.

Lemma roundHalfEven_mono s t : s <= t -> (roundHalfEven s <= roundHalfEven t)%Z.
Proof.
  intros Hst.
  pose proof (Qfloor_resp_le _ _ Hst) as Hf.
  destruct (Z.eq_dec (Qfloor s) (Qfloor t)) as [Ef|Nf].
  - unfold roundHalfEven. rewrite <- Ef.
    pose proof (Qcompare_cases (s - inject_Z (Qfloor s)) (1 # 2)) as Es.
    pose proof (Qcompare_cases (t - inject_Z (Qfloor s)) (1 # 2)) as Et.
    destruct (Qcompare (s - inject_Z (Qfloor s)) (1 # 2));
      destruct (Qcompare (t - inject_Z (Qfloor s)) (1 # 2));
      try (destruct (Z.even (Qfloor s))); try lia; exfalso; lra.
  - destruct (roundHalfEven_cases s) as [[-> _]|[-> _]];
      destruct (roundHalfEven_cases t) as [[-> _]|[-> _]]; lia.
Qed.

Lemma roundHalfEven_Z n : roundHalfEven (inject_Z n) = n.
Proof.
  destruct (roundHalfEven_cases (inject_Z n)) as [[-> _]|[_ H]].
  - apply Qfloor_Z.
  - rewrite Qfloor_Z in H. exfalso. lra.
Qed.

Lemma quantum_ge a : (-1074 <= quantum a)%Z /\ (ilog2 a - 52 <= quantum a)%Z.
Proof. unfold quantum. lia. Qed.

Lemma scaled_mono e x y : x <= y -> x / pow2 e <= y / pow2 e.
Proof.
  intros H. unfold Qdiv. apply Qmult_le_compat_r; [exact H|].
  apply Qinv_le_0_compat, Qlt_le_weak, pow2_pos.
Qed.

Lemma nearestUp_upper a :
  0 < a -> nearestUp a <= pow2 (quantum a + 53).
Proof.
  intros Ha. destruct (ilog2_spec a Ha) as [_ H2].
  destruct (quantum_ge a) as [_ Hq].
  unfold nearestUp. rewrite pow2_add, (Qmult_comm (pow2 (quantum a))).
  apply Qmult_le_compat_r; [|apply Qlt_le_weak, pow2_pos].
  rewrite (pow2_Z 53) by lia. rewrite <- Zle_Qle.
  rewrite <- (roundHalfEven_Z (2 ^ 53)). apply roundHalfEven_mono.
  rewrite <- (pow2_Z 53) by lia.
  apply Qle_shift_div_r; [apply pow2_pos|].
  rewrite <- pow2_add. apply Qlt_le_weak.
  apply (Qlt_le_trans _ _ _ H2). apply pow2_le. lia.
Qed.

Lemma nearestUp_lower a :
  0 < a -> quantum a = (ilog2 a - 52)%Z -> pow2 (ilog2 a) <= nearestUp a.
Proof.
  intros Ha Hq. destruct (ilog2_spec a Ha) as [H1 _].
  unfold nearestUp. rewrite Hq.
  replace (ilog2 a) with (52 + (ilog2 a - 52))%Z at 1 by lia.
  rewrite pow2_add. apply Qmult_le_compat_r; [|apply Qlt_le_weak, pow2_pos].
  rewrite (pow2_Z 52) by lia. rewrite <- Zle_Qle.
  rewrite <- (roundHalfEven_Z (2 ^ 52)) at 1. apply roundHalfEven_mono.
  rewrite <- (pow2_Z 52) by lia.
  apply Qle_shift_div_l; [apply pow2_pos|].
  rewrite <- pow2_add. now replace (52 + (ilog2 a - 52))%Z with (ilog2 a) by lia.
Qed.

Lemma nearestUp_mono x y : 0 < x -> x <= y -> nearestUp x <= nearestUp y.
Proof.
  intros Hx Hxy. assert (Hy : 0 < y) by (eapply Qlt_le_trans; eauto).
  pose proof (ilog2_mono x y Hx Hxy) as He.
  destruct (Z.eq_dec (quantum x) (quantum y)) as [Eq|Nq].
  - unfold nearestUp. rewrite <- Eq.
    apply Qmult_le_compat_r; [|apply Qlt_le_weak, pow2_pos].
    rewrite <- Zle_Qle. apply roundHalfEven_mono. now apply scaled_mono.
  - assert (Hlt : (quantum x < quantum y)%Z) by (unfold quantum in *; lia).
    assert (Hqy : quantum y = (ilog2 y - 52)%Z) by (unfold quantum in *; lia).
    apply (Qle_trans _ _ _ (nearestUp_upper x Hx)).
    apply (Qle_trans _ (pow2 (ilog2 y))); [apply pow2_le; lia|].
    now apply nearestUp_lower.
Qed.

Lemma nearestUp_nonneg a : 0 < a -> 0 <= nearestUp a.
Proof.
  intros Ha. unfold nearestUp.
  apply Qmult_le_0_compat; [|apply Qlt_le_weak, pow2_pos].
  change 0 with (inject_Z 0). rewrite <- Zle_Qle.
  rewrite <- (roundHalfEven_Z 0). apply roundHalfEven_mono.
  apply Qle_shift_div_l; [apply pow2_pos|]. rewrite Qmult_0_l. now apply Qlt_le_weak.
Qed.

Lemma Qnum_sign (q : Q) :
  match Qnum q with
  | Z0 => q == 0
  | Zpos _ => 0 < q
  | Zneg _ => q < 0
  end.
Proof. destruct q as [[|p|p] d]; cbn [Qnum]; unfold Qeq, Qlt; cbn; lia. Qed.

Lemma nearest_mono x y : x <= y -> nearest x <= nearest y.
Proof.
  intros Hxy. unfold nearest.
  pose proof (Qnum_sign x) as Sx. pose proof (Qnum_sign y) as Sy.
  destruct (Qnum x) eqn:Ex, (Qnum y) eqn:Ey; try (exfalso; lra).
  - apply Qle_refl.
  - now apply nearestUp_nonneg.
  - now apply nearestUp_mono.
  - assert (H : 0 <= nearestUp (- x)) by (apply nearestUp_nonneg; lra). lra.
  - assert (H : 0 <= nearestUp (- x)) by (apply nearestUp_nonneg; lra).
    assert (H' : 0 <= nearestUp y) by now apply nearestUp_nonneg. lra.
  - assert (H : nearestUp (- y) <= nearestUp (- x)) by (apply nearestUp_mono; lra). lra.
Qed.

Lemma nearest_comp x y : x == y -> nearest x == nearest y.
Proof.
  intros E. apply Qle_antisym; apply nearest_mono; rewrite E; apply Qle_refl.
Qed.

(** * Order of numbers *)

Definition notNaN (a : number) : bool :=
  match a with
  | NaN => false
  | _ => true
  end.

Lemma fl_cases q :
  (fl q = PosInfinity /\ pow2 1024 <= nearest q) \/
  (fl q = NegInfinity /\ nearest q <= - pow2 1024) \/
  (exists r, fl q = Finite r /\ r == nearest q /\
             - pow2 1024 < r /\ r < pow2 1024).
Proof.
  unfold fl. cbv zeta.
  destruct (Qle_bool (pow2 1024) (nearest q)) eqn:E1.
  { left. split; [reflexivity|now apply Qle_bool_iff]. }
  destruct (Qle_bool (nearest q) (- pow2 1024)) eqn:E2.
  { right. left. split; [reflexivity|now apply Qle_bool_iff]. }
  right. right. exists (Qred (nearest q)).
  split; [reflexivity|]. split; [apply Qred_correct|].
  rewrite Qred_correct. split; apply Qnot_le_lt; intros H; apply Qle_bool_iff in H; congruence.
Qed.

Lemma fl_notNaN q : notNaN (fl q) = true.
Proof.
  destruct (fl_cases q) as [[-> _]|[[-> _]|(r & -> & _)]]; reflexivity.
Qed.

Lemma fl_mono x y : x <= y -> flt (fl y) (fl x) = false.
Proof.
  intros Hxy. pose proof (nearest_mono x y Hxy) as Hn.
  pose proof (pow2_pos 1024) as Hp.
  destruct (fl_cases x) as [[-> Hx]|[[-> Hx]|(r & -> & Er & Hr1 & Hr2)]];
    destruct (fl_cases y) as [[-> Hy]|[[-> Hy]|(s & -> & Es & Hs1 & Hs2)]];
    cbn [flt]; try reflexivity; try (exfalso; lra).
  apply Qltb_ge. lra.
Qed.

Lemma fl_comp x y : x == y -> fl x = fl y.
Proof.
  intros E. pose proof (nearest_comp x y E) as En. unfold fl. cbv zeta.
  rewrite (Qred_complete _ _ En).
  assert (H1 : Qle_bool (pow2 1024) (nearest x) = Qle_bool (pow2 1024) (nearest y)).
  { apply eq_true_iff_eq. rewrite !Qle_bool_iff. now rewrite En. }
  assert (H2 : Qle_bool (nearest x) (- pow2 1024) = Qle_bool (nearest y) (- pow2 1024)).
  { apply eq_true_iff_eq. rewrite !Qle_bool_iff. now rewrite En. }
  now rewrite H1, H2.
Qed.

Lemma flt_irrefl a : flt a a = false.
Proof.
  destruct a; cbn [flt]; try reflexivity. apply Qltb_ge, Qle_refl.
Qed.

Lemma flt_asym a b : flt a b = true -> flt b a = false.
Proof.
  destruct a, b; cbn [flt]; try reflexivity; try discriminate.
  intros H. apply Qltb_lt in H. apply Qltb_ge. now apply Qlt_le_weak.
Qed.

Lemma flt_trans a b c : flt a b = true -> flt b c = true -> flt a c = true.
Proof.
  destruct a, b, c; cbn [flt]; try reflexivity; try discriminate.
  intros H1 H2. apply Qltb_lt in H1, H2. apply Qltb_lt. lra.
Qed.

Lemma flt_notNaN a b : flt a b = true -> notNaN a = true /\ notNaN b = true.
Proof. destruct a, b; cbn [flt notNaN]; auto; discriminate. Qed.

(** [a <= b] for numbers that are not [NaN], as a relation. *)
Definition ascending (a b : number) : Prop := flt b a = false.

Lemma ascending_trans a b c :
  notNaN b = true -> ascending a b -> ascending b c -> ascending a c.
Proof.
  unfold ascending.
  destruct a, b, c; cbn [flt notNaN]; try reflexivity; try discriminate.
  intros _ H1 H2. apply Qltb_ge in H1, H2. apply Qltb_ge. lra.
Qed.

Lemma ascending_total a b : ascending a b \/ ascending b a.
Proof.
  unfold ascending. destruct (flt b a) eqn:E; [right|now left].
  now apply flt_asym.
Qed.

(** * The grid of binary64 *)

Definition onGrid (q : Q) : Prop :=
  exists k : Z, q == inject_Z k * pow2 (-1074).

(** What an operation returns, [NaN] apart: an infinity, or a finite value
    of the grid, written in lowest terms. *)
Definition isDouble (a : number) : Prop :=
  match a with
  | Finite q => onGrid q /\ Qred q = q
  | NaN => False
  | _ => True
  end.

Lemma nearestUp_grid a : onGrid (nearestUp a).
Proof.
  destruct (quantum_ge a) as [Hq _]. unfold nearestUp.
  exists (roundHalfEven (a / pow2 (quantum a)) * 2 ^ (quantum a + 1074))%Z.
  rewrite inject_Z_mult, <- (pow2_Z (quantum a + 1074)) by lia.
  rewrite <- Qmult_assoc, <- pow2_add.
  now replace (quantum a + 1074 + -1074)%Z with (quantum a) by lia.
Qed.

Lemma onGrid_opp q : onGrid q -> onGrid (- q).
Proof.
  intros (k & E). exists (- k)%Z. rewrite E, inject_Z_opp. ring.
Qed.

Lemma onGrid_comp q r : q == r -> onGrid q -> onGrid r.
Proof. intros E (k & H). exists k. now rewrite <- E. Qed.

Lemma nearest_grid q : onGrid (nearest q).
Proof.
  unfold nearest. destruct (Qnum q).
  - exists 0%Z. ring.
  - apply nearestUp_grid.
  - apply onGrid_opp, nearestUp_grid.
Qed.

Lemma fl_double q : isDouble (fl q).
Proof.
  unfold fl. cbv zeta.
  destruct (Qle_bool (pow2 1024) (nearest q)); [exact I|].
  destruct (Qle_bool (nearest q) (- pow2 1024)); [exact I|].
  cbn [isDouble]. split.
  - apply (onGrid_comp (nearest q)); [symmetry; apply Qred_correct|apply nearest_grid].
  - apply Qred_complete, Qred_correct.
Qed.

Lemma isDouble_notNaN a : isDouble a -> notNaN a = true.
Proof. now destruct a. Qed.

Lemma nearest_least : nearest (pow2 (-1074)) == pow2 (-1074).
Proof. vm_compute. reflexivity. Qed.

Lemma nearest_zero : nearest 0 == 0.
Proof. reflexivity. Qed.

Lemma onGrid_gap x y : onGrid x -> onGrid y -> x < y -> pow2 (-1074) <= y - x.
Proof.
  intros (k & Ex) (j & Ey) H. pose proof (pow2_pos (-1074)) as Hp.
  assert (Hkj : (k < j)%Z).
  { rewrite Zlt_Qlt. apply (Qmult_lt_r _ _ (pow2 (-1074)) Hp). now rewrite <- Ex, <- Ey. }
  assert (Hd : y - x == inject_Z (j - k) * pow2 (-1074)).
  { rewrite Ex, Ey. unfold Zminus. rewrite inject_Z_plus, inject_Z_opp. ring. }
  rewrite Hd. rewrite <- (Qmult_1_l (pow2 (-1074))) at 1.
  apply Qmult_le_compat_r; [|now apply Qlt_le_weak].
  change 1 with (inject_Z 1). rewrite <- Zle_Qle. lia.
Qed.

Lemma fl_positive d : pow2 (-1074) <= d -> flt (Finite 0) (fl d) = true.
Proof.
  intros Hd. pose proof (pow2_pos (-1074)) as Hp.
  pose proof (nearest_mono _ _ Hd) as Hn. rewrite nearest_least in Hn.
  destruct (fl_cases d) as [[-> _]|[[-> H]|(r & -> & Er & _)]]; cbn [flt].
  - reflexivity.
  - exfalso. pose proof (pow2_pos 1024). lra.
  - apply Qltb_lt. lra.
Qed.

Lemma fl_nonpositive d : d <= 0 -> flt (Finite 0) (fl d) = false.
Proof.
  intros Hd. pose proof (nearest_mono _ _ Hd) as Hn. rewrite nearest_zero in Hn.
  destruct (fl_cases d) as [[-> H]|[[-> _]|(r & -> & Er & _)]]; cbn [flt].
  - exfalso. pose proof (pow2_pos 1024). lra.
  - reflexivity.
  - apply Qltb_ge. lra.
Qed.

(** The sign of [a - b] tells which of two doubles is greater. *)
Lemma fsub_sign a b :
  isDouble a -> isDouble b -> flt (Finite 0) (fsub a b) = flt b a.
Proof.
  destruct a as [x| | |], b as [y| | |]; cbn [isDouble]; try contradiction;
    intros Ha Hb; try reflexivity.
  destruct Ha as [Ha _], Hb as [Hb _].
  unfold fsub. cbn [fneg fadd flt].
  destruct (Qltb y x) eqn:E.
  - apply Qltb_lt in E. apply fl_positive.
    pose proof (onGrid_gap y x Hb Ha E). lra.
  - apply Qltb_ge in E. apply fl_nonpositive. lra.
Qed.

(** * Sorting *)

Section SortFacts.
Context {A : Type}.
Variable key : A -> number.

Let comparefn (a b : A) : number := fsub (key a) (key b).
Let ordered (a b : A) : Prop := ascending (key a) (key b).

Lemma insertSorted_perm (cmp : A -> A -> number) x l :
  Permutation (insertSorted cmp x l) (x :: l).
Proof.
  induction l as [|y l IH]; [reflexivity|].
  cbn [insertSorted]. destruct (flt (Finite 0) (cmp x y)); [|reflexivity].
  rewrite IH. apply perm_swap.
Qed.

Lemma sortWith_perm (cmp : A -> A -> number) l : Permutation (sortWith cmp l) l.
Proof.
  induction l as [|x l IH]; [reflexivity|].
  cbn [sortWith fold_right]. fold (sortWith cmp l).
  rewrite insertSorted_perm. now apply perm_skip.
Qed.

Lemma insertSorted_sorted x l :
  isDouble (key x) -> Forall (fun y => isDouble (key y)) l ->
  Sorted ordered l -> Sorted ordered (insertSorted comparefn x l).
Proof.
  intros Hx Hl Hs. induction Hs as [|y l Hs IH Hhd]; [repeat constructor|].
  inversion Hl as [|? ? Hy Hl']; subst.
  cbn [insertSorted]. unfold comparefn at 1. rewrite (fsub_sign _ _ Hx Hy).
  destruct (flt (key y) (key x)) eqn:E.
  - constructor; [now apply IH|].
    assert (Hyx : ordered y x) by (now apply flt_asym).
    destruct l as [|z l]; cbn [insertSorted]; [now constructor|].
    destruct (flt (Finite 0) (comparefn x z)); constructor;
      solve [assumption | now inversion Hhd].
  - constructor; [now constructor|]. now constructor.
Qed.

Lemma sortWith_sorted l :
  Forall (fun y => isDouble (key y)) l -> Sorted ordered (sortWith comparefn l).
Proof.
  induction 1 as [|x l Hx Hl IH]; [constructor|].
  cbn [sortWith fold_right]. apply insertSorted_sorted; auto.
  rewrite Forall_forall in *. intros y Hy. apply Hl.
  now apply (Permutation_in _ (sortWith_perm comparefn l)).
Qed.

(** In a sorted list of doubles the first element is a least one and the
    last element a greatest one. *)
Lemma sorted_ends l :
  Forall (fun y => isDouble (key y)) l -> Sorted ordered l ->
  forall d y, In y l -> ordered (hd d l) y /\ ordered y (last l d).
Proof.
  intros Hl Hs.
  assert (Hrefl : forall y, ordered y y) by (intros y; apply flt_irrefl).
  induction Hs as [|x l Hs IH Hhd]; intros d y Hy; [contradiction|].
  inversion Hl as [|? ? Hx Hl']; subst. specialize (IH Hl').
  cbn [hd]. destruct l as [|z l].
  - destruct Hy as [<-|[]]. split; apply Hrefl.
  - change (last (x :: z :: l) d) with (last (z :: l) d).
    assert (Hxz : ordered x z) by now inversion Hhd.
    assert (Hz : isDouble (key z)) by now inversion Hl'.
    destruct Hy as [<-|Hy].
    + split; [apply Hrefl|].
      apply (ascending_trans _ (key z)); [now apply isDouble_notNaN|exact Hxz|].
      exact (proj2 (IH d z (or_introl eq_refl))).
    + destruct (IH d y Hy) as [H1 H2]. split; [|exact H2].
      apply (ascending_trans _ (key z)); [now apply isDouble_notNaN|exact Hxz|exact H1].
Qed.
End SortFacts.

Lemma ascending_antisym (a b : number) :
  isDouble a -> isDouble b -> ascending a b -> ascending b a -> a = b.
Proof.
  unfold ascending.
  destruct a as [x| | |], b as [y| | |]; cbn [isDouble flt];
    try contradiction; try discriminate; try reflexivity.
  intros [_ Hx] [_ Hy] H1 H2. apply Qltb_ge in H1, H2.
  assert (E : x == y) by now apply Qle_antisym.
  rewrite <- Hx, <- Hy. f_equal. now apply Qred_complete.
Qed.

(** Doubles can be put in ascending order in one way only. *)
Lemma sorted_unique (l1 : list number) :
  forall l2,
    Forall isDouble l1 -> Sorted ascending l1 -> Sorted ascending l2 ->
    Permutation l1 l2 -> l1 = l2.
Proof.
  induction l1 as [|x l1 IH]; intros l2 Hd Hs1 Hs2 Hp.
  - apply Permutation_nil in Hp. now subst.
  - destruct l2 as [|y l2]; [now apply Permutation_sym, Permutation_nil in Hp|].
    assert (Hd2 : Forall isDouble (y :: l2)).
    { rewrite Forall_forall in *. intros z Hz. apply Hd.
      now apply (Permutation_in _ (Permutation_sym Hp)). }
    assert (Hxy : x = y).
    { assert (Hyin : In y (x :: l1))
        by (apply (Permutation_in _ (Permutation_sym Hp)); now left).
      assert (Hxin : In x (y :: l2)) by (apply (Permutation_in _ Hp); now left).
      destruct (sorted_ends (fun a => a) _ Hd Hs1 x y Hyin) as [H1 _].
      destruct (sorted_ends (fun a => a) _ Hd2 Hs2 y x Hxin) as [H2 _].
      cbn [hd] in H1, H2.
      inversion Hd; inversion Hd2; subst. now apply ascending_antisym. }
    subst y. f_equal. apply IH.
    + now inversion Hd.
    + now inversion Hs1.
    + now inversion Hs2.
    + now apply Permutation_cons_inv in Hp.
Qed.

(** ** The arithmetic agrees with the machine *)

(** On the sample values, sums, differences, products, quotients,
    comparisons and absolute values of the model are those of the
    processor's binary64 arithmetic, and decimal literals denote the same
    numbers. *)
Lemma arithmetic_agrees_with_binary64 :
  forallb (fun a => forallb (agreeOn a) machineSamples) machineSamples = true /\
  literalsAgree = true.
Proof. split; vm_compute; reflexivity. Qed.

Local Close Scope Q_scope.

(** ** Zones, centers and frames *)

(** The literals of the renderer are binary64 values. *)
Lemma double_literals :
  double 0 = Finite 0 /\ double 1 = Finite 1 /\ double 2 = Finite 2 /\
  double 0.25 = Finite (1 # 4) /\ double 0.75 = Finite (3 # 4) /\
  double 8 = Finite 8 /\ double 12 = Finite 12 /\ double 24 = Finite 24 /\
  double 32 = Finite 32.
Proof. vm_compute. repeat split; reflexivity. Qed.

(** For a height that is not negative the top zone ends before the bottom
    zone begins. *)
Lemma zones_ordered (h : number) :
  flt h (double 0) = false ->
  flt (fmul h (double 0.75)) (fmul h (double 0.25)) = false.
Proof.
  destruct double_literals as (E0 & _ & _ & E1 & E3 & _). rewrite E0, E1, E3.
  destruct h as [q| | |]; [|reflexivity|discriminate|reflexivity].
  cbn [flt fmul]. intros H. apply Qltb_ge in H. apply fl_mono. lra.
Qed.

Lemma zones_disjoint (h y : number) :
  flt h (double 0) = false ->
  flt y (fmul h (double 0.25)) = true ->
  flt (fmul h (double 0.75)) y = false.
Proof.
  intros Hh Htop.
  destruct (flt (fmul h (double 0.75)) y) eqn:Hbot; [|reflexivity].
  pose proof (flt_trans _ _ _ Hbot Htop) as H.
  now rewrite (zones_ordered h Hh) in H.
Qed.

(** Numbers that [snap] keeps apart from [NaN]. *)
Lemma fadd_finite t (b : number) : notNaN b = true -> isDouble (fadd (Finite t) b).
Proof.
  destruct b as [x| | |]; cbn [fadd isDouble notNaN]; auto; [|discriminate].
  intros _. apply fl_double.
Qed.

Lemma Qcompare_nonzero d : ~ (d == 0)%Q -> Qcompare d 0 <> Eq.
Proof. intros Hd E. apply Hd. now apply Qeq_alt. Qed.

Lemma snap_double d (v : number) :
  ~ (d == 0)%Q -> notNaN v = true -> isDouble (snap (Finite d) v).
Proof.
  intros Hd Hv. pose proof (Qcompare_nonzero d Hd) as Hs.
  assert (Hz : Qeq_bool d 0 = false).
  { destruct (Qeq_bool d 0) eqn:E; [|reflexivity]. apply Qeq_bool_iff in E. contradiction. }
  unfold snap.
  assert (Hm : isDouble (fmul v (Finite d))).
  { destruct v as [x| | |]; cbn [fmul signOf signed isDouble]; try discriminate.
    - apply fl_double.
    - destruct (Qcompare d 0); cbn [isDouble]; auto.
    - destruct (Qcompare d 0); cbn [isDouble]; auto. }
  assert (Hr : isDouble (mathRound (fmul v (Finite d)))).
  { destruct (fmul v (Finite d)); cbn [mathRound]; auto. apply fl_double. }
  destruct (mathRound (fmul v (Finite d))) as [x| | |]; cbn [isDouble] in Hr;
    try contradiction; cbn [fdiv signOf]; rewrite Hz.
  - apply fl_double.
  - destruct (Qcompare d 0); cbn [signed isDouble]; auto.
  - destruct (Qcompare d 0); cbn [signed isDouble]; auto.
Qed.

(** The pixel ratio that the renderer works with is finite and not zero
    when the window reports a finite one. *)
Lemma pixelRatio_usable (devicePixelRatio : number) :
  isFinite devicePixelRatio = true ->
  exists d,
    (if toBoolean devicePixelRatio then devicePixelRatio else double 1) = Finite d /\
    ~ (d == 0)%Q.
Proof.
  destruct double_literals as (_ & E1 & _).
  destruct devicePixelRatio as [d| | |]; try discriminate. intros _.
  cbn [toBoolean]. destruct (Qeq_bool d 0) eqn:E; cbn [negb].
  - exists 1%Q. split; [exact E1|discriminate].
  - exists d. split; [reflexivity|]. intros H. apply Qeq_bool_iff in H. congruence.
Qed.

Definition measured (r : DOMRect) : bool :=
  isFinite (rectTop r) && isFinite (rectHeight r).

(** The cards of a wrapper report finite numbers. *)
Definition measuredBoxes (w : wrapperBoxes) : bool :=
  match ownCard w with
  | Some r => measured r
  | None => true
  end
  && match childCards w with
     | Some cards => forallb measured (present cards)
     | None => true
     end.

Lemma centerY_double d (r : DOMRect) :
  ~ (d == 0)%Q -> measured r = true -> isDouble (centerY (Finite d) r).
Proof.
  intros Hd Hm. unfold measured in Hm. apply andb_prop in Hm. destruct Hm as [Ht Hh].
  destruct (rectTop r) as [t| | |] eqn:Et; try discriminate.
  destruct (rectHeight r) as [h| | |] eqn:Eh; try discriminate.
  unfold centerY. rewrite Et, Eh. apply snap_double; [exact Hd|].
  apply isDouble_notNaN, fadd_finite.
  destruct double_literals as (_ & _ & E2 & _). rewrite E2. cbn [fdiv].
  change (Qeq_bool 2 0) with false. cbv iota. apply fl_notNaN.
Qed.

Lemma sortNumbers_perm l : Permutation (sortNumbers l) l.
Proof. apply sortWith_perm. Qed.

Lemma sortNumbers_length l : List.length (sortNumbers l) = List.length l.
Proof. apply Permutation_length, sortNumbers_perm. Qed.

Lemma sortNumbers_sorted l :
  Forall isDouble l -> Sorted ascending (sortNumbers l).
Proof. intros H. exact (sortWith_sorted (fun x => x) l H). Qed.

(** A list of one or more elements has an odd or an even length. *)
Lemma length_parity (A : Type) (l : list A) :
  l <> [] ->
  exists k, List.length l = 2 * k + 1 \/ List.length l = 2 * k + 2.
Proof.
  intros Hne. destruct l as [|x l]; [congruence|]. cbn [List.length].
  exists (List.length l / 2).
  pose proof (Nat.div_mod_eq (List.length l) 2) as E.
  pose proof (Nat.mod_upper_bound (List.length l) 2 ltac:(discriminate)) as Hb.
  lia.
Qed.

Lemma median_odd (centers : list number) k :
  List.length centers = 2 * k + 1 -> median centers = nth k centers NaN.
Proof.
  intros H. unfold median. rewrite H.
  replace (Nat.modulo (2 * k + 1) 2) with 1.
  - cbn [Nat.eqb]. f_equal.
    replace (2 * k + 1 - 1) with (k * 2) by lia. apply Nat.div_mul. discriminate.
  - symmetry. rewrite Nat.add_comm, Nat.mul_comm. rewrite Nat.Div0.mod_add. reflexivity.
Qed.

Lemma median_even (centers : list number) k :
  List.length centers = 2 * k + 2 ->
  median centers = fdiv (fadd (nth k centers NaN) (nth (k + 1) centers NaN)) (double 2).
Proof.
  intros H. unfold median. rewrite H.
  replace (Nat.modulo (2 * k + 2) 2) with 0.
  - cbn [Nat.eqb].
    replace ((2 * k + 2) / 2) with (k + 1).
    + now replace (k + 1 - 1) with k by lia.
    + replace (2 * k + 2) with ((k + 1) * 2) by lia. symmetry. apply Nat.div_mul. discriminate.
  - symmetry. replace (2 * k + 2) with (0 + (k + 1) * 2) by lia.
    rewrite Nat.Div0.mod_add. reflexivity.
Qed.

Lemma runFrames_more fuel facts :
  forall k passes r,
    runFrames fuel facts k passes = Some r ->
    runFrames (S fuel) facts k passes = Some r.
Proof.
  induction fuel as [|fuel IH]; intros k passes r H; [discriminate|].
  cbn [runFrames] in H. change (runFrames (S (S fuel)) facts k passes)
    with (let r0 := onFrame (facts k) passes in
          if scheduledAgain r0 then
            match runFrames (S fuel) facts (S k) (normalizePasses r0) with
            | Some (n, final) => Some (S n, final)
            | None => None
            end
          else Some (1, normalizePasses r0)).
  cbv zeta in *. destruct (scheduledAgain (onFrame (facts k) passes)); [|exact H].
  destruct (runFrames fuel facts (S k) (normalizePasses (onFrame (facts k) passes)))
    as [[n final]|] eqn:E; [|discriminate].
  now rewrite (IH _ _ _ E).
Qed.

Lemma runFrames_enough fuel fuel' facts k passes r :
  fuel <= fuel' ->
  runFrames fuel facts k passes = Some r ->
  runFrames fuel' facts k passes = Some r.
Proof.
  induction 1 as [|m Hle IH]; [auto|]. intros H. now apply runFrames_more, IH.
Qed.

Definition changedAt (facts : nat -> frameFacts) (k : nat) : bool :=
  layoutChanged (facts k) || needsFix (facts k).

Lemma runFrames_bounded facts :
  forall fuel k passes,
    passes <= 3 -> 4 - passes <= fuel ->
    exists n final,
      runFrames fuel facts k passes = Some (n, final) /\
      1 <= n /\ n + passes <= 4 /\ final <= 3 /\
      (forall j, j + 1 < n ->
                 dragActive (facts (k + j)) = false /\ changedAt facts (k + j) = true) /\
      (forall j, dragActive (facts (k + j)) = true \/ changedAt facts (k + j) = false ->
                 n <= j + 1).
Proof.
  induction fuel as [|fuel IH]; intros k passes Hp Hfuel; [lia|].
  cbn [runFrames]. unfold onFrame.
  destruct (dragActive (facts k)) eqn:Hdrag.
  { cbn [scheduledAgain normalizePasses]. exists 1, passes.
    repeat split; try lia. }
  fold (changedAt facts k).
  destruct (changedAt facts k) eqn:Hch; cbn [andb].
  - destruct (Nat.ltb passes 3) eqn:Hlt; cbn [scheduledAgain normalizePasses].
    + apply Nat.ltb_lt in Hlt.
      destruct (IH (S k) (passes + 1)) as (n & final & Hrun & Hn1 & Hn & Hfinal & Hbefore & Hstop);
        [lia|lia|].
      rewrite Hrun. exists (S n), final. repeat split; try lia.
      * destruct j as [|j].
        -- now rewrite Nat.add_0_r.
        -- replace (k + S j) with (S k + j) by lia. apply Hbefore. lia.
      * destruct j as [|j].
        -- now rewrite Nat.add_0_r.
        -- replace (k + S j) with (S k + j) by lia. apply Hbefore. lia.
      * intros j Hj. destruct j as [|j].
        -- rewrite Nat.add_0_r in Hj. destruct Hj; congruence.
        -- replace (k + S j) with (S k + j) in Hj by lia.
           specialize (Hstop j Hj). lia.
    + exists 1, 0. repeat split; try lia.
  - cbn [scheduledAgain normalizePasses]. exists 1, 0. repeat split; try lia.
Qed.

(** ** Every heading hangs below the nearest shallower heading before it *)

(** No node of the array, at any depth, has a level below [lvl]. *)
Definition notAbove (lvl : nat) (arr : forest) : bool :=
  forallb (Nat.leb lvl) (map level (flatten arr)).

(** The elements of an array, given what holds of one element: no node of
    an earlier element ([seen] and what precedes in the array) is shallower
    than a later element. *)
Definition nestedIn (element : MindMapNode -> bool) :=
  fix go (seen l : forest) : bool :=
    match l with
    | [] => true
    | c :: rest => notAbove (level c) seen && element c && go (seen ++ [c]) rest
    end.

Fixpoint nested (pid : option string) (plvl : nat) (n : MindMapNode) : bool :=
  optEqb (parentId n) pid && Nat.ltb plvl (level n)
  && nestedIn (nested (Some (id n)) (level n)) [] (children n).

Lemma nested_eq pid plvl n :
  nested pid plvl n =
  optEqb (parentId n) pid && Nat.ltb plvl (level n)
  && nestedIn (nested (Some (id n)) (level n)) [] (children n).
Proof. destruct n; reflexivity. Qed.

Lemma notAbove_app lvl a b : notAbove lvl (a ++ b) = notAbove lvl a && notAbove lvl b.
Proof. unfold notAbove. now rewrite flatten_app, map_app, forallb_app. Qed.

Lemma notAbove_weaken lvl lvl' arr :
  lvl' <= lvl -> notAbove lvl arr = true -> notAbove lvl' arr = true.
Proof.
  intros Hle. unfold notAbove. apply forallb_impl.
  intros l _ H. apply Nat.leb_le in H. apply Nat.leb_le. lia.
Qed.

Lemma nestedIn_cons element seen c rest :
  nestedIn element seen (c :: rest) =
  notAbove (level c) seen && element c && nestedIn element (seen ++ [c]) rest.
Proof. reflexivity. Qed.

Lemma nestedIn_snoc element l : forall seen c,
  nestedIn element seen (l ++ [c]) =
  nestedIn element seen l && notAbove (level c) (seen ++ l) && element c.
Proof.
  induction l as [|x l IH]; intros seen c.
  - cbn [app nestedIn]. rewrite app_nil_r. now rewrite andb_true_r.
  - cbn [app]. rewrite !nestedIn_cons, IH.
    replace ((seen ++ [x]) ++ l) with (seen ++ x :: l) by now rewrite <- app_assoc.
    btauto.
Qed.

(** The levels of the whole right spine, each no greater than any level in
    the array it ends. *)
Inductive fullSpine : forest -> list nat -> Prop :=
| fullSpine_end : fullSpine [] []
| fullSpine_more front x lvls :
    notAbove (level x) (front ++ [x]) = true ->
    fullSpine (children x) lvls ->
    fullSpine (front ++ [x]) (level x :: lvls).

Lemma fullSpine_inv arr l lvls :
  fullSpine arr (l :: lvls) ->
  exists front x,
    arr = front ++ [x] /\ level x = l /\
    notAbove l (front ++ [x]) = true /\ fullSpine (children x) lvls.
Proof.
  intros H. inversion H as [|front x lvls' Hn Hs Earr El]. subst.
  now exists front, x.
Qed.

Lemma fullSpine_snoc_inv front x lvls :
  fullSpine (front ++ [x]) lvls ->
  exists lvls',
    lvls = level x :: lvls' /\
    notAbove (level x) (front ++ [x]) = true /\ fullSpine (children x) lvls'.
Proof.
  intros H. remember (front ++ [x]) as arr eqn:E.
  destruct H as [|front' x' lvls' Hn Hs].
  - symmetry in E. apply app_eq_nil in E. destruct E; discriminate.
  - apply app_inj_tail in E. destruct E as [-> ->]. now exists lvls'.
Qed.

Lemma fullSpine_rightSpine arr lvls : fullSpine arr lvls -> rightSpine arr lvls.
Proof. induction 1; constructor; assumption. Qed.

Lemma notAbove_single lvl x :
  notAbove lvl [x] = Nat.leb lvl (level x) && notAbove lvl (children x).
Proof.
  unfold notAbove. rewrite flatten_cons. cbn [flatten flat_map map forallb].
  now rewrite app_nil_r.
Qed.

Lemma fullSpine_notAbove arr lvls lvl :
  fullSpine arr lvls -> Forall (fun l => lvl <= l) lvls -> notAbove lvl arr = true.
Proof.
  intros Hs Hall. destruct Hs as [|front x lvls Hn Hs]; [reflexivity|].
  inversion Hall as [|? ? Hle _]; subst.
  now apply (notAbove_weaken (level x)).
Qed.

Lemma fullSpine_bound arr l lvls :
  fullSpine arr (l :: lvls) -> Forall (fun l' => l <= l') lvls.
Proof.
  intros H. destruct (fullSpine_inv _ _ _ H) as (front & x & -> & <- & Hn & Hs).
  rewrite notAbove_app, notAbove_single in Hn.
  apply andb_prop in Hn. destruct Hn as [_ Hn].
  apply andb_prop in Hn. destruct Hn as [_ Hkids].
  clear H. revert Hkids. generalize (level x) as lvl. revert Hs.
  generalize (children x) as kids. clear. intros kids Hs.
  induction Hs as [|front y lvls Hn Hs IH]; intros lvl Hkids; [constructor|].
  rewrite notAbove_app, notAbove_single in Hkids.
  apply andb_prop in Hkids. destruct Hkids as [_ Hkids].
  apply andb_prop in Hkids. destruct Hkids as [Hy Hrest].
  constructor; [now apply Nat.leb_le|]. now apply IH.
Qed.

Lemma fullSpine_prefix_below arr keep drop lvl :
  keep <> [] ->
  fullSpine arr (keep ++ drop) -> last keep 0 < lvl ->
  Forall (fun l => l < lvl) keep.
Proof.
  revert arr. induction keep as [|l keep IH]; [congruence|].
  intros arr _ Hs Hlast. destruct keep as [|l2 rest].
  - constructor; [exact Hlast|constructor].
  - assert (Hall : Forall (fun l' => l <= l') ((l2 :: rest) ++ drop))
      by exact (fullSpine_bound _ _ _ Hs).
    destruct (fullSpine_inv _ _ _ Hs) as (front & x & _ & _ & _ & Hsub).
    assert (Hrest : Forall (fun l => l < lvl) (l2 :: rest)).
    { apply (IH (children x)); [discriminate|exact Hsub|exact Hlast]. }
    constructor; [|exact Hrest].
    inversion Hall as [|? ? Hl2 _]; subst. inversion Hrest; subst. lia.
Qed.

Lemma levels_of_outline (l : forest) :
  map level (flatten l) = map (fun i => fst (fst i)) (outlineOf l).
Proof. unfold outlineOf. rewrite map_map. reflexivity. Qed.

Lemma notAbove_levels lvl a b :
  map level (flatten a) = map level (flatten b) -> notAbove lvl a = notAbove lvl b.
Proof. unfold notAbove. now intros ->. Qed.

Lemma levels_cons n rest :
  map level (flatten (n :: rest)) =
  level n :: map level (flatten (children n)) ++ map level (flatten rest).
Proof. rewrite flatten_cons. cbn [map]. now rewrite map_app. Qed.

Lemma levels_snoc front x :
  map level (flatten (front ++ [x])) =
  map level (flatten front) ++ level x :: map level (flatten (children x)).
Proof.
  rewrite flatten_app, map_app, levels_cons. cbn [flatten flat_map map].
  now rewrite app_nil_r.
Qed.

Lemma onSpine_levels_same f :
  (forall n, level (f n) = level n /\ children (f n) = children n) ->
  forall d arr, map level (flatten (onSpine d f arr)) = map level (flatten arr).
Proof.
  intros Hf. induction d as [|d IH]; intros arr; cbn [onSpine];
    destruct (splitLast arr) as [[front x]|] eqn:Hs; try reflexivity;
    apply splitLast_some in Hs; subst arr; rewrite !levels_snoc.
  - destruct (Hf x) as [-> ->]. reflexivity.
  - cbn [level children setChildren]. now rewrite IH.
Qed.

Lemma nested_same_links pid plvl a b :
  id a = id b -> level a = level b -> parentId a = parentId b ->
  children a = children b -> nested pid plvl a = nested pid plvl b.
Proof. intros Hi Hl Hp Hc. rewrite !nested_eq. now rewrite Hi, Hl, Hp, Hc. Qed.

(** A change of the last node at some depth that leaves its links alone
    keeps the nesting. *)
Lemma onSpine_same_nested f :
  (forall n, id (f n) = id n /\ level (f n) = level n /\
             parentId (f n) = parentId n /\ children (f n) = children n) ->
  forall d arr pid plvl seen lvls,
    nestedIn (nested pid plvl) seen arr = true ->
    fullSpine arr lvls ->
    nestedIn (nested pid plvl) seen (onSpine d f arr) = true /\
    fullSpine (onSpine d f arr) lvls.
Proof.
  intros Hf.
  assert (Hf2 : forall n, level (f n) = level n /\ children (f n) = children n).
  { intros n. destruct (Hf n) as (_ & Hl & _ & Hc). now split. }
  induction d as [|d IH]; intros arr pid plvl seen lvls Hnest Hspine;
    cbn [onSpine]; destruct (splitLast arr) as [[front x]|] eqn:Hs; auto;
    apply splitLast_some in Hs; subst arr;
    rewrite nestedIn_snoc in Hnest |- *;
    apply andb_prop in Hnest; destruct Hnest as [Hnest Hx];
    apply andb_prop in Hnest; destruct Hnest as [Hfront Hseen].
  - destruct (Hf x) as (Ei & El & Ep & Ec). split.
    + rewrite Hfront, El, Hseen. cbn [andb].
      now rewrite (nested_same_links pid plvl (f x) x).
    + destruct (fullSpine_snoc_inv _ _ _ Hspine) as (lvls' & -> & Hn & Hsub).
      rewrite <- El. constructor.
      * rewrite El. rewrite <- Hn. apply notAbove_levels.
        rewrite !levels_snoc. now rewrite El, Ec.
      * now rewrite Ec.
  - rewrite nested_eq in Hx. apply andb_prop in Hx. destruct Hx as [Hhead Hkids].
    assert (Hsub : fullSpine (children x) (tl lvls)).
    { destruct (fullSpine_snoc_inv _ _ _ Hspine) as (lvls' & -> & _ & Hsub).
      exact Hsub. }
    destruct (IH (children x) (Some (id x)) (level x) [] (tl lvls) Hkids Hsub)
      as [Hk' Hs'].
    split.
    + rewrite Hfront. cbn [level setChildren]. rewrite Hseen. cbn [andb].
      rewrite nested_eq. cbn [parentId level id children setChildren].
      now rewrite Hhead, Hk'.
    + destruct (fullSpine_snoc_inv _ _ _ Hspine) as (lvls' & -> & Hn & _).
      cbn [tl] in Hs'.
      change (level x) with (level (setChildren x (onSpine d f (children x)))).
      constructor; [|exact Hs'].
      cbn [level setChildren]. rewrite <- Hn. apply notAbove_levels.
      rewrite !levels_snoc. cbn [level children setChildren].
      now rewrite (onSpine_levels_same f Hf2).
Qed.

Lemma notAbove_attach lvl l arr' arr :
  map level (flatten arr') = map level (flatten arr) ++ [l] ->
  notAbove lvl arr' = notAbove lvl arr && Nat.leb lvl l.
Proof.
  intros E. unfold notAbove. rewrite E, forallb_app. cbn [forallb].
  now rewrite andb_true_r.
Qed.

Lemma onSpine_attach_levels node :
  children node = [] ->
  forall lvls arr,
    lvls <> [] -> rightSpine arr lvls ->
    map level
      (flatten (onSpine (List.length lvls - 1)
                  (fun parent => push (setParentId node (Some (id parent))) parent) arr))
    = map level (flatten arr) ++ [level node].
Proof.
  intros Hleaf lvls arr Hne Hs.
  rewrite !levels_of_outline, (onSpine_attach_outline node Hleaf lvls arr Hne Hs).
  now rewrite map_app.
Qed.

(** Hanging a new leaf of level [level node] below the last kept entry:
    the entries above it ([drop]) are not shallower than the leaf, the kept
    ones are. *)
Lemma onSpine_attach_nested node :
  children node = [] ->
  forall keep arr pid plvl seen drop,
    keep <> [] ->
    fullSpine arr (keep ++ drop) ->
    Forall (fun l => level node <= l) drop ->
    Forall (fun l => l < level node) keep ->
    nestedIn (nested pid plvl) seen arr = true ->
    let f := fun parent => push (setParentId node (Some (id parent))) parent in
    nestedIn (nested pid plvl) seen (onSpine (List.length keep - 1) f arr) = true /\
    fullSpine (onSpine (List.length keep - 1) f arr) (keep ++ [level node]).
Proof.
  intros Hleaf. induction keep as [|l keep IH]; [congruence|].
  intros arr pid plvl seen drop _ Hspine Hdrop Hkeep Hnest f.
  cbn [app] in Hspine.
  destruct (fullSpine_inv _ _ _ Hspine) as (front & x & -> & El & Hn & Hsub).
  subst l. inversion Hkeep as [|? ? Hx Hkeep']; subst.
  rewrite nestedIn_snoc in Hnest.
  apply andb_prop in Hnest. destruct Hnest as [Hnest Hgx].
  apply andb_prop in Hnest. destruct Hnest as [Hfront Hseen].
  rewrite nested_eq in Hgx. apply andb_prop in Hgx. destruct Hgx as [Hhead Hkids].
  assert (Hright : rightSpine (front ++ [x]) (level x :: keep)).
  { apply (rightSpine_prefix _ _ drop). now apply fullSpine_rightSpine. }
  pose proof (onSpine_attach_levels node Hleaf (level x :: keep) (front ++ [x])
                ltac:(discriminate) Hright) as Hlevels.
  fold f in Hlevels.
  destruct keep as [|l2 rest].
  - cbn [List.length Nat.sub onSpine] in *. rewrite splitLast_snoc in *.
    assert (HkidsOk : notAbove (level node) (children x) = true).
    { now apply (fullSpine_notAbove _ drop). }
    split.
    + rewrite nestedIn_snoc, Hfront. unfold f, push at 1.
      cbn [level setChildren]. rewrite Hseen. cbn [andb].
      unfold push. rewrite nested_eq. cbn [parentId level id children setChildren].
      rewrite Hhead. cbn [andb]. rewrite nestedIn_snoc, Hkids. cbn [app andb].
      cbn [level setParentId]. rewrite HkidsOk. cbn [andb].
      rewrite nested_eq. cbn [parentId level id children setParentId].
      rewrite Hleaf, optEqb_refl. cbn [nestedIn andb].
      rewrite andb_true_r. now apply Nat.ltb_lt.
    + cbn [app].
      change (level x) with (level (f x)).
      constructor.
      * unfold f, push at 1. cbn [level setChildren].
        rewrite (notAbove_attach _ _ _ _ Hlevels), Hn. cbn [andb].
        apply Nat.leb_le. lia.
      * unfold f, push. cbn [children setChildren].
        change (level node) with (level (setParentId node (Some (id x)))).
        constructor.
        -- cbn [level setParentId]. rewrite notAbove_app, HkidsOk, notAbove_single.
           cbn [andb level children setParentId]. rewrite Hleaf, Nat.leb_refl. reflexivity.
        -- cbn [children setParentId]. rewrite Hleaf. constructor.
  - replace (List.length (level x :: l2 :: rest) - 1)
      with (S (List.length (l2 :: rest) - 1)) in * by (cbn [List.length]; lia).
    cbn [onSpine] in *. rewrite splitLast_snoc in *.
    destruct (IH (children x) (Some (id x)) (level x) [] drop
                 ltac:(discriminate) Hsub Hdrop Hkeep' Hkids) as [Hk' Hs'].
    fold f in Hk', Hs'. split.
    + rewrite nestedIn_snoc, Hfront. cbn [level setChildren]. rewrite Hseen.
      cbn [andb]. rewrite nested_eq. cbn [parentId level id children setChildren].
      now rewrite Hhead, Hk'.
    + cbn [app].
      match goal with |- fullSpine (front ++ [?y]) _ => change (level x) with (level y) end.
      constructor; [|exact Hs'].
      cbn [level setChildren].
      rewrite (notAbove_attach _ _ _ _ Hlevels), Hn. cbn [andb].
      apply Nat.leb_le. lia.
Qed.

Lemma popWhile_dropped lvl stack :
  exists dropped,
    stack = dropped ++ popWhile lvl stack /\
    Forall (fun l => lvl <= l) dropped /\
    match popWhile lvl stack with
    | top :: _ => top < lvl
    | [] => True
    end.
Proof.
  induction stack as [|top rest IH]; [exists []; repeat split; constructor|].
  cbn [popWhile]. destruct (Nat.leb lvl top) eqn:Hle.
  - destruct IH as (dropped & E & Hall & Htop). exists (top :: dropped).
    split; [cbn [app]; now f_equal|]. split; [|exact Htop].
    constructor; [now apply Nat.leb_le|assumption].
  - exists []. split; [reflexivity|]. split; [constructor|].
    now apply Nat.leb_gt in Hle.
Qed.

(** The second invariant of the loop of [parse]. *)
Definition nesting (st : parserState) : Prop :=
  nestedIn (nested None 0) [] (nodes st) = true /\
  fullSpine (nodes st) (rev (nodeStack st)).

Lemma saveDescription_nesting st : nesting st -> nesting (saveDescription st).
Proof.
  intros [Hn Hs]. unfold saveDescription.
  destruct (currentNode st) as [d|]; [|now split].
  destruct (descriptionLines st) as [|l ls]; [now split|].
  unfold nesting. cbn [nodes nodeStack].
  apply (onSpine_same_nested _ (setDescription_links _) d (nodes st) None 0 []);
    assumption.
Qed.

Lemma parseLine_nesting generateId st line :
  nesting st -> nesting (parseLine generateId st line).
Proof.
  intros Hst. unfold parseLine.
  destruct (headingMatch line) as [[hashes rawTitle]|] eqn:Hm.
  - pose proof (headingMatch_level _ _ _ Hm) as Hlvl.
    pose proof (saveDescription_nesting st Hst) as [Hn Hs].
    set (st1 := saveDescription st) in *.
    set (node := mkNode (generateId (generated st1)) (trim rawTitle) None []
                        (List.length hashes) false None).
    destruct (popWhile_dropped (List.length hashes) (nodeStack st1))
      as (dropped & Estack & Hdropped & Htop).
    rewrite Estack, rev_app_distr in Hs.
    assert (Hdrop : Forall (fun l => level node <= l) (rev dropped)).
    { rewrite Forall_forall in *. intros l Hl. apply Hdropped. now apply in_rev. }
    destruct (popWhile (List.length hashes) (nodeStack st1)) as [|top below] eqn:Hpop.
    + unfold nesting. cbn [nodes nodeStack rev app] in *.
      pose proof (fullSpine_notAbove _ _ _ Hs Hdrop) as Hall.
      split.
      * rewrite nestedIn_snoc, Hn. cbn [app andb]. rewrite Hall. cbn [andb].
        rewrite nested_eq. unfold node. cbn [parentId level children optEqb nestedIn andb].
        rewrite andb_true_r. apply Nat.ltb_lt. lia.
      * change (List.length hashes) with (level node).
        constructor.
        -- rewrite notAbove_app, Hall, notAbove_single. cbn [andb].
           unfold node. cbn [level children]. now rewrite Nat.leb_refl.
        -- constructor.
    + unfold nesting. cbn [nodes nodeStack].
      assert (Hne : rev (top :: below) <> []).
      { cbn [rev]. intros E. apply app_eq_nil in E. destruct E; discriminate. }
      assert (Hlast : last (rev (top :: below)) 0 < level node).
      { cbn [rev]. rewrite last_last. exact Htop. }
      pose proof (fullSpine_prefix_below _ _ _ _ Hne Hs Hlast) as Hkeep.
      destruct (onSpine_attach_nested node eq_refl (rev (top :: below)) (nodes st1)
                  None 0 [] (rev dropped) Hne Hs Hdrop Hkeep Hn) as [Hn' Hs'].
      replace (List.length (rev (top :: below)) - 1) with (List.length below) in Hn', Hs'
        by (rewrite length_rev; cbn [List.length]; lia).
      split; [exact Hn'|].
      change (rev (List.length hashes :: top :: below))
        with (rev (top :: below) ++ [level node]).
      exact Hs'.
  - destruct (currentNode st); [|assumption].
    destruct (trim line); assumption.
Qed.

Lemma fold_nesting generateId lines st :
  nesting st -> nesting (fold_left (parseLine generateId) lines st).
Proof.
  revert st. induction lines as [|l lines IH]; intros st Hst; [assumption|].
  cbn [fold_left]. apply IH. now apply parseLine_nesting.
Qed.

Lemma parse_nested generateId markdown :
  nestedIn (nested None 0) [] (parse generateId markdown) = true.
Proof.
  unfold parse. apply saveDescription_nesting, fold_nesting.
  split; [reflexivity|constructor].
Qed.

(** From the nesting to the nearest shallower node in document order. *)

Lemma nearestShallower_skip before extra lvl :
  forallb (Nat.leb lvl) (map level extra) = true ->
  nearestShallower (before ++ extra) lvl = nearestShallower before lvl.
Proof.
  unfold nearestShallower. rewrite rev_app_distr.
  induction extra as [|m extra IH] using rev_ind; [reflexivity|].
  rewrite map_app, forallb_app. cbn [map forallb]. intros H.
  apply andb_prop in H. destruct H as [Hextra Hm].
  rewrite andb_true_r in Hm. rewrite rev_app_distr. cbn [rev app find].
  apply Nat.leb_le in Hm.
  destruct (Nat.ltb (level m) lvl) eqn:Hlt; [apply Nat.ltb_lt in Hlt; lia|].
  now apply IH.
Qed.

Lemma nearestShallower_last before p lvl :
  level p < lvl -> nearestShallower (before ++ [p]) lvl = Some p.
Proof.
  intros H. unfold nearestShallower. rewrite rev_app_distr. cbn [rev app find].
  apply Nat.ltb_lt in H. now rewrite H.
Qed.

Lemma split_in_app (A : Type) (l1 l2 pre : list A) c post :
  l1 ++ l2 = pre ++ c :: post ->
  (exists post1, l1 = pre ++ c :: post1 /\ post = post1 ++ l2) \/
  (exists pre2, pre = l1 ++ pre2 /\ l2 = pre2 ++ c :: post).
Proof.
  revert pre. induction l1 as [|x l1 IH]; intros pre H.
  - right. exists pre. now split.
  - destruct pre as [|y pre].
    + cbn [app] in H. injection H as -> <-. left. exists l1. now split.
    + cbn [app] in H. injection H as -> H. destruct (IH pre H) as [(post1 & -> & ->)|(pre2 & -> & ->)].
      * left. exists post1. now split.
      * right. exists pre2. now split.
Qed.

Lemma nested_nearest (arr : forest) :
  forall pid plvl seen before,
    nestedIn (nested pid plvl) seen arr = true ->
    (forall lvl, plvl < lvl -> option_map id (nearestShallower before lvl) = pid) ->
    forall pre c post,
      flatten arr = pre ++ c :: post ->
      parentId c = option_map id (nearestShallower (before ++ flatten seen ++ pre) (level c)).
Proof.
  induction arr as [|n rest IHc IHr] using forest_ind2;
    intros pid plvl seen before Hnest Hbefore pre c post Hsplit.
  { destruct pre; discriminate. }
  rewrite nestedIn_cons in Hnest.
  apply andb_prop in Hnest. destruct Hnest as [Hnest Hrest].
  apply andb_prop in Hnest. destruct Hnest as [Hseen Hn].
  rewrite nested_eq in Hn. apply andb_prop in Hn. destruct Hn as [Hhead Hkids].
  apply andb_prop in Hhead. destruct Hhead as [Hpid Hlvl].
  apply optEqb_eq in Hpid. apply Nat.ltb_lt in Hlvl.
  rewrite flatten_cons in Hsplit. destruct pre as [|x pre].
  - cbn [app] in Hsplit. injection Hsplit as <- _.
    rewrite app_nil_r, nearestShallower_skip by exact Hseen.
    now rewrite (Hbefore _ Hlvl).
  - cbn [app] in Hsplit. injection Hsplit as <- Hsplit.
    destruct (split_in_app _ _ _ _ _ _ Hsplit) as [(post1 & Hin & _)|(pre2 & -> & Hin)].
    + pose proof (IHc (Some (id n)) (level n) [] (before ++ flatten seen ++ [n])
                    Hkids) as Hc.
      cbn [flatten flat_map app] in Hc.
      replace (before ++ flatten seen ++ n :: pre)
        with ((before ++ flatten seen ++ [n]) ++ pre) by now norm_app.
      apply (Hc ltac:(intros lvl Hl; rewrite app_assoc;
                      now rewrite nearestShallower_last) pre c post1 Hin).
    + pose proof (IHr pid plvl (seen ++ [n]) before Hrest Hbefore pre2 c post Hin) as Hr.
      rewrite flatten_app in Hr.
      replace (flatten [n]) with (n :: flatten (children n)) in Hr
        by (rewrite flatten_cons; cbn [flatten flat_map]; now rewrite app_nil_r).
      rewrite Hr. f_equal. f_equal. now norm_app.
Qed.

(** One node per heading line, in the order of the lines. *)

Definition brief (n : MindMapNode) : nat * text := (level n, title n).

Lemma brief_of_outline (l : forest) :
  map brief (flatten l) = map (fun i => fst i) (outlineOf l).
Proof. unfold outlineOf. rewrite map_map. reflexivity. Qed.

Lemma brief_snoc front x :
  map brief (flatten (front ++ [x])) =
  map brief (flatten front) ++ brief x :: map brief (flatten (children x)).
Proof.
  rewrite flatten_app, map_app, flatten_cons. cbn [flatten flat_map map].
  now rewrite app_nil_r.
Qed.

Lemma onSpine_brief_same f :
  (forall n, level (f n) = level n /\ title (f n) = title n /\
             children (f n) = children n) ->
  forall d arr, map brief (flatten (onSpine d f arr)) = map brief (flatten arr).
Proof.
  intros Hf. induction d as [|d IH]; intros arr; cbn [onSpine];
    destruct (splitLast arr) as [[front x]|] eqn:Hs; try reflexivity;
    apply splitLast_some in Hs; subst arr; rewrite !brief_snoc.
  - destruct (Hf x) as (El & Et & Ec). unfold brief at 2 4. now rewrite El, Et, Ec.
  - cbn [children setChildren]. now rewrite IH.
Qed.

Lemma saveDescription_brief st :
  map brief (flatten (nodes (saveDescription st))) = map brief (flatten (nodes st)).
Proof.
  unfold saveDescription. destruct (currentNode st) as [d|]; [|reflexivity].
  destruct (descriptionLines st); [reflexivity|]. cbn [nodes].
  apply onSpine_brief_same. intros n. repeat split.
Qed.

Lemma parseLine_brief generateId st line :
  parsing st ->
  map brief (flatten (nodes (parseLine generateId st line))) =
  map brief (flatten (nodes st))
  ++ match headingMatch line with
     | Some (hashes, rawTitle) => [(List.length hashes, trim rawTitle)]
     | None => []
     end.
Proof.
  intros Hst. unfold parseLine.
  destruct (headingMatch line) as [[hashes rawTitle]|] eqn:Hm.
  - pose proof (saveDescription_parsing st Hst) as [_ Hs].
    rewrite <- (saveDescription_brief st).
    set (st1 := saveDescription st) in *. cbn [nodes].
    destruct (popWhile_suffix (List.length hashes) (nodeStack st1))
      as (dropped & Estack & _).
    assert (Hpre : rightSpine (nodes st1) (rev (popWhile (List.length hashes) (nodeStack st1)))).
    { rewrite Estack, rev_app_distr in Hs. now apply rightSpine_prefix in Hs. }
    destruct (popWhile (List.length hashes) (nodeStack st1)) as [|top below].
    + rewrite flatten_app, map_app. reflexivity.
    + rewrite !brief_of_outline.
      pose proof (onSpine_attach_outline
                    (mkNode (generateId (generated st1)) (trim rawTitle) None []
                            (List.length hashes) false None)
                    eq_refl (rev (top :: below)) (nodes st1)) as Hattach.
      replace (List.length (rev (top :: below)) - 1) with (List.length below) in Hattach
        by (rewrite length_rev; cbn [List.length]; lia).
      rewrite Hattach; [now rewrite map_app| |assumption].
      cbn [rev]. intros E. apply app_eq_nil in E. destruct E; discriminate.
  - rewrite app_nil_r. destruct (currentNode st); [|reflexivity].
    destruct (trim line); reflexivity.
Qed.

Lemma fold_brief generateId lines :
  forall st,
    parsing st ->
    map brief (flatten (nodes (fold_left (parseLine generateId) lines st))) =
    map brief (flatten (nodes st))
    ++ flat_map
         (fun line =>
            match headingMatch line with
            | Some (hashes, rawTitle) => [(List.length hashes, trim rawTitle)]
            | None => []
            end) lines.
Proof.
  induction lines as [|l lines IH]; intros st Hst.
  - cbn [fold_left flat_map]. now rewrite app_nil_r.
  - cbn [fold_left flat_map].
    rewrite (IH _ (parseLine_parsing generateId st l Hst)).
    rewrite (parseLine_brief generateId st l Hst). now rewrite <- app_assoc.
Qed.

Lemma parse_headings generateId markdown :
  map brief (flatten (parse generateId markdown)) = headingsOf markdown.
Proof.
  unfold parse, headingsOf. rewrite saveDescription_brief.
  rewrite fold_brief; [reflexivity|]. split; [reflexivity|constructor].
Qed.

(** ** Pre-order listings of a forest

    A listing maps every node of the forest, in pre-order, to a value that
    does not depend on the children of the node. *)

Section Projection.
Variable A : Type.
Variable g : MindMapNode -> A.
Hypothesis g_children : forall n c, g (setChildren n c) = g n.

Definition proj (l : forest) : list A := map g (flatten l).

Lemma proj_cons n rest : proj (n :: rest) = g n :: proj (children n) ++ proj rest.
Proof. unfold proj. now rewrite flatten_cons, map_cons, map_app. Qed.

Lemma proj_app a b : proj (a ++ b) = proj a ++ proj b.
Proof. unfold proj. now rewrite flatten_app, map_app. Qed.

Fixpoint projBefore (c : actx) : list A :=
  match c with
  | Here => []
  | Under pre o inner _ => proj pre ++ g o :: projBefore inner
  end.

Fixpoint projAfter (c : actx) : list A :=
  match c with
  | Here => []
  | Under _ _ inner post => projAfter inner ++ proj post
  end.

Lemma proj_fill c arr : proj (fill c arr) = projBefore c ++ proj arr ++ projAfter c.
Proof.
  induction c as [|pre o inner IH post]; cbn [fill projBefore projAfter].
  - now rewrite app_nil_r.
  - rewrite proj_app, proj_cons, children_setChildren, g_children, IH.
    now rewrite <- !app_assoc.
Qed.
End Projection.

Arguments proj {A} g l.
Arguments projBefore {A} g c.
Arguments projAfter {A} g c.

Lemma ids_proj l : ids l = proj id l.
Proof. reflexivity. Qed.

Lemma length_proj (A : Type) (g : MindMapNode -> A) l :
  List.length (proj g l) = List.length (flatten l).
Proof. unfold proj. apply length_map. Qed.

(** A node without its children. *)
Definition label (n : MindMapNode) : MindMapNode := setChildren n [].

Lemma label_children n c : label (setChildren n c) = label n.
Proof. reflexivity. Qed.

Lemma id_children n c : id (setChildren n c) = id n.
Proof. reflexivity. Qed.

(** ** [findNodeById] is a linear search in pre-order *)

Lemma find_app_first (A : Type) (p : A -> bool) (a b : list A) :
  find p (a ++ b) = match find p a with Some x => Some x | None => find p b end.
Proof.
  induction a as [|x a IH]; cbn [app find]; [reflexivity|].
  now destruct (p x).
Qed.

Lemma findNodeById_find (nodes : forest) tid :
  findNodeById nodes tid = find (fun n => String.eqb (id n) tid) (flatten nodes).
Proof.
  induction nodes as [|n rest IHkids IHrest] using forest_ind2; [reflexivity|].
  rewrite findNodeById_cons, flatten_cons. cbn [find].
  destruct (String.eqb (id n) tid); [reflexivity|].
  now rewrite find_app_first, IHkids, IHrest.
Qed.

Lemma findNodeById_some_iff nodes tid :
  (exists x, findNodeById nodes tid = Some x) <-> In tid (ids nodes).
Proof.
  split.
  - intros [x H]. exact (found_in_ids _ _ _ H).
  - intros H. destruct (findNodeById nodes tid) as [x|] eqn:E; [now exists x|].
    now apply not_found_not_in_ids in E.
Qed.

Lemma findNodeById_of_located nodes tid c a1 t a2 :
  located nodes tid c a1 t a2 -> findNodeById nodes tid = Some t.
Proof.
  intros (-> & Hid & Hc & Ha1). now apply findNodeById_located.
Qed.

Lemma located_of_found nodes tid x :
  findNodeById nodes tid = Some x ->
  exists c a1 a2, located nodes tid c a1 x a2.
Proof.
  intros H. destruct (located_exists _ _ (found_in_ids _ _ _ H)) as (c & a1 & t & a2 & L).
  rewrite (findNodeById_of_located _ _ _ _ _ _ L) in H. injection H as ->.
  now exists c, a1, a2.
Qed.

(** The owner of the array at the hole holds that array and is a node of
    the forest. *)
Lemma holeOwner_holds c arr p :
  holeOwner c arr = Some p -> children p = arr /\ In p (flatten (fill c arr)).
Proof.
  revert p. induction c as [|pre o inner IH post]; cbn [holeOwner fill]; intros p H;
    [discriminate|].
  rewrite flatten_app, flatten_cons, children_setChildren.
  destruct (holeOwner inner arr) as [q|] eqn:E.
  - injection H as ->. destruct (IH _ eq_refl) as [Hk Hin]. split; [exact Hk|].
    apply in_or_app. right. right. apply in_or_app. now left.
  - injection H as <-. destruct inner as [|pre' o' inner' post'].
    + cbn [fill]. split; [reflexivity|]. apply in_or_app. right. now left.
    + destruct (holeOwner_under pre' o' inner' post' arr) as [q Hq]. congruence.
Qed.

Lemma holeOwner_none c arr : holeOwner c arr = None -> c = Here.
Proof.
  destruct c as [|pre o inner post]; [reflexivity|].
  intros H. destruct (holeOwner_under pre o inner post arr) as [q Hq]. congruence.
Qed.

(** ** [countChildren] *)

Lemma countChildren_eq n :
  countChildren n =
  fold_left (fun count child => count + countChildren child)
            (children n) (List.length (children n)).
Proof. destruct n; reflexivity. Qed.

Lemma countChildren_fold (l : forest) :
  Forall (fun c => countChildren c = List.length (flatten (children c))) l ->
  forall a,
    fold_left (fun count child => count + countChildren child) l a + List.length l
    = a + List.length (flatten l).
Proof.
  induction 1 as [|c l Hc _ IH]; intros a; cbn [fold_left List.length].
  - reflexivity.
  - rewrite flatten_cons. cbn [List.length]. rewrite length_app.
    specialize (IH (a + countChildren c)). lia.
Qed.

Lemma countChildren_flatten n :
  countChildren n = List.length (flatten (children n)).
Proof.
  induction n as [n IH] using MindMapNode_forall_ind.
  rewrite countChildren_eq.
  apply (Nat.add_cancel_r _ _ (List.length (children n))).
  rewrite (countChildren_fold (children n) IH). apply Nat.add_comm.
Qed.

(** ** A target outside the moved subtree is still there after the removal *)

Lemma other_position (A : Type) (a : list A) x b c y d :
  a ++ x :: b = c ++ y :: d -> List.length a <> List.length c -> In y (a ++ b).
Proof.
  intros E Hlen. apply split_in_app in E.
  destruct E as [(post1 & -> & _)|(pre2 & -> & E)].
  - apply in_or_app. left. apply in_or_app. right. now left.
  - destruct pre2 as [|z pre2].
    + exfalso. apply Hlen. now rewrite app_nil_r.
    + injection E as _ ->. apply in_or_app. right. apply in_or_app. right. now left.
Qed.

Lemma in_ids_node (l : forest) n tid :
  In n l -> tid = id n \/ In tid (ids (children n)) -> In tid (ids l).
Proof.
  intros Hn [->|H].
  - apply in_flatten_ids. now apply in_flatten_top.
  - unfold ids in H. apply in_map_iff in H. destruct H as (m & <- & Hm).
    apply in_flatten_ids.
    exact (in_flatten_children n m l (in_flatten_top _ _ Hn) Hm).
Qed.

Lemma in_ids_around (pre post : forest) x n tid :
  In n (pre ++ post) -> tid = id n \/ In tid (ids (children n)) ->
  In tid (ids (pre ++ x :: post)).
Proof.
  intros Hn H. apply (in_ids_node _ n); [|exact H].
  apply in_app_or in Hn. apply in_or_app. destruct Hn; [now left|right; now right].
Qed.

Lemma in_ids_inner (pre post : forest) o kids tid :
  tid = id o \/ In tid (ids kids) -> In tid (ids (pre ++ setChildren o kids :: post)).
Proof.
  intros H. apply (in_ids_node _ (setChildren o kids)).
  - apply in_or_app. right. now left.
  - now rewrite children_setChildren.
Qed.

Lemma outside_survives s1 src s2 b1 t b2 :
  forall cs ct,
    fill cs (s1 ++ src :: s2) = fill ct (b1 ++ t :: b2) ->
    prefixb (holePath cs ++ [List.length s1]) (holePath ct ++ [List.length b1]) = false ->
    In (id t) (ids (fill cs (s1 ++ s2))).
Proof.
  induction cs as [|pre o inner IH post]; intros [|pre' o' inner' post'];
    cbn [fill holePath app prefixb]; intros Hfill Hpre.
  - rewrite andb_true_r in Hpre. apply Nat.eqb_neq in Hpre.
    apply (in_ids_node _ t); [|now left].
    exact (other_position _ _ _ _ _ _ _ Hfill Hpre).
  - rewrite andb_true_r in Hpre. apply Nat.eqb_neq in Hpre.
    apply (in_ids_node _ _ _ (other_position _ _ _ _ _ _ _ Hfill Hpre)).
    right. rewrite children_setChildren. apply in_ids_fill.
  - destruct (Nat.eq_dec (List.length pre) (List.length b1)) as [Hlen|Hlen].
    + destruct (app_same_length_inj _ _ _ _ _ Hlen Hfill) as [_ E].
      injection E as E _. apply in_ids_inner. left. now rewrite <- E.
    + apply (in_ids_around _ _ _ t); [|now left].
      exact (other_position _ _ _ _ _ _ _ Hfill Hlen).
  - destruct (Nat.eq_dec (List.length pre) (List.length pre')) as [Hlen|Hlen].
    + destruct (app_same_length_inj _ _ _ _ _ Hlen Hfill) as [_ E].
      assert (Hkids : fill inner (s1 ++ src :: s2) = fill inner' (b1 ++ t :: b2)).
      { exact (f_equal (fun l => match l with x :: _ => children x | [] => [] end) E). }
      apply in_ids_inner. right. apply (IH inner' Hkids).
      apply Nat.eqb_eq in Hlen. now rewrite Hlen in Hpre.
    + apply (in_ids_around _ _ _ _ _ (other_position _ _ _ _ _ _ _ Hfill Hlen)).
      right. rewrite children_setChildren. apply in_ids_fill.
Qed.

Lemma target_outside_survives nodes nodeId targetId cs s1 src s2 :
  located nodes nodeId cs s1 src s2 ->
  In targetId (ids nodes) ->
  insideSource nodes nodeId targetId = false ->
  In targetId (ids (fill cs (s1 ++ s2))).
Proof.
  intros Hs Hin Hout.
  destruct (located_exists _ _ Hin) as (ct & b1 & t & b2 & Ht).
  unfold insideSource in Hout.
  rewrite (findPath_of_located _ _ _ _ _ _ Hs), (findPath_of_located _ _ _ _ _ _ Ht) in Hout.
  destruct Hs as (Es & _). destruct Ht as (Et & Hidt & _).
  rewrite <- Hidt. apply (outside_survives s1 src s2 b1 t b2 cs ct); [congruence|exact Hout].
Qed.

(** ** What a move keeps *)

(** The fields of a node that no structural edit writes. *)
Definition content (n : MindMapNode) : string * text * option text * bool :=
  (id n, title n, description n, collapsed n).

Lemma content_children n c : content (setChildren n c) = content n.
Proof. reflexivity. Qed.

Lemma proj_insert (A : Type) (g : MindMapNode -> A) :
  (forall n c, g (setChildren n c) = g n) ->
  forall c a1 x a2,
    Permutation (proj g (fill c (a1 ++ x :: a2)))
                (proj g [x] ++ proj g (fill c (a1 ++ a2))).
Proof.
  intros Hg c a1 x a2. rewrite !(proj_fill _ g Hg), !proj_app.
  replace (x :: a2) with ([x] ++ a2) by reflexivity. rewrite proj_app.
  rewrite <- !app_assoc.
  rewrite (Permutation_app_swap_app (proj g [x]) (projBefore g c)).
  apply Permutation_app_head. apply Permutation_app_swap_app.
Qed.

Lemma content_updateNodeLevels_all (l : forest) :
  forall lvl, proj content (map (fun c => updateNodeLevels c lvl) l) = proj content l.
Proof.
  induction l as [|n rest IHc IHr] using forest_ind2; intros lvl; [reflexivity|].
  cbn [map]. rewrite !proj_cons, updateNodeLevels_eq. cbn [children].
  now rewrite IHc, IHr.
Qed.

Lemma content_relevel n p lvl :
  proj content [updateNodeLevels (setParentId n p) lvl] = proj content [n].
Proof.
  rewrite !proj_cons, updateNodeLevels_eq. cbn [children setParentId].
  now rewrite content_updateNodeLevels_all.
Qed.

Lemma id_relevel n p lvl : id (updateNodeLevels (setParentId n p) lvl) = id n.
Proof. now rewrite updateNodeLevels_eq. Qed.

(** The placement of the moved node next to or below the target. *)
Definition placed (mode : moveMode) (position : movePosition)
    (b1 : forest) (t : MindMapNode) (b2 : forest) (moved : MindMapNode) : forest :=
  match mode with
  | child => b1 ++ push moved t :: b2
  | sibling => spot position b1 t b2 moved
  end.

Lemma moveNode_outside nodes nodeId targetId mode position cs s1 src s2 :
  nodeId <> targetId ->
  located nodes nodeId cs s1 src s2 ->
  In targetId (ids nodes) ->
  insideSource nodes nodeId targetId = false ->
  exists ct b1 t b2 moved,
    located (fill cs (s1 ++ s2)) targetId ct b1 t b2 /\
    id moved = nodeId /\
    proj content [moved] = proj content [src] /\
    (mode = child ->
     exists target,
       findNodeById nodes targetId = Some target /\
       moved = updateNodeLevels (setParentId src (Some (id target))) (level target + 1)) /\
    moveNode nodes nodeId targetId mode position =
      (fill ct (placed mode position b1 t b2 moved), Returned true).
Proof.
  intros Hdiff Hs Hin Hout.
  pose proof (target_outside_survives _ _ _ _ _ _ _ Hs Hin Hout) as Hstill.
  destruct (located_exists _ _ Hin) as (c0 & d1 & target & d2 & Ht).
  destruct (located_exists _ _ Hstill) as (ct & b1 & t & b2 & Hnow).
  pose proof Hs as (_ & Hids & _).
  exists ct, b1, t, b2. destruct mode.
  - pose proof (moveNode_sibling_outside nodes nodeId targetId cs s1 src s2
                  c0 d1 target d2 Hdiff Hs Ht ct b1 t b2 Hout Hnow position) as Hmove.
    cbv zeta in Hmove.
    match type of Hmove with
    | _ = (fill ct (spot position b1 t b2 ?m), _) => exists m
    end.
    split; [exact Hnow|]. split; [|split; [|split; [discriminate|exact Hmove]]].
    + match goal with |- context [if ?b then _ else _] => destruct b end;
        [now rewrite id_relevel|exact Hids].
    + match goal with |- context [if ?b then _ else _] => destruct b end;
        [apply content_relevel|reflexivity].
  - exists (updateNodeLevels (setParentId src (Some (id target))) (level target + 1)).
    split; [exact Hnow|]. split; [now rewrite id_relevel|].
    split; [apply content_relevel|]. split.
    + intros _. exists target. split; [|reflexivity].
      exact (findNodeById_of_located _ _ _ _ _ _ Ht).
    + exact (moveNode_child_outside nodes nodeId targetId cs s1 src s2
               c0 d1 target d2 Hdiff Hs Ht ct b1 t b2 Hout Hnow position).
Qed.

Lemma placed_insert mode position b1 t b2 :
  exists c' a1 a2,
    forall ct x,
      fill ct (placed mode position b1 t b2 x) = fill (plug ct c') (a1 ++ x :: a2) /\
      fill ct (b1 ++ t :: b2) = fill (plug ct c') (a1 ++ a2).
Proof.
  destruct mode.
  - destruct (spot_insert position b1 t b2) as (a1 & a2 & Hspot & Hbase & _).
    exists Here, a1, a2. intros ct x. rewrite !fill_plug. cbn [fill placed].
    now rewrite Hspot, Hbase.
  - exists (Under b1 t Here b2), (children t), []. intros ct x.
    rewrite !fill_plug. cbn [fill placed]. unfold push.
    now rewrite app_nil_r, setChildren_same.
Qed.

Lemma moveNode_outside_content nodes nodeId targetId mode position :
  nodeId <> targetId ->
  In nodeId (ids nodes) -> In targetId (ids nodes) ->
  insideSource nodes nodeId targetId = false ->
  snd (moveNode nodes nodeId targetId mode position) = Returned true /\
  Permutation (proj content (fst (moveNode nodes nodeId targetId mode position)))
              (proj content nodes).
Proof.
  intros Hdiff Hsin Htin Hout.
  destruct (located_exists _ _ Hsin) as (cs & s1 & src & s2 & Hs).
  destruct (moveNode_outside nodes nodeId targetId mode position cs s1 src s2
              Hdiff Hs Htin Hout)
    as (ct & b1 & t & b2 & moved & Hnow & _ & Hsame & _ & ->).
  cbn [fst snd]. split; [reflexivity|].
  destruct (placed_insert mode position b1 t b2) as (c' & a1 & a2 & Hput).
  destruct (Hput ct moved) as [-> Hbase].
  rewrite (proj_insert _ content content_children).
  rewrite <- Hbase. destruct Hnow as (<- & _). rewrite Hsame.
  destruct Hs as (-> & _). symmetry. apply (proj_insert _ content content_children).
Qed.

Lemma moveNode_inside_outcome nodes nodeId targetId mode position :
  nodeId <> targetId ->
  In nodeId (ids nodes) -> In targetId (ids nodes) ->
  insideSource nodes nodeId targetId = true ->
  snd (moveNode nodes nodeId targetId mode position) <> Returned false.
Proof.
  intros Hdiff Hsin Htin Hin.
  destruct (located_exists _ _ Hsin) as (cs & s1 & src & s2 & Hsrc).
  destruct (located_exists _ _ Htin) as (c0 & d1 & target & d2 & Htgt).
  unfold moveNode.
  rewrite (proj2 (String.eqb_neq _ _) Hdiff).
  rewrite (findNodeWithParent_of_located _ _ _ _ _ _ Hsrc).
  rewrite (findNodeWithParent_of_located _ _ _ _ _ _ Htgt).
  pose proof Hsrc as (Es & Hids & Hcs & Hs1).
  rewrite (findIndex_located nodeId s1 src s2 Hids Hs1), Hin.
  destruct mode; [|discriminate].
  destruct Htgt as (Et & Hidt & Hct & Hd1).
  rewrite (findIndex_located targetId d1 target d2 Hidt Hd1).
  match goal with |- snd (if ?b then _ else _) <> _ => destruct b end; discriminate.
Qed.

(** ** Updates through a node reference *)

Lemma updNode_absent tid f nodes : ~ In tid (ids nodes) -> updNode tid f nodes = nodes.
Proof.
  intros H. unfold updNode. fold (updNodeFrom tid f nodes).
  now rewrite updNodeFrom_absent.
Qed.

Lemma located_update nodes tid c a1 t a2 (f : MindMapNode -> MindMapNode) :
  located nodes tid c a1 t a2 -> id (f t) = tid ->
  located (fill c (a1 ++ f t :: a2)) tid c a1 (f t) a2.
Proof. intros (_ & _ & Hc & Ha1) Hid. now repeat split. Qed.

Lemma proj_update (A : Type) (g : MindMapNode -> A) :
  (forall n c, g (setChildren n c) = g n) ->
  forall c a1 t t' a2,
    g t' = g t -> children t' = children t ->
    proj g (fill c (a1 ++ t' :: a2)) = proj g (fill c (a1 ++ t :: a2)).
Proof.
  intros Hg c a1 t t' a2 E Ek. rewrite !(proj_fill _ g Hg), !proj_app, !proj_cons.
  now rewrite E, Ek.
Qed.

Lemma levelsFrom_same lvl a b :
  level a = level b -> children a = children b -> levelsFrom lvl a = levelsFrom lvl b.
Proof. intros El Ek. now rewrite !levelsFrom_eq, El, Ek. Qed.

Lemma parentsFrom_same pid a b :
  id a = id b -> parentId a = parentId b -> children a = children b ->
  parentsFrom pid a = parentsFrom pid b.
Proof. intros Ei Ep Ek. now rewrite !parentsFrom_eq, Ei, Ep, Ek. Qed.

Lemma updNode_valid tid f nodes :
  (forall n, id (f n) = id n /\ level (f n) = level n /\
             parentId (f n) = parentId n /\ children (f n) = children n) ->
  valid nodes -> valid (updNode tid f nodes).
Proof.
  intros Hf Hv.
  destruct (in_dec string_dec tid (ids nodes)) as [Hin|Hout];
    [|now rewrite updNode_absent].
  destruct (located_exists _ _ Hin) as (c & a1 & t & a2 & L).
  rewrite (updNode_located _ _ _ _ _ _ _ L).
  destruct L as (-> & _). destruct (Hf t) as (Ei & El & Ep & Ek).
  destruct (valid_remove _ _ _ _ Hv) as (Hr & Hl & Hp & Hn).
  apply valid_insert; auto.
  - now rewrite (levelsFrom_same _ _ t).
  - now rewrite (parentsFrom_same _ _ t).
  - now rewrite !ids_cons, Ei, Ek in *.
Qed.

Lemma hd_rev_owners c arr : hd_error (rev (ownersOf c arr)) = holeOwner c arr.
Proof.
  induction c as [|pre o inner IH post]; cbn [ownersOf holeOwner rev]; [reflexivity|].
  rewrite <- IH. now destruct (rev (ownersOf inner arr)).
Qed.

Lemma getParentChain_of_located nodes tid c a1 t a2 :
  located nodes tid c a1 t a2 ->
  getParentChain nodes tid = rev (ownersOf c (a1 ++ t :: a2)).
Proof.
  intros (-> & Hid & Hc & Ha1). unfold getParentChain.
  fold (findParentsFrom tid (fill c (a1 ++ t :: a2)) []).
  rewrite (findParentsFrom_located tid a1 t a2 Hid Ha1 c [] Hc).
  apply app_nil_r.
Qed.

Lemma holeParent_id_owner c arr :
  holeParent None c = option_map id (holeOwner c arr).
Proof.
  rewrite (holeParent_owner c arr). now destruct (holeOwner c arr).
Qed.

(** ** Expanding or collapsing everything *)

Lemma visitCollapsed_eq c n :
  visitCollapsed c n =
  match children n with
  | [] => n
  | _ :: _ =>
      mkNode (id n) (title n) (description n)
             (map (visitCollapsed c) (children n)) (level n) c (parentId n)
  end.
Proof. destruct n; reflexivity. Qed.

Lemma not_descendant_outside nodes nodeId targetId :
  nodeId <> targetId -> In nodeId (ids nodes) ->
  isDescendant nodes nodeId targetId = false ->
  insideSource nodes nodeId targetId = false.
Proof.
  intros Hdiff Hin Hd.
  destruct (located_exists _ _ Hin) as (cs & s1 & src & s2 & Hs).
  unfold isDescendant in Hd. rewrite (findNodeById_of_located _ _ _ _ _ _ Hs) in Hd.
  apply (outside_of_no_descendant _ _ _ _ _ _ _ Hdiff Hs).
  now destruct (findNodeById (children src) targetId).
Qed.

Lemma assign_keeps u n :
  newId u = None -> newChildren u = None -> newLevel u = None -> newParentId u = None ->
  id (assign n u) = id n /\ level (assign n u) = level n /\
  parentId (assign n u) = parentId n /\ children (assign n u) = children n.
Proof.
  intros Hi Hk Hl Hp. unfold assign.
  cbn [id level parentId children]. now rewrite Hi, Hk, Hl, Hp.
Qed.

(** ** The drag gesture *)

Lemma accepted_intent nodes clientY nodeId under intent :
  computeActiveDropIntent nodes clientY nodeId under = Some intent ->
  nodeId <> intentTargetId intent /\
  isDescendant nodes nodeId (intentTargetId intent) = false.
Proof.
  intros Ei. unfold computeActiveDropIntent in Ei.
  destruct under as [[[targetId|] rect]|]; try discriminate.
  destruct (String.eqb targetId EmptyString) eqn:E0; [discriminate|].
  destruct (String.eqb targetId nodeId) eqn:E1; [discriminate|].
  destruct (isDescendant nodes nodeId targetId) eqn:E2; [discriminate|].
  cbn [orb] in Ei. apply String.eqb_neq in E1.
  assert (Etid : intentTargetId intent = targetId).
  { repeat match type of Ei with
           | (if ?b then _ else _) = _ => destruct b
           end; injection Ei as <-; reflexivity. }
  rewrite Etid. split; [congruence|exact E2].
Qed.

(** A move that is more than 8 pixels away from the press, as the handler
    computes the distance. *)
Definition farFrom (down e : pointerEvent) : Prop :=
  flt (double 8)
      (fadd (mathAbs (fsub (clientX e) (clientX down)))
            (mathAbs (fsub (clientY e) (clientY down)))) = true.

Section Gesture.
Variables (nodes : forest) (node : MindMapNode) (s0 : dragState) (down : pointerEvent).
Hypothesis rootStartsClean : parentId node = None -> dropIntended s0 = None.

(** What holds of the state during a gesture, after the moves [seen]. *)
Definition dragging (seen : list pointerEvent) (s : dragState) : Prop :=
  draggingNodeId s = Some (id node) /\
  dragStartX s = clientX down /\ dragStartY s = clientY down /\
  (parentId node = None -> dropIntended s = None) /\
  (dragIsActive s = true -> exists e, In e seen /\ farFrom down e).

Lemma dragging_start : dragging [] (onPointerDown node down s0).
Proof.
  unfold dragging, onPointerDown.
  cbn [draggingNodeId dragStartX dragStartY dragIsActive dropIntended].
  repeat split; auto. discriminate.
Qed.

Lemma dragging_more seen e s : dragging seen s -> dragging (seen ++ [e]) s.
Proof.
  intros (Hid & Hx & Hy & Hroot & Hact). repeat split; auto.
  intros Ha. destruct (Hact Ha) as (e0 & He0 & Hfar).
  exists e0. split; [apply in_or_app; now left|exact Hfar].
Qed.

Lemma dragging_move seen s e :
  dragging seen s -> dragging (seen ++ [e]) (onPointerMove nodes node e s).
Proof.
  intros Hs. pose proof Hs as (Hid & Hx & Hy & Hroot & Hact). unfold onPointerMove.
  destruct (negb (truthy (draggingNodeId s))
            || negb (optEqb (draggingNodeId s) (Some (id node))));
    [now apply dragging_more|].
  rewrite Hx, Hy. cbv zeta.
  destruct (dragIsActive s) eqn:Ea; cbn [orb].
  - assert (Hfar : exists e0, In e0 (seen ++ [e]) /\ farFrom down e0).
    { destruct (Hact eq_refl) as (e0 & He0 & Hfar). exists e0.
      split; [apply in_or_app; now left|exact Hfar]. }
    destruct (parentId node) eqn:Ep; unfold dragging;
      cbn [draggingNodeId dragStartX dragStartY dragIsActive dropIntended];
      repeat split; auto; intros; congruence.
  - destruct (flt (double 8)
                  (fadd (mathAbs (fsub (clientX e) (clientX down)))
                        (mathAbs (fsub (clientY e) (clientY down))))) eqn:Efar.
    + assert (Hfar : exists e0, In e0 (seen ++ [e]) /\ farFrom down e0).
      { exists e. split; [apply in_or_app; right; now left|exact Efar]. }
      destruct (parentId node) eqn:Ep; unfold dragging;
        cbn [draggingNodeId dragStartX dragStartY dragIsActive dropIntended];
        repeat split; auto; intros; congruence.
    + now apply dragging_more.
Qed.

Lemma dragging_moves moves : forall seen s,
  dragging seen s ->
  dragging (seen ++ moves) (fold_left (fun s e => onPointerMove nodes node e s) moves s).
Proof.
  induction moves as [|e moves IH]; intros seen s Hs.
  - now rewrite app_nil_r.
  - cbn [fold_left]. replace (seen ++ e :: moves) with ((seen ++ [e]) ++ moves)
      by now rewrite <- app_assoc.
    apply IH. now apply dragging_move.
Qed.

(** After the release nothing is pending. *)
Lemma gesture_ends moves :
  fst (dragGesture nodes node s0 down moves)
  = mkDrag None (clientX down) (clientY down) false None.
Proof.
  unfold dragGesture.
  pose proof (dragging_moves moves [] _ dragging_start) as (Hid & Hx & Hy & _).
  unfold endDrag. now rewrite Hid, optEqb_refl, Hx, Hy.
Qed.

Lemma gesture_sent moves sent :
  snd (dragGesture nodes node s0 down moves) = Some sent ->
  parentId node <> None /\
  (exists e, In e moves /\ farFrom down e) /\
  exists front final intent,
    moves = front ++ [final] /\
    computeActiveDropIntent nodes (clientY final) (id node) (elementUnder final)
      = Some intent /\
    sent = (intentMode intent, intentTargetId intent).
Proof.
  unfold dragGesture. intros H.
  pose proof dragging_start as Hstart.
  pose proof (dragging_moves moves [] _ Hstart) as Hend. cbn [app] in Hend.
  destruct moves as [|m moves'] using rev_ind.
  - cbn [fold_left] in H. unfold endDrag, onPointerDown in H.
    cbn [draggingNodeId dragIsActive] in H. rewrite optEqb_refl in H. discriminate.
  - clear IHmoves'. rewrite fold_left_app in H, Hend. cbn [fold_left] in H, Hend.
    pose proof (dragging_moves moves' [] _ Hstart) as Hmid. cbn [app] in Hmid.
    set (mid := fold_left (fun s e => onPointerMove nodes node e s) moves'
                          (onPointerDown node down s0)) in *.
    destruct Hend as (Hid & _ & _ & Hroot & Hact).
    unfold endDrag in H. rewrite Hid, optEqb_refl in H. cbn [snd] in H.
    destruct (dragIsActive (onPointerMove nodes node m mid)) eqn:Ea; [|discriminate].
    destruct (parentId node) as [pid|] eqn:Ep.
    2:{ rewrite (Hroot eq_refl) in H. discriminate. }
    split; [discriminate|]. split; [exact (Hact eq_refl)|].
    exists moves', m.
    destruct Hmid as (Hmid & Hx & Hy & _ & Hmidact).
    unfold onPointerMove in H, Ea. rewrite Ep in H, Ea.
    destruct (negb (truthy (draggingNodeId mid))
              || negb (optEqb (draggingNodeId mid) (Some (id node)))) eqn:Eskip.
    + (* the handler returned at once: the state before was active already *)
      exfalso. destruct (Hmidact Ea) as (e0 & He0 & Hfar0).
      (* an active state is only ever left by a handler that ran *)
      rewrite Hmid, optEqb_refl in Eskip. cbn [negb orb] in Eskip.
      rewrite orb_false_r in Eskip. apply negb_true_iff in Eskip.
      clear - Eskip Ea Hmid moves' Hstart mid.
      assert (Hnever : forall l s,
                 draggingNodeId s = Some (id node) -> dragIsActive s = false ->
                 dragIsActive (fold_left (fun s e => onPointerMove nodes node e s) l s)
                 = false).
      { induction l as [|e l IH]; intros s Hs Hn; [exact Hn|].
        cbn [fold_left]. unfold onPointerMove at 2. rewrite Hs, Eskip. cbn [negb orb].
        now apply IH. }
      unfold mid in Ea. rewrite Hnever in Ea; [discriminate|reflexivity|reflexivity].
    + cbv zeta in H, Ea.
      destruct (dragIsActive mid
                || flt (double 8)
                       (fadd (mathAbs (fsub (clientX m) (dragStartX mid)))
                             (mathAbs (fsub (clientY m) (dragStartY mid))))) eqn:Eact.
      * cbn [dropIntended] in H.
        destruct (computeActiveDropIntent nodes (clientY m) (id node) (elementUnder m))
          as [intent|] eqn:Ei; [|discriminate].
        exists intent. split; [reflexivity|]. split; [reflexivity|].
        destruct (String.eqb (intentTargetId intent) EmptyString); [discriminate|].
        now injection H as <-.
      * rewrite Ea in Eact. cbn [orb] in Eact. discriminate.
Qed.
End Gesture.

(** ** Taking back an insertion *)

Lemma fresh_clear tid c : forall arr,
  ~ In tid (ids (fill c arr)) -> clear tid c /\ ~ In tid (ids arr).
Proof.
  induction c as [|pre o inner IH post]; intros arr H; cbn [fill clear] in *.
  - now split.
  - apply not_in_ids_app in H. destruct H as [Hpre H].
    rewrite ids_setChildren in H.
    assert (Ho : id o <> tid) by (intros E; apply H; now left).
    assert (Hin : ~ In tid (ids (fill inner arr))).
    { intros E. apply H. right. apply in_or_app. now left. }
    destruct (IH arr Hin) as [Hc Harr]. now repeat split.
Qed.

Lemma clear_plug tid c d : clear tid c -> clear tid d -> clear tid (plug c d).
Proof.
  induction c as [|pre o inner IH post]; cbn [plug clear]; [auto|].
  intros (Hp & Ho & Hi) Hd. repeat split; auto.
Qed.

(** ** [parse] reads the sections of the text *)

Lemma entry_children n c : entry (setChildren n c) = entry n.
Proof. reflexivity. Qed.

Lemma proj_snoc (A : Type) (g : MindMapNode -> A) front x :
  proj g (front ++ [x]) = proj g front ++ g x :: proj g (children x).
Proof. rewrite proj_app, proj_cons. cbn [proj flatten flat_map map]. now rewrite app_nil_r. Qed.

Lemma fullSpine_nil_inv arr : fullSpine arr [] -> arr = [].
Proof. intros H. inversion H. reflexivity. Qed.

(** The node at the end of the spine is the last node in pre-order. *)
Lemma fullSpine_last (A : Type) (g : MindMapNode -> A) :
  (forall n c, g (setChildren n c) = g n) ->
  forall lvls arr,
    lvls <> [] -> fullSpine arr lvls ->
    exists pre x,
      proj g arr = pre ++ [g x] /\ children x = [] /\
      forall f, children (f x) = [] ->
                proj g (onSpine (List.length lvls - 1) f arr) = pre ++ [g (f x)].
Proof.
  intros Hg. induction lvls as [|l lvls IH]; [congruence|].
  intros arr _ Hspine.
  destruct (fullSpine_inv _ _ _ Hspine) as (front & x & -> & _ & _ & Hkids).
  destruct lvls as [|l2 rest].
  - apply fullSpine_nil_inv in Hkids.
    exists (proj g front), x. split; [|split; [exact Hkids|]].
    + now rewrite proj_snoc, Hkids.
    + intros f Hf. cbn [List.length Nat.sub onSpine]. rewrite splitLast_snoc.
      now rewrite proj_snoc, Hf.
  - destruct (IH (children x)) as (pre & y & Hp & Hy & Hon);
      [discriminate|assumption|].
    exists (proj g front ++ g x :: pre), y. split; [|split; [exact Hy|]].
    + rewrite proj_snoc, Hp, <- app_assoc. reflexivity.
    + intros f Hf.
      replace (List.length (l :: l2 :: rest) - 1)
        with (S (List.length (l2 :: rest) - 1)) by (cbn [List.length]; lia).
      cbn [onSpine]. rewrite splitLast_snoc, proj_snoc, Hg, children_setChildren.
      rewrite (Hon f Hf), <- app_assoc. reflexivity.
Qed.

Lemma attach_proj (A : Type) (g : MindMapNode -> A) node :
  (forall n c, g (setChildren n c) = g n) ->
  (forall p, g (setParentId node p) = g node) ->
  children node = [] ->
  forall lvls arr,
    lvls <> [] -> rightSpine arr lvls ->
    proj g (onSpine (List.length lvls - 1)
              (fun parent => push (setParentId node (Some (id parent))) parent) arr)
    = proj g arr ++ [g node].
Proof.
  intros Hg Hp Hleaf. induction lvls as [|l lvls IH]; [congruence|].
  intros arr _ Hspine.
  inversion Hspine as [|front x lvls2 Hx Earr Elv]. subst arr lvls2 l.
  destruct lvls as [|l2 rest].
  - cbn [List.length Nat.sub onSpine]. rewrite splitLast_snoc.
    rewrite !proj_snoc. unfold push. rewrite Hg, children_setChildren.
    rewrite proj_snoc. cbn [children setParentId]. rewrite Hleaf, Hp.
    change (proj g []) with (@nil A). rewrite <- app_assoc. reflexivity.
  - replace (List.length (level x :: l2 :: rest) - 1)
      with (S (List.length (l2 :: rest) - 1)) by (cbn [List.length]; lia).
    cbn [onSpine]. rewrite splitLast_snoc.
    rewrite !proj_snoc, Hg, children_setChildren.
    rewrite (IH (children x)) by (discriminate || assumption).
    rewrite <- app_assoc. reflexivity.
Qed.

(** The state of the loop while a section is open: the current node is the
    last node in pre-order and has no description yet. *)
Definition sectionOpen (st : parserState) (done : list (string * nat * text * option text))
    (i : string) (l : nat) (t : text) : Prop :=
  nesting st /\
  generated st = List.length (flatten (nodes st)) /\
  nodeStack st <> [] /\
  currentNode st = Some (List.length (nodeStack st) - 1) /\
  proj entry (nodes st) = done ++ [(i, l, t, None)].

Lemma saveDescription_open st done i l t :
  sectionOpen st done i l t ->
  proj entry (nodes (saveDescription st))
    = done ++ [(i, l, t, descriptionOf (descriptionLines st))] /\
  descriptionLines (saveDescription st) = [] /\
  nodeStack (saveDescription st) = nodeStack st /\
  generated (saveDescription st) = generated st /\
  List.length (flatten (nodes (saveDescription st))) = List.length (flatten (nodes st)).
Proof.
  intros (Hn & Hg & Hs & Hc & He). unfold saveDescription. rewrite Hc.
  destruct (descriptionLines st) as [|p ps] eqn:Ep.
  - cbn [descriptionOf]. now rewrite Ep.
  - cbn [nodes descriptionLines nodeStack generated descriptionOf].
    destruct Hn as [_ Hspine].
    destruct (fullSpine_last _ entry entry_children (rev (nodeStack st)) (nodes st))
      as (pre & x & Hp & Hx & Hon).
    { intros E. apply (f_equal (@List.length nat)) in E.
      rewrite length_rev in E. destruct (nodeStack st); [congruence|discriminate]. }
    { exact Hspine. }
    rewrite length_rev in Hon.
    rewrite Hp in He. apply app_inj_tail in He. destruct He as [-> Hx'].
    pose proof (Hon (fun n => setDescription n (Some (trim (join [newline] (p :: ps))))) Hx)
      as Hset.
    split; [|split; [reflexivity|split; [reflexivity|split; [reflexivity|]]]].
    + rewrite Hset. f_equal. f_equal. unfold entry in *.
      cbn [id level title description setDescription].
      injection Hx' as -> -> -> _. reflexivity.
    + rewrite <- !(length_proj _ entry), Hset, Hp, !length_app. reflexivity.
Qed.

Lemma sectionOpen_heading generateId st done i l t hashes rawTitle line :
  sectionOpen st done i l t ->
  headingMatch line = Some (hashes, rawTitle) ->
  sectionOpen (parseLine generateId st line)
              (done ++ [(i, l, t, descriptionOf (descriptionLines st))])
              (generateId (generated st)) (List.length hashes) (trim rawTitle) /\
  descriptionLines (parseLine generateId st line) = [] /\
  generated (parseLine generateId st line) = S (generated st).
Proof.
  intros Hopen Hm.
  pose proof (parseLine_nesting generateId st line (proj1 Hopen)) as Hnest.
  destruct (saveDescription_open _ _ _ _ _ Hopen) as (He & Hd & Hs & Hg & Hlen).
  destruct Hopen as (Hn & Hgen & Hstack & Hc & _).
  pose proof (saveDescription_nesting st Hn) as [_ Hspine].
  apply fullSpine_rightSpine in Hspine.
  unfold sectionOpen. unfold parseLine in *. rewrite Hm in *.
  set (st1 := saveDescription st) in *.
  cbn [nodes nodeStack currentNode descriptionLines generated] in *.
  set (node := mkNode (generateId (generated st1)) (trim rawTitle) None []
                      (List.length hashes) false None) in *.
  destruct (popWhile_suffix (List.length hashes) (nodeStack st1))
    as (dropped & Estack & _).
  assert (Hpre : rightSpine (nodes st1) (rev (popWhile (List.length hashes) (nodeStack st1)))).
  { rewrite Estack, rev_app_distr in Hspine. now apply rightSpine_prefix in Hspine. }
  assert (Hattach : forall nodes' : list MindMapNode,
    nodes' = match popWhile (List.length hashes) (nodeStack st1) with
             | [] => nodes st1 ++ [node]
             | _ :: below =>
                 onSpine (List.length below)
                   (fun parent => push (setParentId node (Some (id parent))) parent)
                   (nodes st1)
             end ->
    proj entry nodes' = proj entry (nodes st1) ++ [entry node]).
  { intros nodes' ->.
    destruct (popWhile (List.length hashes) (nodeStack st1)) as [|top below].
    - now rewrite proj_snoc.
    - pose proof (attach_proj _ entry node entry_children (fun _ => eq_refl) eq_refl
                    (rev (top :: below)) (nodes st1)) as H.
      replace (List.length (rev (top :: below)) - 1) with (List.length below) in H
        by (rewrite length_rev; cbn [List.length]; lia).
      apply H; [|assumption].
      cbn [rev]. intros E. apply app_eq_nil in E. destruct E; discriminate. }
  split; [|split; [exact Hd|now rewrite Hg]].
  split; [exact Hnest|].
  cbn [nodes nodeStack currentNode descriptionLines generated].
  split; [|split; [discriminate|split]].
  - rewrite <- (length_proj _ entry), (Hattach _ eq_refl), length_app,
            (length_proj _ entry).
    cbn [List.length]. rewrite Hlen, Hg. lia.
  - cbn [List.length]. f_equal. lia.
  - rewrite (Hattach _ eq_refl), He. unfold entry, node.
    cbn [id level title description]. now rewrite Hg.
Qed.

Lemma isBlank_trim line : isBlank line = match trim line with [] => true | _ => false end.
Proof. reflexivity. Qed.

Lemma fold_sections_open generateId lines :
  forall st done i l t,
    sectionOpen st done i l t ->
    proj entry (nodes (saveDescription (fold_left (parseLine generateId) lines st)))
    = done
      ++ [(i, l, t,
           descriptionOf (descriptionLines st
                          ++ fst (fold_right sectionStep ([], []) lines)))]
      ++ entriesOf generateId (generated st)
                   (snd (fold_right sectionStep ([], []) lines)).
Proof.
  induction lines as [|line lines IH]; intros st done i l t Hopen.
  - cbn [fold_left fold_right fst snd entriesOf]. rewrite !app_nil_r.
    exact (proj1 (saveDescription_open _ _ _ _ _ Hopen)).
  - cbn [fold_left fold_right]. unfold sectionStep at 1 3.
    destruct (headingMatch line) as [[hashes rawTitle]|] eqn:Hm.
    + destruct (sectionOpen_heading generateId st done i l t hashes rawTitle line Hopen Hm)
        as (Hopen' & Hd' & Hg').
      rewrite (IH _ _ _ _ _ Hopen'), Hd', Hg'.
      cbn [fst snd entriesOf sectionLevel sectionTitle sectionBody app].
      rewrite app_nil_r, <- app_assoc. reflexivity.
    + assert (Hstep : parseLine generateId st line =
                      if isBlank line then st
                      else mkParser (nodes st) (nodeStack st) (currentNode st)
                                    (descriptionLines st ++ [line]) (generated st)).
      { unfold parseLine. rewrite Hm, isBlank_trim.
        destruct Hopen as (_ & _ & _ & -> & _). now destruct (trim line). }
      rewrite Hstep. destruct (isBlank line).
      * exact (IH _ _ _ _ _ Hopen).
      * rewrite (IH _ done i l t).
        -- cbn [descriptionLines generated fst snd].
           now rewrite <- app_assoc.
        -- destruct Hopen as (Hn & Hg & Hs & Hc & He).
           split; [exact Hn|]. split; [exact Hg|]. split; [exact Hs|].
           split; [exact Hc|exact He].
Qed.

Lemma fold_sections_idle generateId lines :
  proj entry
    (nodes (saveDescription
              (fold_left (parseLine generateId) lines (mkParser [] [] None [] 0))))
  = entriesOf generateId 0 (snd (fold_right sectionStep ([], []) lines)).
Proof.
  induction lines as [|line lines IH]; [reflexivity|].
  cbn [fold_left fold_right]. unfold sectionStep at 1.
  destruct (headingMatch line) as [[hashes rawTitle]|] eqn:Hm.
  - assert (Hopen : sectionOpen (parseLine generateId (mkParser [] [] None [] 0) line)
                      [] (generateId 0) (List.length hashes) (trim rawTitle)).
    { unfold parseLine. rewrite Hm.
      cbn [saveDescription currentNode nodes nodeStack generated descriptionLines popWhile app].
      split; [|split; [reflexivity|split; [discriminate|split; reflexivity]]].
      split; [|].
      - cbn [nodes nestedIn]. rewrite nested_eq.
        cbn [parentId optEqb level children nestedIn notAbove flatten flat_map map forallb].
        destruct (headingMatch_level _ _ _ Hm) as [H1 _].
        rewrite (proj2 (Nat.ltb_lt 0 (List.length hashes))) by lia. reflexivity.
      - cbn [nodes nodeStack rev app].
        apply (fullSpine_more []
                 (mkNode (generateId 0) (trim rawTitle) None []
                         (List.length hashes) false None) []); [|constructor].
        unfold notAbove. cbn. now rewrite Nat.leb_refl. }
    rewrite (fold_sections_open generateId lines _ _ _ _ _ Hopen).
    unfold parseLine. rewrite Hm.
    cbn [saveDescription currentNode descriptionLines generated app fst snd entriesOf
         sectionLevel sectionTitle sectionBody].
    reflexivity.
  - assert (Hstep : parseLine generateId (mkParser [] [] None [] 0) line
                    = mkParser [] [] None [] 0).
    { unfold parseLine. now rewrite Hm. }
    rewrite Hstep, IH. now destruct (isBlank line).
Qed.

Lemma parse_sections generateId markdown :
  proj entry (parse generateId markdown) = entriesOf generateId 0 (sectionsOf markdown).
Proof. unfold parse, sectionsOf. apply fold_sections_idle. Qed.

(** ** A tree that can be read from the sequence of its levels *)

(** Levels that make the tree readable from the sequence of its levels:
    a node lies deeper than its parent, and no deeper than any node of the
    subtrees of its preceding siblings. *)
Fixpoint levelNested (plvl : nat) (n : MindMapNode) : bool :=
  Nat.ltb plvl (level n) && nestedIn (levelNested (level n)) [] (children n).

Definition readable (nodes : forest) : bool := nestedIn (levelNested 0) [] nodes.


Lemma levelNested_eq plvl n :
  levelNested plvl n =
  Nat.ltb plvl (level n) && nestedIn (levelNested (level n)) [] (children n).
Proof. destruct n; reflexivity. Qed.

Lemma nestedIn_impl (e1 e2 : MindMapNode -> bool) (l : forest) :
  (forall c, In c l -> e1 c = true -> e2 c = true) ->
  forall seen, nestedIn e1 seen l = true -> nestedIn e2 seen l = true.
Proof.
  induction l as [|c rest IH]; intros Himp seen H; [reflexivity|].
  rewrite nestedIn_cons in *. apply andb_prop in H. destruct H as [H Hrest].
  apply andb_prop in H. destruct H as [Hseen Hc].
  rewrite Hseen, (Himp c (or_introl eq_refl) Hc). cbn [andb].
  apply IH; [|exact Hrest]. intros c' Hc'. apply Himp. now right.
Qed.

Lemma nestedIn_elements (e : MindMapNode -> bool) (l : forest) :
  forall seen, nestedIn e seen l = true -> forall c, In c l -> e c = true.
Proof.
  induction l as [|c rest IH]; intros seen H x Hx; [contradiction|].
  rewrite nestedIn_cons in H. apply andb_prop in H. destruct H as [H Hrest].
  apply andb_prop in H. destruct H as [_ Hc].
  destruct Hx as [<-|Hx]; [exact Hc|]. exact (IH _ Hrest x Hx).
Qed.

Lemma nested_levelNested n : forall pid plvl,
  nested pid plvl n = true -> levelNested plvl n = true.
Proof.
  induction n as [n IH] using MindMapNode_forall_ind. intros pid plvl H.
  rewrite nested_eq in H. rewrite levelNested_eq.
  apply andb_prop in H. destruct H as [H Hkids].
  apply andb_prop in H. destruct H as [_ Hlvl]. rewrite Hlvl. cbn [andb].
  apply (nestedIn_impl (nested (Some (id n)) (level n))); [|exact Hkids].
  intros c Hc. rewrite Forall_forall in IH. exact (IH c Hc _ _).
Qed.

Lemma notAbove_in lvl arr m :
  notAbove lvl arr = true -> In m (flatten arr) -> lvl <= level m.
Proof.
  unfold notAbove. rewrite forallb_forall. intros H Hm.
  apply Nat.leb_le. apply H. now apply in_map.
Qed.

Lemma notAbove_intro lvl arr :
  (forall m, In m (flatten arr) -> lvl <= level m) -> notAbove lvl arr = true.
Proof.
  intros H. unfold notAbove. rewrite forallb_forall. intros x Hx.
  apply in_map_iff in Hx. destruct Hx as (m & <- & Hm).
  apply Nat.leb_le. now apply H.
Qed.

Lemma levelsFrom_floor n : forall lvl m,
  levelsFrom lvl n = true -> In m (flatten [n]) -> lvl <= level m.
Proof.
  induction n as [n IH] using MindMapNode_forall_ind. intros lvl m H Hm.
  rewrite levelsFrom_eq in H. apply andb_prop in H. destruct H as [Hl Hk].
  apply Nat.eqb_eq in Hl. rewrite flatten_cons in Hm. cbn [flatten flat_map] in Hm.
  rewrite app_nil_r in Hm. destruct Hm as [<-|Hm]; [lia|].
  unfold flatten in Hm. apply in_flat_map in Hm. destruct Hm as (c & Hc & Hm).
  rewrite Forall_forall in IH. rewrite forallb_forall in Hk.
  assert (Hm' : In m (flatten [c])).
  { cbn [flatten flat_map]. now rewrite app_nil_r. }
  pose proof (IH c Hc (lvl + 1) m (Hk c Hc) Hm'). lia.
Qed.

Lemma levelsFrom_nested (l : forest) : forall lvl plvl seen,
  plvl < lvl ->
  notAbove lvl seen = true ->
  forallb (levelsFrom lvl) l = true ->
  nestedIn (levelNested plvl) seen l = true.
Proof.
  induction l as [|n rest IHk IHr] using forest_ind2; intros lvl plvl seen Hp Hseen H;
    [reflexivity|].
  cbn [forallb] in H. apply andb_prop in H. destruct H as [Hn Hrest].
  pose proof Hn as Hn'. rewrite levelsFrom_eq in Hn'.
  apply andb_prop in Hn'. destruct Hn' as [Hl Hk]. apply Nat.eqb_eq in Hl.
  rewrite nestedIn_cons, Hl, Hseen, levelNested_eq, Hl.
  rewrite (proj2 (Nat.ltb_lt plvl lvl) Hp). cbn [andb].
  rewrite (IHk (lvl + 1) lvl []); [cbn [andb]|lia|reflexivity|exact Hk].
  apply (IHr lvl); [exact Hp| |exact Hrest].
  apply notAbove_intro. intros m Hm. rewrite flatten_app in Hm.
  apply in_app_or in Hm. destruct Hm as [Hm|Hm].
  - exact (notAbove_in _ _ _ Hseen Hm).
  - exact (levelsFrom_floor n lvl m Hn Hm).
Qed.

Lemma levelsOk_readable nodes : levelsOk nodes = true -> readable nodes = true.
Proof.
  intros H. apply (levelsFrom_nested nodes 1 0 []); [lia|reflexivity|exact H].
Qed.

Lemma parse_readable generateId markdown :
  readable (parse generateId markdown) = true.
Proof.
  unfold readable.
  apply (nestedIn_impl (nested None 0)); [|apply parse_nested].
  intros c _. apply nested_levelNested.
Qed.

(** Every node of a subtree lies deeper than the parent of its root. *)
Lemma levelNested_above n : forall plvl m,
  levelNested plvl n = true -> In m (flatten [n]) -> plvl < level m.
Proof.
  induction n as [n IH] using MindMapNode_forall_ind. intros plvl m H Hm.
  rewrite levelNested_eq in H. apply andb_prop in H. destruct H as [Hl Hk].
  apply Nat.ltb_lt in Hl. rewrite flatten_cons in Hm. cbn [flatten flat_map] in Hm.
  rewrite app_nil_r in Hm. destruct Hm as [<-|Hm]; [exact Hl|].
  unfold flatten in Hm. apply in_flat_map in Hm. destruct Hm as (c & Hc & Hm).
  rewrite Forall_forall in IH.
  assert (Hm' : In m (flatten [c])).
  { cbn [flatten flat_map]. now rewrite app_nil_r. }
  pose proof (IH c Hc (level n) m (nestedIn_elements _ _ _ Hk c Hc) Hm'). lia.
Qed.

(** The level, title and description text of a node. *)
Definition slim (n : MindMapNode) : nat * text * text :=
  (level n, title n, descriptionText n).

Lemma bare_eq n :
  bare n =
  mkNode EmptyString (title n)
         (match descriptionText n with [] => None | d => Some d end)
         (map bare (children n)) (level n) false None.
Proof. destruct n; reflexivity. Qed.

Lemma split_above (A : Type) (lv : A -> nat) (L : nat) (ka : list A) :
  forall ra kb rb,
    ka ++ ra = kb ++ rb ->
    Forall (fun s => L < lv s) ka -> Forall (fun s => L < lv s) kb ->
    match ra with [] => True | s :: _ => lv s <= L end ->
    match rb with [] => True | s :: _ => lv s <= L end ->
    ka = kb /\ ra = rb.
Proof.
  induction ka as [|a ka IH]; intros ra [|b kb] rb E Ha Hb Hra Hrb; cbn [app] in E.
  - now split.
  - subst ra. inversion Hb as [|? ? Hb1 _]. lia.
  - subst rb. inversion Ha as [|? ? Ha1 _]. lia.
  - injection E as -> E. inversion Ha. inversion Hb. subst.
    destruct (IH ra kb rb E) as [-> ->]; auto.
Qed.

Lemma levelNested_kids x plv m :
  levelNested plv x = true -> In m (flatten (children x)) -> level x < level m.
Proof.
  intros Hx Hm. rewrite levelNested_eq in Hx. apply andb_prop in Hx.
  destruct Hx as [_ Hk]. unfold flatten in Hm. apply in_flat_map in Hm.
  destruct Hm as (c & Hc & Hm).
  apply (levelNested_above c (level x) m (nestedIn_elements _ _ _ Hk c Hc)).
  cbn [flatten flat_map]. now rewrite app_nil_r.
Qed.

Lemma nestedIn_next (e : MindMapNode -> bool) seen a (rest : forest) :
  nestedIn e (seen ++ [a]) rest = true ->
  match proj slim rest with
  | [] => True
  | s :: _ => fst (fst s) <= level a
  end.
Proof.
  destruct rest as [|c rest]; [exact (fun _ => I)|].
  rewrite nestedIn_cons, proj_cons. intros H.
  apply andb_prop in H. destruct H as [H _].
  apply andb_prop in H. destruct H as [H _]. cbn [slim fst].
  apply (notAbove_in _ _ _ H). rewrite flatten_app. apply in_or_app. right.
  rewrite flatten_cons. now left.
Qed.

Lemma readable_unique (A : forest) :
  forall plvl seenA seenB (B : forest),
    nestedIn (levelNested plvl) seenA A = true ->
    nestedIn (levelNested plvl) seenB B = true ->
    proj slim A = proj slim B ->
    map bare A = map bare B.
Proof.
  induction A as [|a A' IHk IHr] using forest_ind2;
    intros plvl seenA seenB [|b B'] HA HB E.
  - reflexivity.
  - rewrite proj_cons in E. discriminate.
  - rewrite proj_cons in E. discriminate.
  - rewrite !proj_cons in E. injection E as Elvl Ettl Edsc E.
    rewrite nestedIn_cons in HA, HB.
    apply andb_prop in HA. destruct HA as [HA HA'].
    apply andb_prop in HA. destruct HA as [_ Ha].
    apply andb_prop in HB. destruct HB as [HB HB'].
    apply andb_prop in HB. destruct HB as [_ Hb].
    assert (Hdeep : forall x plv, levelNested plv x = true ->
                    Forall (fun s => level x < fst (fst s)) (proj slim (children x))).
    { intros x plv Hx. apply Forall_forall. intros s Hs.
      unfold proj in Hs. apply in_map_iff in Hs. destruct Hs as (m & <- & Hm).
      cbn [slim fst]. exact (levelNested_kids x plv m Hx Hm). }
    pose proof (Hdeep a plvl Ha) as Hka. pose proof (Hdeep b plvl Hb) as Hkb.
    pose proof (nestedIn_next _ _ _ _ HA') as Hra.
    pose proof (nestedIn_next _ _ _ _ HB') as Hrb.
    rewrite <- Elvl in Hkb, Hrb.
    destruct (split_above _ (fun s => fst (fst s)) (level a) _ _ _ _ E Hka Hkb Hra Hrb)
      as [Ek Er].
    cbn [map]. rewrite (IHr plvl _ _ B' HA' HB' Er). f_equal.
    rewrite (bare_eq a), (bare_eq b), Elvl, Ettl, Edsc. f_equal.
    rewrite levelNested_eq in Ha, Hb.
    apply andb_prop in Ha. destruct Ha as [_ Ha].
    apply andb_prop in Hb. destruct Hb as [_ Hb].
    rewrite <- Elvl in Hb. exact (IHk (level a) [] [] (children b) Ha Hb Ek).
Qed.

(** ** What [parse] reads in a text written by [serialize] *)

Lemma splitLines_nonempty s : splitLines s <> [].
Proof.
  destruct s as [|c rest]; cbn [splitLines]; [discriminate|].
  destruct (N.eqb c newline); [discriminate|].
  destruct (splitLines rest); discriminate.
Qed.

Lemma splitLines_app a b :
  splitLines (a ++ newline :: b) = splitLines a ++ splitLines b.
Proof.
  induction a as [|c a IH]; [reflexivity|].
  cbn [app splitLines]. rewrite IH.
  destruct (N.eqb c newline); [reflexivity|].
  pose proof (splitLines_nonempty a) as Hne.
  destruct (splitLines a) as [|l ls]; [contradiction|reflexivity].
Qed.

Lemma splitLines_join_all (ls : list text) :
  ls <> [] -> splitLines (join [newline] ls) = flat_map splitLines ls.
Proof.
  induction ls as [|l ls IH]; [congruence|]. intros _.
  destruct ls as [|l2 rest].
  - cbn [join flat_map]. now rewrite app_nil_r.
  - rewrite join_cons2. cbn [app]. rewrite splitLines_app.
    rewrite IH by discriminate. reflexivity.
Qed.

Lemma join_splitLines d : join [newline] (splitLines d) = d.
Proof.
  induction d as [|c d IH]; [reflexivity|]. cbn [splitLines].
  destruct (N.eqb c newline) eqn:Ec.
  - apply N.eqb_eq in Ec. subst c.
    pose proof (splitLines_nonempty d) as Hne.
    destruct (splitLines d) as [|l ls] eqn:E; [contradiction|].
    rewrite join_cons2. cbn [app]. now rewrite IH.
  - pose proof (splitLines_nonempty d) as Hne.
    destruct (splitLines d) as [|l ls] eqn:E; [contradiction|].
    destruct ls as [|l2 rest].
    + cbn [join] in *. now rewrite IH.
    + rewrite join_cons2. rewrite join_cons2 in IH. cbn [app] in *. now rewrite IH.
Qed.

Lemma join_snoc_blank (ls : list text) :
  ls <> [] -> join [newline] (ls ++ [[]]) = join [newline] ls ++ [newline].
Proof.
  induction ls as [|l ls IH]; [congruence|]. intros _.
  destruct ls as [|l2 rest].
  - reflexivity.
  - change ((l :: l2 :: rest) ++ [[]]) with (l :: (l2 :: rest) ++ [[]]).
    rewrite (join_cons [newline] l ((l2 :: rest) ++ [[]])).
    + rewrite IH by discriminate. rewrite join_cons2. now rewrite <- !app_assoc.
    + cbn [app]. discriminate.
Qed.

Lemma join_ends (ls : list text) l :
  exists pre, join [newline] (ls ++ [l]) = pre ++ l.
Proof.
  induction ls as [|x ls [pre IH]].
  - now exists [].
  - exists (x ++ [newline] ++ pre).
    change ((x :: ls) ++ [l]) with (x :: ls ++ [l]).
    rewrite join_cons; [|now destruct ls].
    rewrite IH. now rewrite <- !app_assoc.
Qed.

Lemma join_starts (l : text) (ls : list text) :
  exists back, join [newline] (l :: ls) = l ++ back.
Proof.
  destruct ls as [|l2 rest].
  - exists []. cbn [join]. now rewrite app_nil_r.
  - rewrite join_cons2. now eexists.
Qed.

(** The lines that [serializeNode] pushes for the node itself. *)
Definition nodeLines (n : MindMapNode) : list text :=
  headingLine (level n, title n)
  :: match descriptionText n with
     | [] => []
     | d => [[]; d]
     end
  ++ [[]].

Lemma linesOf_nodeLines n : linesOf (info n) = nodeLines n.
Proof.
  unfold linesOf, info, nodeLines, descriptionText, headingLine. cbn [fst snd].
  destruct (description n) as [[|c d]|]; reflexivity.
Qed.

Lemma serialize_lines (l : forest) :
  flat_map serializeNode l = flat_map nodeLines (flatten l).
Proof.
  rewrite serialize_outline. unfold outlineOf. rewrite flat_map_concat_map, map_map.
  rewrite <- flat_map_concat_map. apply flat_map_ext. intros n. apply linesOf_nodeLines.
Qed.

(** The section that a node is written as. *)
Definition sectionOfNode (n : MindMapNode) : section :=
  mkSection (level n) (title n)
            match descriptionText n with
            | [] => []
            | d => splitLines d
            end.

Lemma sectionStep_blank acc : sectionStep [] acc = acc.
Proof. unfold sectionStep. now rewrite headingMatch_empty. Qed.

Lemma fold_body (body : list text) acc :
  forallb (fun l => negb (isBlank l)
                    && match headingMatch l with None => true | Some _ => false end)
          body = true ->
  fold_right sectionStep acc body = (body ++ fst acc, snd acc).
Proof.
  induction body as [|l body IH]; intros H.
  - now destruct acc.
  - cbn [forallb] in H. apply andb_prop in H. destruct H as [Hl Hrest].
    apply andb_prop in Hl. destruct Hl as [Hb Hh].
    cbn [fold_right]. rewrite (IH Hrest). unfold sectionStep.
    destruct (headingMatch l); [discriminate|].
    apply negb_true_iff in Hb. now rewrite Hb.
Qed.

Lemma printable_parts n :
  printable n = true ->
  canonicalHeading (level n, title n) = true /\
  printableDescription (descriptionText n) = true.
Proof. unfold printable. intros H. now apply andb_prop in H. Qed.

Lemma fold_node n rest :
  printable n = true ->
  fst (fold_right sectionStep ([], []) rest) = [] ->
  fold_right sectionStep ([], []) (flat_map splitLines (nodeLines n) ++ rest)
  = ([], sectionOfNode n :: snd (fold_right sectionStep ([], []) rest)).
Proof.
  intros Hp Hrest. destruct (printable_parts n Hp) as [Hh Hd].
  destruct (headingMatch_canonical _ Hh) as [Hm Ht]. cbn [fst snd] in Hm, Ht.
  unfold nodeLines. cbn [flat_map].
  rewrite (splitLines_line _ (headingLine_no_newline _ Hh)).
  rewrite flat_map_app. cbn [flat_map splitLines app].
  rewrite <- !app_assoc. cbn [app fold_right].
  rewrite !fold_right_app. cbn [fold_right]. rewrite sectionStep_blank.
  set (acc := fold_right sectionStep ([], []) rest) in *.
  unfold sectionOfNode.
  destruct (descriptionText n) as [|c d] eqn:Ed.
  - cbn [flat_map fold_right]. unfold sectionStep. rewrite Hm, Ht, repeat_length.
    now rewrite Hrest.
  - cbn [flat_map]. rewrite app_nil_r.
    change (splitLines [] ++ splitLines (c :: d)) with ([] :: splitLines (c :: d)).
    cbn [fold_right]. rewrite fold_body.
    + rewrite sectionStep_blank. unfold sectionStep at 1.
      rewrite Hm, Ht, repeat_length. cbn [fst snd]. now rewrite Hrest, app_nil_r.
    + unfold printableDescription in Hd. apply andb_prop in Hd. now destruct Hd.
Qed.

Lemma fold_nodes (ns : list MindMapNode) :
  forallb printable ns = true ->
  fold_right sectionStep ([], []) (flat_map splitLines (flat_map nodeLines ns))
  = ([], map sectionOfNode ns).
Proof.
  induction ns as [|n ns IH]; intros H; [reflexivity|].
  cbn [forallb] in H. apply andb_prop in H. destruct H as [Hn Hrest].
  cbn [flat_map map]. rewrite flat_map_app.
  rewrite (fold_node n _ Hn); rewrite (IH Hrest); reflexivity.
Qed.

Lemma headingLine_starts h :
  canonicalHeading h = true -> exists rest, headingLine h = hash :: rest.
Proof.
  intros H. destruct (canonicalHeading_parts h H) as ((Hlo & _) & _).
  unfold headingLine. destruct (fst h) as [|k]; [lia|].
  cbn [repeat app]. now eexists.
Qed.

Lemma headingLine_ends h :
  canonicalHeading h = true ->
  headingLine h <> [] /\ isWhiteSpace (last (headingLine h) 0%N) = false.
Proof.
  intros H. destruct (headingLine_starts h H) as [rest E].
  destruct (canonicalHeading_parts h H) as (_ & (c & t & Et & _) & Hlast & _).
  split; [rewrite E; discriminate|].
  rewrite last_headingLine; [exact Hlast|].
  change (snd h <> []). rewrite Et. discriminate.
Qed.

Lemma serialized_lines (f : forest) :
  f <> [] ->
  forallb printable (flatten f) = true ->
  splitLines (serialize f) ++ [[]]
  = flat_map splitLines (flat_map nodeLines (flatten f)).
Proof.
  intros Hne Hp. unfold serialize. rewrite serialize_lines.
  assert (Hns : flatten f <> []).
  { destruct f as [|n rest]; [congruence|]. rewrite flatten_cons. discriminate. }
  destruct (exists_last Hns) as (front & n & Ens). rewrite Ens in *.
  rewrite forallb_app in Hp. apply andb_prop in Hp. destruct Hp as [Hfront Hn].
  cbn [forallb] in Hn. rewrite andb_true_r in Hn.
  destruct (printable_parts n Hn) as [Hh Hd].
  rewrite flat_map_app. cbn [flat_map]. rewrite app_nil_r.
  set (body := match descriptionText n with [] => [] | d => [[]; d] end).
  set (kept := flat_map nodeLines front ++ headingLine (level n, title n) :: body).
  assert (Hlines : flat_map nodeLines front ++ nodeLines n = kept ++ [[]]).
  { unfold kept, nodeLines. fold body. now rewrite <- app_assoc. }
  rewrite Hlines.
  assert (Hkept : kept <> []).
  { unfold kept. intros E. apply app_eq_nil in E. destruct E; discriminate. }
  rewrite (join_snoc_blank kept Hkept).
  assert (Hfirst : exists rest, join [newline] kept = hash :: rest).
  { assert (Hhead : exists x tail, kept = headingLine (level x, title x) :: tail /\
                                   printable x = true).
    { unfold kept. destruct front as [|x front'].
      - exists n, body. now split.
      - cbn [forallb] in Hfront. apply andb_prop in Hfront. destruct Hfront as [Hx _].
        exists x. eexists. split; [|exact Hx]. cbn [flat_map]. unfold nodeLines at 1.
        cbn [app]. reflexivity. }
    destruct Hhead as (x & tail & -> & Hx).
    destruct (printable_parts x Hx) as [Hxh _].
    destruct (headingLine_starts _ Hxh) as [r Er].
    destruct (join_starts (headingLine (level x, title x)) tail) as [back ->].
    rewrite Er. cbn [app]. now eexists. }
  assert (Hlast : isWhiteSpace (last (join [newline] kept) 0%N) = false).
  { assert (Hend : exists pre l, kept = pre ++ [l] /\ l <> [] /\
                                 isWhiteSpace (last l 0%N) = false).
    { unfold kept, body. destruct (descriptionText n) as [|c d] eqn:Ed.
      - exists (flat_map nodeLines front), (headingLine (level n, title n)).
        destruct (headingLine_ends _ Hh). now repeat split.
      - exists (flat_map nodeLines front ++ [headingLine (level n, title n); []]), (c :: d).
        split; [now rewrite <- app_assoc|]. split; [discriminate|].
        unfold printableDescription in Hd. apply andb_prop in Hd. destruct Hd as [Hd _].
        apply andb_prop in Hd. destruct Hd as [_ Hd]. now apply negb_true_iff in Hd. }
    destruct Hend as (pre & l & -> & Hl & Hws).
    destruct (join_ends pre l) as [before ->].
    now rewrite last_app_nonempty. }
  destruct Hfirst as [rest Efirst]. rewrite Efirst in *.
  rewrite trim_trailing_newline; [|reflexivity|exact Hlast].
  rewrite <- Efirst, (splitLines_join_all kept Hkept), flat_map_app.
  reflexivity.
Qed.

Lemma sections_of_serialized (f : forest) :
  forallb printable (flatten f) = true ->
  sectionsOf (serialize f) = map sectionOfNode (flatten f).
Proof.
  intros Hp. destruct f as [|n rest]; [reflexivity|].
  unfold sectionsOf.
  assert (Hblank : forall ls : list text,
            fold_right sectionStep ([], []) (ls ++ [[]])
            = fold_right sectionStep ([], []) ls).
  { intros ls. rewrite fold_right_app. cbn [fold_right].
    now rewrite sectionStep_blank. }
  rewrite <- (Hblank (splitLines (serialize (n :: rest)))).
  rewrite (serialized_lines (n :: rest)); [|discriminate|exact Hp].
  now rewrite (fold_nodes _ Hp).
Qed.

Definition slimOfEntry (e : string * nat * text * option text) : nat * text * text :=
  let '(_, l, t, d) := e in
  (l, t, match d with Some x => x | None => [] end).

Lemma slim_of_entry n : slim n = slimOfEntry (entry n).
Proof. reflexivity. Qed.

Lemma entries_of_nodes generateId (ns : list MindMapNode) :
  forallb printable ns = true ->
  forall k,
    map slimOfEntry (entriesOf generateId k (map sectionOfNode ns)) = map slim ns.
Proof.
  induction ns as [|n ns IH]; intros H k; [reflexivity|].
  cbn [forallb] in H. apply andb_prop in H. destruct H as [Hn Hrest].
  cbn [map entriesOf]. rewrite (IH Hrest). f_equal.
  unfold sectionOfNode, slim. cbn [slimOfEntry sectionLevel sectionTitle sectionBody].
  destruct (printable_parts n Hn) as [_ Hd].
  destruct (descriptionText n) as [|c d] eqn:Ed; [reflexivity|].
  pose proof (splitLines_nonempty (c :: d)) as Hne.
  unfold descriptionOf.
  destruct (splitLines (c :: d)) as [|l ls] eqn:El; [contradiction|].
  rewrite <- El, join_splitLines.
  unfold printableDescription in Hd. apply andb_prop in Hd. destruct Hd as [Hd _].
  apply andb_prop in Hd. destruct Hd as [Hc Hl].
  apply negb_true_iff in Hc, Hl. now rewrite trim_canonical.
Qed.

Lemma parse_serialize_slim generateId (f : forest) :
  forallb printable (flatten f) = true ->
  proj slim (parse generateId (serialize f)) = proj slim f.
Proof.
  intros Hp. unfold proj at 1.
  rewrite (map_ext slim (fun n => slimOfEntry (entry n)) slim_of_entry).
  rewrite <- map_map. fold (proj entry (parse generateId (serialize f))).
  rewrite parse_sections, (sections_of_serialized f Hp).
  now apply entries_of_nodes.
Qed.

Lemma parse_serialize_bare generateId (f : forest) :
  forallb printable (flatten f) = true ->
  readable f = true ->
  map bare (parse generateId (serialize f)) = map bare f.
Proof.
  intros Hp Hr.
  apply (readable_unique _ 0 [] [] f (parse_readable generateId (serialize f)) Hr).
  now apply parse_serialize_slim.
Qed.

(** [serialize] reads the level, title and description text of the nodes
    in pre-order, and nothing else. *)
Definition slimLines (s : nat * text * text) : list text :=
  let '(lvl, ttl, d) := s in
  headingLine (lvl, ttl)
  :: match d with
     | [] => []
     | _ :: _ => [[]; d]
     end
  ++ [[]].

Lemma nodeLines_slim n : nodeLines n = slimLines (slim n).
Proof. unfold nodeLines, slimLines, slim. now destruct (descriptionText n). Qed.

Lemma serialize_slim (a b : forest) :
  proj slim a = proj slim b -> serialize a = serialize b.
Proof.
  intros E. unfold serialize. rewrite !serialize_lines.
  rewrite !(flat_map_ext nodeLines (fun n => slimLines (slim n)) nodeLines_slim).
  rewrite !flat_map_concat_map, <- !(map_map slim slimLines).
  fold (proj slim a). fold (proj slim b). now rewrite E.
Qed.

(** ** The heading pattern, read as a language *)

Lemma span_parts (p : N -> bool) (s : text) :
  s = fst (span p s) ++ snd (span p s) /\
  forallb p (fst (span p s)) = true /\
  match snd (span p s) with
  | [] => True
  | c :: _ => p c = false
  end.
Proof.
  induction s as [|c s IH]; [now repeat split|].
  cbn [span]. destruct (p c) eqn:Ec.
  - destruct (span p s) as [a b]. cbn [fst snd] in *.
    destruct IH as (IH1 & IH2 & IH3).
    split; [cbn [app]; now rewrite <- IH1|].
    split; [cbn [forallb]; now rewrite Ec|exact IH3].
  - cbn [fst snd forallb app]. now repeat split.
Qed.

Lemma span_app (p : N -> bool) (a s : text) :
  forallb p a = true ->
  span p (a ++ s) = (a ++ fst (span p s), snd (span p s)).
Proof.
  induction a as [|c a IH]; intros H.
  - cbn [app]. now destruct (span p s).
  - cbn [forallb] in H. apply andb_prop in H. destruct H as [Hc Ha].
    cbn [app span]. rewrite Hc, (IH Ha). reflexivity.
Qed.

Lemma all_hash (s : text) : forallb isHash s = true -> s = repeat hash (List.length s).
Proof.
  induction s as [|c s IH]; [reflexivity|]. cbn [forallb]. intros H.
  apply andb_prop in H. destruct H as [Hc Hs]. apply N.eqb_eq in Hc.
  cbn [List.length repeat]. now rewrite Hc, <- (IH Hs).
Qed.

Lemma whiteSpace_not_hash c : isWhiteSpace c = true -> isHash c = false.
Proof.
  intros Hw. unfold isHash. destruct (N.eqb c hash) eqn:E; [|reflexivity].
  apply N.eqb_eq in E. subst c. discriminate.
Qed.

Lemma trimStart_white (ws s : text) :
  forallb isWhiteSpace ws = true -> trimStart (ws ++ s) = trimStart s.
Proof.
  induction ws as [|c ws IH]; intros H; [reflexivity|].
  cbn [forallb] in H. apply andb_prop in H. destruct H as [Hc Hws].
  cbn [app trimStart]. rewrite Hc. exact (IH Hws).
Qed.

Lemma trim_white (ws s : text) :
  forallb isWhiteSpace ws = true -> trim (ws ++ s) = trim s.
Proof. intros H. unfold trim. now rewrite trimStart_white. Qed.

Lemma trimStart_all_white (ws : text) :
  forallb isWhiteSpace ws = true -> trimStart ws = [].
Proof.
  intros H. rewrite <- (app_nil_r ws). now rewrite trimStart_white.
Qed.

Lemma trim_all_white (ws : text) : forallb isWhiteSpace ws = true -> trim ws = [].
Proof. intros H. unfold trim. now rewrite trimStart_all_white. Qed.

Lemma forallb_suffix (A : Type) (p : A -> bool) (a b : list A) :
  forallb p (a ++ b) = true -> forallb p b = true.
Proof. rewrite forallb_app. intros H. now apply andb_prop in H. Qed.

Lemma headingMatch_sound line hashes rawTitle :
  headingMatch line = Some (hashes, rawTitle) ->
  exists ws rest,
    line = hashes ++ ws ++ rest /\
    hashes = repeat hash (List.length hashes) /\
    1 <= List.length hashes <= 6 /\
    ws <> [] /\ forallb isWhiteSpace ws = true /\
    rest <> [] /\ forallb isDot rest = true /\
    trim rawTitle = trim (ws ++ rest).
Proof.
  intros H. pose proof (headingMatch_level _ _ _ H) as Hlen.
  unfold headingMatch in H.
  destruct (span_parts isHash line) as (Eline & Hhash & _).
  destruct (span isHash line) as [hs r]. cbn [fst snd] in *.
  destruct (Nat.leb 1 (List.length hs) && Nat.leb (List.length hs) 6); [|discriminate].
  destruct (span_parts isWhiteSpace r) as (Er & Hws & _).
  destruct (span isWhiteSpace r) as [ws body]. cbn [fst snd] in *.
  destruct body as [|b body].
  - destruct (rev ws) as [|c [|x more]] eqn:Erev; try discriminate.
    destruct (isDot c) eqn:Edot; [|discriminate]. injection H as <- <-.
    assert (Ews : ws = (rev more ++ [x]) ++ [c]).
    { rewrite <- (rev_involutive ws), Erev. cbn [rev]. reflexivity. }
    rewrite Ews, forallb_app in Hws. apply andb_prop in Hws. destruct Hws as [Hfront Hc].
    exists (rev more ++ [x]), [c].
    split; [now rewrite Eline, Er, app_nil_r, Ews|].
    split; [now apply all_hash|]. split; [exact Hlen|].
    split; [intros E; apply app_eq_nil in E; destruct E; discriminate|].
    split; [exact Hfront|]. split; [discriminate|].
    split; [cbn [forallb]; now rewrite Edot|].
    rewrite (trim_white _ _ Hfront). reflexivity.
  - destruct ws as [|w ws]; [discriminate|].
    destruct (forallb isDot (b :: body)) eqn:Edot; [|discriminate].
    injection H as <- <-.
    exists (w :: ws), (b :: body).
    split; [now rewrite Eline, Er|]. split; [now apply all_hash|].
    split; [exact Hlen|]. split; [discriminate|]. split; [exact Hws|].
    split; [discriminate|]. split; [exact Edot|].
    now rewrite (trim_white _ _ Hws).
Qed.

Lemma headingMatch_complete k ws rest :
  1 <= k <= 6 ->
  ws <> [] -> forallb isWhiteSpace ws = true ->
  rest <> [] -> forallb isDot rest = true ->
  exists rawTitle,
    headingMatch (repeat hash k ++ ws ++ rest) = Some (repeat hash k, rawTitle).
Proof.
  intros Hk Hne Hws Hrest Hdot. unfold headingMatch.
  rewrite span_repeat_hash.
  2:{ destruct ws as [|w ws]; [congruence|]. cbn [app forallb] in *.
      apply andb_prop in Hws. destruct Hws as [Hw _]. now apply whiteSpace_not_hash. }
  rewrite repeat_length.
  rewrite (proj2 (Nat.leb_le 1 k)), (proj2 (Nat.leb_le k 6)) by lia. cbn [andb].
  rewrite (span_app _ _ _ Hws).
  destruct (span_parts isWhiteSpace rest) as (Er & Hr1 & _).
  destruct (span isWhiteSpace rest) as [r1 r2]. cbn [fst snd] in *.
  destruct r2 as [|b body].
  - rewrite app_nil_r in Er. subst r1.
    destruct (exists_last Hrest) as (front & c & ->).
    destruct ws as [|w ws]; [congruence|].
    rewrite app_assoc, rev_app_distr. cbn [rev app].
    rewrite forallb_app in Hdot. apply andb_prop in Hdot. destruct Hdot as [_ Hc].
    cbn [forallb] in Hc. rewrite andb_true_r in Hc.
    destruct (rev (ws ++ front) ++ [w]) as [|y more] eqn:Erev.
    + apply app_eq_nil in Erev. destruct Erev. discriminate.
    + rewrite Hc. now eexists.
  - assert (Hbody : forallb isDot (b :: body) = true).
    { rewrite Er in Hdot. exact (forallb_suffix _ _ _ _ Hdot). }
    destruct (ws ++ r1) as [|w ws'] eqn:Ews.
    + apply app_eq_nil in Ews. destruct Ews. congruence.
    + rewrite Hbody. now eexists.
Qed.

(** ** Identifiers in document order *)

Lemma entriesOf_ids generateId secs : forall k,
  map (fun e : string * nat * text * option text => fst (fst (fst e)))
      (entriesOf generateId k secs)
  = map generateId (seq k (List.length secs)).
Proof.
  induction secs as [|s secs IH]; intros k; [reflexivity|].
  cbn [entriesOf map List.length seq fst]. now rewrite IH.
Qed.

Lemma parse_ids generateId markdown :
  ids (parse generateId markdown)
  = map generateId (seq 0 (List.length (sectionsOf markdown))).
Proof.
  rewrite <- entriesOf_ids, <- parse_sections. unfold ids, proj.
  rewrite map_map. reflexivity.
Qed.

(** ** What is rendered *)

Lemma renderNode_eq n :
  renderNode n =
  Wrapper (id n) true
          match children n with
          | [] => None
          | _ :: _ =>
              if collapsed n then None else Some (map renderNode (children n))
          end.
Proof. destruct n; reflexivity. Qed.

Lemma renderedIds_cons w rest :
  renderedIds (w :: rest) = map dataNodeIdOf (wrappersIn w) ++ renderedIds rest.
Proof. unfold renderedIds. cbn [flat_map]. now rewrite map_app. Qed.

Lemma renderedIds_expanded (nodes : forest) :
  renderedIds (render (setAllCollapsed false nodes)) = ids nodes.
Proof.
  unfold render, setAllCollapsed.
  induction nodes as [|n rest IHk IHr] using forest_ind2; [reflexivity|].
  cbn [map]. rewrite renderedIds_cons, IHr, ids_cons. 
  rewrite visitCollapsed_eq, renderNode_eq.
  destruct (children n) as [|k ks] eqn:Ek.
  - rewrite Ek. reflexivity.
  - cbn [children collapsed id map wrappersIn dataNodeIdOf app].
    f_equal. f_equal. exact IHk.
Qed.

Lemma renderedIds_collapsed (nodes : forest) :
  renderedIds (render (setAllCollapsed true nodes)) = map id nodes.
Proof.
  unfold render, setAllCollapsed.
  induction nodes as [|n rest IH]; [reflexivity|].
  cbn [map]. rewrite renderedIds_cons, IH.
  rewrite visitCollapsed_eq, renderNode_eq.
  destruct (children n) as [|k ks] eqn:Ek.
  - rewrite Ek. reflexivity.
  - reflexivity.
Qed.

Lemma renderedIds_within (nodes : forest) :
  incl (renderedIds (render nodes)) (ids nodes).
Proof.
  unfold render.
  induction nodes as [|n rest IHk IHr] using forest_ind2; [intros x []|].
  cbn [map]. rewrite renderedIds_cons, ids_cons, renderNode_eq.
  intros x Hx. apply in_app_or in Hx. destruct Hx as [Hx|Hx].
  - cbn [wrappersIn map dataNodeIdOf] in Hx. destruct Hx as [<-|Hx]; [now left|].
    right. apply in_or_app. left.
    destruct (children n) as [|k ks]; [contradiction|].
    destruct (collapsed n); [contradiction|]. now apply IHk.
  - right. apply in_or_app. right. now apply IHr.
Qed.

Lemma renderedIds_roots (nodes : forest) :
  incl (map id nodes) (renderedIds (render nodes)).
Proof.
  unfold render. induction nodes as [|n rest IH]; [intros x []|].
  cbn [map]. rewrite renderedIds_cons, renderNode_eq.
  intros x [<-|Hx]; [now left|]. apply in_or_app. right. now apply IH.
Qed.

(** ** The result of [normalizeAllLayouts] *)

(** A root that shows children: it has some and is not collapsed. *)
Definition showsChildren (n : MindMapNode) : bool :=
  negb (collapsed n) && match children n with [] => false | _ :: _ => true end.

Lemma walk_rendered heightOff n changed :
  walk heightOff (renderNode n) changed = (showsChildren n || changed).
Proof.
  rewrite renderNode_eq. unfold showsChildren.
  destruct (children n) as [|k ks]; [now rewrite andb_false_r|].
  destruct (collapsed n); [reflexivity|].
  cbn [map walk negb andb orb].
  now destruct (heightOff _).
Qed.

Lemma normalize_rendered heightOff (nodes : forest) : forall changed,
  fold_left (fun ch root => walk heightOff root ch) (render nodes) changed
  = (existsb showsChildren nodes || changed).
Proof.
  unfold render. induction nodes as [|n rest IH]; intros changed; [reflexivity|].
  cbn [map fold_left existsb]. rewrite IH, walk_rendered.
  now destruct (showsChildren n), (existsb showsChildren rest), changed.
Qed.

(** ** The least of several numbers, and the ends of a sorted list *)

Lemma mathMin_doubles (a b : number) :
  isDouble a -> isDouble b ->
  isDouble (mathMin a b) /\ (mathMin a b = a \/ mathMin a b = b) /\
  ascending (mathMin a b) a /\ ascending (mathMin a b) b.
Proof.
  intros Ha Hb.
  assert (E : mathMin a b = if flt b a then b else a).
  { destruct a, b; cbn [isDouble] in *; try contradiction; reflexivity. }
  rewrite E. unfold ascending. destruct (flt b a) eqn:Hba.
  - split; [exact Hb|]. split; [now right|]. split; [now apply flt_asym|apply flt_irrefl].
  - split; [exact Ha|]. split; [now left|]. split; [apply flt_irrefl|exact Hba].
Qed.

Lemma fold_min_least (l : list number) : forall acc,
  isDouble acc -> Forall isDouble l ->
  isDouble (fold_left mathMin l acc) /\
  In (fold_left mathMin l acc) (acc :: l) /\
  ascending (fold_left mathMin l acc) acc /\
  (forall x, In x l -> ascending (fold_left mathMin l acc) x).
Proof.
  induction l as [|z l IH]; intros acc Hacc Hl; cbn [fold_left].
  - repeat split; auto; [now left|apply flt_irrefl|intros x []].
  - inversion Hl as [|? ? Hz Hl']; subst.
    destruct (mathMin_doubles acc z Hacc Hz) as (Hm & Hpick & Hma & Hmz).
    destruct (IH (mathMin acc z) Hm Hl') as (H0 & H1 & H2 & H3).
    assert (Hn : notNaN (mathMin acc z) = true) by now apply isDouble_notNaN.
    split; [exact H0|]. split; [|split].
    + destruct H1 as [H1|H1]; [|right; now right].
      rewrite <- H1. destruct Hpick as [-> | ->]; [now left|right; now left].
    + exact (ascending_trans _ _ _ Hn H2 Hma).
    + intros x [<-|Hx]; [exact (ascending_trans _ _ _ Hn H2 Hmz)|now apply H3].
Qed.

Lemma minOf_least (l : list number) :
  Forall isDouble l -> l <> [] ->
  In (minOf l) l /\ (forall x, In x l -> ascending (minOf l) x).
Proof.
  intros Hl Hne. unfold minOf.
  destruct (fold_min_least l PosInfinity I Hl) as (_ & Hin & _ & Hleast).
  split; [|exact Hleast].
  destruct Hin as [Einf|Hin]; [|exact Hin].
  destruct l as [|x l]; [congruence|].
  assert (Hx : ascending (fold_left mathMin (x :: l) PosInfinity) x)
    by (apply Hleast; now left).
  rewrite <- Einf in Hx. unfold ascending in Hx.
  inversion Hl as [|? ? Hdx _]; subst.
  destruct x; cbn [isDouble flt] in *; try discriminate; try contradiction.
  rewrite <- Einf. now left.
Qed.

Lemma hd_in (A : Type) (d : A) (l : list A) : l <> [] -> In (hd d l) l.
Proof. destruct l; [congruence|now left]. Qed.

Lemma last_in (A : Type) (d : A) (l : list A) : l <> [] -> In (last l d) l.
Proof.
  induction l as [|x l IH]; [congruence|]. intros _.
  destruct l as [|y l]; [now left|]. right. apply IH. discriminate.
Qed.

Lemma hd_map (A B : Type) (f : A -> B) d (l : list A) : hd (f d) (map f l) = f (hd d l).
Proof. now destruct l. Qed.

Lemma last_map_eq (A B : Type) (f : A -> B) d (l : list A) :
  last (map f l) (f d) = f (last l d).
Proof.
  induction l as [|x l IH]; [reflexivity|].
  destruct l as [|y l]; [reflexivity|]. exact IH.
Qed.


(** ** Ancestors in a forest without repeated identifiers *)

Lemma findNodeById_some nodes tid x :
  findNodeById nodes tid = Some x -> id x = tid /\ In x (flatten nodes).
Proof.
  rewrite findNodeById_find. intros H. apply find_some in H.
  destruct H as [Hin Heq]. apply String.eqb_eq in Heq. now split.
Qed.

Lemma findNodeById_unique nodes x :
  NoDup (ids nodes) -> In x (flatten nodes) -> findNodeById nodes (id x) = Some x.
Proof.
  intros Hn Hx. destruct (findNodeById nodes (id x)) as [y|] eqn:E.
  - destruct (findNodeById_some _ _ _ E) as [Hid Hy].
    f_equal. exact (unique_node (flatten nodes) y x Hn Hy Hx Hid).
  - exfalso. apply (not_found_not_in_ids _ _ E). now apply in_flatten_ids.
Qed.

Lemma ids_of_inner (l : forest) x :
  In x (flatten l) -> incl (ids (children x)) (ids l).
Proof.
  intros Hx. destruct (in_flatten_split l x Hx) as (l1 & l2 & ->).
  intros i Hi. apply in_or_app. right. right. apply in_or_app. now left.
Qed.

Lemma kids_of_inner (l : forest) x :
  In x (flatten l) -> incl (ids (children x)) (kidsIds l).
Proof.
  induction l as [|n rest IHk IHr] using forest_ind2; [intros []|].
  rewrite flatten_cons. unfold kidsIds. cbn [flat_map]. fold (kidsIds rest).
  intros [<-|Hx] i Hi; apply in_or_app.
  - now left.
  - apply in_app_or in Hx. destruct Hx as [Hx|Hx].
    + left. exact (ids_of_inner _ _ Hx i Hi).
    + right. exact (IHr Hx i Hi).
Qed.

Lemma isDescendant_true nodes a b :
  isDescendant nodes a b = true <->
  exists x, findNodeById nodes a = Some x /\ In b (ids (children x)).
Proof.
  unfold isDescendant. destruct (findNodeById nodes a) as [x|].
  - destruct (findNodeById (children x) b) as [y|] eqn:E.
    + split; [|reflexivity]. intros _. exists x. split; [reflexivity|].
      exact (found_in_ids _ _ _ E).
    + split; [discriminate|]. intros (x' & Ex & Hb). injection Ex as <-.
      now apply not_found_not_in_ids in E.
  - split; [discriminate|]. intros (x & Ex & _). discriminate.
Qed.

Lemma ancestors_iff c : forall arr t a,
  In t arr -> NoDup (ids (fill c arr)) ->
  (isDescendant (fill c arr) a (id t) = true <-> In a (map id (ownersOf c arr))).
Proof.
  induction c as [|pre o inner IH post]; intros arr t a Ht Hn; cbn [fill ownersOf map] in *.
  - split; [|intros []]. rewrite isDescendant_true. intros (x & Ex & Hb).
    destruct (findNodeById_some _ _ _ Ex) as [_ Hx].
    exact (top_not_kid arr t Hn Ht (kids_of_inner _ _ Hx _ Hb)).
  - set (kids := fill inner arr) in *.
    assert (Hkid : In (id t) (ids kids)) by now apply in_ids_fill_any.
    pose proof Hn as Hsplit. rewrite ids_app, ids_setChildren in Hsplit.
    assert (Hnk : NoDup (ids kids)).
    { apply NoDup_app_remove_l in Hsplit. apply NoDup_cons_iff in Hsplit.
      destruct Hsplit as [_ Hsplit]. now apply NoDup_app_remove_r in Hsplit. }
    assert (Hown : In (setChildren o kids) (flatten (pre ++ setChildren o kids :: post))).
    { rewrite flatten_app, flatten_cons. apply in_or_app. right. now left. }
    assert (Hsub : forall x, In x (flatten kids) ->
                   In x (flatten (pre ++ setChildren o kids :: post))).
    { intros x Hx. rewrite flatten_app, flatten_cons, children_setChildren.
      apply in_or_app. right. right. apply in_or_app. now left. }
    rewrite isDescendant_true. cbn [id setChildren]. split.
    + intros (x & Ex & Hb). destruct (findNodeById_some _ _ _ Ex) as [Hid Hx].
      rewrite flatten_app, flatten_cons, children_setChildren in Hx.
      apply in_app_or in Hx. destruct Hx as [Hx|[Hx|Hx]].
      * exfalso. apply (NoDup_app_disjoint _ _ _ (id t) Hsplit).
        -- exact (ids_of_inner _ _ Hx _ Hb).
        -- right. apply in_or_app. now left.
      * left. now rewrite <- Hid, <- Hx.
      * apply in_app_or in Hx. destruct Hx as [Hx|Hx].
        -- right. apply (IH arr t a Ht Hnk). apply isDescendant_true.
           exists x. split; [|exact Hb].
           rewrite <- Hid. now apply findNodeById_unique.
        -- exfalso. apply NoDup_app_remove_l in Hsplit.
           apply NoDup_cons_iff in Hsplit. destruct Hsplit as [_ Hsplit].
           apply (NoDup_app_disjoint _ _ _ (id t) Hsplit Hkid).
           exact (ids_of_inner _ _ Hx _ Hb).
    + intros [<-|Ha].
      * exists (setChildren o kids). split; [|now rewrite children_setChildren].
        exact (findNodeById_unique _ _ Hn Hown).
      * apply (IH arr t a Ht Hnk) in Ha. apply isDescendant_true in Ha.
        destruct Ha as (x & Ex & Hb). exists x. split; [|exact Hb].
        destruct (findNodeById_some _ _ _ Ex) as [Hid Hx].
        rewrite <- Hid. apply findNodeById_unique; [exact Hn|now apply Hsub].
Qed.

Lemma owners_inside c : forall arr t,
  In t arr -> incl (map id (ownersOf c arr)) (ids (fill c arr)) /\
              (NoDup (ids (fill c arr)) -> NoDup (map id (ownersOf c arr) ++ [id t])).
Proof.
  induction c as [|pre o inner IH post]; intros arr t Ht; cbn [fill ownersOf map].
  - split; [intros x []|]. intros _. cbn [app]. constructor; [intros []|constructor].
  - destruct (IH arr t Ht) as [Hin Hnd]. split.
    + intros x [<-|Hx].
      * apply in_ids_inner. now left.
      * apply in_ids_inner. right. now apply Hin.
    + intros Hn. rewrite ids_app, ids_setChildren in Hn.
      apply NoDup_app_remove_l in Hn. apply NoDup_cons_iff in Hn.
      destruct Hn as [Hfresh Hn]. cbn [app id setChildren]. constructor.
      * intros Hx. apply Hfresh. apply in_or_app. left.
        apply in_app_or in Hx. destruct Hx as [Hx|[<-|[]]].
        -- now apply Hin.
        -- now apply in_ids_fill_any.
      * apply Hnd. now apply NoDup_app_remove_r in Hn.
Qed.

Lemma setOf_NoDup l : NoDup l -> setOf l = l.
Proof.
  induction 1 as [|x l Hx _ IH]; [reflexivity|].
  cbn [setOf]. rewrite IH. f_equal.
  apply forallb_filter_id. apply forallb_forall. intros y Hy.
  apply negb_true_iff. apply String.eqb_neq. intros ->. contradiction.
Qed.

Lemma NoDup_rev_snoc (A : Type) (l : list A) x :
  NoDup (l ++ [x]) -> NoDup (rev l ++ [x]).
Proof.
  intros H. apply NoDup_rev in H. rewrite rev_app_distr in H. cbn [rev app] in H.
  exact (Permutation_NoDup (Permutation_cons_append (rev l) x) H).
Qed.

Lemma isDescendant_is_ancestry_aux nodes a b :
  uniqueIds nodes ->
  In b (ids nodes) ->
  (isDescendant nodes a b = true <-> In a (map id (getParentChain nodes b))) /\
  isDescendant nodes b b = false.
Proof.
  intros Hu Hb. destruct (located_exists _ _ Hb) as (c & a1 & t & a2 & L).
  rewrite (getParentChain_of_located _ _ _ _ _ _ L).
  pose proof L as (E & Hid & _). subst nodes b.
  assert (Ht : In t (a1 ++ t :: a2)) by (apply in_or_app; right; now left).
  split.
  - rewrite (ancestors_iff c _ t a Ht Hu), map_rev. apply in_rev.
  - destruct (isDescendant (fill c (a1 ++ t :: a2)) (id t) (id t)) eqn:Ed; [|reflexivity].
    exfalso. apply isDescendant_true in Ed. destruct Ed as (x & Ex & Hx).
    destruct (findNodeById_some _ _ _ Ex) as [Hidx Hin].
    rewrite <- Hidx in Hx. exact (unique_acyclic _ Hu x Hin Hx).
Qed.

(** ** White space around a document *)

Lemma splitLines_glue (a b : text) :
  splitLines (a ++ b)
  = removelast (splitLines a)
    ++ (last (splitLines a) [] ++ hd [] (splitLines b)) :: tl (splitLines b).
Proof.
  induction a as [|c a IH].
  - pose proof (splitLines_nonempty b) as Hne. cbn [app splitLines removelast last].
    now destruct (splitLines b).
  - pose proof (splitLines_nonempty a) as Hne.
    cbn [app splitLines]. rewrite IH.
    destruct (splitLines a) as [|l ls] eqn:Ea; [contradiction|].
    destruct (N.eqb c newline).
    + reflexivity.
    + destruct ls as [|l2 ls]; reflexivity.
Qed.

Lemma white_lines (s : text) :
  forallb isWhiteSpace s = true ->
  Forall (fun l => forallb isWhiteSpace l = true) (splitLines s).
Proof.
  induction s as [|c s IH]; intros H; [repeat constructor|].
  cbn [forallb] in H. apply andb_prop in H. destruct H as [Hc Hs].
  specialize (IH Hs). cbn [splitLines].
  destruct (N.eqb c newline); [now constructor|].
  destruct (splitLines s) as [|l ls]; [repeat constructor; cbn; now rewrite Hc|].
  inversion IH as [|? ? Hl Hls]; subst. constructor; [|exact Hls].
  cbn [forallb]. now rewrite Hc, Hl.
Qed.

Lemma headingMatch_white (line : text) :
  forallb isWhiteSpace line = true -> headingMatch line = None.
Proof.
  intros H. unfold headingMatch. destruct line as [|c line]; [reflexivity|].
  cbn [forallb] in H. apply andb_prop in H. destruct H as [Hc _].
  cbn [span]. now rewrite (whiteSpace_not_hash c Hc).
Qed.

Lemma sectionStep_white (line : text) acc :
  forallb isWhiteSpace line = true -> sectionStep line acc = acc.
Proof.
  intros H. unfold sectionStep, isBlank.
  now rewrite (headingMatch_white line H), (trim_all_white line H).
Qed.

Lemma fold_white (lines : list text) acc :
  Forall (fun l => forallb isWhiteSpace l = true) lines ->
  fold_right sectionStep acc lines = acc.
Proof.
  induction 1 as [|l lines Hl _ IH]; [reflexivity|].
  cbn [fold_right]. rewrite IH. now apply sectionStep_white.
Qed.

Lemma forallb_rev (A : Type) (p : A -> bool) (l : list A) :
  forallb p (rev l) = forallb p l.
Proof.
  induction l as [|x l IH]; [reflexivity|].
  cbn [rev forallb]. rewrite forallb_app, IH. cbn [forallb].
  now rewrite andb_true_r, andb_comm.
Qed.

Lemma trimEnd_white (s ws : text) :
  forallb isWhiteSpace ws = true -> trimEnd (s ++ ws) = trimEnd s.
Proof.
  intros H. unfold trimEnd. rewrite rev_app_distr.
  rewrite trimStart_white; [reflexivity|]. now rewrite forallb_rev.
Qed.

(** A canonical heading line followed by white space without a line
    terminator opens the same section. *)
Lemma sectionStep_heading_white h (t0 : text) acc :
  canonicalHeading h = true ->
  forallb isWhiteSpace t0 = true -> forallb isDot t0 = true ->
  sectionStep (headingLine h ++ t0) acc = sectionStep (headingLine h) acc.
Proof.
  intros Hh Hw Hd.
  destruct (canonicalHeading_parts h Hh) as (Hk & (c & t & Et & Hc) & Hlast & Hdot).
  destruct (headingMatch_canonical h Hh) as [Hm Htrim].
  assert (Eline : headingLine h ++ t0 = repeat hash (fst h) ++ [space] ++ (snd h ++ t0)).
  { unfold headingLine. now rewrite <- app_assoc. }
  destruct (headingMatch_complete (fst h) [space] (snd h ++ t0) Hk) as (raw & Hraw).
  - discriminate.
  - reflexivity.
  - rewrite Et. discriminate.
  - rewrite forallb_app. now rewrite Hdot, Hd.
  - destruct (headingMatch_sound _ _ _ Hraw)
      as (ws & rest & Esplit & _ & _ & _ & _ & _ & _ & Etrim).
    apply app_inv_head in Esplit.
    assert (Eraw : trim raw = trim (snd h)).
    { rewrite Etrim, <- Esplit, Htrim.
      change ([space] ++ snd h ++ t0) with ([space] ++ (snd h ++ t0)).
      rewrite trim_white by reflexivity.
      unfold trim. rewrite Et. cbn [app]. rewrite trimStart_keeps by assumption.
      change (c :: t ++ t0) with ((c :: t) ++ t0). rewrite trimEnd_white by assumption.
      apply trimEnd_keeps; [discriminate|now rewrite <- Et]. }
    unfold sectionStep. rewrite Eline, Hraw, Hm. now rewrite Eraw.
Qed.

Lemma last_blankSeparated (ls : list text) (l : text) :
  last (blankSeparated (ls ++ [l])) [] = l.
Proof.
  induction ls as [|x ls IH]; [reflexivity|].
  assert (Hne : ls ++ [l] <> [])
    by (intros E; apply app_eq_nil in E; destruct E; discriminate).
  cbn [app]. rewrite (blankSeparated_cons x _ Hne).
  pose proof (blankSeparated_nonempty _ Hne) as Hb.
  destruct (blankSeparated (ls ++ [l])) as [|y ys] eqn:E; [contradiction|].
  exact IH.
Qed.

Lemma document_lines hs :
  Forall (fun h => canonicalHeading h = true) hs -> hs <> [] ->
  splitLines (document hs) = blankSeparated (map headingLine hs).
Proof.
  intros Hall Hne. unfold document. apply splitLines_join.
  - apply blankSeparated_nonempty. now destruct hs.
  - now apply blankSeparated_no_newline.
Qed.

(** The sections of a canonical document do not change when white space
    is put around it: in front of it white space that ends with a line
    feed, behind it white space without another line terminator before its
    first line feed. *)
Lemma sections_with_margins (hs : list (nat * text)) (lead trail : text) :
  Forall (fun h => canonicalHeading h = true) hs ->
  forallb isWhiteSpace lead = true ->
  last lead newline = newline ->
  forallb isWhiteSpace trail = true ->
  (hs <> [] -> forallb isDot (hd [] (splitLines trail)) = true) ->
  sectionsOf (lead ++ document hs ++ trail) = sectionsOf (document hs).
Proof.
  intros Hall Hlead Hlast Htrail Hdot. unfold sectionsOf. f_equal.
  assert (Hends : lead = [] \/ exists l, lead = l ++ [newline]).
  { destruct lead as [|c lead']; [now left|]. right.
    destruct (@exists_last _ (c :: lead')) as (l & z & E); [discriminate|].
    rewrite E in Hlast. rewrite last_last in Hlast. exists l. now rewrite E, Hlast. }
  assert (Hrest : fold_right sectionStep ([], []) (splitLines (document hs ++ trail))
                  = fold_right sectionStep ([], []) (splitLines (document hs))).
  { rewrite splitLines_glue.
    pose proof (white_lines trail Htrail) as Hwt.
    pose proof (splitLines_nonempty trail) as Hnt.
    destruct (splitLines trail) as [|t0 ts] eqn:Et; [contradiction|].
    inversion Hwt as [|? ? Ht0 Hts]; subst. cbn [hd tl] in *.
    pose proof (splitLines_nonempty (document hs)) as Hnd.
    rewrite (app_removelast_last [] Hnd) at 3.
    rewrite !fold_right_app. cbn [fold_right]. rewrite (fold_white ts _ Hts).
    f_equal.
    destruct hs as [|h hs'].
    - cbn [document map blankSeparated join splitLines last app].
      rewrite sectionStep_blank. now apply sectionStep_white.
    - assert (Hne : h :: hs' <> []) by discriminate.
      rewrite (document_lines _ Hall Hne).
      destruct (exists_last Hne) as (front & z & E). rewrite E, map_app. cbn [map].
      pose proof (last_blankSeparated (map headingLine front) (headingLine z)) as El.
      unfold text in El |- *. rewrite !El. fold text.
      apply sectionStep_heading_white; auto.
      rewrite E in Hall. rewrite Forall_forall in Hall. apply Hall.
      apply in_or_app. right. now left. }
  destruct Hends as [->|(l & ->)]; [exact Hrest|].
  rewrite forallb_app in Hlead. apply andb_prop in Hlead. destruct Hlead as [Hl _].
  rewrite <- app_assoc. cbn [app]. rewrite splitLines_app, fold_right_app, Hrest.
  apply fold_white. now apply white_lines.
Qed.

Lemma trim_with_margins (hs : list (nat * text)) (lead trail : text) :
  Forall (fun h => canonicalHeading h = true) hs ->
  forallb isWhiteSpace lead = true -> forallb isWhiteSpace trail = true ->
  trim (lead ++ document hs ++ trail) = document hs.
Proof.
  intros Hall Hlead Htrail. rewrite trim_white by assumption.
  destruct hs as [|h hs].
  - cbn [document map blankSeparated join app]. now apply trim_all_white.
  - destruct (document_shape h hs Hall) as (d & -> & Hlast).
    unfold trim. cbn [app]. rewrite trimStart_keeps by reflexivity.
    change (hash :: d ++ trail) with ((hash :: d) ++ trail).
    rewrite trimEnd_white by assumption.
    apply trimEnd_keeps; [discriminate|exact Hlast].
Qed.

(** [serialize] gives a canonical document back from what [parse] reads in
    it. *)
Lemma serialize_parse_document (generateId : nat -> string) (hs : list (nat * text)) :
  Forall (fun h => canonicalHeading h = true) hs ->
  serialize (parse generateId (document hs)) = document hs.
Proof.
  intros Hall. destruct hs as [|h hs]; [reflexivity|].
  unfold serialize.
  rewrite serialize_outline, (parse_document generateId _ Hall).
  rewrite linesOf_headings, flat_map_headings.
  rewrite join_blank_lines by discriminate.
  fold (document (h :: hs)).
  destruct (document_shape h hs Hall) as (d & -> & Hlast).
  now apply trim_trailing_newline.
Qed.

Lemma serialize_of_sections (generateId : nat -> string) (a b : text) :
  sectionsOf a = sectionsOf b ->
  serialize (parse generateId a) = serialize (parse generateId b).
Proof.
  intros E. apply serialize_slim. unfold proj.
  rewrite !(map_ext slim (fun n => slimOfEntry (entry n)) slim_of_entry).
  rewrite <- !(map_map entry slimOfEntry).
  fold (proj entry (parse generateId a)). fold (proj entry (parse generateId b)).
  now rewrite !parse_sections, E.
Qed.

(** * The claims *)

Local Open Scope string_scope.
Local Open Scope list_scope.

(** A node without presentation data, for the examples. *)
Definition plain (i : string) (lvl : nat) (p : option string) (c : forest)
  : MindMapNode :=
  mkNode i [] None c lvl false p.

(** The outline [A > B > C], with [D] a second child of [A]. *)
Definition nodeC : MindMapNode := plain "C" 3 (Some "B") [].
Definition nodeB : MindMapNode := plain "B" 2 (Some "A") [nodeC].
Definition nodeD : MindMapNode := plain "D" 2 (Some "A") [].
Definition nodeA : MindMapNode := plain "A" 1 None [nodeB; nodeD].
Definition outline : forest := [nodeA].

(** ** C4: [getParentChain] *)

(** C4, as stated, fails: for [C] in [A > B > C] the chain starts with the
    immediate parent [B], not with the root [A]. *)
Lemma getParentChain_not_top_down :
  findNodeById outline "C" = Some nodeC /\
  getParentChain outline "C" = [nodeB; nodeA] /\
  ~ chainFrom outline (getParentChain outline "C") nodeC.
Proof.
  split; [reflexivity|]. split; [reflexivity|].
  change (getParentChain outline "C") with [nodeB; nodeA].
  intros H. inversion H as [|arr p rest x Hin Hrest]; subst.
  destruct Hin as [E|[]]. discriminate E.
Qed.

(** C4, amended: [getParentChain] lists the ancestors of the first node with
    the given identifier from the immediate parent up to the root, without
    the node itself; read backwards it is the chain from a root down to the
    parent.  It is empty when the identifier is not found, and it has one
    entry less than the path to the node, so it is empty for a root. *)
Theorem getParentChain_bottom_up (nodes : forest) (nodeId : string) :
  match findNodeById nodes nodeId with
  | Some x =>
      chainFrom nodes (rev (getParentChain nodes nodeId)) x /\
      match findPath nodes nodeId with
      | Some p => List.length p = List.length (getParentChain nodes nodeId) + 1
      | None => False
      end
  | None => getParentChain nodes nodeId = []
  end.
Proof.
  destruct (findNodeById nodes nodeId) as [x|] eqn:Hfind.
  - destruct (located_exists _ _ (found_in_ids _ _ _ Hfind))
      as (c & a1 & t & a2 & -> & Hid & Hc & Ha1).
    rewrite (findNodeById_located nodeId a1 t a2 Hid Ha1 c Hc) in Hfind.
    injection Hfind as <-.
    unfold getParentChain. fold (findParentsFrom nodeId (fill c (a1 ++ t :: a2)) []).
    rewrite (findParentsFrom_located nodeId a1 t a2 Hid Ha1 c [] Hc).
    rewrite app_nil_r, rev_involutive. split.
    + apply chainFrom_owners.
    + rewrite (findPath_located nodeId a1 t a2 Hid Ha1 c Hc).
      rewrite length_app, length_rev. cbn [List.length].
      now rewrite (holePath_owners c (a1 ++ t :: a2)).
  - unfold getParentChain. fold (findParentsFrom nodeId nodes []).
    apply findParentsFrom_absent. now apply not_found_not_in_ids.
Qed.

(** ** C5: [addSiblingNode] *)

(** The outline after [updateNode(nodes, 'A', { id: 'A2' })]: the root has a
    new identifier, and [B] and [D] still carry the old one as
    [parentId]. *)
Definition renamedRoot : forest :=
  snd (updateNode outline "A" (mkUpdates (Some "A2") None None None None None None)).

(** C5, as stated, fails: in the outline with the renamed root the new
    sibling of [B] gets the identifier of the node that holds [B], which is
    not the [parentId] of [B]. *)
Lemma addSiblingNode_parentId_not_copied :
  findNodeWithParent renamedRoot "B" = Some (nodeB, [nodeB; nodeD]) /\
  fst (addSiblingNode renamedRoot "B" [] "N")
    = Some (mkNode "N" [] (Some []) [] 2 false (Some "A2")) /\
  parentId nodeB = Some "A" /\
  ~ (exists created,
       fst (addSiblingNode renamedRoot "B" [] "N") = Some created /\
       parentId created = parentId nodeB).
Proof.
  split; [reflexivity|]. split; [reflexivity|]. split; [reflexivity|].
  intros (created & Ecreated & Eparent).
  change (fst (addSiblingNode renamedRoot "B" [] "N"))
    with (Some (mkNode "N" [] (Some []) [] 2 false (Some "A2"))) in Ecreated.
  injection Ecreated as <-. discriminate Eparent.
Qed.

(** C5, amended: [addSiblingNode] puts a new node directly behind the first
    node [x] with the identifier [targetId], in front of what followed [x],
    with the level of [x]; its [parentId] is the identifier of the node
    whose [children] is the array that holds [x] ([null] when that is the
    root array), which is the [parentId] of [x] whenever the [parentId]
    fields of the forest are right.  When no node has the identifier, it
    returns [null] and the forest is as before. *)
Theorem addSiblingNode_after_target
    (nodes : forest) (targetId : string) (ttl : text) (newId : string) :
  match findNodeWithParent nodes targetId with
  | Some (x, arr) =>
      exists pre post created nodes',
        arr = pre ++ x :: post /\
        findIndex targetId arr = Some (List.length pre) /\
        addSiblingNode nodes targetId ttl newId = (Some created, nodes') /\
        id created = newId /\ title created = ttl /\ children created = [] /\
        level created = level x /\
        match parentId created with
        | None => arr = nodes
        | Some pid => exists p, In p (flatten nodes) /\ children p = arr /\ id p = pid
        end /\
        (parentsOk nodes = true -> parentId created = parentId x) /\
        findNodeWithParent nodes' targetId = Some (x, pre ++ x :: created :: post)
  | None => addSiblingNode nodes targetId ttl newId = (None, nodes)
  end.
Proof.
  destruct (findNodeWithParent nodes targetId) as [[x arr]|] eqn:Hfind.
  - destruct (findNodeWithParent_some _ _ _ _ Hfind)
      as (c & a1 & a2 & (-> & Hid & Hc & Ha1) & ->).
    pose (created := mkNode newId ttl (Some []) [] (level x) false (holeParent None c)).
    exists a1, a2, created, (fill c (a1 ++ x :: created :: a2)).
    split; [reflexivity|].
    split; [now apply findIndex_located|].
    split.
    { unfold addSiblingNode.
      fold (addSiblingFrom targetId ttl newId None (fill c (a1 ++ x :: a2))).
      now rewrite (addSiblingFrom_located targetId a1 x a2 Hid Ha1 ttl newId None c Hc). }
    repeat (split; [reflexivity|]).
    split.
    { cbn [parentId created]. rewrite (holeParent_id_owner c (a1 ++ x :: a2)).
      destruct (holeOwner c (a1 ++ x :: a2)) as [p|] eqn:Eo; cbn [option_map].
      - destruct (holeOwner_holds _ _ _ Eo) as [Hk Hin]. now exists p.
      - now rewrite (holeOwner_none _ _ Eo). }
    split.
    { intros Hparents.
      unfold parentsOk in Hparents. rewrite parentsFrom_fill in Hparents.
      apply andb_prop in Hparents. destruct Hparents as [_ Harr].
      rewrite forallb_app in Harr. apply andb_prop in Harr. destruct Harr as [_ Harr].
      cbn [forallb] in Harr. apply andb_prop in Harr. destruct Harr as [Hx _].
      rewrite parentsFrom_eq in Hx. apply andb_prop in Hx. destruct Hx as [Hx _].
      apply optEqb_eq in Hx. now rewrite Hx. }
    exact (findNodeWithParent_located targetId a1 x (created :: a2) Hid Ha1 c Hc).
  - unfold addSiblingNode.
    fold (addSiblingFrom targetId ttl newId None nodes).
    rewrite addSiblingFrom_absent; [reflexivity|].
    now apply findNodeWithParent_none.
Qed.

(** ** C3: [moveNode] with mode [sibling] and position [append] *)

(** What C3 asks of the forest after the move: the array that holds the
    target ends with the moved node. *)
Definition movedToEnd (nodes' : forest) (nodeId targetId : string) : Prop :=
  exists t front m,
    findNodeWithParent nodes' targetId = Some (t, front ++ [m]) /\ id m = nodeId.

(** C3, as stated, fails: moving [C] next to [B] with [append] in
    [A > (B > C, D)] puts [C] in front of [B], and [D] stays last. *)
Lemma moveNode_sibling_append_not_last :
  "C" <> "B" /\
  findNodeById outline "C" = Some nodeC /\
  findNodeById outline "B" = Some nodeB /\
  findNodeById (children nodeC) "B" = None /\
  moveNode outline "C" "B" sibling append =
    ([plain "A" 1 None
        [plain "C" 2 (Some "A") []; plain "B" 2 (Some "A") []; nodeD]],
     Returned true) /\
  ~ movedToEnd (fst (moveNode outline "C" "B" sibling append)) "C" "B".
Proof.
  split; [discriminate|]. repeat (split; [reflexivity|]).
  intros (t & front & m & Hfind & Hm).
  assert (Hc : findNodeWithParent (fst (moveNode outline "C" "B" sibling append)) "B" =
               Some (plain "B" 2 (Some "A") [],
                     [plain "C" 2 (Some "A") []; plain "B" 2 (Some "A") []; nodeD]))
    by reflexivity.
  rewrite Hc in Hfind. injection Hfind as _ Harr.
  assert (Hlast : last (front ++ [m]) nodeA = nodeD) by now rewrite <- Harr.
  rewrite last_last in Hlast. subst m. discriminate Hm.
Qed.

(** C3, amended: with mode [sibling] and position [append] the moved node is
    put directly in front of the target, in the array that holds the
    target once the source has been taken out (the same place as for
    [before]), and the call returns [true]. *)
Theorem moveNode_sibling_append_before
    (nodes : forest) (nodeId targetId : string) (src : MindMapNode) (sarr : forest) :
  nodeId <> targetId ->
  findNodeWithParent nodes nodeId = Some (src, sarr) ->
  In targetId (ids nodes) ->
  findNodeById (children src) targetId = None ->
  exists t pre post moved nodes',
    findNodeWithParent (snd (deleteNode nodes nodeId)) targetId
      = Some (t, pre ++ t :: post) /\
    moveNode nodes nodeId targetId sibling append = (nodes', Returned true) /\
    moveNode nodes nodeId targetId sibling before = (nodes', Returned true) /\
    id moved = nodeId /\
    findNodeWithParent nodes' targetId = Some (t, pre ++ moved :: t :: post).
Proof.
  intros Hdiff Hfind Htin Hdesc.
  destruct (findNodeWithParent_some _ _ _ _ Hfind) as (cs & s1 & s2 & Hs & ->).
  destruct (located_exists _ _ Htin) as (c0 & d1 & target & d2 & Ht).
  pose proof (outside_of_no_descendant _ _ _ _ _ _ _ Hdiff Hs Hdesc) as Hout.
  assert (Hstill : In targetId (ids (fill cs (s1 ++ s2)))).
  { destruct Hs as (Es & Hi & _). subst nodes.
    apply (target_survives_removal targetId cs s1 src s2); auto.
    - congruence.
    - now apply not_found_not_in_ids. }
  destruct (located_exists _ _ Hstill) as (ct & b1 & t & b2 & Hnow).
  pose proof (moveNode_sibling_outside nodes nodeId targetId cs s1 src s2
                c0 d1 target d2 Hdiff Hs Ht ct b1 t b2 Hout Hnow) as Hmove.
  pose proof (Hmove append) as Happ. pose proof (Hmove before) as Hbef.
  cbv zeta in Happ, Hbef. cbn [spot] in Happ, Hbef.
  match type of Happ with _ = (fill ct (b1 ++ ?m :: t :: b2), _) => set (moved := m) in * end.
  exists t, b1, b2, moved, (fill ct (b1 ++ moved :: t :: b2)).
  split.
  { rewrite (deleteNode_located _ _ _ _ _ _ Hs). cbn [snd].
    exact (findNodeWithParent_of_located _ _ _ _ _ _ Hnow). }
  split; [exact Happ|]. split; [exact Hbef|].
  assert (Hmid : id moved = nodeId /\ ids [moved] = ids [src]).
  { destruct Hs as (_ & Hi & _). subst moved.
    match goal with |- context [if ?b then _ else _] => destruct b end.
    - split; [now rewrite updateNodeLevels_eq|].
      now rewrite ids_updateNodeLevels, ids_setParentId.
    - now split. }
  destruct Hmid as [Hmid Hsame]. split; [exact Hmid|].
  destruct Hnow as (_ & Hidt & Hct & Hb1).
  replace (b1 ++ moved :: t :: b2) with ((b1 ++ [moved]) ++ t :: b2)
    by now rewrite <- app_assoc.
  apply findNodeWithParent_located; auto.
  rewrite ids_app, Hsame, ids_cons, ids_nil, app_nil_r.
  intros H. apply in_app_or in H. destruct H as [H|[H|H]].
  - contradiction.
  - destruct Hs as (_ & Hi & _). congruence.
  - now apply (not_found_not_in_ids _ _ Hdesc).
Qed.

Lemma moveNode_sibling_append_before_witness :
  exists t pre post moved nodes',
    findNodeWithParent (snd (deleteNode outline "C")) "D" = Some (t, pre ++ t :: post) /\
    moveNode outline "C" "D" sibling append = (nodes', Returned true) /\
    moveNode outline "C" "D" sibling before = (nodes', Returned true) /\
    id moved = "C" /\
    findNodeWithParent nodes' "D" = Some (t, pre ++ moved :: t :: post).
Proof.
  apply (moveNode_sibling_append_before outline "C" "D" nodeC [nodeC]).
  - discriminate.
  - reflexivity.
  - vm_compute. auto.
  - reflexivity.
Defined.

(** ** C1: moving a node into its own descendant *)

(** The outline [A > B] as a forest and as a store. *)
Definition pair : forest := [plain "A" 1 None [plain "B" 2 (Some "A") []]].

Definition pairStore : Store.store :=
  Store.mkStore
    [Store.mkObject "A" [] 1 None [1]; Store.mkObject "B" [] 2 (Some "A") []]
    [0].

Definition outlineStore : Store.store :=
  Store.mkStore
    [Store.mkObject "A" [] 1 None [1; 3];
     Store.mkObject "B" [] 2 (Some "A") [2];
     Store.mkObject "C" [] 3 (Some "B") [];
     Store.mkObject "D" [] 2 (Some "A") []]
    [0].

(** In a store where [A] holds [B] and [B] holds [A], [updateNodeLevels]
    never returns. *)
Lemma updateNodeLevels_on_cycle (fuel : nat) :
  forall ai ati al ap bi bti bl bp rts lvl,
    let s := Store.mkStore
               [Store.mkObject ai ati al ap [1]; Store.mkObject bi bti bl bp [0]] rts in
    Store.updateNodeLevels fuel s 0 lvl = None /\
    Store.updateNodeLevels fuel s 1 lvl = None.
Proof.
  induction fuel as [|fuel IH]; intros ai ati al ap bi bti bl bp rts lvl s;
    [split; reflexivity|].
  subst s. split; cbn.
  - now rewrite (proj2 (IH ai ati lvl ap bi bti bl bp rts (lvl + 1))).
  - now rewrite (proj1 (IH ai ati al ap bi bti lvl bp rts (lvl + 1))).
Qed.

(** On the store, moving [A] below its child [B] does not return, whatever
    the fuel. *)
Lemma store_move_below_child_diverges (fuel : nat) :
  Store.moveNode fuel pairStore "A" "B" child append = None.
Proof.
  destruct fuel as [|[|fuel]]; [reflexivity|reflexivity|].
  unfold Store.moveNode.
  change (String.eqb "A" "B") with false. cbv iota.
  change (Store.findNodeWithParent (S (S fuel)) pairStore Store.Roots "A")
    with (Some (Some (0, Store.Roots))).
  change (Store.findNodeWithParent (S (S fuel)) pairStore Store.Roots "B")
    with (Some (Some (1, Store.ChildrenOf 0))).
  cbv iota beta.
  change (Store.findIndex pairStore "A" (Store.elements pairStore Store.Roots))
    with (Some 0).
  cbv iota beta zeta.
  match goal with
  | |- match Store.updateNodeLevels _ ?s _ ?l with _ => _ end = _ =>
      let s' := eval vm_compute in s in
      let l' := eval vm_compute in l in
      change s with s'; change l with l'
  end.
  now rewrite (proj1 (updateNodeLevels_on_cycle (S (S fuel)) _ _ _ _ _ _ _ _ [] 3)).
Qed.

(** C1 fails on the code.  [B] is a descendant of [A]; moving [A] next to
    [B] returns [true] and leaves an empty forest, and moving [A] below [B]
    also empties the forest and then exhausts the stack.  On the store the
    first call leaves [A] inside its own [children]. *)
Theorem moveNode_into_descendant_not_rejected :
  findNodeById (children (plain "A" 1 None [plain "B" 2 (Some "A") []])) "B"
    = Some (plain "B" 2 (Some "A") []) /\
  moveNode pair "A" "B" sibling before = ([], Returned true) /\
  moveNode pair "A" "B" child append = ([], StackOverflow) /\
  moveNode outline "B" "C" sibling after =
    ([plain "A" 1 None [nodeD]], StackOverflow) /\
  Store.reify 3 pairStore Store.Roots = Some pair /\
  Store.moveNode 3 pairStore "A" "B" sibling before =
    Some (Store.mkStore
            [Store.mkObject "A" [] 1 None [0; 1]; Store.mkObject "B" [] 2 (Some "A") []]
            [],
          true) /\
  (forall fuel, Store.moveNode fuel pairStore "A" "B" child append = None).
Proof.
  repeat (split; [reflexivity|]). exact store_move_below_child_diverges.
Qed.

(** ** C2: the invariants after a move *)





(** The forest model and the store model of [moveNode] agree: when the
    forest model returns, the store model returns the same boolean and
    holds the same forest; when the forest model ends in [StackOverflow],
    the store model runs out of fuel. *)
Definition agrees (nodes : forest) (s : Store.store)
    (nodeId targetId : string) (mode : moveMode) (position : movePosition) : Prop :=
  match moveNode nodes nodeId targetId mode position with
  | (result, Returned b) =>
      exists s', Store.moveNode 8 s nodeId targetId mode position = Some (s', b) /\
                 Store.reify 8 s' Store.Roots = Some result
  | (_, StackOverflow) =>
      Store.moveNode 8 s nodeId targetId mode position = None
  end.

(** A forest with repeated identifiers: [A > (B > C), C, B > D]. *)
Definition twins : forest :=
  [plain "A" 1 None [plain "B" 2 (Some "A") [plain "C" 3 (Some "B") []]];
   plain "C" 1 None [];
   plain "B" 1 None [plain "D" 2 (Some "B") []]].

Definition twinsStore : Store.store :=
  Store.mkStore
    [Store.mkObject "A" [] 1 None [1];
     Store.mkObject "B" [] 2 (Some "A") [2];
     Store.mkObject "C" [] 3 (Some "B") [];
     Store.mkObject "C" [] 1 None [];
     Store.mkObject "B" [] 1 None [5];
     Store.mkObject "D" [] 2 (Some "B") []]
    [0; 3; 4].

Ltac settle_agreement :=
  unfold agrees;
  match goal with
  | |- match ?m with _ => _ end =>
      let r := eval vm_compute in m in change m with r; cbv iota beta
  end;
  first [ reflexivity | eexists; split; vm_compute; reflexivity ].

Lemma store_agrees_on_outline nodeId targetId mode position :
  In nodeId ["A"; "B"; "C"; "D"; "Z"] ->
  In targetId ["A"; "B"; "C"; "D"; "Z"] ->
  Store.reify 8 outlineStore Store.Roots = Some outline /\
  agrees outline outlineStore nodeId targetId mode position.
Proof.
  intros Hn Ht. split; [reflexivity|].
  cbn [In] in Hn, Ht.
  repeat (destruct Hn as [<-|Hn]); try contradiction;
    repeat (destruct Ht as [<-|Ht]); try contradiction;
    destruct mode, position; settle_agreement.
Qed.

Lemma store_agrees_on_twins nodeId targetId mode position :
  In nodeId ["A"; "B"; "C"; "D"] ->
  In targetId ["A"; "B"; "C"; "D"] ->
  Store.reify 8 twinsStore Store.Roots = Some twins /\
  agrees twins twinsStore nodeId targetId mode position.
Proof.
  intros Hn Ht. split; [reflexivity|].
  cbn [In] in Hn, Ht.
  repeat (destruct Hn as [<-|Hn]); try contradiction;
    repeat (destruct Ht as [<-|Ht]); try contradiction;
    destruct mode, position; settle_agreement.
Qed.

(** ** C10: what [parse] guarantees about links and levels *)

(** Two identifiers for the examples. *)
Definition twoIds (k : nat) : string :=
  match k with
  | 0 => "n0"
  | _ => "n1"
  end.

(** C10: for every text (and whatever identifiers are generated), [parse]
    returns one node per heading line, in the order of the lines in
    pre-order, with the marker count as level.  Every root has no
    [parentId] and every other node has the identifier of the node that
    holds it; every level lies between 1 and 6 and is greater than the
    level of the parent; and the [parentId] of a node is the identifier of
    the nearest heading before it with a smaller level ([null] when there
    is none).  The levels are the marker counts: in ["# A\n### B"] the
    child has level 3 below a parent of level 1, and in ["## A"] the root
    has level 2. *)
Theorem parse_links_and_raw_levels (generateId : nat -> string) (markdown : text) :
  parentsOk (parse generateId markdown) = true /\
  forallb increasing (parse generateId markdown) = true /\
  map (fun n => (level n, title n)) (flatten (parse generateId markdown))
    = headingsOf markdown /\
  (forall n, In n (flatten (parse generateId markdown)) -> 1 <= level n <= 6) /\
  (forall pre c post,
     flatten (parse generateId markdown) = pre ++ c :: post ->
     parentId c = option_map id (nearestShallower pre (level c))) /\
  parse twoIds (js "# A" ++ newline :: js "### B") =
    [mkNode "n0" (js "A") None
       [mkNode "n1" (js "B") None [] 3 false (Some "n0")] 1 false None] /\
  parse twoIds (js "## A") = [mkNode "n0" (js "A") None [] 2 false None] /\
  levelsOk (parse twoIds (js "# A" ++ newline :: js "### B")) = false /\
  levelsOk (parse twoIds (js "## A")) = false.
Proof.
  pose proof (parse_good generateId markdown) as Hgood.
  split; [|split; [|split; [|split; [|split]]]].
  - unfold parentsOk. revert Hgood. apply forallb_impl.
    intros n _ H. now apply good_parents.
  - revert Hgood. apply forallb_impl.
    intros n _ H. now apply (good_increasing n None).
  - exact (parse_headings generateId markdown).
  - exact (good_bounded _ (fun _ => true) None Hgood).
  - intros pre c post Hsplit.
    exact (nested_nearest _ None 0 [] [] (parse_nested generateId markdown)
             (fun _ _ => eq_refl) pre c post Hsplit).
  - repeat split; reflexivity.
Qed.

(** ** C6: [serialize] after [parse] *)

(** C6, as stated, fails: ["# A\n## B"] is a heading-only text, and
    [serialize] writes an empty line between the two headings that no
    trimming of the ends removes.  In the same way a second space after the
    markers, white space behind a title and a second empty line between two
    headings do not come back. *)
Lemma serialize_parse_adds_blank_line :
  headingOnly (js "# A" ++ newline :: js "## B") = true /\
  serialize (parse twoIds (js "# A" ++ newline :: js "## B"))
    = js "# A" ++ newline :: newline :: js "## B" /\
  trim (serialize (parse twoIds (js "# A" ++ newline :: js "## B")))
    <> trim (js "# A" ++ newline :: js "## B") /\
  headingOnly (js "#  A") = true /\
  serialize (parse twoIds (js "#  A")) = js "# A" /\
  headingOnly (js "# A " ++ newline :: newline :: js "## B") = true /\
  serialize (parse twoIds (js "# A " ++ newline :: newline :: js "## B"))
    = js "# A" ++ newline :: newline :: js "## B" /\
  headingOnly (js "# A" ++ newline :: newline :: newline :: js "## B") = true /\
  serialize (parse twoIds (js "# A" ++ newline :: newline :: newline :: js "## B"))
    = js "# A" ++ newline :: newline :: js "## B".
Proof.
  split; [reflexivity|]. split; [reflexivity|].
  split; [vm_compute; discriminate|]. repeat split; reflexivity.
Qed.

(** C6, amended.  Take a document in canonical form: every heading is one
    to six markers, one space and a title that is not empty, has no white
    space at its ends and holds no line terminator, and exactly one empty
    line separates the headings.  Put white space around it: in front of
    it white space that ends with a line feed (or nothing), behind it white
    space that has no other line terminator before its first line feed.
    Then [serialize (parse text)] reproduces the text up to the white space
    at its ends: it is the text trimmed, which is the document. *)
Theorem serialize_parse_canonical
    (generateId : nat -> string) (hs : list (nat * text)) (lead trail : text) :
  forallb canonicalHeading hs = true ->
  forallb isWhiteSpace lead = true ->
  last lead newline = newline ->
  forallb isWhiteSpace trail = true ->
  (hs <> [] -> forallb isDot (hd [] (splitLines trail)) = true) ->
  serialize (parse generateId (lead ++ document hs ++ trail))
    = trim (lead ++ document hs ++ trail) /\
  trim (lead ++ document hs ++ trail) = document hs.
Proof.
  intros Hcan Hlead Hlast Htrail Hdot.
  assert (Hall : Forall (fun h => canonicalHeading h = true) hs).
  { rewrite Forall_forall. now apply forallb_forall. }
  rewrite (trim_with_margins hs lead trail Hall Hlead Htrail).
  split; [|reflexivity].
  rewrite (serialize_of_sections generateId _ (document hs)).
  - now apply serialize_parse_document.
  - now apply sections_with_margins.
Qed.

Definition sampleHeadings : list (nat * text) :=
  [(1, js "Plan"); (2, js "First step"); (4, js "#detail"); (2, js "Second step")].

(** A line of two spaces in front, and behind a tab, a line feed and a
    carriage return. *)
Definition sampleLead : text := [space; space; newline].
Definition sampleTrail : text := [9%N; newline; 13%N].

Lemma serialize_parse_canonical_witness :
  forallb canonicalHeading sampleHeadings = true /\
  serialize (parse twoIds (sampleLead ++ document sampleHeadings ++ sampleTrail))
    = trim (sampleLead ++ document sampleHeadings ++ sampleTrail) /\
  trim (sampleLead ++ document sampleHeadings ++ sampleTrail) = document sampleHeadings.
Proof.
  split; [reflexivity|].
  apply (serialize_parse_canonical twoIds sampleHeadings sampleLead sampleTrail);
    reflexivity.
Defined.

(** ** C7: the three drop zones *)

(** A card that spans the rows 100 to 200, and a card whose top and height
    are no binary fractions. *)
Definition cardRows100to200 : DOMRect :=
  mkRect (double 40) (double 100) (double 180) (double 100).

Definition cardOffGrid : DOMRect :=
  mkRect (double 40) (double 100.2) (double 180) (double 41.6).

(** C7: over a valid target (a card with an identifier that is neither the
    dragged node nor one of its descendants, and a height that is not
    negative), the pointer's height [y = clientY - rect.top] in the card
    decides the intent, in the arithmetic of the code: the intent is
    [sibling-before] exactly when [y < rect.height * 0.25], it is
    [sibling-after] exactly when [y > rect.height * 0.75], and it is [child]
    exactly when neither holds.  For a card on the rows 100 to 200, row 120
    is [sibling-before], row 150 is [child] and row 190 is [sibling-after];
    for a card at 100.2 of height 41.6 a pointer at 131.4 gives [child],
    since the difference and the product round to the same number. *)
Theorem dropIntent_zones
    (nodes : forest) (clientY : number) (draggingNodeId targetId : string)
    (rect : DOMRect) :
  targetId <> "" ->
  targetId <> draggingNodeId ->
  isDescendant nodes draggingNodeId targetId = false ->
  flt (rectHeight rect) (double 0) = false ->
  let y := fsub clientY (rectTop rect) in
  let zoneTop := fmul (rectHeight rect) (double 0.25) in
  let zoneBottom := fmul (rectHeight rect) (double 0.75) in
  (exists intent,
     computeActiveDropIntent nodes clientY draggingNodeId (Some (Some targetId, rect))
       = Some intent /\
     intentTargetId intent = targetId /\
     (intentMode intent = siblingBefore <-> flt y zoneTop = true) /\
     (intentMode intent = siblingAfter <-> flt zoneBottom y = true) /\
     (intentMode intent = asChild <-> flt y zoneTop = false /\ flt zoneBottom y = false)) /\
  option_map intentMode
    (computeActiveDropIntent outline (double 120) "C" (Some (Some "D", cardRows100to200)))
    = Some siblingBefore /\
  option_map intentMode
    (computeActiveDropIntent outline (double 150) "C" (Some (Some "D", cardRows100to200)))
    = Some asChild /\
  option_map intentMode
    (computeActiveDropIntent outline (double 190) "C" (Some (Some "D", cardRows100to200)))
    = Some siblingAfter /\
  option_map intentMode
    (computeActiveDropIntent outline (double 131.4) "C" (Some (Some "D", cardOffGrid)))
    = Some asChild.
Proof.
  intros Hne Hdrag Hdesc Hheight y zoneTop zoneBottom.
  split; [|repeat split; vm_compute; reflexivity].
  unfold computeActiveDropIntent.
  rewrite (proj2 (String.eqb_neq _ _) Hne), (proj2 (String.eqb_neq _ _) Hdrag), Hdesc.
  cbn [orb]. cbv zeta. fold y zoneTop zoneBottom.
  destruct (flt y zoneTop) eqn:Htop.
  - pose proof (zones_disjoint _ _ Hheight Htop) as Hbot. fold zoneBottom in Hbot.
    eexists. split; [reflexivity|]. cbn [intentTargetId intentMode].
    split; [reflexivity|]. rewrite Hbot.
    repeat split; try reflexivity; try discriminate; intros []; discriminate.
  - destruct (flt zoneBottom y) eqn:Hbot.
    + eexists. split; [reflexivity|]. cbn [intentTargetId intentMode].
      split; [reflexivity|].
      repeat split; try reflexivity; try discriminate; intros []; discriminate.
    + eexists. split; [reflexivity|]. cbn [intentTargetId intentMode].
      split; [reflexivity|].
      repeat split; try reflexivity; try discriminate; intros []; discriminate.
Qed.

Lemma dropIntent_zones_witness :
  exists intent,
    computeActiveDropIntent outline (double 120) "C" (Some (Some "D", cardRows100to200))
      = Some intent /\
    intentTargetId intent = "D" /\
    (intentMode intent = siblingBefore <->
     flt (fsub (double 120) (rectTop cardRows100to200))
         (fmul (rectHeight cardRows100to200) (double 0.25)) = true) /\
    (intentMode intent = siblingAfter <->
     flt (fmul (rectHeight cardRows100to200) (double 0.75))
         (fsub (double 120) (rectTop cardRows100to200)) = true) /\
    (intentMode intent = asChild <->
     flt (fsub (double 120) (rectTop cardRows100to200))
         (fmul (rectHeight cardRows100to200) (double 0.25)) = false /\
     flt (fmul (rectHeight cardRows100to200) (double 0.75))
         (fsub (double 120) (rectTop cardRows100to200)) = false).
Proof.
  apply (proj1 (dropIntent_zones outline (double 120) "C" "D" cardRows100to200
                  ltac:(discriminate) ltac:(discriminate) eq_refl eq_refl)).
Defined.

(** ** C8: the median of the child centers *)

Lemma offCenter_iff dpr w :
  offCenter dpr w = true <->
  exists card cards,
    ownCard w = Some card /\ childCards w = Some cards /\ present cards <> [] /\
    flt (double 1)
        (mathAbs (fsub (median (sortNumbers (map (centerY dpr) (present cards))))
                       (centerY dpr card))) = true.
Proof.
  unfold offCenter, childCenters. split.
  - destruct (ownCard w) as [card|]; [|discriminate].
    destruct (childCards w) as [[|c cs]|]; try discriminate.
    destruct (sortNumbers (map (centerY dpr) (present (c :: cs)))) as [|x xs] eqn:E;
      [discriminate|].
    intros H. exists card, (c :: cs).
    repeat split; auto.
    + intros Hnil. rewrite Hnil in E. discriminate.
    + now rewrite E.
  - intros (card & cards & -> & -> & Hpresent & Hlt).
    destruct cards as [|c cs]; [now contradiction Hpresent|].
    destruct (sortNumbers (map (centerY dpr) (present (c :: cs)))) as [|x xs] eqn:E.
    + exfalso. apply Hpresent.
      apply (f_equal (@List.length number)) in E.
      rewrite sortNumbers_length, length_map in E.
      now destruct (present (c :: cs)).
    + exact Hlt.
Qed.

(** A card with the given top and height, and three parents: one whose
    children are centred on it, one whose children are not, and one at a
    pixel ratio of 3 whose only child is centred one pixel lower. *)
Definition cardAt (top height : Q) : DOMRect :=
  mkRect (double 0) (double top) (double 100) (double height).

Definition balanced : wrapperBoxes :=
  mkBoxes (Some (cardAt 100 40))
          (Some [Some (cardAt 150 40); None; Some (cardAt 50 40)]).

Definition lopsided : wrapperBoxes :=
  mkBoxes (Some (cardAt 100 40))
          (Some [Some (cardAt 150 40); Some (cardAt 52 40); Some (cardAt 60 40)]).

Definition thirds : wrapperBoxes :=
  mkBoxes (Some (cardAt (4 # 3) 0)) (Some [Some (cardAt (7 # 3) 0)]).

(** C8: when the window and the cards report finite numbers, the layout is
    flagged exactly when some wrapper with a card and at least one child
    card is off centre: put the centers [snap(top + height / 2)] of its
    child cards in ascending order; [mid] is the middle one for an odd
    number of them and half the sum of the two middle ones for an even
    number; and [Math.abs(mid - parentCenterY) > 1], computed in the
    arithmetic of the code, where [snap(v)] is [Math.round(v * dpr) / dpr]
    and [dpr] is the pixel ratio of the window, or 1 when that is zero.  The
    list that the code sorts is that ascending arrangement, and it holds no
    [NaN].  Three examples: children centred
    on the parent are not flagged; children at 72, 80 and 170 around a
    parent at 120 are; and at a pixel ratio of 3 a child at 7/3 below a
    parent at 4/3 is, since the rounded centers differ by more than 1. *)
Theorem validateSymmetry_median
    (devicePixelRatio : number) (wrappers : list wrapperBoxes) :
  isFinite devicePixelRatio = true ->
  forallb measuredBoxes wrappers = true ->
  let dpr := if toBoolean devicePixelRatio then devicePixelRatio else double 1 in
  let snapped v := fdiv (mathRound (fmul v dpr)) dpr in
  let center r := snapped (fadd (rectTop r) (fdiv (rectHeight r) (double 2))) in
  (validateSymmetry devicePixelRatio wrappers = true <->
   exists w card cards centers mid,
     In w wrappers /\ ownCard w = Some card /\ childCards w = Some cards /\
     centers <> [] /\
     Permutation centers (map center (present cards)) /\
     Sorted ascending centers /\
     (forall k, List.length centers = 2 * k + 1 -> mid = nth k centers NaN) /\
     (forall k, List.length centers = 2 * k + 2 ->
                mid = fdiv (fadd (nth k centers NaN) (nth (k + 1) centers NaN)) (double 2)) /\
     flt (double 1) (mathAbs (fsub mid (center card))) = true) /\
  (forall w cards,
     In w wrappers -> childCards w = Some cards ->
     Permutation (childCenters dpr cards) (map center (present cards)) /\
     Sorted ascending (childCenters dpr cards) /\
     forallb notNaN (childCenters dpr cards) = true) /\
  validateSymmetry (double 1) [balanced] = false /\
  validateSymmetry (double 1) [balanced; lopsided] = true /\
  childCenters (double 1) [Some (cardAt 150 40); Some (cardAt 52 40); Some (cardAt 60 40)]
    = [double 72; double 80; double 170] /\
  validateSymmetry (double 3) [thirds] = true.
Proof.
  intros Hfin Hmeasured dpr snapped center.
  assert (Ecenter : forall r, centerY dpr r = center r) by reflexivity.
  destruct (pixelRatio_usable devicePixelRatio Hfin) as (d & Ed & Hd). fold dpr in Ed.
  assert (Hall : forall w cards,
            In w wrappers -> childCards w = Some cards ->
            Forall isDouble (map center (present cards))).
  { intros w cards Hin Hk. rewrite forallb_forall in Hmeasured.
    specialize (Hmeasured w Hin). unfold measuredBoxes in Hmeasured.
    apply andb_prop in Hmeasured. destruct Hmeasured as [_ Hcards].
    rewrite Hk in Hcards. rewrite forallb_forall in Hcards.
    rewrite Forall_forall. intros c Hc. apply in_map_iff in Hc.
    destruct Hc as (r & <- & Hr). rewrite <- Ecenter, Ed.
    apply centerY_double; [exact Hd|now apply Hcards]. }
  split; [|split; [|repeat split; vm_compute; reflexivity]].
  - unfold validateSymmetry. fold dpr. rewrite existsb_exists. split.
    + intros (w & Hin & Hoff). apply offCenter_iff in Hoff.
      destruct Hoff as (card & cards & Hc & Hk & Hp & Hlt).
      exists w, card, cards, (sortNumbers (map center (present cards))),
        (median (sortNumbers (map center (present cards)))).
      split; [exact Hin|]. split; [exact Hc|]. split; [exact Hk|].
      split.
      { intros E. apply Hp. apply (f_equal (@List.length number)) in E.
        rewrite sortNumbers_length, length_map in E. now destruct (present cards). }
      split; [apply sortNumbers_perm|].
      split; [apply sortNumbers_sorted; now apply (Hall w)|].
      split; [intros k Hlen; now apply median_odd|].
      split; [intros k Hlen; now apply median_even|exact Hlt].
    + intros (w & card & cards & centers & mid & Hin & Hc & Hk & Hne & Hperm & Hsorted
              & Hodd & Heven & Hlt).
      exists w. split; [assumption|]. apply offCenter_iff. exists card, cards.
      pose proof (Hall w cards Hin Hk) as Hdoubles.
      assert (Ecenters : centers = sortNumbers (map center (present cards))).
      { apply sorted_unique.
        - rewrite Forall_forall in *. intros c Hin'. apply Hdoubles.
          now apply (Permutation_in _ Hperm).
        - exact Hsorted.
        - now apply sortNumbers_sorted.
        - rewrite Hperm. apply Permutation_sym, sortNumbers_perm. }
      split; [exact Hc|]. split; [exact Hk|]. split.
      { intros E. apply Hne. rewrite E in Hperm. cbn [map] in Hperm.
        now apply Permutation_sym, Permutation_nil in Hperm. }
      assert (Emid : mid = median centers).
      { destruct (length_parity _ _ Hne) as (k & [Hlen|Hlen]).
        - rewrite (Hodd k Hlen). symmetry. now apply median_odd.
        - rewrite (Heven k Hlen). symmetry. now apply median_even. }
      rewrite Emid, Ecenters in Hlt. exact Hlt.
  - intros w cards Hin Hk. unfold childCenters.
    pose proof (Hall w cards Hin Hk) as Hdoubles.
    split; [apply sortNumbers_perm|].
    split; [now apply sortNumbers_sorted|].
    apply forallb_forall. intros c Hc. apply isDouble_notNaN.
    rewrite Forall_forall in Hdoubles. apply Hdoubles.
    now apply (Permutation_in _ (sortNumbers_perm _)).
Qed.

Lemma validateSymmetry_median_witness :
  validateSymmetry (double 1) [balanced; lopsided] = true /\
  exists w card cards centers mid,
    In w [balanced; lopsided] /\ ownCard w = Some card /\ childCards w = Some cards /\
    centers <> [] /\
    Permutation centers
      (map (fun r => snap (double 1) (fadd (rectTop r) (fdiv (rectHeight r) (double 2))))
           (present cards)) /\
    Sorted ascending centers /\
    (forall k, List.length centers = 2 * k + 1 -> mid = nth k centers NaN) /\
    (forall k, List.length centers = 2 * k + 2 ->
               mid = fdiv (fadd (nth k centers NaN) (nth (k + 1) centers NaN)) (double 2)) /\
    flt (double 1)
        (mathAbs (fsub mid (snap (double 1)
                                 (fadd (rectTop card) (fdiv (rectHeight card) (double 2))))))
      = true.
Proof.
  assert (Hflag : validateSymmetry (double 1) [balanced; lopsided] = true)
    by (vm_compute; reflexivity).
  split; [exact Hflag|].
  exact (proj1 (proj1 (validateSymmetry_median (double 1) [balanced; lopsided]
                         eq_refl eq_refl)) Hflag).
Defined.

(** ** C9: the normalization pass is rerun at most three times *)

(** C9: [normalizePasses] never exceeds 3.  Starting from such a value, the
    chain of frame callbacks that ask for one another ends: it has at most
    [4 - normalizePasses] callbacks (a first pass and at most three reruns
    when the count starts at 0), every callback before the last found a
    change, and no callback runs after one that found no change (or an
    active drag).  More fuel than 4 gives the same run. *)
Theorem normalization_reruns_bounded (facts : nat -> frameFacts) (passes : nat) :
  passes <= 3 ->
  exists n final,
    (forall fuel, 4 <= fuel -> runFrames fuel facts 0 passes = Some (n, final)) /\
    1 <= n /\ n - 1 <= 3 - passes /\ final <= 3 /\
    (forall j, j + 1 < n ->
               dragActive (facts j) = false /\
               (layoutChanged (facts j) || needsFix (facts j)) = true) /\
    (forall j, dragActive (facts j) = true \/
               (layoutChanged (facts j) || needsFix (facts j)) = false ->
               n <= j + 1).
Proof.
  intros Hp.
  destruct (runFrames_bounded facts 4 0 passes Hp ltac:(lia))
    as (n & final & Hrun & Hn1 & Hn & Hfinal & Hbefore & Hstop).
  exists n, final. split.
  { intros fuel Hfuel. exact (runFrames_enough 4 fuel facts 0 passes _ Hfuel Hrun). }
  repeat split; try lia.
  - now apply (Hbefore j).
  - now apply (Hbefore j).
  - intros j Hj. now apply (Hstop j).
Qed.

(** A layout that never settles, and one that settles in the second pass. *)
Definition restless (k : nat) : frameFacts := mkFacts false true true.

Definition settlesSecond (k : nat) : frameFacts :=
  match k with
  | 0 => mkFacts false true false
  | _ => mkFacts false false false
  end.

Lemma normalization_reruns_bounded_witness :
  0 <= 3 /\
  runFrames 4 restless 0 0 = Some (4, 0) /\
  runFrames 9 settlesSecond 0 0 = Some (2, 0) /\
  exists n final,
    (forall fuel, 4 <= fuel -> runFrames fuel restless 0 0 = Some (n, final)) /\
    1 <= n /\ n - 1 <= 3 - 0 /\ final <= 3 /\
    (forall j, j + 1 < n ->
               dragActive (restless j) = false /\
               (layoutChanged (restless j) || needsFix (restless j)) = true) /\
    (forall j, dragActive (restless j) = true \/
               (layoutChanged (restless j) || needsFix (restless j)) = false ->
               n <= j + 1).
Proof.
  split; [lia|]. split; [reflexivity|]. split; [reflexivity|].
  apply (normalization_reruns_bounded restless 0). lia.
Defined.

(** * Further properties of the code *)

(** ** Lookups *)

(** X1: [findNodeById] is the linear search, in depth-first pre-order, for
    the first node with the identifier: it finds a node exactly when the
    identifier occurs in the forest, and the node it returns carries the
    identifier and belongs to the forest. *)
Theorem findNodeById_first_match (nodes : forest) (tid : string) :
  findNodeById nodes tid = find (fun n => String.eqb (id n) tid) (flatten nodes) /\
  ((exists x, findNodeById nodes tid = Some x) <-> In tid (ids nodes)) /\
  (forall x, findNodeById nodes tid = Some x -> id x = tid /\ In x (flatten nodes)).
Proof.
  split; [apply findNodeById_find|]. split; [apply findNodeById_some_iff|].
  intros x H. rewrite findNodeById_find in H. apply find_some in H.
  destruct H as [Hin Heq]. apply String.eqb_eq in Heq. now split.
Qed.

(** X2: [findNodeWithParent] returns the node that [findNodeById] returns,
    together with the array that holds it: the node is the first entry of
    that array with the identifier (where [findIndex] finds it), and the
    array is the root array or the [children] of a node of the forest.
    It returns [null] exactly when [findNodeById] does. *)
Theorem findNodeWithParent_array (nodes : forest) (tid : string) :
  match findNodeWithParent nodes tid with
  | Some (x, arr) =>
      findNodeById nodes tid = Some x /\
      (exists pre post,
         arr = pre ++ x :: post /\ findIndex tid arr = Some (List.length pre)) /\
      (arr = nodes \/ exists p, In p (flatten nodes) /\ children p = arr)
  | None => findNodeById nodes tid = None
  end.
Proof.
  destruct (findNodeWithParent nodes tid) as [[x arr]|] eqn:E.
  - destruct (findNodeWithParent_some _ _ _ _ E) as (c & a1 & a2 & L & ->).
    split; [exact (findNodeById_of_located _ _ _ _ _ _ L)|].
    destruct L as (-> & Hid & Hc & Ha1). split.
    + exists a1, a2. split; [reflexivity|]. now apply findIndex_located.
    + destruct (holeOwner c (a1 ++ x :: a2)) as [p|] eqn:Ho.
      * right. exists p. destruct (holeOwner_holds _ _ _ Ho). now split.
      * left. now rewrite (holeOwner_none _ _ Ho).
  - apply findNodeById_absent. now apply findNodeWithParent_none.
Qed.

(** X3: in a forest without repeated identifiers and with the [parentId]
    fields right, [findParentNode] returns the node whose [children] is the
    array that holds the child ([null] for a node of the root array); its
    identifier is the [parentId] of the child, and it is the first entry of
    [getParentChain]. *)
Theorem findParentNode_holder
    (nodes : forest) (childId : string) (x : MindMapNode) (arr : forest) :
  uniqueIds nodes ->
  parentsOk nodes = true ->
  findNodeWithParent nodes childId = Some (x, arr) ->
  parentId x = option_map id (findParentNode nodes childId) /\
  hd_error (getParentChain nodes childId) = findParentNode nodes childId /\
  match findParentNode nodes childId with
  | Some p => In p (flatten nodes) /\ children p = arr
  | None => arr = nodes
  end.
Proof.
  intros Hu Hp E.
  destruct (findNodeWithParent_some _ _ _ _ E) as (c & a1 & a2 & L & ->).
  rewrite (getParentChain_of_located _ _ _ _ _ _ L), hd_rev_owners.
  destruct L as (-> & Hid & Hc & Ha1). subst childId.
  assert (Hin : In x (a1 ++ x :: a2)) by (apply in_or_app; right; now left).
  rewrite (findParentNode_fill c (a1 ++ x :: a2) x Hin Hu).
  split; [|split; [reflexivity|]].
  - rewrite <- holeParent_id_owner.
    unfold parentsOk in Hp. rewrite parentsFrom_fill in Hp.
    apply andb_prop in Hp. destruct Hp as [_ Hp].
    rewrite forallb_forall in Hp.
    exact (proj1 (parentsFrom_parent _ _ (Hp x Hin))).
  - destruct (holeOwner c (a1 ++ x :: a2)) as [p|] eqn:Ho.
    + destruct (holeOwner_holds _ _ _ Ho). now split.
    + now rewrite (holeOwner_none _ _ Ho).
Qed.

Lemma findParentNode_holder_witness :
  parentId nodeC = option_map id (findParentNode outline "C") /\
  hd_error (getParentChain outline "C") = findParentNode outline "C" /\
  match findParentNode outline "C" with
  | Some p => In p (flatten outline) /\ children p = [nodeC]
  | None => [nodeC] = outline
  end.
Proof.
  apply (findParentNode_holder outline "C" nodeC [nodeC]).
  - apply distinct_NoDup. reflexivity.
  - reflexivity.
  - reflexivity.
Defined.

(** X4: [countChildren] counts the proper descendants of a node: the nodes
    of its subtree without the node itself. *)
Theorem countChildren_descendants (n : MindMapNode) :
  countChildren n = List.length (flatten (children n)) /\
  List.length (flatten [n]) = countChildren n + 1 /\
  (countChildren n = 0 <-> children n = []).
Proof.
  rewrite countChildren_flatten. split; [reflexivity|]. split.
  - rewrite flatten_cons. cbn [flatten flat_map]. rewrite app_nil_r.
    cbn [List.length]. lia.
  - destruct (children n) as [|c rest]; [split; reflexivity|].
    rewrite flatten_cons. cbn [List.length]. split; [lia|discriminate].
Qed.

(** ** Mutators *)

(** X5: [deleteNode] returns [false] and changes nothing when no node has
    the identifier.  Otherwise it returns [true] and takes out the first
    node with the identifier together with its subtree: in pre-order, the
    nodes before and after that subtree stay as they are (identifier, title,
    description, level, collapsed flag and [parentId]), and the forest has
    [1 + countChildren] nodes less.  When identifiers are not repeated,
    neither the identifier nor the identifier of any descendant is found
    afterwards. *)
Theorem deleteNode_removes_subtree (nodes : forest) (nodeId : string) :
  match findNodeById nodes nodeId with
  | None => deleteNode nodes nodeId = (false, nodes)
  | Some x =>
      exists front back nodes',
        deleteNode nodes nodeId = (true, nodes') /\
        proj label nodes = front ++ proj label [x] ++ back /\
        proj label nodes' = front ++ back /\
        List.length (flatten nodes') + countChildren x + 1 = List.length (flatten nodes) /\
        (uniqueIds nodes ->
         forall d, In d (ids [x]) -> findNodeById nodes' d = None)
  end.
Proof.
  destruct (findNodeById nodes nodeId) as [x|] eqn:E.
  - destruct (located_of_found _ _ _ E) as (c & a1 & a2 & L).
    rewrite (deleteNode_located _ _ _ _ _ _ L). destruct L as (-> & _).
    exists (projBefore label c ++ proj label a1),
           (proj label a2 ++ projAfter label c),
           (fill c (a1 ++ a2)).
    split; [reflexivity|].
    assert (Hall : forall (A : Type) (g : MindMapNode -> A),
               (forall n k, g (setChildren n k) = g n) ->
               proj g (fill c (a1 ++ x :: a2))
               = (projBefore g c ++ proj g a1) ++ proj g [x] ++ proj g a2 ++ projAfter g c /\
               proj g (fill c (a1 ++ a2))
               = (projBefore g c ++ proj g a1) ++ proj g a2 ++ projAfter g c).
    { intros A g Hg. rewrite !(proj_fill _ g Hg), !proj_app.
      replace (x :: a2) with ([x] ++ a2) by reflexivity.
      now rewrite proj_app, <- !app_assoc. }
    destruct (Hall _ label label_children) as [Hfull Hless].
    split; [exact Hfull|]. split; [exact Hless|]. split.
    + rewrite <- (length_proj _ label (fill c (a1 ++ a2))),
              <- (length_proj _ label (fill c (a1 ++ x :: a2))), Hfull, Hless.
      rewrite !length_app, (length_proj _ label [x]), countChildren_flatten.
      rewrite flatten_cons. cbn [flatten flat_map]. rewrite app_nil_r.
      cbn [List.length]. lia.
    + intros Hu d Hd. apply findNodeById_absent.
      destruct (Hall _ id id_children) as [Hfull' Hless'].
      unfold uniqueIds in Hu. rewrite !ids_proj in *. rewrite Hfull' in Hu.
      rewrite Hless'. intros Hin.
      apply in_app_or in Hin. destruct Hin as [Hin|Hin].
      * apply (NoDup_app_disjoint _ _ _ d Hu Hin). apply in_or_app. now left.
      * apply NoDup_app_remove_l in Hu.
        exact (NoDup_app_disjoint _ _ _ d Hu Hd Hin).
  - apply deleteNode_absent. now apply not_found_not_in_ids.
Qed.

(** X6: [addChildNode] returns [null] and changes nothing when no node has
    the identifier.  Otherwise the created node has an empty description,
    no children, the level of the target plus one and the identifier of the
    target as [parentId]; it becomes the last child of the target, so in
    pre-order it follows the subtree of the target directly, and every
    other node stays as it is. *)
Theorem addChildNode_last_child
    (nodes : forest) (targetId : string) (ttl : text) (newId : string) :
  match findNodeById nodes targetId with
  | None => addChildNode nodes targetId ttl newId = (None, nodes)
  | Some x =>
      let created :=
        mkNode newId ttl (Some []) [] (level x + 1) false (Some targetId) in
      exists front back nodes',
        addChildNode nodes targetId ttl newId = (Some created, nodes') /\
        findNodeById nodes' targetId = Some (setChildren x (children x ++ [created])) /\
        proj label nodes = front ++ proj label [x] ++ back /\
        proj label nodes' = front ++ proj label [x] ++ created :: back
  end.
Proof.
  unfold addChildNode.
  destruct (findNodeById nodes targetId) as [x|] eqn:E; [|reflexivity].
  destruct (located_of_found _ _ _ E) as (c & a1 & a2 & L).
  rewrite (updNode_located _ _ _ _ _ _ _ L).
  pose proof L as (-> & Hid & Hc & Ha1). rewrite Hid. cbv zeta.
  set (created := mkNode newId ttl (Some []) [] (level x + 1) false (Some targetId)).
  exists (projBefore label c ++ proj label a1),
         (proj label a2 ++ projAfter label c),
         (fill c (a1 ++ push created x :: a2)).
  split; [reflexivity|]. split; [|split].
  - apply (findNodeById_of_located _ _ c a1 _ a2).
    now apply (located_update _ _ _ _ _ _ (push created) L).
  - rewrite (proj_fill _ label label_children), !proj_app.
    replace (x :: a2) with ([x] ++ a2) by reflexivity.
    now rewrite proj_app, <- !app_assoc.
  - rewrite (proj_fill _ label label_children), !proj_app.
    rewrite (proj_cons _ label (push created x)). unfold push.
    rewrite children_setChildren, label_children, proj_app.
    rewrite (proj_cons _ label x []).
    change (proj label [created]) with [created].
    change (proj label []) with (@nil MindMapNode).
    rewrite <- !app_assoc. cbn [app]. now rewrite <- !app_assoc.
Qed.

(** X7: [toggleCollapsed] returns [true] exactly when a node has the
    identifier; it flips the flag of the first such node and nothing else,
    so a second call restores the forest, and the text that [serialize]
    writes is the same before and after. *)
Theorem toggleCollapsed_flips (nodes : forest) (nodeId : string) :
  (fst (toggleCollapsed nodes nodeId) = true <-> In nodeId (ids nodes)) /\
  (forall x,
     findNodeById nodes nodeId = Some x ->
     findNodeById (snd (toggleCollapsed nodes nodeId)) nodeId
     = Some (setCollapsed x (negb (collapsed x)))) /\
  snd (toggleCollapsed (snd (toggleCollapsed nodes nodeId)) nodeId) = nodes /\
  serialize (snd (toggleCollapsed nodes nodeId)) = serialize nodes.
Proof.
  destruct (findNodeById nodes nodeId) as [x|] eqn:E.
  - destruct (located_of_found _ _ _ E) as (c & a1 & a2 & L).
    set (flip := fun n => setCollapsed n (negb (collapsed n))).
    assert (L' : located (fill c (a1 ++ flip x :: a2)) nodeId c a1 (flip x) a2).
    { apply (located_update _ _ _ _ _ _ flip L). now destruct L as (_ & Hid & _). }
    assert (Htog : toggleCollapsed nodes nodeId = (true, fill c (a1 ++ flip x :: a2))).
    { unfold toggleCollapsed. rewrite E.
      now rewrite (updNode_located _ _ _ _ _ _ _ L). }
    assert (Hback : toggleCollapsed (fill c (a1 ++ flip x :: a2)) nodeId = (true, nodes)).
    { unfold toggleCollapsed.
      rewrite (findNodeById_of_located _ _ _ _ _ _ L').
      rewrite (updNode_located _ _ _ _ _ _ _ L').
      destruct L as (-> & _). fold (flip (flip x)).
      replace (flip (flip x)) with x; [reflexivity|].
      destruct x as [i t d k l col p]. unfold flip, setCollapsed.
      cbn [id title description children level collapsed parentId].
      now rewrite negb_involutive. }
    rewrite Htog. cbn [fst snd]. rewrite Hback. cbn [snd].
    split; [split; [intros _; exact (found_in_ids _ _ _ E)|reflexivity]|].
    split; [|split; [reflexivity|]].
    + intros y Hy. injection Hy as <-.
      exact (findNodeById_of_located _ _ _ _ _ _ L').
    + destruct L as (-> & _). unfold serialize. rewrite !serialize_outline.
      unfold outlineOf. fold (proj info (fill c (a1 ++ flip x :: a2))).
      fold (proj info (fill c (a1 ++ x :: a2))).
      now rewrite (proj_update _ info (fun _ _ => eq_refl) c a1 x (flip x) a2).
  - assert (Htog : toggleCollapsed nodes nodeId = (false, nodes)).
    { unfold toggleCollapsed. now rewrite E. }
    rewrite Htog. cbn [fst snd]. rewrite Htog. cbn [snd].
    split; [split; [discriminate|]|].
    + intros Hin. now apply not_found_not_in_ids in E.
    + split; [discriminate|]. split; reflexivity.
Qed.

(** X8: [updateNode] returns [false] and changes nothing when no node has
    the identifier.  Otherwise it returns [true] and writes the given
    fields into the first node with the identifier: unless the update
    renames the node, a lookup of the identifier then returns the updated
    node; unless the update replaces the children, all other nodes stay as
    they are; and an update of neither identifier, children, level nor
    [parentId] (such as the title and description edits of the
    application) keeps the invariants of the forest. *)
Theorem updateNode_assigns (nodes : forest) (nodeId : string) (u : updates) :
  match findNodeById nodes nodeId with
  | None => updateNode nodes nodeId u = (false, nodes)
  | Some x =>
      exists nodes',
        updateNode nodes nodeId u = (true, nodes') /\
        (orKeep (newId u) nodeId = nodeId ->
         findNodeById nodes' nodeId = Some (assign x u)) /\
        (newChildren u = None ->
         exists front back,
           proj label nodes = front ++ label x :: back /\
           proj label nodes' = front ++ label (assign x u) :: back) /\
        (newId u = None -> newChildren u = None -> newLevel u = None ->
         newParentId u = None -> valid nodes -> valid nodes')
  end.
Proof.
  unfold updateNode.
  destruct (findNodeById nodes nodeId) as [x|] eqn:E; [|reflexivity].
  destruct (located_of_found _ _ _ E) as (c & a1 & a2 & L).
  exists (updNode nodeId (fun n => assign n u) nodes).
  split; [reflexivity|]. split; [|split].
  - intros Hid. rewrite (updNode_located _ _ _ _ _ _ _ L).
    apply (findNodeById_of_located _ _ c a1 _ a2).
    apply (located_update _ _ _ _ _ _ (fun n => assign n u) L).
    destruct L as (_ & Hx & _). cbn [assign id]. now rewrite Hx.
  - intros Hk. rewrite (updNode_located _ _ _ _ _ _ _ L).
    destruct L as (-> & _).
    exists (projBefore label c ++ proj label a1),
           (proj label (children x) ++ proj label a2 ++ projAfter label c).
    rewrite !(proj_fill _ label label_children), !proj_app, !proj_cons.
    assert (Ek : children (assign x u) = children x).
    { cbn [assign children]. now rewrite Hk. }
    rewrite Ek, <- !app_assoc. cbn [app]. now rewrite <- !app_assoc.
  - intros Hi Hk Hl Hp. apply updNode_valid. intros n.
    now apply assign_keeps.
Qed.

(** X9: [moveNode] returns [false] exactly when the two identifiers are
    the same or one of them is not found, and then the forest is as
    before. *)
Theorem moveNode_rejects
    (nodes : forest) (nodeId targetId : string)
    (mode : moveMode) (position : movePosition) :
  (snd (moveNode nodes nodeId targetId mode position) = Returned false <->
   nodeId = targetId \/ ~ In nodeId (ids nodes) \/ ~ In targetId (ids nodes)) /\
  (snd (moveNode nodes nodeId targetId mode position) = Returned false ->
   fst (moveNode nodes nodeId targetId mode position) = nodes).
Proof.
  destruct (string_dec nodeId targetId) as [->|Hdiff].
  { rewrite moveNode_same. cbn [fst snd]. repeat split; auto. }
  destruct (in_dec string_dec nodeId (ids nodes)) as [Hsin|Hsout].
  2:{ rewrite (moveNode_no_source _ _ _ _ _ Hsout). cbn [fst snd]. repeat split; auto. }
  destruct (in_dec string_dec targetId (ids nodes)) as [Htin|Htout].
  2:{ rewrite (moveNode_no_target _ _ _ _ _ Htout). cbn [fst snd]. repeat split; auto. }
  assert (Hnot : snd (moveNode nodes nodeId targetId mode position) <> Returned false).
  { destruct (insideSource nodes nodeId targetId) eqn:Hin.
    - now apply moveNode_inside_outcome.
    - destruct (moveNode_outside_content nodes nodeId targetId mode position
                  Hdiff Hsin Htin Hin) as [-> _]. discriminate. }
  split; [split|]; intros H; try contradiction.
  destruct H as [H|[H|H]]; contradiction.
Qed.

(** X10: when both identifiers are found, differ, and the target is not a
    descendant of the moved node, [moveNode] returns [true] and the forest
    holds the same nodes as before: no node is lost or doubled, and every
    node keeps its identifier, title, description and collapsed flag. *)
Theorem moveNode_keeps_nodes
    (nodes : forest) (nodeId targetId : string)
    (mode : moveMode) (position : movePosition) :
  nodeId <> targetId ->
  In nodeId (ids nodes) ->
  In targetId (ids nodes) ->
  isDescendant nodes nodeId targetId = false ->
  snd (moveNode nodes nodeId targetId mode position) = Returned true /\
  Permutation (proj content (fst (moveNode nodes nodeId targetId mode position)))
              (proj content nodes).
Proof.
  intros Hdiff Hsin Htin Hd. apply moveNode_outside_content; auto.
  now apply not_descendant_outside.
Qed.

Lemma moveNode_keeps_nodes_witness :
  snd (moveNode outline "C" "D" child append) = Returned true /\
  Permutation (proj content (fst (moveNode outline "C" "D" child append)))
              (proj content outline).
Proof.
  apply (moveNode_keeps_nodes outline "C" "D" child append).
  - discriminate.
  - vm_compute. tauto.
  - vm_compute. tauto.
  - reflexivity.
Defined.

(** X11: when the target is not a descendant of the moved node, a move with
    mode [child] makes the moved node the last child of the target, with
    the identifier of the target as [parentId] and its subtree on the
    levels below the level of the target; a move with mode [sibling] and
    position [after] puts the moved node directly behind the target, in the
    array that holds the target once the source has been taken out. *)
Theorem moveNode_places
    (nodes : forest) (nodeId targetId : string) (position : movePosition)
    (src target : MindMapNode) :
  nodeId <> targetId ->
  findNodeById nodes nodeId = Some src ->
  findNodeById nodes targetId = Some target ->
  findNodeById (children src) targetId = None ->
  exists t pre post,
    findNodeWithParent (snd (deleteNode nodes nodeId)) targetId
      = Some (t, pre ++ t :: post) /\
    (let moved :=
       updateNodeLevels (setParentId src (Some (id target))) (level target + 1) in
     exists nodes',
       moveNode nodes nodeId targetId child position = (nodes', Returned true) /\
       findNodeById nodes' targetId = Some (setChildren t (children t ++ [moved])) /\
       parentId moved = Some targetId /\
       levelsFrom (level target + 1) moved = true) /\
    (exists moved nodes',
       moveNode nodes nodeId targetId sibling after = (nodes', Returned true) /\
       id moved = nodeId /\
       findNodeWithParent nodes' targetId = Some (t, pre ++ t :: moved :: post)).
Proof.
  intros Hdiff Es Et Hdesc.
  destruct (located_of_found _ _ _ Es) as (cs & s1 & s2 & Hs).
  pose proof (outside_of_no_descendant _ _ _ _ _ _ _ Hdiff Hs Hdesc) as Hout.
  pose proof (found_in_ids _ _ _ Et) as Htin.
  destruct (moveNode_outside nodes nodeId targetId child position cs s1 src s2
              Hdiff Hs Htin Hout)
    as (ct & b1 & t & b2 & moved & Hnow & Hmid & _ & Hmoved & Hmove).
  destruct (Hmoved eq_refl) as (target' & Et' & ->).
  rewrite Et in Et'. injection Et' as <-.
  exists t, b1, b2. split; [|split].
  - rewrite (deleteNode_located _ _ _ _ _ _ Hs). cbn [snd].
    exact (findNodeWithParent_of_located _ _ _ _ _ _ Hnow).
  - cbv zeta. eexists. split; [exact Hmove|]. cbn [placed]. split; [|split].
    + apply (findNodeById_of_located _ _ ct b1 _ b2).
      apply (located_update _ _ _ _ _ _
               (push (updateNodeLevels (setParentId src (Some (id target)))
                                       (level target + 1))) Hnow).
      now destruct Hnow as (_ & Hidt & _).
    + rewrite updateNodeLevels_eq. cbn [parentId setParentId].
      destruct (located_of_found _ _ _ Et) as (c0 & d1 & d2 & (_ & Hidt & _)).
      now rewrite Hidt.
    + apply levelsFrom_updateNodeLevels.
  - destruct (moveNode_outside nodes nodeId targetId sibling after cs s1 src s2
                Hdiff Hs Htin Hout)
      as (ct' & b1' & t' & b2' & moved' & Hnow' & Hmid' & _ & _ & Hmove').
    assert (Esame : Some (t', b1' ++ t' :: b2') = Some (t, b1 ++ t :: b2)).
    { rewrite <- (findNodeWithParent_of_located _ _ _ _ _ _ Hnow').
      exact (findNodeWithParent_of_located _ _ _ _ _ _ Hnow). }
    exists moved', (fill ct' (b1' ++ t' :: moved' :: b2')).
    split; [exact Hmove'|]. split; [exact Hmid'|].
    destruct Hnow' as (_ & Hidt' & Hct' & Hb1').
    rewrite (findNodeWithParent_located targetId b1' t' (moved' :: b2') Hidt' Hb1' ct' Hct').
    injection Esame as E1 E2. subst t'.
    f_equal. f_equal.
    assert (Hlen : List.length b1' = List.length b1).
    { pose proof (findIndex_located targetId b1' t b2' Hidt' Hb1') as H1.
      rewrite E2 in H1.
      destruct Hnow as (_ & Hidt & _ & Hb1).
      rewrite (findIndex_located targetId b1 t b2 Hidt Hb1) in H1.
      now injection H1. }
    destruct (app_same_length_inj _ _ _ _ _ Hlen E2) as [-> E3].
    injection E3 as ->. reflexivity.
Qed.

Lemma moveNode_places_witness :
  exists t pre post,
    findNodeWithParent (snd (deleteNode outline "C")) "D" = Some (t, pre ++ t :: post) /\
    (let moved := updateNodeLevels (setParentId nodeC (Some (id nodeD))) (level nodeD + 1) in
     exists nodes',
       moveNode outline "C" "D" child append = (nodes', Returned true) /\
       findNodeById nodes' "D" = Some (setChildren t (children t ++ [moved])) /\
       parentId moved = Some "D" /\
       levelsFrom (level nodeD + 1) moved = true) /\
    (exists moved nodes',
       moveNode outline "C" "D" sibling after = (nodes', Returned true) /\
       id moved = "C" /\
       findNodeWithParent nodes' "D" = Some (t, pre ++ t :: moved :: post)).
Proof.
  apply (moveNode_places outline "C" "D" append nodeC nodeD).
  - discriminate.
  - reflexivity.
  - reflexivity.
  - reflexivity.
Defined.

(** ** Drag and drop, from the gesture to the move *)

(** Pointer events for the examples, and the state in which [C] has been
    pressed and moved over the card of [D]. *)
Definition pressAt (x y : Q) : pointerEvent :=
  mkPointer (double x) (double y) None.

Definition overD (x y : Q) : pointerEvent :=
  mkPointer (double x) (double y) (Some (Some "D", cardRows100to200)).

Definition pendingOverD : dragState :=
  onPointerMove outline nodeC (overD 300 150) (onPointerDown nodeC (pressAt 0 0) noDrag).

(** X12: a press on a card, any moves of the pointer and the release, for a
    card that is not a root's or when no drop intent is pending at the
    press (as after construction and after every release).  The release
    leaves no drag and no intent behind, and it sends at most one
    [reorder], which never runs into the missing guard of [moveNode]: when
    a [reorder] is sent, the card is not a root's, some move was more than
    8 pixels away from the press (as the handler computes the distance),
    and what is sent is the intent at the last move, a target that is
    neither the dragged node nor one of its descendants; the call of
    [moveNode] that follows returns, it returns [false] only with the
    forest untouched, the forest holds the same nodes afterwards, and a
    forest that satisfies the invariants still does.  A press on a root
    while an intent is pending is different: with a second pointer on the
    root [A] while [C] is held over [D], the release of [A] sends the
    pending intent, and [moveNode] is asked to put [A] below its own
    descendant [D], which exhausts the stack. *)
Theorem gesture_is_safe
    (nodes : forest) (node : MindMapNode) (s0 : dragState)
    (down : pointerEvent) (moves : list pointerEvent) :
  (parentId node = None -> dropIntended s0 = None) ->
  fst (dragGesture nodes node s0 down moves)
    = mkDrag None (clientX down) (clientY down) false None /\
  match snd (dragGesture nodes node s0 down moves) with
  | None => True
  | Some sent =>
      parentId node <> None /\
      (exists e, In e moves /\ farFrom down e) /\
      (exists front final intent,
         moves = front ++ [final] /\
         computeActiveDropIntent nodes (clientY final) (id node) (elementUnder final)
           = Some intent /\
         sent = (intentMode intent, intentTargetId intent)) /\
      snd sent <> id node /\
      isDescendant nodes (id node) (snd sent) = false /\
      (exists b, snd (reorder nodes node sent) = Returned b /\
                 (b = false -> fst (reorder nodes node sent) = nodes)) /\
      Permutation (proj content (fst (reorder nodes node sent))) (proj content nodes) /\
      (valid nodes -> valid (fst (reorder nodes node sent)))
  end /\
  dropIntended pendingOverD = Some (asChild, "D") /\
  snd (dragGesture outline nodeA pendingOverD (pressAt 0 0) [pressAt 50 50])
    = Some (asChild, "D") /\
  isDescendant outline "A" "D" = true /\
  snd (reorder outline nodeA (asChild, "D")) = StackOverflow.
Proof.
  intros Hclean. split; [now apply gesture_ends|].
  split; [|repeat split; vm_compute; reflexivity].
  destruct (snd (dragGesture nodes node s0 down moves)) as [sent|] eqn:Eg; [|exact I].
  destruct (gesture_sent _ _ _ _ Hclean _ _ Eg)
    as (Hroot & Hfar & front & final & intent & Emoves & Eintent & Esent).
  destruct (accepted_intent _ _ _ _ _ Eintent) as [Hdiff Hdesc].
  assert (Htid : snd sent = intentTargetId intent) by now rewrite Esent.
  split; [exact Hroot|]. split; [exact Hfar|].
  split; [now exists front, final, intent|].
  rewrite Htid. split; [congruence|]. split; [exact Hdesc|].
  unfold reorder. rewrite Htid.
  set (mode := fst (reorderOf (fst sent))). set (position := snd (reorderOf (fst sent))).
  assert (Hvalid : valid nodes ->
            valid (fst (moveNode nodes (id node) (intentTargetId intent) mode position))).
  { apply moveNode_valid. }
  destruct (in_dec string_dec (id node) (ids nodes)) as [Hsin|Hsout].
  2:{ rewrite (moveNode_no_source _ _ _ _ _ Hsout). cbn [fst snd].
      split; [exists false; auto|]. split; [reflexivity|auto]. }
  destruct (in_dec string_dec (intentTargetId intent) (ids nodes)) as [Htin|Htout].
  2:{ rewrite (moveNode_no_target _ _ _ _ _ Htout). cbn [fst snd].
      split; [exists false; auto|]. split; [reflexivity|auto]. }
  destruct (moveNode_outside_content nodes (id node) (intentTargetId intent)
              mode position Hdiff Hsin Htin
              (not_descendant_outside _ _ _ Hdiff Hsin Hdesc)) as [Hres Hperm].
  split; [exists true; split; [exact Hres|discriminate]|].
  split; [exact Hperm|exact Hvalid].
Qed.

Lemma gesture_is_safe_witness :
  snd (dragGesture outline nodeC noDrag (pressAt 0 0) [overD 300 150])
    = Some (asChild, "D") /\
  snd (reorder outline nodeC (asChild, "D")) = Returned true /\
  (fst (dragGesture outline nodeC noDrag (pressAt 0 0) [overD 300 150])
     = mkDrag None (clientX (pressAt 0 0)) (clientY (pressAt 0 0)) false None /\
   match snd (dragGesture outline nodeC noDrag (pressAt 0 0) [overD 300 150]) with
   | None => True
   | Some sent =>
       parentId nodeC <> None /\
       (exists e, In e [overD 300 150] /\ farFrom (pressAt 0 0) e) /\
       (exists front final intent,
          [overD 300 150] = front ++ [final] /\
          computeActiveDropIntent outline (clientY final) (id nodeC) (elementUnder final)
            = Some intent /\
          sent = (intentMode intent, intentTargetId intent)) /\
       snd sent <> id nodeC /\
       isDescendant outline (id nodeC) (snd sent) = false /\
       (exists b, snd (reorder outline nodeC sent) = Returned b /\
                  (b = false -> fst (reorder outline nodeC sent) = outline)) /\
       Permutation (proj content (fst (reorder outline nodeC sent))) (proj content outline) /\
       (valid outline -> valid (fst (reorder outline nodeC sent)))
   end /\
   dropIntended pendingOverD = Some (asChild, "D") /\
   snd (dragGesture outline nodeA pendingOverD (pressAt 0 0) [pressAt 50 50])
     = Some (asChild, "D") /\
   isDescendant outline "A" "D" = true /\
   snd (reorder outline nodeA (asChild, "D")) = StackOverflow).
Proof.
  split; [vm_compute; reflexivity|]. split; [vm_compute; reflexivity|].
  apply (gesture_is_safe outline nodeC noDrag (pressAt 0 0) [overD 300 150]).
  intros H. discriminate H.
Defined.

(** ** The handlers of the application *)

(** X13: the application's add-sibling action always creates exactly one
    node, with the generated identifier, an empty title and no children:
    a sibling behind the anchor, or a new root at the end of the root
    array when no node has the anchor's identifier.  With a new identifier
    the invariants of the forest are kept. *)
Theorem appAddSibling_creates (nodes : forest) (nodeId newId : string) :
  id (fst (appAddSibling nodes nodeId newId)) = newId /\
  title (fst (appAddSibling nodes nodeId newId)) = [] /\
  children (fst (appAddSibling nodes nodeId newId)) = [] /\
  List.length (flatten (snd (appAddSibling nodes nodeId newId)))
    = List.length (flatten nodes) + 1 /\
  In newId (ids (snd (appAddSibling nodes nodeId newId))) /\
  (findNodeById nodes nodeId = None ->
   appAddSibling nodes nodeId newId
   = (mkNode newId [] (Some []) [] 1 false None,
      nodes ++ [mkNode newId [] (Some []) [] 1 false None])) /\
  (valid nodes -> ~ In newId (ids nodes) ->
   valid (snd (appAddSibling nodes nodeId newId))).
Proof.
  assert (Hexpand : forall pid (l : forest),
            List.length (flatten (updNode pid (fun p => setCollapsed p false) l))
            = List.length (flatten l) /\
            (forall i, In i (ids l) ->
                       In i (ids (updNode pid (fun p => setCollapsed p false) l))) /\
            (valid l -> valid (updNode pid (fun p => setCollapsed p false) l))).
  { intros pid l. split; [|split].
    - destruct (in_dec string_dec pid (ids l)) as [Hin|Hout];
        [|now rewrite updNode_absent].
      destruct (located_exists _ _ Hin) as (c & a1 & t & a2 & L).
      rewrite (updNode_located _ _ _ _ _ _ _ L). destruct L as (-> & _).
      rewrite <- !(length_proj _ id).
      now rewrite (proj_update _ id id_children c a1 t (setCollapsed t false) a2).
    - intros i Hi.
      destruct (in_dec string_dec pid (ids l)) as [Hin|Hout];
        [|now rewrite updNode_absent].
      destruct (located_exists _ _ Hin) as (c & a1 & t & a2 & L).
      rewrite (updNode_located _ _ _ _ _ _ _ L). destruct L as (-> & _).
      rewrite ids_proj in *.
      now rewrite (proj_update _ id id_children c a1 t (setCollapsed t false) a2).
    - apply updNode_valid. intros n. repeat split. }
  unfold appAddSibling.
  destruct (addSiblingNode nodes nodeId [] newId) as [[created|] nodes1] eqn:Ea.
  - (* a sibling was created *)
    unfold addSiblingNode in Ea.
    fold (addSiblingFrom nodeId [] newId None nodes) in Ea.
    destruct (addSiblingFrom nodeId [] newId None nodes) as [[cr n1]|] eqn:Ef;
      [|discriminate].
    injection Ea as -> ->.
    assert (Hin : In nodeId (ids nodes)).
    { destruct (in_dec string_dec nodeId (ids nodes)) as [H|H]; [exact H|].
      now rewrite (addSiblingFrom_absent nodeId [] newId None nodes H) in Ef. }
    destruct (located_exists _ _ Hin) as (c & a1 & t & a2 & L).
    pose proof L as (En & Hid & Hc & Ha1). subst nodes.
    rewrite (addSiblingFrom_located nodeId a1 t a2 Hid Ha1 [] newId None c Hc) in Ef.
    cbv zeta in Ef. injection Ef as <- <-.
    set (created := mkNode newId [] (Some []) [] (level t) false (holeParent None c)).
    cbn [fst snd].
    assert (Hlen : List.length (flatten (fill c (a1 ++ t :: created :: a2)))
                   = List.length (flatten (fill c (a1 ++ t :: a2))) + 1).
    { rewrite <- !(length_proj _ id).
      replace (a1 ++ t :: created :: a2) with ((a1 ++ [t]) ++ created :: a2)
        by now rewrite <- app_assoc.
      rewrite (Permutation_length (proj_insert _ id id_children c (a1 ++ [t]) created a2)).
      rewrite <- app_assoc. cbn [app]. rewrite length_app.
      change (proj id [created]) with [newId]. cbn [List.length]. lia. }
    assert (Hnew : In newId (ids (fill c (a1 ++ t :: created :: a2)))).
    { change newId with (id created). apply in_ids_fill_any.
      apply in_or_app. right. right. now left. }
    assert (Hvalid : valid (fill c (a1 ++ t :: a2)) ->
                     ~ In newId (ids (fill c (a1 ++ t :: a2))) ->
                     valid (fill c (a1 ++ t :: created :: a2))).
    { intros Hv Hfresh.
      pose proof (addSiblingNode_valid _ nodeId [] newId Hv Hfresh) as H.
      unfold addSiblingNode in H.
      fold (addSiblingFrom nodeId [] newId None (fill c (a1 ++ t :: a2))) in H.
      rewrite (addSiblingFrom_located nodeId a1 t a2 Hid Ha1 [] newId None c Hc) in H.
      exact H. }
    do 3 (split; [reflexivity|]). split; [|split; [|split]].
    + destruct (truthy (parentId created)); [|exact Hlen].
      destruct (parentId created); [|exact Hlen].
      now rewrite (proj1 (Hexpand _ _)).
    + destruct (truthy (parentId created)); [|exact Hnew].
      destruct (parentId created); [|exact Hnew].
      now apply (proj1 (proj2 (Hexpand _ _))).
    + intros Hnone. exfalso.
      now rewrite (findNodeById_located nodeId a1 t a2 Hid Ha1 c Hc) in Hnone.
    + intros Hv Hfresh. specialize (Hvalid Hv Hfresh).
      destruct (truthy (parentId created)); [|exact Hvalid].
      destruct (parentId created); [|exact Hvalid].
      now apply (proj2 (proj2 (Hexpand _ _))).
  - (* no anchor: a new root *)
    unfold addSiblingNode in Ea.
    fold (addSiblingFrom nodeId [] newId None nodes) in Ea.
    destruct (addSiblingFrom nodeId [] newId None nodes) as [[cr n1]|] eqn:Ef;
      [discriminate|].
    injection Ea as <-. unfold addRootNode. cbn [fst snd parentId truthy id title children].
    do 3 (split; [reflexivity|]). split; [|split; [|split]].
    + rewrite flatten_app, length_app. reflexivity.
    + rewrite ids_app. apply in_or_app. right. now left.
    + reflexivity.
    + intros Hv Hfresh. exact (addRootNode_valid nodes [] newId Hv Hfresh).
Qed.

(** X14: expand-all and collapse-all write the flag of every node that has
    children and of no other node; identifiers, titles, descriptions,
    levels, [parentId]s and the shape of the forest stay as they are, so
    the serialized text is the same.  Doing it twice, or after the
    opposite action, gives the same forest as doing it once. *)
Theorem setAllCollapsed_flags (c : bool) (nodes : forest) :
  (forall n, In n (flatten (setAllCollapsed c nodes)) ->
             children n <> [] -> collapsed n = c) /\
  proj (fun n => (id n, title n, description n, level n, parentId n,
                  List.length (children n)))
       (setAllCollapsed c nodes)
  = proj (fun n => (id n, title n, description n, level n, parentId n,
                    List.length (children n)))
         nodes /\
  proj (fun n => match children n with [] => Some (collapsed n) | _ => None end)
       (setAllCollapsed c nodes)
  = proj (fun n => match children n with [] => Some (collapsed n) | _ => None end)
         nodes /\
  setAllCollapsed c (setAllCollapsed c nodes) = setAllCollapsed c nodes /\
  setAllCollapsed c (setAllCollapsed (negb c) nodes) = setAllCollapsed c nodes /\
  serialize (setAllCollapsed c nodes) = serialize nodes.
Proof.
  assert (Hproj : forall (A : Type) (g : MindMapNode -> A),
            (forall n, g (visitCollapsed c n) = g n) ->
            forall l : forest, proj g (setAllCollapsed c l) = proj g l).
  { intros A g Hg l. unfold setAllCollapsed.
    induction l as [|n rest IHk IHr] using forest_ind2; [reflexivity|].
    cbn [map]. rewrite !proj_cons, Hg, IHr. f_equal. f_equal.
    rewrite visitCollapsed_eq. destruct (children n) as [|k ks] eqn:Ek.
    - now rewrite Ek.
    - cbn [children]. exact IHk. }
  assert (Hkids : forall n, List.length (children (visitCollapsed c n))
                            = List.length (children n)).
  { intros n. rewrite visitCollapsed_eq. destruct (children n) eqn:Ek.
    - now rewrite Ek.
    - cbn [children]. now rewrite length_map. }
  assert (Htwice : forall c' (l : forest),
            setAllCollapsed c (setAllCollapsed c' l) = setAllCollapsed c l).
  { intros c' l. unfold setAllCollapsed.
    induction l as [|n rest IHk IHr] using forest_ind2; [reflexivity|].
    cbn [map]. rewrite IHr. f_equal.
    rewrite (visitCollapsed_eq c' n). destruct (children n) as [|k ks] eqn:Ek;
      [reflexivity|].
    rewrite (visitCollapsed_eq c). cbn [children map id title description level parentId].
    rewrite (visitCollapsed_eq c n), Ek. cbn [map].
    cbn [map] in IHk. injection IHk as -> ->. reflexivity. }
  split; [|split; [|split; [|split; [|split]]]].
  - unfold setAllCollapsed.
    induction nodes as [|n rest IHk IHr] using forest_ind2; [intros ? []|].
    intros m Hm Hne. cbn [map] in Hm. rewrite flatten_cons in Hm.
    destruct Hm as [<-|Hm].
    + rewrite visitCollapsed_eq in Hne |- *.
      destruct (children n) eqn:Ek; [now rewrite Ek in Hne|reflexivity].
    + apply in_app_or in Hm. destruct Hm as [Hm|Hm]; [|now apply IHr].
      rewrite visitCollapsed_eq in Hm. destruct (children n) eqn:Ek.
      * now rewrite Ek in Hm.
      * cbn [children] in Hm. now apply IHk.
  - apply Hproj. intros n. rewrite Hkids.
    rewrite visitCollapsed_eq. now destruct (children n).
  - apply Hproj. intros n. rewrite visitCollapsed_eq.
    destruct (children n) as [|k ks] eqn:Ek; [now rewrite Ek|reflexivity].
  - apply Htwice.
  - apply Htwice.
  - unfold serialize. rewrite !serialize_outline. unfold outlineOf.
    fold (proj info (setAllCollapsed c nodes)). fold (proj info nodes).
    rewrite Hproj; [reflexivity|].
    intros n. rewrite visitCollapsed_eq. now destruct (children n).
Qed.

(** ** [parse] and [serialize] *)

(** X15: a line is a heading exactly when it is made of one to six [#],
    then at least one white space character, then at least one character,
    with no line terminator after the white space.  The first group is the
    run of markers, and the title of the node (the trimmed second group) is
    what follows the markers, trimmed. *)
Theorem headingMatch_language (line : text) :
  match headingMatch line with
  | Some (hashes, rawTitle) =>
      exists ws rest,
        line = hashes ++ ws ++ rest /\
        hashes = repeat hash (List.length hashes) /\
        1 <= List.length hashes <= 6 /\
        ws <> [] /\ forallb isWhiteSpace ws = true /\
        rest <> [] /\ forallb isDot rest = true /\
        trim rawTitle = trim (ws ++ rest)
  | None =>
      forall k ws rest,
        1 <= k <= 6 ->
        ws <> [] -> forallb isWhiteSpace ws = true ->
        rest <> [] -> forallb isDot rest = true ->
        line <> repeat hash k ++ ws ++ rest
  end.
Proof.
  destruct (headingMatch line) as [[hashes rawTitle]|] eqn:E.
  - now apply headingMatch_sound.
  - intros k ws rest Hk Hne Hws Hrest Hdot ->.
    destruct (headingMatch_complete k ws rest Hk Hne Hws Hrest Hdot) as [t Ht].
    congruence.
Qed.

(** X16: in pre-order, the nodes that [parse] returns are the sections of
    the text: one node per heading line, with the marker count as level,
    the trimmed heading text as title and, as description, the lines up to
    the next heading that are not blank, joined by line feeds and trimmed
    ([undefined] when there is no such line).  What stands in front of the
    first heading is dropped.  The identifiers are the generated ones in
    document order, so they are distinct when the generated ones are. *)
Theorem parse_reads_sections (generateId : nat -> string) (markdown : text) :
  proj entry (parse generateId markdown)
    = entriesOf generateId 0 (sectionsOf markdown) /\
  ids (parse generateId markdown)
    = map generateId (seq 0 (List.length (sectionsOf markdown))) /\
  (NoDup (map generateId (seq 0 (List.length (sectionsOf markdown)))) ->
   uniqueIds (parse generateId markdown)).
Proof.
  split; [apply parse_sections|]. split; [apply parse_ids|].
  unfold uniqueIds. now rewrite parse_ids.
Qed.

(** A forest with titles and descriptions that [serialize] writes without
    loss: [Plan] with the children [First step] and [Second step]. *)
Definition planForest : forest :=
  [mkNode "p" (js "Plan") (Some (js "What we do" ++ newline :: js "and why")) 
     [mkNode "a" (js "First step") (Some []) [] 2 true (Some "p");
      mkNode "b" (js "Second step") None
        [mkNode "c" (js "#detail") (Some (js "#5 is open")) [] 3 false (Some "b")]
        2 false (Some "p")]
     1 false None].

(** X17: [parse] after [serialize] gives back the forest, up to what
    [parse] sets anew (identifiers, [collapsed], [parentId], and
    [undefined] for an empty description).  This holds for every forest
    whose levels are those of the data model (or, more generally, let the
    tree be read from the level sequence), whose levels are at most 6,
    whose titles are not empty, have no white space at their ends and no
    line terminator, and whose descriptions have no white space at their
    ends and no line that is blank or reads as a heading. *)
Theorem parse_serialize_roundtrip (generateId : nat -> string) (nodes : forest) :
  forallb printable (flatten nodes) = true ->
  levelsOk nodes = true \/ readable nodes = true ->
  map bare (parse generateId (serialize nodes)) = map bare nodes.
Proof.
  intros Hp Hr. apply parse_serialize_bare; [exact Hp|].
  destruct Hr as [Hl|Hr]; [now apply levelsOk_readable|exact Hr].
Qed.

Lemma parse_serialize_roundtrip_witness :
  map bare (parse twoIds (serialize planForest)) = map bare planForest.
Proof.
  apply (parse_serialize_roundtrip twoIds planForest).
  - vm_compute. reflexivity.
  - left. vm_compute. reflexivity.
Defined.

(** ** The renderer *)

(** X18: what [render] shows after expand-all and after collapse-all.
    After [setAllCollapsed(false)] every node of the forest has a wrapper,
    in pre-order; after [setAllCollapsed(true)] exactly the roots have one.
    In general every root has a wrapper, and every wrapper belongs to a
    node of the forest. *)
Theorem render_after_setAllCollapsed (nodes : forest) :
  renderedIds (render (setAllCollapsed false nodes)) = ids nodes /\
  renderedIds (render (setAllCollapsed true nodes)) = map id nodes /\
  incl (map id nodes) (renderedIds (render nodes)) /\
  incl (renderedIds (render nodes)) (ids nodes).
Proof.
  split; [apply renderedIds_expanded|]. split; [apply renderedIds_collapsed|].
  split; [apply renderedIds_roots|apply renderedIds_within].
Qed.

(** X19: on the elements that [render] builds, [normalizeAllLayouts]
    returns [true] exactly when some root has children and is not
    collapsed, whatever the browser measures.  So while such a root is
    shown and no drag is active, a layout check never settles early: it
    runs four frame callbacks (the first pass and three reruns) before the
    connections are drawn, whatever [validateSymmetry] finds; and when no
    root shows children, [validateSymmetry] alone decides. *)
Theorem layout_check_never_settles_early
    (heightOff : wrapperElement -> bool) (nodes : forest)
    (symmetryOff : nat -> bool) (extra : nat) :
  let facts k :=
    mkFacts false (normalizeAllLayouts heightOff (render nodes)) (symmetryOff k) in
  normalizeAllLayouts heightOff (render nodes) = existsb showsChildren nodes /\
  (existsb showsChildren nodes = true ->
   runFrames (4 + extra) facts 0 0 = Some (4, 0)) /\
  (existsb showsChildren nodes = false -> symmetryOff 0 = false ->
   runFrames (1 + extra) facts 0 0 = Some (1, 0)).
Proof.
  intros facts.
  assert (Hn : normalizeAllLayouts heightOff (render nodes) = existsb showsChildren nodes).
  { unfold normalizeAllLayouts. rewrite normalize_rendered. apply orb_false_r. }
  split; [exact Hn|]. subst facts. rewrite Hn. split.
  - intros ->. reflexivity.
  - intros -> H0. cbn [Nat.add runFrames onFrame dragActive layoutChanged needsFix orb].
    rewrite H0. reflexivity.
Qed.

(** X21: the connection lines of a parent meet.  When the window and the
    anchors of the child cards report finite numbers and there is at least
    one child card, the vertical trunk spans exactly from the least to the
    greatest snapped child center: both ends are centers of child cards and
    no child center lies outside them, so every child line starts on the
    trunk.  The trunk stands at the snapped smaller one of the snapped
    position 32 pixels right of the parent card and the snapped leftmost
    left edge of a child card. *)
Theorem trunk_reaches_children
    (devicePixelRatio parentAnchorX : number) (anchors : list (number * number)) :
  isFinite devicePixelRatio = true ->
  forallb (fun a => isFinite (fst a) && isFinite (snd a)) anchors = true ->
  anchors <> [] ->
  let dpr := if toBoolean devicePixelRatio then devicePixelRatio else double 1 in
  let centers := map (fun a => snap dpr (snd a)) anchors in
  let lefts := map (fun a => snap dpr (fst a)) anchors in
  exists t,
    trunkOf devicePixelRatio parentAnchorX anchors = Some t /\
    In (firstY t) centers /\ In (lastY t) centers /\
    (forall c, In c centers ->
       notNaN c = true /\ flt c (firstY t) = false /\ flt (lastY t) c = false) /\
    exists leftmost,
      In leftmost lefts /\
      (forall x, In x lefts -> notNaN x = true /\ flt x leftmost = false) /\
      trunkX t
      = snap dpr (mathMin (snap dpr (fadd (snap dpr parentAnchorX) (double 32)))
                          (snap dpr (fsub leftmost (double 0)))).
Proof.
  intros Hfin Hanchors Hne dpr centers lefts. unfold trunkOf. fold dpr.
  destruct (pixelRatio_usable devicePixelRatio Hfin) as (d & Ed & Hd). fold dpr in Ed.
  set (toRect := fun a : number * number =>
                   mkChildRect (snap dpr (snd a)) (snap dpr (fst a))).
  assert (Hsnap : forall v, isFinite v = true -> isDouble (snap dpr v)).
  { intros v Hv. rewrite Ed. apply snap_double; [exact Hd|]. now destruct v. }
  assert (Hfinite : forall a, In a anchors ->
            isFinite (fst a) = true /\ isFinite (snd a) = true).
  { intros a Ha. rewrite forallb_forall in Hanchors.
    now apply andb_prop, Hanchors. }
  assert (Ecenters : map rectCenterY (map toRect anchors) = centers)
    by now rewrite map_map.
  assert (Elefts : map rectLeftX (map toRect anchors) = lefts)
    by now rewrite map_map.
  assert (Hkeys : Forall (fun r => isDouble (rectCenterY r)) (map toRect anchors)).
  { rewrite Forall_forall. intros r Hr. apply in_map_iff in Hr.
    destruct Hr as (a & <- & Ha). apply Hsnap. now apply Hfinite. }
  assert (Hdl : Forall isDouble lefts).
  { rewrite Forall_forall. intros x Hx. apply in_map_iff in Hx.
    destruct Hx as (a & <- & Ha). apply Hsnap. now apply Hfinite. }
  destruct (map toRect anchors) as [|r rs] eqn:Er.
  { destruct anchors; [congruence|discriminate]. }
  cbv zeta. eexists. split; [reflexivity|]. cbn [trunkX firstY lastY].
  pose proof (sortWith_perm (fun a b => fsub (rectCenterY a) (rectCenterY b)) (r :: rs))
    as Hperm. fold (sortRects (r :: rs)) in Hperm.
  assert (Hsne : sortRects (r :: rs) <> []).
  { intros E. rewrite E in Hperm. now apply Permutation_nil in Hperm. }
  assert (Hskeys : Forall (fun r => isDouble (rectCenterY r)) (sortRects (r :: rs))).
  { rewrite Forall_forall in *. intros x Hx. apply Hkeys.
    now apply (Permutation_in _ Hperm). }
  pose proof (sortWith_sorted rectCenterY (r :: rs) Hkeys) as Hsorted.
  fold (sortRects (r :: rs)) in Hsorted.
  assert (Hin : forall x, In x (sortRects (r :: rs)) -> In (rectCenterY x) centers).
  { intros x Hx. rewrite <- Ecenters. apply in_map.
    now apply (Permutation_in _ Hperm). }
  split; [apply Hin, hd_in, Hsne|]. split; [apply Hin, last_in, Hsne|].
  split.
  - intros c Hc. rewrite <- Ecenters in Hc. apply in_map_iff in Hc.
    destruct Hc as (x & <- & Hx).
    apply (Permutation_in _ (Permutation_sym Hperm)) in Hx.
    destruct (sorted_ends rectCenterY _ Hskeys Hsorted r x Hx) as [Hlo Hhi].
    split; [|split; [exact Hlo|exact Hhi]].
    apply isDouble_notNaN. rewrite Forall_forall in Hskeys. now apply Hskeys.
  - rewrite Elefts.
    assert (Hlne : lefts <> []).
    { unfold lefts. destruct anchors; [congruence|discriminate]. }
    destruct (minOf_least lefts Hdl Hlne) as [Hmin Hleast].
    exists (minOf lefts). split; [exact Hmin|]. split; [|reflexivity].
    intros x Hx. split; [|now apply Hleast].
    apply isDouble_notNaN. rewrite Forall_forall in Hdl. now apply Hdl.
Qed.

Lemma trunk_reaches_children_witness :
  exists t,
    trunkOf (double 2) (double 100) [(double 140, double 50); (double 150.3, double 20.2)]
      = Some t /\
    t = mkTrunk (double 132) (double 20) (double 50) /\
    In (firstY t) [double 50; double 20] /\ In (lastY t) [double 50; double 20].
Proof.
  destruct (trunk_reaches_children (double 2) (double 100)
              [(double 140, double 50); (double 150.3, double 20.2)]
              eq_refl eq_refl ltac:(discriminate))
    as (t & Et & Hfirst & Hlast & _).
  exists t. split; [exact Et|].
  split; [vm_compute in Et; now injection Et as <-|].
  split; [exact Hfirst|exact Hlast].
Defined.

(** ** The view of the application *)


(** ** Ancestors *)

(** X23: in a forest without repeated identifiers, the renderer's
    [isDescendant(a, b)] holds exactly when [a] is the identifier of an
    ancestor of the node [b], that is, of an entry of the parser's
    [getParentChain] for [b]; no node is a descendant of itself. *)
Theorem isDescendant_is_ancestry (nodes : forest) (a b : string) :
  uniqueIds nodes ->
  In b (ids nodes) ->
  (isDescendant nodes a b = true <-> In a (map id (getParentChain nodes b))) /\
  isDescendant nodes b b = false.
Proof. exact (isDescendant_is_ancestry_aux nodes a b). Qed.

Lemma isDescendant_is_ancestry_witness :
  (isDescendant outline "A" "C" = true <-> In "A" (map id (getParentChain outline "C"))) /\
  isDescendant outline "C" "C" = false.
Proof.
  apply (isDescendant_is_ancestry outline "A" "C").
  - apply distinct_NoDup. reflexivity.
  - vm_compute. tauto.
Defined.

(** X24: the path that the application highlights.  Without a selection
    (or with the empty identifier) the set handed to [highlightPath] is
    empty; for an identifier that no node has (the selected node was
    deleted) it holds that identifier alone.  In a forest without repeated
    identifiers it holds the identifiers of the ancestors of the selected
    node, from its parent up to the root, and then the selected identifier
    itself, each once: an identifier is in the set exactly when it is the
    selected one or the selected node is a descendant of its node. *)
Theorem highlighted_path_is_ancestry (nodes : forest) (selectedId : string) :
  pathIds nodes None = [] /\
  pathIds nodes (Some EmptyString) = [] /\
  (selectedId <> EmptyString -> ~ In selectedId (ids nodes) ->
   pathIds nodes (Some selectedId) = [selectedId]) /\
  (selectedId <> EmptyString -> uniqueIds nodes -> In selectedId (ids nodes) ->
   pathIds nodes (Some selectedId)
     = map id (getParentChain nodes selectedId) ++ [selectedId] /\
   NoDup (pathIds nodes (Some selectedId)) /\
   (forall x, In x (pathIds nodes (Some selectedId)) <->
              x = selectedId \/ isDescendant nodes x selectedId = true)).
Proof.
  split; [reflexivity|]. split; [reflexivity|].
  assert (Hpath : selectedId <> EmptyString ->
                  pathIds nodes (Some selectedId)
                  = setOf (map id (getParentChain nodes selectedId) ++ [selectedId])).
  { intros Hne. unfold pathIds. destruct selectedId; [congruence|reflexivity]. }
  split.
  - intros Hne Hout. rewrite (Hpath Hne). unfold getParentChain.
    fold (findParentsFrom selectedId nodes []).
    now rewrite (findParentsFrom_absent selectedId nodes [] Hout).
  - intros Hne Hu Hsel.
    destruct (located_exists _ _ Hsel) as (c & a1 & t & a2 & L).
    pose proof (getParentChain_of_located _ _ _ _ _ _ L) as Hchain.
    pose proof L as (E & Hid & _).
    assert (Ht : In t (a1 ++ t :: a2)) by (apply in_or_app; right; now left).
    assert (Hnd : NoDup (map id (getParentChain nodes selectedId) ++ [selectedId])).
    { rewrite Hchain, map_rev, <- Hid. apply NoDup_rev_snoc.
      apply (proj2 (owners_inside c _ t Ht)). now rewrite <- E. }
    rewrite (Hpath Hne), (setOf_NoDup _ Hnd).
    split; [reflexivity|]. split; [exact Hnd|].
    intros x. rewrite in_app_iff.
    rewrite <- (proj1 (isDescendant_is_ancestry_aux nodes x selectedId Hu Hsel)).
    cbn [In]. intuition congruence.
Qed.

(** X25: the application's add-child action does nothing when no node has
    the identifier.  Otherwise it creates one node with the generated
    identifier and an empty title as the last child of the first node with
    the identifier, one level below it, and expands that node; with a new
    identifier the invariants of the forest are kept. *)
Theorem appAddChild_expands (nodes : forest) (nodeId newId : string) :
  match findNodeById nodes nodeId with
  | None => appAddChild nodes nodeId newId = (None, nodes)
  | Some x =>
      let created := mkNode newId [] (Some []) [] (level x + 1) false (Some nodeId) in
      exists nodes',
        appAddChild nodes nodeId newId = (Some created, nodes') /\
        findNodeById nodes' nodeId
          = Some (setCollapsed (setChildren x (children x ++ [created])) false) /\
        List.length (flatten nodes') = List.length (flatten nodes) + 1 /\
        (valid nodes -> ~ In newId (ids nodes) -> valid nodes')
  end.
Proof.
  unfold appAddChild.
  pose proof (addChildNode_valid nodes nodeId [] newId) as Hvalid.
  unfold addChildNode in *.
  destruct (findNodeById nodes nodeId) as [x|] eqn:E; [|reflexivity].
  destruct (located_of_found _ _ _ E) as (c & a1 & a2 & L).
  rewrite (updNode_located _ _ _ _ _ _ _ L) in *.
  pose proof L as (En & Hid & Hc & Ha1). rewrite Hid in *. cbv zeta.
  set (created := mkNode newId [] (Some []) [] (level x + 1) false (Some nodeId)) in *.
  assert (L' : located (fill c (a1 ++ push created x :: a2)) nodeId c a1
                       (push created x) a2).
  { now apply (located_update _ _ _ _ _ _ (push created) L). }
  rewrite (updNode_located _ _ _ _ _ _ _ L').
  eexists. split; [reflexivity|]. split; [|split].
  - apply (findNodeById_of_located _ _ c a1 _ a2).
    now apply (located_update _ _ _ _ _ _ (fun p => setCollapsed p false) L').
  - rewrite <- !(length_proj _ id).
    rewrite (proj_update _ id id_children c a1 (push created x)
               (setCollapsed (push created x) false) a2 eq_refl eq_refl).
    unfold push. rewrite <- fill_below.
    rewrite (Permutation_length
               (proj_insert _ id id_children (below c a1 x a2) (children x) created [])).
    rewrite app_nil_r, fill_below_same, En, length_app.
    change (proj id [created]) with [newId]. cbn [List.length]. lia.
  - intros Hv Hfresh. specialize (Hvalid Hv Hfresh). cbn [snd] in Hvalid.
    pose proof (updNode_valid nodeId (fun p => setCollapsed p false) _
                  (fun n => conj eq_refl (conj eq_refl (conj eq_refl eq_refl))) Hvalid)
      as H.
    now rewrite (updNode_located _ _ _ _ _ _ _ L') in H.
Qed.

(** X26: a text that [serialize] wrote is stable: parsing it and
    serializing the result gives the same text again.  This holds for
    every forest whose levels are between 1 and 6, whose titles are not
    empty, have no white space at their ends and no line terminator, and
    whose descriptions have no white space at their ends and no line that
    is blank or reads as a heading, whatever the shape of the forest. *)
Theorem serialize_is_stable (generateId : nat -> string) (nodes : forest) :
  forallb printable (flatten nodes) = true ->
  serialize (parse generateId (serialize nodes)) = serialize nodes.
Proof.
  intros Hp. apply serialize_slim. now apply parse_serialize_slim.
Qed.

Lemma serialize_is_stable_witness :
  serialize (parse twoIds (serialize planForest)) = serialize planForest.
Proof.
  apply (serialize_is_stable twoIds planForest). vm_compute. reflexivity.
Defined.

(** X27: an insertion can be taken back.  When the generated identifier is
    new, deleting it after [addSiblingNode], [addChildNode] or [addRootNode]
    gives back the forest as it was before the insertion.  The deletion
    returns [true] when a node was created, and [false] when none was (the
    target of the sibling or child was not found). *)
Theorem insertion_is_undone_by_delete
    (nodes : forest) (targetId : string) (ttl : text) (newId : string) :
  ~ In newId (ids nodes) ->
  deleteNode (snd (addSiblingNode nodes targetId ttl newId)) newId
    = (if in_dec string_dec targetId (ids nodes) then true else false, nodes) /\
  deleteNode (snd (addChildNode nodes targetId ttl newId)) newId
    = (if in_dec string_dec targetId (ids nodes) then true else false, nodes) /\
  deleteNode (snd (addRootNode nodes ttl newId)) newId = (true, nodes).
Proof.
  intros Hfresh. split; [|split].
  - unfold addSiblingNode. fold (addSiblingFrom targetId ttl newId None nodes).
    destruct (in_dec string_dec targetId (ids nodes)) as [Hin|Hout].
    + destruct (located_exists _ _ Hin) as (c & a1 & t & a2 & (E & Hid & Hc & Ha1)).
      subst nodes.
      rewrite (addSiblingFrom_located targetId a1 t a2 Hid Ha1 ttl newId None c Hc).
      cbv zeta. cbn [snd].
      set (created := mkNode newId ttl (Some []) [] (level t) false (holeParent None c)).
      destruct (fresh_clear _ _ _ Hfresh) as [Hclear Harr].
      replace (a1 ++ t :: created :: a2) with ((a1 ++ [t]) ++ created :: a2)
        by now rewrite <- app_assoc.
      rewrite (deleteNode_located newId _ c (a1 ++ [t]) created a2).
      * now rewrite <- app_assoc.
      * repeat split; auto. intros H. apply Harr.
        rewrite ids_app in *. apply in_app_or in H. apply in_or_app.
        destruct H as [H|H]; [now left|right].
        rewrite ids_cons in *. cbn [In] in *. destruct H as [H|H]; [now left|].
        right. apply in_or_app. left. rewrite ids_nil, app_nil_r in H. exact H.
    + rewrite (addSiblingFrom_absent targetId ttl newId None nodes Hout). cbn [snd].
      now apply deleteNode_absent.
  - unfold addChildNode.
    destruct (in_dec string_dec targetId (ids nodes)) as [Hin|Hout].
    + destruct (located_exists _ _ Hin) as (c & a1 & t & a2 & L).
      rewrite (findNodeById_of_located _ _ _ _ _ _ L). cbn [snd].
      rewrite (updNode_located _ _ _ _ _ _ _ L).
      destruct L as (E & Hid & Hc & Ha1). subst nodes.
      set (created := mkNode newId ttl (Some []) [] (level t + 1) false (Some (id t))).
      destruct (fresh_clear _ _ _ Hfresh) as [Hclear Harr].
      unfold push. rewrite <- fill_below.
      rewrite (deleteNode_located newId _ (below c a1 t a2) (children t) created []).
      * now rewrite app_nil_r, fill_below_same.
      * split; [reflexivity|]. split; [reflexivity|].
        apply not_in_ids_app in Harr. destruct Harr as [H1 H2].
        apply not_in_ids_cons in H2. destruct H2 as (Ht & Hk & H2).
        split; [|exact Hk].
        unfold below. apply clear_plug; [exact Hclear|].
        cbn [clear]. now repeat split.
    + rewrite (findNodeById_absent targetId nodes Hout). cbn [snd].
      now apply deleteNode_absent.
  - unfold addRootNode. cbn [snd].
    rewrite (deleteNode_located newId _ Here nodes
               (mkNode newId ttl (Some []) [] 1 false None) []).
    + cbn [fill]. now rewrite app_nil_r.
    + now repeat split.
Qed.

Lemma insertion_is_undone_by_delete_witness :
  deleteNode (snd (addSiblingNode outline "B" [] "N")) "N"
    = (if in_dec string_dec "B" (ids outline) then true else false, outline) /\
  deleteNode (snd (addChildNode outline "B" [] "N")) "N"
    = (if in_dec string_dec "B" (ids outline) then true else false, outline) /\
  deleteNode (snd (addRootNode outline [] "N")) "N" = (true, outline).
Proof.
  apply (insertion_is_undone_by_delete outline "B" [] "N").
  vm_compute. intuition discriminate.
Defined.
